(** * Spectral clustering visualizer: the clustering service, embedded in Rocq

    The development follows [src/services/clusteringService.ts] and the
    aggregation step of [App.tsx].  JavaScript numbers are IEEE 754 binary64
    values; they are modelled by their exact rational value together with an
    explicit round-to-nearest-even function, so that every arithmetic
    operation of the source is [rnd] applied to the exact result. *)

From Stdlib Require Import ZArith QArith Qround Qreduction Qpower Qabs.
From Stdlib Require Import Lia Lqa List String Ascii Bool Arith Sorted Permutation.
Import ListNotations.
Close Scope Q_scope.

(** ** JavaScript numbers *)

Module Num.
Local Open Scope Q_scope.

(** A binary64 value: not-a-number, an infinity with its sign, or a finite
    value.  The sign of zero is not recorded (the service never divides by a
    zero whose sign matters). *)
Inductive number : Type :=
| NaN : number
| Inf (negative : bool) : number
| Fin (q : Q) : number.

Definition pow2 (e : Z) : Q := (2 # 1) ^ e.

(** [ilog2 q] is the integer [j] with [2^j <= q < 2^(j+1)], for [q > 0]. *)
Definition ilog2 (q : Q) : Z :=
  let d := (Z.log2 (Qnum q) - Z.log2 (Zpos (Qden q)))%Z in
  if Qle_bool (pow2 d) q then d else (d - 1)%Z.

(** The exponent of the last place of a positive real in binary64:
    53 significant bits, and no exponent below that of the subnormals. *)
Definition cexp (q : Q) : Z := Z.max (ilog2 q - 52) (-1074).

(** Round to the nearest integer, ties to even. *)
Definition rne (q : Q) : Z :=
  let f := Qfloor q in
  match ((q - inject_Z f) ?= (1 # 2))%Q with
  | Lt => f
  | Gt => (f + 1)%Z
  | Eq => if Z.even f then f else (f + 1)%Z
  end.

Definition round_pos (q : Q) : number :=
  let e := cexp q in
  let v := inject_Z (rne (q / pow2 e)) * pow2 e in
  if Qle_bool (pow2 1024) v then Inf false else Fin (Qred v).

Definition neg (x : number) : number :=
  match x with
  | NaN => NaN
  | Inf s => Inf (negb s)
  | Fin q => Fin (- q)
  end.

(** [rnd q] is the binary64 value nearest to the real [q]. *)
Definition rnd (q : Q) : number :=
  match q ?= 0 with
  | Eq => Fin 0
  | Gt => round_pos q
  | Lt => neg (round_pos (- q))
  end.

(** A rational is a binary64 value when rounding leaves it unchanged. *)
Definition double (q : Q) : Prop := rnd q = Fin (Qred q).

(** A numeric literal of the source denotes the nearest binary64 value. *)
Definition lit (q : Q) : number := rnd q.

(** Array lengths and indices are integers below 2^32, all of which are
    binary64 values: they are embedded exactly. *)
Definition of_Z (z : Z) : number := Fin (inject_Z z).
Definition of_nat (n : nat) : number := of_Z (Z.of_nat n).

Definition isNaN (x : number) : bool :=
  match x with NaN => true | _ => false end.

Definition isFinite (x : number) : bool :=
  match x with Fin _ => true | _ => false end.

(** *** Arithmetic: the exact result, rounded *)

Definition add (x y : number) : number :=
  match x, y with
  | NaN, _ | _, NaN => NaN
  | Inf s, Inf t => if Bool.eqb s t then Inf s else NaN
  | Inf s, Fin _ => Inf s
  | Fin _, Inf t => Inf t
  | Fin a, Fin b => rnd (a + b)
  end.

Definition sub (x y : number) : number :=
  match x, y with
  | NaN, _ | _, NaN => NaN
  | Inf s, Inf t => if Bool.eqb s t then NaN else Inf s
  | Inf s, Fin _ => Inf s
  | Fin _, Inf t => Inf (negb t)
  | Fin a, Fin b => rnd (a - b)
  end.

Definition Qneg (q : Q) : bool :=
  match q ?= 0 with Lt => true | _ => false end.

Definition Qzero (q : Q) : bool :=
  match q ?= 0 with Eq => true | _ => false end.

Definition mul (x y : number) : number :=
  match x, y with
  | NaN, _ | _, NaN => NaN
  | Inf s, Inf t => Inf (xorb s t)
  | Inf s, Fin b => if Qzero b then NaN else Inf (xorb s (Qneg b))
  | Fin a, Inf t => if Qzero a then NaN else Inf (xorb (Qneg a) t)
  | Fin a, Fin b => rnd (a * b)
  end.

Definition div (x y : number) : number :=
  match x, y with
  | NaN, _ | _, NaN => NaN
  | Inf _, Inf _ => NaN
  | Inf s, Fin b => Inf (xorb s (Qneg b))
  | Fin _, Inf _ => Fin 0
  | Fin a, Fin b =>
      if Qzero b then (if Qzero a then NaN else Inf (Qneg a))
      else rnd (a / b)
  end.

(** *** Comparisons ([<], [>], [<=], [>=] of the source): false on NaN *)

Definition lt (x y : number) : bool :=
  match x, y with
  | NaN, _ | _, NaN => false
  | Inf s, Inf t => s && negb t
  | Inf s, Fin _ => s
  | Fin _, Inf t => negb t
  | Fin a, Fin b => match a ?= b with Lt => true | _ => false end
  end.

Definition gt (x y : number) : bool := lt y x.

Definition le (x y : number) : bool :=
  match x, y with
  | NaN, _ | _, NaN => false
  | Inf s, Inf t => s || negb t
  | Inf s, Fin _ => s
  | Fin _, Inf t => negb t
  | Fin a, Fin b => match a ?= b with Gt => false | _ => true end
  end.

Definition ge (x y : number) : bool := le y x.

(** *** The Math object *)

Definition Math_floor (x : number) : number :=
  match x with
  | Fin q => Fin (inject_Z (Qfloor q))
  | _ => x
  end.

Definition Math_min (x y : number) : number :=
  match x, y with
  | NaN, _ | _, NaN => NaN
  | _, _ => if lt y x then y else x
  end.

Definition Math_max (x y : number) : number :=
  match x, y with
  | NaN, _ | _, NaN => NaN
  | _, _ => if lt x y then y else x
  end.

(** The square root, correctly rounded: the integer nearest to
    [sqrt (q / 4^e)], ties to even, at the exponent [e] of the root. *)
Definition rne_sqrt (t : Q) : Z :=
  let f := Z.sqrt (Qfloor t) in
  let h := (inject_Z f + (1 # 2))%Q in
  match (t ?= h * h)%Q with
  | Lt => f
  | Gt => (f + 1)%Z
  | Eq => if Z.even f then f else (f + 1)%Z
  end.

Definition Math_sqrt (x : number) : number :=
  match x with
  | NaN => NaN
  | Inf true => NaN
  | Inf false => Inf false
  | Fin q =>
      match q ?= 0 with
      | Lt => NaN
      | Eq => Fin 0
      | Gt =>
          let e := Z.max (ilog2 q / 2 - 52) (-1074) in
          Fin (Qred (inject_Z (rne_sqrt (q / pow2 (2 * e))) * pow2 e))
      end
  end.

(** The order of the extended reals on numbers; nothing compares with NaN. *)
Definition num_le (x y : number) : Prop :=
  match x, y with
  | NaN, _ | _, NaN => False
  | Inf true, _ => True
  | _, Inf false => True
  | Fin a, Fin b => a <= b
  | _, _ => False
  end.

(** The significand and the value [round_pos] settles on. *)
Definition mant (q : Q) : Z := rne (q / pow2 (cexp q)).
Definition rval (q : Q) : Q := inject_Z (mant q) * pow2 (cexp q).

End Num.
Export Num.

(** ** JavaScript strings

    A string is a sequence of code units; the text of an uploaded file is
    taken in a one-byte encoding, so that a code unit is an [ascii]. *)

Module Str.
Local Open Scope string_scope.
Local Open Scope char_scope.

Definition code (c : ascii) : nat := nat_of_ascii c.

(** White space and line terminators, as [String.prototype.trim] and
    [parseFloat] strip them: TAB, LF, VT, FF, CR, SP and NBSP. *)
Definition is_white (c : ascii) : bool :=
  let n := code c in
  (((9 <=? n) && (n <=? 13)) || (n =? 32) || (n =? 160))%nat.

Definition is_digit (c : ascii) : bool :=
  let n := code c in ((48 <=? n) && (n <=? 57))%nat.

Definition digit_val (c : ascii) : Z := Z.of_nat (code c - 48).

Definition digit_char (d : Z) : ascii := ascii_of_nat (48 + Z.to_nat d).

(** [split sep s]: [s.split(sep)] for a one-character separator. *)
Fixpoint split (sep : ascii) (s : string) : list string :=
  match s with
  | EmptyString => [EmptyString]
  | String c rest =>
      if Ascii.eqb c sep then EmptyString :: split sep rest
      else match split sep rest with
           | [] => [String c EmptyString]
           | w :: ws => String c w :: ws
           end
  end.

Fixpoint trim_start (s : string) : string :=
  match s with
  | EmptyString => EmptyString
  | String c rest => if is_white c then trim_start rest else s
  end.

(** Drops trailing white space: a character stays when something that is not
    white space follows it or when it is not white space itself. *)
Fixpoint trim_end (s : string) : string :=
  match s with
  | EmptyString => EmptyString
  | String c rest =>
      match trim_end rest with
      | EmptyString => if is_white c then EmptyString else String c EmptyString
      | r => String c r
      end
  end.

Definition trim (s : string) : string := trim_end (trim_start s).

Definition is_empty (s : string) : bool :=
  match s with EmptyString => true | _ => false end.

(** The longest prefix of decimal digits, and what follows it. *)
Fixpoint span_digits (s : string) : list ascii * string :=
  match s with
  | EmptyString => ([], EmptyString)
  | String c rest =>
      if is_digit c then let (ds, r) := span_digits rest in (c :: ds, r)
      else ([], s)
  end.

Definition digits_value (ds : list ascii) : Z :=
  fold_left (fun acc c => (10 * acc + digit_val c)%Z) ds 0%Z.

Fixpoint digits_aux (fuel : nat) (n : Z) (acc : list ascii) : list ascii :=
  match fuel with
  | O => acc
  | S f =>
      let acc' := digit_char (n mod 10) :: acc in
      if (n / 10 =? 0)%Z then acc' else digits_aux f (n / 10) acc'
  end.

(** The decimal digits of a non-negative integer, without leading zeros
    (["0"] for zero). *)
Definition digits (n : Z) : list ascii :=
  digits_aux (S (Z.to_nat (Z.log2 n))) n [].

Definition of_chars (l : list ascii) : string := string_of_list_ascii l.

Definition nat_to_string (n : nat) : string := of_chars (digits (Z.of_nat n)).

(** [parseFloat]: leading white space is skipped, then the longest prefix
    that is a decimal literal is read; its value is rounded to binary64. *)
Definition parse_exponent (s : string) : Z :=
  match s with
  | String c rest =>
      if Ascii.eqb c "e" || Ascii.eqb c "E" then
        match rest with
        | String "+" r =>
            match span_digits r with ([], _) => 0 | (ds, _) => digits_value ds end
        | String "-" r =>
            match span_digits r with ([], _) => 0 | (ds, _) => - digits_value ds end
        | _ =>
            match span_digits rest with ([], _) => 0 | (ds, _) => digits_value ds end
        end%Z
      else 0%Z
  | EmptyString => 0%Z
  end.

Definition parse_unsigned (s : string) : number :=
  if prefix "Infinity" s then Inf false
  else
    let (ip, r1) := span_digits s in
    let (fp, r2) :=
      match r1 with
      | String "." r => span_digits r
      | _ => ([], r1)
      end in
    match (ip ++ fp)%list with
    | [] => NaN
    | ds =>
        rnd (inject_Z (digits_value ds)
             * (10 # 1) ^ (parse_exponent r2 - Z.of_nat (List.length fp)))%Q
    end.

Definition parseFloat (s : string) : number :=
  match trim_start s with
  | String "-" r => neg (parse_unsigned r)
  | String "+" r => parse_unsigned r
  | t => parse_unsigned t
  end.

End Str.
Export Str.

(** ** The run-time environment

    [Math.random()] reads the next value of a stream of draws; an exception
    ends the computation.  Functions of the run time that ECMAScript leaves
    to the implementation are parameters of the model: the approximations of
    the cosine and the sine, and the order in which [Array.prototype.sort]
    leaves the elements when the comparator is not consistent. *)

Inductive Error : Type :=
| TypeError : Error
| RangeError : Error
| Err (message : string) : Error.

Inductive outcome (A : Type) : Type :=
| Ok (a : A) : outcome A
| Throw (e : Error) : outcome A.
Arguments Ok {A} a.
Arguments Throw {A} e.

Definition Rng : Type := nat -> number.

Definition M (A : Type) : Type := Rng -> outcome A * Rng.

Definition ret {A : Type} (a : A) : M A := fun s => (Ok a, s).

Definition throw {A : Type} (e : Error) : M A := fun s => (Throw e, s).

Definition bind {A B : Type} (m : M A) (k : A -> M B) : M B :=
  fun s =>
    match m s with
    | (Ok a, s') => k a s'
    | (Throw e, s') => (Throw e, s')
    end.

Notation "x <- m ;; k" := (bind m (fun x => k))
  (at level 61, m at next level, right associativity).

Definition lift {A : Type} (o : outcome A) : M A := fun s => (o, s).

Definition Math_random : M number :=
  fun s => (Ok (s 0%nat), fun i => s (S i)).

Fixpoint forM {X A : Type} (l : list X) (f : X -> M A) : M (list A) :=
  match l with
  | [] => ret []
  | x :: l' => a <- f x ;; r <- forM l' f ;; ret (a :: r)
  end.

Fixpoint mapE {X A : Type} (f : X -> outcome A) (l : list X) : outcome (list A) :=
  match l with
  | [] => Ok []
  | x :: l' =>
      match f x with
      | Throw e => Throw e
      | Ok a => match mapE f l' with Throw e => Throw e | Ok r => Ok (a :: r) end
      end
  end.

(** The stable sort by a comparator: [a] goes after [b] exactly when
    [cmp a b] is positive.  For a consistent comparator this is the one
    result the language allows for [Array.prototype.sort]. *)
Fixpoint insert {A : Type} (cmp : A -> A -> number) (a : A) (l : list A) : list A :=
  match l with
  | [] => [a]
  | b :: l' => if gt (cmp a b) (lit 0) then b :: insert cmp a l' else a :: l
  end.

Definition sort {A : Type} (cmp : A -> A -> number) (l : list A) : list A :=
  fold_right (insert cmp) [] l.

(** The sign of a comparator's result; NaN has none. *)
Definition sign (v : number) : option comparison :=
  match v with
  | NaN => None
  | Inf negative => Some (if negative then Lt else Gt)
  | Fin q => Some (q ?= 0)%Q
  end.

(** A consistent comparator for the elements of [l], as the language defines
    it: the result is never NaN; every element is equal to itself; equality
    is symmetric and transitive; and so are "less" and "greater". *)
Definition consistent {A : Type} (cmp : A -> A -> number) (l : list A) : Prop :=
  forall a b c, In a l -> In b l -> In c l ->
    sign (cmp a b) <> None
    /\ sign (cmp a a) = Some Eq
    /\ (sign (cmp a b) = Some Eq -> sign (cmp b a) = Some Eq)
    /\ (sign (cmp a b) = Some Eq -> sign (cmp b c) = Some Eq -> sign (cmp a c) = Some Eq)
    /\ (sign (cmp a b) = Some Lt -> sign (cmp b c) = Some Lt -> sign (cmp a c) = Some Lt)
    /\ (sign (cmp a b) = Some Gt -> sign (cmp b c) = Some Gt -> sign (cmp a c) = Some Gt).

Record Builtins : Type := {
  (** [Math.cos] and [Math.sin] on a finite argument *)
  cos_approx : Q -> number;
  sin_approx : Q -> number;
  (** [Number::toString] of a value of magnitude 10^21 or more *)
  big_toString : Q -> string;
  (** [Array.prototype.sort]: the elements in some order, which is the order
      of the stable sort when the comparator is consistent for them and is
      left to the implementation when it is not *)
  Array_sort : forall A : Type, (A -> A -> number) -> list A -> list A;
  Array_sort_permutes :
    forall (A : Type) (cmp : A -> A -> number) (l : list A),
      Permutation (Array_sort A cmp l) l;
  Array_sort_consistent :
    forall (A : Type) (cmp : A -> A -> number) (l : list A),
      consistent cmp l -> Array_sort A cmp l = sort cmp l
}.
Arguments Array_sort B {A} cmp l : rename.

Definition Math_cos (B : Builtins) (x : number) : number :=
  match x with Fin q => cos_approx B q | _ => NaN end.

Definition Math_sin (B : Builtins) (x : number) : number :=
  match x with Fin q => sin_approx B q | _ => NaN end.

(** [Math.pow(b, 2)], the only exponent of the service. *)
Definition Math_pow2 (b : number) : number :=
  match b with
  | NaN => NaN
  | Inf _ => Inf false
  | Fin q => rnd (q * q)
  end.

Definition Math_PI : number := lit (884279719003555 # 281474976710656).

(** The number of iterations of [for (let i = 0; i < bound; i++)]. *)
Definition loop_count (bound : number) : nat :=
  match bound with
  | Fin q => Z.to_nat (Qceiling q)
  | _ => 0%nat
  end.

(** The index a number denotes as a property key of an array, if any. *)
Definition array_index (n : number) : option nat :=
  match n with
  | Fin q =>
      if Qeq_bool q (inject_Z (Qfloor q)) && (0 <=? Qfloor q)%Z
      then Some (Z.to_nat (Qfloor q)) else None
  | _ => None
  end.

Definition get {A : Type} (l : list A) (n : number) : option A :=
  match array_index n with
  | Some i => nth_error l i
  | None => None
  end.

(** [ToLength]: NaN and what is below 1 give 0; a fraction is dropped; the
    result is at most 2^53 - 1. *)
Definition ToLength (x : number) : Z :=
  match x with
  | NaN => 0
  | Inf negative => if negative then 0 else 2 ^ 53 - 1
  | Fin q => Z.min (Z.max 0 (Qfloor q)) (2 ^ 53 - 1)
  end.

(** [Array.from({ length: k }, f)]: an array of [ToLength(k)] elements is
    created, a RangeError when that is 2^32 or more; then [f] is called for
    the indices below the length, in order. *)
Definition Array_from {A : Type} (k : number) (f : nat -> M A) : M (list A) :=
  let len := ToLength k in
  if (len <? 2 ^ 32)%Z then forM (seq 0 (Z.to_nat len)) f else throw RangeError.

(** [points.push(p)]: the array is one element longer; a RangeError when its
    length would reach 2^32. *)
Definition push {A : Type} (points : list A) (p : A) : M (list A) :=
  if (Z.of_nat (List.length points) + 1 <? 2 ^ 32)%Z then ret (points ++ [p])%list
  else throw RangeError.

(** A [for] loop whose body updates a variable: the body is run for each
    value of the counter in turn. *)
Fixpoint for_each {X A : Type} (l : list X) (body : X -> A -> M A) (acc : A) : M A :=
  match l with
  | [] => ret acc
  | x :: l' => a <- body x acc ;; for_each l' body a
  end.

(** A JavaScript array has fewer than 2^32 elements. *)
Definition array_sized {A : Type} (l : list A) : Prop :=
  (Z.of_nat (List.length l) < 2 ^ 32)%Z.

(** [Number.prototype.toFixed] *)
Definition pad_zeros (f : nat) (m : list ascii) : list ascii :=
  (repeat "0"%char (S f - List.length m) ++ m)%list.

Definition toFixed (B : Builtins) (x : number) (f : nat) : string :=
  match x with
  | NaN => "NaN"
  | Inf false => "Infinity"
  | Inf true => "-Infinity"
  | Fin q =>
      let s := if Qneg q then "-"%string else ""%string in
      let a := (if Qneg q then - q else q)%Q in
      if Qle_bool ((10 # 1) ^ 21) a then (s ++ big_toString B a)%string
      else
        let n := Qfloor (a * (10 # 1) ^ (Z.of_nat f) + (1 # 2))%Q in
        let m := digits n in
        match f with
        | O => (s ++ of_chars m)%string
        | _ =>
            let m := pad_zeros f m in
            let k := List.length m in
            (s ++ of_chars (firstn (k - f) m) ++ "." ++ of_chars (skipn (k - f) m))%string
        end
  end.

(** ** The data model ([types.ts]) *)

Inductive jsval : Type :=
| JUndefined : jsval
| JNum (n : number) : jsval.

Definition ToNumber (v : jsval) : number :=
  match v with JUndefined => NaN | JNum n => n end.

Record Point : Type := mkPoint {
  p_x : jsval;
  p_y : jsval;
  p_cluster : jsval
}.

Record Metrics : Type := mkMetrics {
  silhouette : number;
  calinskiHarabasz : number;
  daviesBouldin : number
}.

Inductive LinkageType : Type := ward | complete | average | single.

Inductive DatasetType : Type := Moons | Blobs | Circles | Custom.

Inductive Params : Type :=
| ClusterParams (n_clusters : number) : Params
| AggloParams (n_clusters : number) (linkage : LinkageType) : Params
| DbscanParams (eps : number) : Params.

Record ClusterResult : Type := mkResult {
  algorithm : string;
  data : list Point;
  metrics : Metrics;
  params : Params
}.

Record AlgorithmParameters : Type := mkParameters {
  spectral : number;
  kmeans : number;
  agglomerative : number * LinkageType;
  dbscan : number
}.

(** [{ x, y }] and [{ ...point, cluster }] *)
Definition point (vx vy : number) : Point := mkPoint (JNum vx) (JNum vy) JUndefined.

Definition with_cluster (p : Point) (c : number) : Point :=
  mkPoint (p_x p) (p_y p) (JNum c).

(** ** The clustering service ([services/clusteringService.ts]) *)

Section Service.
Context (B : Builtins).

(** *** Dataset generation *)

(** [(Math.random() - 0.5) * noise * 2] *)
Definition jitter (r noise : number) : number :=
  mul (mul (sub r (lit (1 # 2))) noise) (lit 2).

Definition generateMoons (n_samples : nat) (noise : number) : M (list Point) :=
  let points := [] in
  let n_samples_out := Math_floor (div (of_nat n_samples) (lit 2)) in
  let n_samples_in := sub (of_nat n_samples) n_samples_out in
  points <- for_each (seq 0 (loop_count n_samples_out)) (fun i points =>
    let angle := mul (div (of_nat i) (sub n_samples_out (lit 1))) Math_PI in
    r1 <- Math_random ;;
    let x := add (Math_cos B angle) (jitter r1 noise) in
    r2 <- Math_random ;;
    let y := add (Math_sin B angle) (jitter r2 noise) in
    push points (point x y)) points ;;
  points <- for_each (seq 0 (loop_count n_samples_in)) (fun i points =>
    let angle := mul (div (of_nat i) (sub n_samples_in (lit 1))) Math_PI in
    r1 <- Math_random ;;
    let x := add (sub (lit 1) (Math_cos B angle)) (jitter r1 noise) in
    r2 <- Math_random ;;
    let y := add (sub (lit (1 # 2)) (Math_sin B angle)) (jitter r2 noise) in
    push points (point x y)) points ;;
  ret points.

Definition generateBlobs (n_samples : nat) (centers : nat) (cluster_std : number)
  : M (list Point) :=
  let points := [] in
  centerPoints <- Array_from (of_nat centers) (fun _ =>
    r1 <- Math_random ;;
    r2 <- Math_random ;;
    ret (point (mul (sub r1 (lit (1 # 2))) (lit 8)) (mul (sub r2 (lit (1 # 2))) (lit 8)))) ;;
  for_each (seq 0 n_samples) (fun i points =>
    match (if (centers =? 0)%nat then None else nth_error centerPoints (i mod centers)) with
    | None => throw TypeError
    | Some center =>
        r1 <- Math_random ;;
        let x := add (ToNumber (p_x center)) (mul (mul (sub r1 (lit (1 # 2))) (lit 2)) cluster_std) in
        r2 <- Math_random ;;
        let y := add (ToNumber (p_y center)) (mul (mul (sub r2 (lit (1 # 2))) (lit 2)) cluster_std) in
        push points (point x y)
    end) points.

Definition generateCircles (n_samples : nat) (factor noise : number) : M (list Point) :=
  let points := [] in
  for_each (seq 0 n_samples) (fun i points =>
    let is_outer := ge (of_nat i) (div (of_nat n_samples) (lit 2)) in
    let r := if is_outer then lit 1 else factor in
    a <- Math_random ;;
    let angle := mul (mul a (lit 2)) Math_PI in
    r1 <- Math_random ;;
    let x := add (mul r (Math_cos B angle)) (jitter r1 noise) in
    r2 <- Math_random ;;
    let y := add (mul r (Math_sin B angle)) (jitter r2 noise) in
    push points (point x y)) points.

Definition generateDataset (type : DatasetType) (n_samples : nat) : M (list Point) :=
  match type with
  | Moons => generateMoons n_samples (lit (8 # 100))
  | Blobs => generateBlobs n_samples 3 (lit (1 # 2))
  | Circles => generateCircles n_samples (lit (1 # 2)) (lit (5 # 100))
  | Custom => ret []
  end.

(** *** Mock assignment *)

Fixpoint mapi_from {A C : Type} (i : nat) (f : A -> nat -> C) (l : list A) : list C :=
  match l with
  | [] => []
  | a :: l' => f a i :: mapi_from (S i) f l'
  end.

Definition mapi {A C : Type} (f : A -> nat -> C) (l : list A) : list C := mapi_from 0 f l.

Definition compare_x (a b : Point) : number := sub (ToNumber (p_x a)) (ToNumber (p_x b)).

Definition split_cluster (k : number) (totalPoints index : nat) : number :=
  Math_min (sub k (lit 1))
           (Math_floor (mul (div (of_nat index) (of_nat totalPoints)) k)).

Definition assignClustersByXSplit (data : list Point) (k : number) : list Point :=
  if (List.length data =? 0)%nat || le k (lit 0) then []
  else
    let sortedData := Array_sort B compare_x data in
    let totalPoints := List.length sortedData in
    mapi (fun point index => with_cluster point (split_cluster k totalPoints index)) sortedData.

Definition distance (point mean : Point) : number :=
  Math_sqrt (add (Math_pow2 (sub (ToNumber (p_x point)) (ToNumber (p_x mean))))
                 (Math_pow2 (sub (ToNumber (p_y point)) (ToNumber (p_y mean))))).

(** The [forEach] over the centroids: the state is
    [(closestMeanIndex, minDistance)]; reading [mean.x] of a missing centroid
    is a TypeError. *)
Fixpoint closest (point : Point) (means : list (option Point)) (index : nat)
  (st : nat * number) : outcome (nat * number) :=
  match means with
  | [] => Ok st
  | None :: _ => Throw TypeError
  | Some mean :: rest =>
      let d := distance point mean in
      closest point rest (S index) (if lt d (snd st) then (index, d) else st)
  end.

Definition assignClustersByCentroids (data : list Point) (k : number) : M (list Point) :=
  if (List.length data =? 0)%nat || le k (lit 0) then ret []
  else
    means <- Array_from k (fun _ =>
      r <- Math_random ;;
      ret (get data (Math_floor (mul r (of_nat (List.length data)))))) ;;
    lift (mapE (fun point =>
      match closest point means 0 (0%nat, Inf false) with
      | Throw e => Throw e
      | Ok (closestMeanIndex, _) => Ok (with_cluster point (of_nat closestMeanIndex))
      end) data).

(** *** Mock metrics *)

Definition round3 (x : number) : number := parseFloat (toFixed B x 3).

Definition generateMockMetrics (data : list Point) : M Metrics :=
  r1 <- Math_random ;;
  let silhouette := sub (mul r1 (lit (16 # 10))) (lit (6 # 10)) in
  r2 <- Math_random ;;
  let calinskiHarabasz := add (mul r2 (lit 500)) (lit 50) in
  r3 <- Math_random ;;
  let daviesBouldin := add (mul r3 (lit (15 # 10))) (lit (3 # 10)) in
  ret (mkMetrics (round3 silhouette) (round3 calinskiHarabasz) (round3 daviesBouldin)).

(** *** The four runs *)

Definition half_split (data : list Point) : list Point :=
  let n_samples_out := Math_floor (div (of_nat (List.length data)) (lit 2)) in
  mapi (fun p index => with_cluster p (if lt (of_nat index) n_samples_out then lit 0 else lit 1)) data.

Definition radius_split (data : list Point) : list Point :=
  let radius_threshold := lit (75 # 100) in
  map (fun p =>
    let dist := Math_sqrt (add (mul (ToNumber (p_x p)) (ToNumber (p_x p)))
                               (mul (ToNumber (p_y p)) (ToNumber (p_y p)))) in
    with_cluster p (if gt dist radius_threshold then lit 0 else lit 1)) data.

Definition runSpectralClustering (data : list Point) (n_clusters : number)
  (datasetType : DatasetType) : M ClusterResult :=
  clusteredData <-
    match datasetType with
    | Moons => ret (half_split data)
    | Circles => ret (radius_split data)
    | _ => assignClustersByCentroids data n_clusters
    end ;;
  m <- generateMockMetrics clusteredData ;;
  ret (mkResult "Spectral Clustering" clusteredData m (ClusterParams n_clusters)).

Definition runKMeans (data : list Point) (n_clusters : number) (datasetType : DatasetType)
  : M ClusterResult :=
  clusteredData <-
    match datasetType with
    | Moons | Circles => ret (assignClustersByXSplit data n_clusters)
    | _ => assignClustersByCentroids data n_clusters
    end ;;
  m <- generateMockMetrics clusteredData ;;
  ret (mkResult "K-Means" clusteredData m (ClusterParams n_clusters)).

Definition runAgglomerativeClustering (data : list Point) (p : number * LinkageType)
  (datasetType : DatasetType) : M ClusterResult :=
  clusteredData <-
    match datasetType with
    | Moons | Circles => ret (assignClustersByXSplit data (fst p))
    | _ => assignClustersByCentroids data (fst p)
    end ;;
  m <- generateMockMetrics clusteredData ;;
  ret (mkResult "Agglomerative Clustering" clusteredData m (AggloParams (fst p) (snd p))).

Fixpoint set_cluster (i : nat) (c : number) (l : list Point) : list Point :=
  match l, i with
  | [], _ => []
  | p :: l', O => with_cluster p c :: l'
  | p :: l', S i' => p :: set_cluster i' c l'
  end.

(** The loop that marks [noiseCount] randomly chosen positions as noise;
    writing [cluster] of a missing element is a TypeError. *)
Fixpoint mark_noise (noiseCount : nat) (clusteredData : list Point) : M (list Point) :=
  match noiseCount with
  | O => ret clusteredData
  | S n =>
      r <- Math_random ;;
      let randomIndex := Math_floor (mul r (of_nat (List.length clusteredData))) in
      match array_index randomIndex with
      | None => throw TypeError
      | Some i =>
          if (i <? List.length clusteredData)%nat
          then mark_noise n (set_cluster i (lit (-1)) clusteredData)
          else throw TypeError
      end
  end.

Definition runDBSCAN (data : list Point) (eps : number) (datasetType : DatasetType)
  : M ClusterResult :=
  clusteredData <-
    match datasetType with
    | Moons => ret (half_split data)
    | Circles => ret (radius_split data)
    | _ =>
        let k := lit 3 in
        clusteredData <- assignClustersByCentroids data k ;;
        let noiseCount := Math_floor (mul (of_nat (List.length data)) (lit (5 # 100))) in
        mark_noise (loop_count noiseCount) clusteredData
    end ;;
  m <- generateMockMetrics clusteredData ;;
  ret (mkResult "DBSCAN" clusteredData m (DbscanParams eps)).

(** *** CSV parsing *)

Definition row_point (row : list number) : Point :=
  mkPoint (match nth_error row 0 with Some v => JNum v | None => JUndefined end)
          (match nth_error row 1 with Some v => JNum v | None => JUndefined end)
          JUndefined.

Definition numeric_row (dropLastColumn : bool) (row : string) : option (list number) :=
  let values := map (fun v => parseFloat (trim v)) (split "," row) in
  let values := if dropLastColumn then removelast values else values in
  if forallb (fun v => negb (isNaN v)) values then Some values else None.

Fixpoint filter_some {A : Type} (l : list (option A)) : list A :=
  match l with
  | [] => []
  | Some a :: l' => a :: filter_some l'
  | None :: l' => filter_some l'
  end.

Definition header_error : string :=
  "CSV file must contain a header and at least one data row.".

Definition no_rows_error : string :=
  "No valid numeric data rows found in the CSV file.".

Definition features_error (numFeatures : nat) : string :=
  ("The processed data has only " ++ nat_to_string numFeatures
   ++ " feature(s). At least two are required for 2D visualization.")%string.

Definition features_warning (numFeatures : nat) : string :=
  ("Dataset has " ++ nat_to_string numFeatures
   ++ " features. Simulating dimensionality reduction (like PCA or t-SNE) by using the first two features for visualization.")%string.

(** The non-blank lines of the text, and the rows of numbers that survive
    among the lines after the header. *)
Definition csv_rows (text : string) : list string :=
  filter (fun row => negb (is_empty (trim row))) (split "010" text).

Definition numeric_rows (text : string) (dropLastColumn : bool) : list (list number) :=
  filter_some (map (numeric_row dropLastColumn) (tl (csv_rows text))).

(** [parseCSV] on the text of the file: the outcome of the promise and what
    was written to the console. *)
Definition parseCSV (text : string) (dropLastColumn : bool)
  : outcome (list Point) * list string :=
  let rows := csv_rows text in
  if (List.length rows <? 2)%nat then (Throw (Err header_error), [])
  else
    let numericData := numeric_rows text dropLastColumn in
    match numericData with
    | [] => (Throw (Err no_rows_error), [])
    | first :: _ =>
        let numFeatures := List.length first in
        if (numFeatures <? 2)%nat then (Throw (Err (features_error numFeatures)), [])
        else
          (Ok (map row_point numericData),
           if (2 <? numFeatures)%nat then [features_warning numFeatures] else [])
    end.

(** *** The aggregation step of [runAnalysis] ([App.tsx]) *)

Definition max_metrics (acc : Metrics) (result : ClusterResult) : Metrics :=
  mkMetrics (Math_max (silhouette acc) (silhouette (metrics result)))
            (Math_max (calinskiHarabasz acc) (calinskiHarabasz (metrics result)))
            (Math_max (daviesBouldin acc) (daviesBouldin (metrics result))).

Definition load_error : string :=
  "Could not load or generate data. Please select a valid dataset or upload a valid CSV file.".

Definition runAnalysis (currentData : list Point) (p : AlgorithmParameters)
  (datasetType : DatasetType) : M (list ClusterResult * Metrics) :=
  if (List.length currentData =? 0)%nat then throw (Err load_error)
  else
    r1 <- runSpectralClustering currentData (spectral p) datasetType ;;
    r2 <- runKMeans currentData (kmeans p) datasetType ;;
    r3 <- runAgglomerativeClustering currentData (agglomerative p) datasetType ;;
    r4 <- runDBSCAN currentData (dbscan p) datasetType ;;
    let results := [r1; r2; r3; r4] in
    let maxes := fold_left max_metrics results
                   (mkMetrics (Inf true) (Inf true) (Inf true)) in
    ret (results, maxes).

End Service.

Example rnd_tenth : rnd (1 # 10) = Fin (3602879701896397 # 36028797018963968)%Q.
Proof. vm_compute. reflexivity. Qed.

Example div_mul_49 :
  mul (div (of_Z 1) (of_Z 49)) (of_Z 49) = Fin (9007199254740991 # 9007199254740992)%Q.
Proof. vm_compute. reflexivity. Qed.

Example sqrt_2 : Math_sqrt (of_Z 2) = Fin (6369051672525773 # 4503599627370496)%Q.
Proof. vm_compute. reflexivity. Qed.

Example split_lines : split "010" "a
b

c" = ["a"; "b"; ""; "c"]%string.
Proof. reflexivity. Qed.

Example trim_ex : trim "  1.5 	" = "1.5"%string.
Proof. reflexivity. Qed.

Example parseFloat_ex1 : parseFloat " 1.5e1abc" = Fin 15%Q.
Proof. vm_compute. reflexivity. Qed.

Example parseFloat_ex2 : parseFloat "-.5" = Fin (-1 # 2)%Q.
Proof. vm_compute. reflexivity. Qed.

Example parseFloat_ex3 : parseFloat "abc" = NaN /\ parseFloat "" = NaN /\ parseFloat "." = NaN.
Proof. vm_compute. auto. Qed.

Example parseFloat_ex4 : parseFloat "0.1" = rnd (1 # 10) /\ parseFloat "1e400" = Inf false.
Proof. vm_compute. auto. Qed.

Example nat_to_string_ex : nat_to_string 1203 = "1203"%string /\ nat_to_string 0 = "0"%string.
Proof. vm_compute. auto. Qed.

Lemma insert_perm {A : Type} (cmp : A -> A -> number) (a : A) (l : list A) :
  Permutation (insert cmp a l) (a :: l).
Proof.
  induction l as [|b l IH]; cbn [insert]; [reflexivity|].
  destruct (gt (cmp a b) (lit 0%Q)); [|reflexivity].
  rewrite IH. apply perm_swap.
Qed.

Lemma sort_perm {A : Type} (cmp : A -> A -> number) (l : list A) :
  Permutation (sort cmp l) l.
Proof.
  induction l as [|a l IH]; cbn [sort fold_right]; [reflexivity|].
  fold (sort cmp l). rewrite insert_perm, IH. reflexivity.
Qed.

(** A run time for the examples: its sort is the stable sort whatever the
    comparator. *)
Definition B0 : Builtins :=
  {| cos_approx := fun _ => Fin 1%Q; sin_approx := fun _ => Fin 0%Q;
     big_toString := fun _ => "1e+21"%string;
     Array_sort := @sort;
     Array_sort_permutes := @sort_perm;
     Array_sort_consistent := fun A cmp l _ => eq_refl |}.

Example toFixed_ex :
  toFixed B0 (Fin (1234567 # 1000000)%Q) 3 = "1.235"%string
  /\ toFixed B0 (Fin (-5 # 10000)%Q) 3 = "-0.001"%string
  /\ toFixed B0 (Fin (-4 # 10000)%Q) 3 = "-0.000"%string
  /\ toFixed B0 (lit (1005 # 1000)%Q) 3 = "1.005"%string
  /\ toFixed B0 (Fin 12%Q) 0 = "12"%string.
Proof. vm_compute. auto 6. Qed.

Example parseCSV_spec_example :
  parseCSV "h1,h2
1.0,2.0
3.0,4.0" false
  = (Ok [point (Fin 1%Q) (Fin 2%Q); point (Fin 3%Q) (Fin 4%Q)], []).
Proof. vm_compute. reflexivity. Qed.

(** ** Facts about rounding *)

Section Rounding.
Local Open Scope Q_scope.

Lemma pow2_pos e : 0 < pow2 e.
Proof. apply Qpower_0_lt. reflexivity. Qed.

Lemma pow2_add a b : pow2 (a + b) == pow2 a * pow2 b.
Proof. apply Qpower_plus. discriminate. Qed.

Lemma pow2_le a b : (a <= b)%Z -> pow2 a <= pow2 b.
Proof. intros. apply Qpower_le_compat_l; [assumption | discriminate]. Qed.

Lemma pow2_lt a b : (a < b)%Z -> pow2 a < pow2 b.
Proof. intros. apply Qpower_lt_compat_l; [assumption | reflexivity]. Qed.

Lemma pow2_lt_inv a b : pow2 a < pow2 b -> (a < b)%Z.
Proof. intros. eapply Qpower_lt_compat_l_inv; [eassumption | reflexivity]. Qed.

Lemma pow2_le_inv a b : pow2 a <= pow2 b -> (a <= b)%Z.
Proof. intros. eapply Qpower_le_compat_l_inv; [eassumption | reflexivity]. Qed.

Lemma pow2_Z n : (0 <= n)%Z -> inject_Z (2 ^ n) == pow2 n.
Proof. intros. apply Zpower_Qpower. assumption. Qed.

Lemma pow2_sub a b : pow2 (a - b) == pow2 a / pow2 b.
Proof.
  unfold Qdiv. rewrite <- (Qmult_1_r (pow2 (a - b))).
  rewrite <- (Qmult_inv_r (pow2 b)) by (pose proof (pow2_pos b); lra).
  rewrite Qmult_assoc, <- pow2_add. replace (a - b + b)%Z with a by lia. reflexivity.
Qed.


Lemma ilog2_spec q : 0 < q -> pow2 (ilog2 q) <= q /\ q < pow2 (ilog2 q + 1).
Proof.
  intros Hq. destruct q as [a b].
  assert (Ha : (0 < a)%Z) by (unfold Qlt in Hq; simpl in Hq; lia).
  unfold ilog2. cbn [Qnum Qden].
  set (la := Z.log2 a). set (lb := Z.log2 (Z.pos b)).
  destruct (Z.log2_spec a Ha) as [Ha1 Ha2].
  destruct (Z.log2_spec (Z.pos b) (Pos2Z.is_pos b)) as [Hb1 Hb2].
  fold la in Ha1, Ha2. fold lb in Hb1, Hb2.
  assert (Hla : (0 <= la)%Z) by apply Z.log2_nonneg.
  assert (Hlb : (0 <= lb)%Z) by apply Z.log2_nonneg.
  assert (Eq : a # b == inject_Z a / inject_Z (Z.pos b)) by apply Qmake_Qdiv.
  set (A := inject_Z a) in *. set (B := inject_Z (Z.pos b)) in *.
  assert (HB : 0 < B) by (unfold B; change 0 with (inject_Z 0); rewrite <- Zlt_Qlt; lia).
  assert (EqM : (a # b) * B == A) by (rewrite Eq; field; lra).
  assert (A1 : pow2 la <= A) by (rewrite <- pow2_Z by lia; unfold A; rewrite <- Zle_Qle; lia).
  assert (A2 : A < pow2 (la + 1)) by (rewrite <- pow2_Z by lia; unfold A; rewrite <- Zlt_Qlt; lia).
  assert (B1 : pow2 lb <= B) by (rewrite <- pow2_Z by lia; unfold B; rewrite <- Zle_Qle; lia).
  assert (B2 : B < pow2 (lb + 1)) by (rewrite <- pow2_Z by lia; unfold B; rewrite <- Zlt_Qlt; lia).
  set (q := a # b) in *. clearbody q A B.
  destruct (Qle_bool (pow2 (la - lb)) q) eqn:E.
  - apply Qle_bool_iff in E. split; [assumption|].
    assert (P : pow2 (la + 1) == pow2 (la - lb + 1) * pow2 lb)
      by (rewrite <- pow2_add; replace (la - lb + 1 + lb)%Z with (la + 1)%Z by lia; reflexivity).
    pose proof (pow2_pos (la - lb + 1)). pose proof (pow2_pos lb).
    nra.
  - assert (E' : q < pow2 (la - lb)).
    { apply Qnot_le_lt. intro H. apply Qle_bool_iff in H. congruence. }
    replace (la - lb - 1 + 1)%Z with (la - lb)%Z by lia. split; [|assumption].
    assert (P : pow2 la == pow2 (la - lb - 1) * pow2 (lb + 1))
      by (rewrite <- pow2_add; replace (la - lb - 1 + (lb + 1))%Z with la by lia; reflexivity).
    pose proof (pow2_pos (la - lb - 1)). pose proof (pow2_pos (lb + 1)).
    nra.
Qed.

Lemma ilog2_unique q j : pow2 j <= q -> q < pow2 (j + 1) -> ilog2 q = j.
Proof.
  intros H1 H2.
  assert (Hq : 0 < q) by (pose proof (pow2_pos j); lra).
  destruct (ilog2_spec q Hq) as [H3 H4].
  assert (j < ilog2 q + 1)%Z by (apply pow2_lt_inv; lra).
  assert (ilog2 q < j + 1)%Z by (apply pow2_lt_inv; lra).
  lia.
Qed.

Lemma ilog2_le p q : 0 < p -> p <= q -> (ilog2 p <= ilog2 q)%Z.
Proof.
  intros Hp Hpq.
  destruct (ilog2_spec p Hp) as [H1 _].
  destruct (ilog2_spec q ltac:(lra)) as [_ H2].
  assert (ilog2 p < ilog2 q + 1)%Z by (apply pow2_lt_inv; lra).
  lia.
Qed.

Lemma rne_cases q :
  let f := Qfloor q in
  (q - inject_Z f < 1 # 2 /\ rne q = f) \/
  (1 # 2 < q - inject_Z f /\ rne q = (f + 1)%Z) \/
  (q - inject_Z f == 1 # 2 /\ rne q = if Z.even f then f else (f + 1)%Z).
Proof.
  intros f. unfold rne. fold f.
  destruct (Qcompare_spec (q - inject_Z f) (1 # 2)) as [H|H|H]; auto.
Qed.

Lemma Qfloor_bounds q : inject_Z (Qfloor q) <= q /\ q < inject_Z (Qfloor q) + 1.
Proof.
  split; [apply Qfloor_le|].
  pose proof (Qlt_floor q) as H. rewrite inject_Z_plus in H. exact H.
Qed.

Lemma rne_near q : q - (1 # 2) <= inject_Z (rne q) /\ inject_Z (rne q) <= q + (1 # 2).
Proof.
  pose proof (Qfloor_bounds q) as [F1 F2].
  destruct (rne_cases q) as [[H E]|[[H E]|[H E]]]; rewrite E.
  - lra.
  - rewrite inject_Z_plus. change (inject_Z 1) with 1. lra.
  - destruct (Z.even (Qfloor q)).
    + lra.
    + rewrite inject_Z_plus. change (inject_Z 1) with 1. lra.
Qed.

Lemma rne_Z z : rne (inject_Z z) = z.
Proof.
  destruct (rne_cases (inject_Z z)) as [[H E]|[[H E]|[H E]]];
    rewrite Qfloor_Z in *; try assumption.
  - lra.
  - lra.
Qed.

Lemma rne_comp p q : p == q -> rne p = rne q.
Proof.
  intros H. unfold rne. rewrite (Qfloor_comp _ _ H).
  assert (E : (p - inject_Z (Qfloor q) ?= 1 # 2) = (q - inject_Z (Qfloor q) ?= 1 # 2)).
  { apply Qcompare_comp; [rewrite H|]; reflexivity. }
  rewrite E. reflexivity.
Qed.

Lemma rne_le p q : p <= q -> (rne p <= rne q)%Z.
Proof.
  intros Hpq.
  pose proof (Qfloor_resp_le _ _ Hpq) as Hf.
  pose proof (Qfloor_bounds p) as [P1 P2]. pose proof (Qfloor_bounds q) as [Q1 Q2].
  destruct (Z.eq_dec (Qfloor p) (Qfloor q)) as [Ef|Nf].
  - destruct (rne_cases p) as [[H E]|[[H E]|[H E]]];
    destruct (rne_cases q) as [[H' E']|[[H' E']|[H' E']]];
    rewrite E, E'; rewrite Ef in *; try lia; try lra;
    destruct (Z.even (Qfloor q)); lia.
  - assert (Qfloor p + 1 <= Qfloor q)%Z by lia.
    assert (rne p <= Qfloor p + 1)%Z.
    { destruct (rne_cases p) as [[H' E]|[[H' E]|[H' E]]]; rewrite E; try lia.
      destruct (Z.even (Qfloor p)); lia. }
    assert (Qfloor q <= rne q)%Z.
    { destruct (rne_cases q) as [[H' E]|[[H' E]|[H' E]]]; rewrite E; try lia.
      destruct (Z.even (Qfloor q)); lia. }
    lia.
Qed.

Lemma rne_nonneg q : 0 <= q -> (0 <= rne q)%Z.
Proof. intros H. rewrite <- (rne_Z 0). apply rne_le. exact H. Qed.

Lemma round_pos_rval q :
  round_pos q = if Qle_bool (pow2 1024) (rval q) then Inf false else Fin (Qred (rval q)).
Proof. reflexivity. Qed.

Lemma Qdiv_pow2 x e : x / pow2 e == x * pow2 (- e).
Proof. unfold Qdiv, pow2. rewrite Qpower_opp. reflexivity. Qed.

Lemma pow2_opp_mul e : pow2 e * pow2 (- e) == 1.
Proof. rewrite <- pow2_add. replace (e + - e)%Z with 0%Z by lia. reflexivity. Qed.

Lemma cexp_le p q : 0 < p -> p <= q -> (cexp p <= cexp q)%Z.
Proof. intros Hp Hpq. unfold cexp. pose proof (ilog2_le p q Hp Hpq). lia. Qed.

Lemma cexp_comp p q : 0 < p -> p == q -> cexp p = cexp q.
Proof.
  intros Hp E. unfold cexp. f_equal. f_equal.
  destruct (ilog2_spec p Hp) as [H1 H2].
  symmetry. apply ilog2_unique; rewrite <- E; assumption.
Qed.

Lemma Qdiv_le_pow2 p q e : p <= q -> p / pow2 e <= q / pow2 e.
Proof.
  intros H. rewrite !Qdiv_pow2. pose proof (pow2_pos (- e)). nra.
Qed.

Lemma mant_lower q : 0 < q -> (-1074 < cexp q)%Z -> (2 ^ 52 <= mant q)%Z.
Proof.
  intros Hq He. unfold mant.
  rewrite <- (rne_Z (2 ^ 52)). apply rne_le.
  rewrite pow2_Z by lia.
  assert (E : cexp q = (ilog2 q - 52)%Z) by (unfold cexp in *; lia).
  destruct (ilog2_spec q Hq) as [H1 _].
  rewrite Qdiv_pow2.
  assert (P : pow2 (ilog2 q) == pow2 52 * pow2 (cexp q))
    by (rewrite <- pow2_add, E; replace (52 + (ilog2 q - 52))%Z with (ilog2 q) by lia; reflexivity).
  pose proof (pow2_opp_mul (cexp q)).
  pose proof (pow2_pos (cexp q)). pose proof (pow2_pos (- cexp q)). pose proof (pow2_pos 52).
  assert (T : pow2 52 * pow2 (cexp q) * pow2 (- cexp q) <= q * pow2 (- cexp q)).
  { apply Qmult_le_compat_r; [rewrite <- P; exact H1 | apply Qlt_le_weak; assumption]. }
  rewrite <- Qmult_assoc, H, Qmult_1_r in T. exact T.
Qed.

Lemma mant_upper q : 0 < q -> (mant q <= 2 ^ 53)%Z.
Proof.
  intros Hq. unfold mant.
  rewrite <- (rne_Z (2 ^ 53)). apply rne_le.
  rewrite pow2_Z by lia.
  destruct (ilog2_spec q Hq) as [_ H2].
  assert (L : pow2 (ilog2 q + 1) <= pow2 (53 + cexp q)) by (apply pow2_le; unfold cexp; lia).
  rewrite (pow2_add 53) in L.
  rewrite Qdiv_pow2.
  pose proof (pow2_opp_mul (cexp q)).
  pose proof (pow2_pos (cexp q)). pose proof (pow2_pos (- cexp q)). pose proof (pow2_pos 53).
  assert (T : q * pow2 (- cexp q) <= pow2 53 * pow2 (cexp q) * pow2 (- cexp q)).
  { apply Qmult_le_compat_r; [|apply Qlt_le_weak; assumption].
    apply Qlt_le_weak. eapply Qlt_le_trans; eassumption. }
  rewrite <- Qmult_assoc, H, Qmult_1_r in T. exact T.
Qed.

Lemma mant_nonneg q : 0 < q -> (0 <= mant q)%Z.
Proof.
  intros Hq. apply rne_nonneg. rewrite Qdiv_pow2.
  pose proof (pow2_pos (- cexp q)). nra.
Qed.

Lemma rval_nonneg q : 0 < q -> 0 <= rval q.
Proof.
  intros Hq. unfold rval. pose proof (mant_nonneg q Hq) as H.
  rewrite Zle_Qle in H. change (inject_Z 0) with 0 in H.
  pose proof (pow2_pos (cexp q)). nra.
Qed.

Lemma rval_le p q : 0 < p -> p <= q -> rval p <= rval q.
Proof.
  intros Hp Hpq. assert (Hq : 0 < q) by lra.
  pose proof (cexp_le p q Hp Hpq) as He.
  destruct (Z.eq_dec (cexp p) (cexp q)) as [E|N].
  - unfold rval, mant. rewrite E.
    pose proof (rne_le _ _ (Qdiv_le_pow2 p q (cexp q) Hpq)) as H.
    rewrite Zle_Qle in H. change (inject_Z 0) with 0 in H.
  pose proof (pow2_pos (cexp q)). nra.
  - assert (L : (-1074 < cexp q)%Z) by (unfold cexp in *; lia).
    pose proof (mant_lower q Hq L) as M2. pose proof (mant_upper p Hp) as M1.
    pose proof (mant_nonneg p Hp) as M0.
    rewrite Zle_Qle in M1, M2, M0. rewrite pow2_Z in M1, M2 by lia.
    unfold rval.
    assert (P : pow2 53 * pow2 (cexp p) <= pow2 52 * pow2 (cexp q)).
    { rewrite <- !pow2_add. apply pow2_le. lia. }
    pose proof (pow2_pos (cexp p)). pose proof (pow2_pos (cexp q)).
    change (inject_Z 0) with 0 in M0.
    nra.
Qed.

Lemma mant_comp p q : 0 < p -> p == q -> mant p = mant q.
Proof.
  intros Hp E. unfold mant. rewrite (cexp_comp p q Hp E).
  apply rne_comp. rewrite E. reflexivity.
Qed.

Lemma rval_comp p q : 0 < p -> p == q -> rval p == rval q.
Proof.
  intros Hp E. unfold rval. rewrite (mant_comp p q Hp E), (cexp_comp p q Hp E). reflexivity.
Qed.

Lemma round_pos_comp p q : 0 < p -> p == q -> round_pos p = round_pos q.
Proof.
  intros Hp E. rewrite !round_pos_rval.
  pose proof (rval_comp p q Hp E) as R.
  rewrite (Qleb_comp _ _ (Qeq_refl (pow2 1024)) _ _ R).
  rewrite (Qred_complete _ _ R). reflexivity.
Qed.

Lemma rnd_comp p q : p == q -> rnd p = rnd q.
Proof.
  intros E. unfold rnd.
  rewrite (Qcompare_comp p q E 0 0 (Qeq_refl 0)).
  destruct (Qcompare_spec q 0) as [H|H|H].
  - reflexivity.
  - f_equal. apply round_pos_comp; [rewrite E; lra | rewrite E; reflexivity].
  - apply round_pos_comp; [rewrite E; lra | exact E].
Qed.

Lemma round_pos_shape q :
  0 < q -> round_pos q = Inf false \/ exists v, round_pos q = Fin v /\ 0 <= v /\ v == rval q.
Proof.
  intros Hq. rewrite round_pos_rval.
  destruct (Qle_bool (pow2 1024) (rval q)); [left; reflexivity|].
  right. exists (Qred (rval q)). split; [reflexivity|].
  rewrite Qred_correct. split; [apply rval_nonneg; assumption | reflexivity].
Qed.

Lemma round_pos_le p q : 0 < p -> p <= q -> num_le (round_pos p) (round_pos q).
Proof.
  intros Hp Hpq. pose proof (rval_le p q Hp Hpq) as R.
  rewrite !round_pos_rval.
  destruct (Qle_bool (pow2 1024) (rval p)) eqn:Ep;
  destruct (Qle_bool (pow2 1024) (rval q)) eqn:Eq; unfold num_le; auto.
  - apply Qle_bool_iff in Ep.
    assert (F : Qle_bool (pow2 1024) (rval q) = true) by (apply Qle_bool_iff; lra).
    congruence.
  - apply (proj2 (Qred_le _ _)). exact R.
Qed.

Lemma num_le_neg x y : num_le x y -> num_le (neg y) (neg x).
Proof.
  destruct x as [|[|]|a], y as [|[|]|b]; simpl; auto. intros. lra.
Qed.

Lemma num_le_trans x y z : num_le x y -> num_le y z -> num_le x z.
Proof.
  destruct x as [|[|]|a], y as [|[|]|b], z as [|[|]|c]; simpl; auto; try tauto.
  intros. lra.
Qed.

Lemma round_pos_nonneg q : 0 < q -> num_le (Fin 0) (round_pos q).
Proof.
  intros Hq. destruct (round_pos_shape q Hq) as [E|[v [E [H _]]]]; rewrite E; simpl; auto.
Qed.

Theorem rnd_le p q : p <= q -> num_le (rnd p) (rnd q).
Proof.
  intros Hpq. unfold rnd.
  destruct (Qcompare_spec p 0) as [Hp|Hp|Hp];
  destruct (Qcompare_spec q 0) as [Hq|Hq|Hq]; try lra.
  - simpl. lra.
  - apply round_pos_nonneg. assumption.
  - change (Fin 0) with (neg (Fin 0)). apply num_le_neg. apply round_pos_nonneg. lra.
  - apply num_le_neg. apply round_pos_le; lra.
  - apply num_le_trans with (Fin 0).
    + change (Fin 0) with (neg (Fin 0)). apply num_le_neg. apply round_pos_nonneg. lra.
    + apply round_pos_nonneg. assumption.
  - apply round_pos_le; lra.
Qed.

Lemma rnd_not_NaN q : rnd q <> NaN.
Proof.
  unfold rnd. destruct (Qcompare_spec q 0) as [H|H|H]; try discriminate.
  - destruct (round_pos_shape (- q)) as [E|[v [E _]]]; [lra| |]; rewrite E; discriminate.
  - destruct (round_pos_shape q H) as [E|[v [E _]]]; rewrite E; discriminate.
Qed.

Lemma rnd_nonneg q : 0 <= q -> num_le (Fin 0) (rnd q).
Proof.
  intros H. change (Fin 0) with (rnd 0). apply rnd_le. exact H.
Qed.


Lemma rne_char x z : inject_Z z - (1 # 2) < x -> x < inject_Z z + (1 # 2) -> rne x = z.
Proof.
  intros H1 H2. destruct (rne_near x) as [N1 N2].
  assert (A : inject_Z (rne x) < inject_Z z + 1) by lra.
  assert (B : inject_Z z < inject_Z (rne x) + 1) by lra.
  change 1 with (inject_Z 1) in A, B. rewrite <- inject_Z_plus in A, B.
  rewrite <- Zlt_Qlt in A, B. lia.
Qed.

Lemma double_pos_rval q : 0 < q -> double q -> rval q == q /\ rval q < pow2 1024.
Proof.
  intros Hq D. unfold double, rnd in D.
  destruct (Qcompare_spec q 0) as [H|H|H]; try lra.
  rewrite round_pos_rval in D.
  destruct (Qle_bool (pow2 1024) (rval q)) eqn:E; [discriminate|].
  apply (f_equal (fun x => match x with Fin v => v | _ => 0 end)) in D.
  cbv beta iota in D. apply Qred_eq_iff in D. split; [exact D|].
  apply Qnot_le_lt. intro L. apply Qle_bool_iff in L. congruence.
Qed.

Lemma rnd_exact_pos N e :
  (0 < N < 2 ^ 53)%Z -> (-1074 <= e)%Z -> inject_Z N * pow2 e < pow2 1024 ->
  rnd (inject_Z N * pow2 e) = Fin (Qred (inject_Z N * pow2 e)).
Proof.
  intros HN He Hov. set (q := inject_Z N * pow2 e).
  assert (N0 : 0 < inject_Z N) by (change 0 with (inject_Z 0); rewrite <- Zlt_Qlt; lia).
  assert (N1 : inject_Z N < pow2 53) by (rewrite <- pow2_Z by lia; rewrite <- Zlt_Qlt; lia).
  pose proof (pow2_pos e) as Pe.
  assert (Hq : 0 < q) by (unfold q; nra).
  assert (Hc : (cexp q <= e)%Z).
  { destruct (ilog2_spec q Hq) as [L _].
    assert (U : q < pow2 (53 + e)) by (rewrite pow2_add; unfold q; nra).
    assert (ilog2 q < 53 + e)%Z by (apply pow2_lt_inv; lra).
    unfold cexp. lia. }
  assert (M : mant q = (N * 2 ^ (e - cexp q))%Z).
  { unfold mant. rewrite <- (rne_Z (N * 2 ^ (e - cexp q))). apply rne_comp.
    rewrite inject_Z_mult, pow2_Z by lia. unfold q. rewrite Qdiv_pow2.
    rewrite <- Qmult_assoc, <- pow2_add. replace (e + - cexp q)%Z with (e - cexp q)%Z by lia.
    reflexivity. }
  assert (R : rval q == q).
  { unfold rval. rewrite M, inject_Z_mult, pow2_Z by lia.
    rewrite <- Qmult_assoc, <- pow2_add. replace (e - cexp q + cexp q)%Z with e by lia.
    reflexivity. }
  unfold rnd. destruct (Qcompare_spec q 0) as [H|H|H]; try lra.
  rewrite round_pos_rval.
  assert (F : Qle_bool (pow2 1024) (rval q) = false).
  { destruct (Qle_bool (pow2 1024) (rval q)) eqn:E; [|reflexivity].
    apply Qle_bool_iff in E. fold q in Hov. lra. }
  rewrite F. f_equal. apply Qred_complete. exact R.
Qed.

Lemma double_lt_one r : double r -> 0 <= r -> r < 1 -> r <= 1 - pow2 (-53).
Proof.
  intros D H0 H1.
  assert (P : pow2 (-53) <= 1 # 2) by (vm_compute; discriminate).
  destruct (Qlt_le_dec r (1 # 2)) as [Hs|Hl]; [lra|].
  assert (Hr : 0 < r) by lra.
  destruct (double_pos_rval r Hr D) as [R _].
  assert (I : ilog2 r = (-1)%Z).
  { apply ilog2_unique; [change (pow2 (-1)) with (1 # 2) | change (pow2 (-1 + 1)) with 1]; lra. }
  assert (C : cexp r = (-53)%Z) by (unfold cexp; rewrite I; reflexivity).
  unfold rval in R. rewrite C in R.
  assert (M : (mant r < 2 ^ 53)%Z).
  { rewrite Zlt_Qlt, pow2_Z by lia.
    assert (E : pow2 53 * pow2 (-53) == 1) by reflexivity.
    pose proof (pow2_pos (-53)). pose proof (pow2_pos 53).
    apply Qnot_le_lt. intro L.
    assert (pow2 53 * pow2 (-53) <= inject_Z (mant r) * pow2 (-53)) by (apply Qmult_le_compat_r; lra).
    lra. }
  assert (M' : (mant r + 1 <= 2 ^ 53)%Z) by lia.
  rewrite Zle_Qle, inject_Z_plus, pow2_Z in M' by lia. change (inject_Z 1) with 1 in M'.
  assert (E : pow2 53 * pow2 (-53) == 1) by reflexivity.
  pose proof (pow2_pos (-53)).
  assert (T : (inject_Z (mant r) + 1) * pow2 (-53) <= pow2 53 * pow2 (-53))
    by (apply Qmult_le_compat_r; lra).
  lra.
Qed.

Lemma rnd_scale_below q :
  double q -> 1 <= q -> exists w, rnd ((1 - pow2 (-53)) * q) = Fin w /\ 0 <= w /\ w < q.
Proof.
  intros D H1. assert (Hq : 0 < q) by lra.
  destruct (double_pos_rval q Hq D) as [R Hov]. rewrite R in Hov.
  destruct (ilog2_spec q Hq) as [L U].
  assert (I : (0 <= ilog2 q)%Z).
  { assert (0 < ilog2 q + 1)%Z by (apply pow2_lt_inv; change (pow2 0) with 1; lra). lia. }
  assert (C : cexp q = (ilog2 q - 52)%Z) by (unfold cexp; lia).
  assert (Ml : (2 ^ 52 <= mant q)%Z) by (apply mant_lower; [assumption | lia]).
  pose proof (mant_upper q Hq) as Mu.
  unfold rval in R. set (M := mant q) in *. set (e := cexp q) in *.
  pose proof (pow2_pos e) as Pe.
  assert (E1 : pow2 (ilog2 q) == pow2 52 * pow2 e)
    by (rewrite <- pow2_add; replace (52 + e)%Z with (ilog2 q) by lia; reflexivity).
  assert (E2 : pow2 (ilog2 q + 1) == pow2 53 * pow2 e)
    by (rewrite <- pow2_add; replace (53 + e)%Z with (ilog2 q + 1)%Z by lia; reflexivity).
  assert (Mu' : (M < 2 ^ 53)%Z).
  { destruct (Z.eq_dec M (2 ^ 53)) as [Em|]; [|lia].
    rewrite Em, pow2_Z in R by lia. lra. }
  set (d := pow2 (-53)).
  assert (D53 : pow2 53 * d == 1) by reflexivity.
  assert (D52 : pow2 52 * d == 1 # 2) by reflexivity.
  assert (Dpos : 0 < d) by apply pow2_pos.
  assert (Dlt : d < 1) by reflexivity.
  assert (Ml' := Ml). assert (Mu'' := Mu').
  rewrite Zle_Qle, pow2_Z in Ml' by lia. rewrite Zlt_Qlt, pow2_Z in Mu'' by lia.
  set (Mq := inject_Z M) in *.
  assert (P52 : 0 < pow2 52) by apply pow2_pos.
  destruct (Z.eq_dec M (2 ^ 52)) as [Em|Nm].
  - (* the significand is a power of two: the product falls in the binade below *)
    assert (Ew : (1 - d) * q == inject_Z (2 ^ 53 - 1) * pow2 (e - 1)).
    { rewrite <- R. unfold Mq. rewrite Em. rewrite pow2_Z by lia.
      replace (e - 1)%Z with (e + (-1))%Z by lia. rewrite pow2_add.
      change (pow2 (-1)) with (1 # 2). change (inject_Z (2 ^ 53 - 1)) with (pow2 53 - 1).
      assert (pow2 53 == 2 * pow2 52) by reflexivity. nra. }
    exists (Qred (inject_Z (2 ^ 53 - 1) * pow2 (e - 1))). split.
    + rewrite (rnd_comp _ _ Ew). apply rnd_exact_pos; [lia | lia |].
      rewrite <- Ew. nra.
    + rewrite Qred_correct, <- Ew. split; nra.
  - (* otherwise it rounds to the binary64 value just below [q] *)
    assert (Ml2 : pow2 52 + 1 <= Mq).
    { assert (Z : (2 ^ 52 + 1 <= M)%Z) by lia.
      rewrite Zle_Qle, inject_Z_plus, pow2_Z in Z by lia. exact Z. }
    set (w := (1 - d) * q).
    assert (W : w == (Mq - Mq * d) * pow2 e) by (unfold w; rewrite <- R; ring).
    assert (Dl : 1 # 2 < Mq * d) by nra.
    assert (Du : Mq * d < 1) by nra.
    assert (Hw : 0 < w) by (rewrite W; nra).
    assert (Iw : ilog2 w = ilog2 q).
    { apply ilog2_unique.
      - rewrite E1, W. apply Qmult_le_compat_r; lra.
      - apply Qlt_trans with q; [|exact U]. unfold w. nra. }
    assert (Cw : cexp w = e) by (unfold cexp; rewrite Iw; fold (cexp q); reflexivity).
    assert (Mw : mant w = (M - 1)%Z).
    { unfold mant. rewrite Cw. apply rne_char.
      - unfold Zminus. rewrite inject_Z_plus. fold Mq. change (inject_Z (- (1))) with (- (1)).
        rewrite W. unfold Qdiv. rewrite <- Qmult_assoc, Qmult_inv_r, Qmult_1_r by lra. lra.
      - unfold Zminus. rewrite inject_Z_plus. fold Mq. change (inject_Z (- (1))) with (- (1)).
        rewrite W. unfold Qdiv. rewrite <- Qmult_assoc, Qmult_inv_r, Qmult_1_r by lra. lra. }
    assert (Rw : rval w == (Mq - 1) * pow2 e).
    { unfold rval. rewrite Mw, Cw. unfold Zminus. rewrite inject_Z_plus. reflexivity. }
    exists (Qred (rval w)). split.
    + unfold rnd. destruct (Qcompare_spec w 0) as [H|H|H]; try lra.
      rewrite round_pos_rval.
      assert (F : Qle_bool (pow2 1024) (rval w) = false).
      { destruct (Qle_bool (pow2 1024) (rval w)) eqn:E; [|reflexivity].
        apply Qle_bool_iff in E. rewrite Rw in E. nra. }
      rewrite F. reflexivity.
    + rewrite Qred_correct, Rw. split; nra.
Qed.

Lemma rnd_unit_scale r q :
  double q -> 1 <= q -> 0 <= r -> r <= 1 - pow2 (-53) ->
  exists w, rnd (r * q) = Fin w /\ 0 <= w /\ w < q.
Proof.
  intros D H1 R0 R1.
  destruct (rnd_scale_below q D H1) as [v [Ev [V0 V1]]].
  assert (L1 : num_le (rnd (r * q)) (rnd ((1 - pow2 (-53)) * q))) by (apply rnd_le; nra).
  assert (L0 : num_le (Fin 0) (rnd (r * q))) by (apply rnd_nonneg; nra).
  rewrite Ev in L1.
  destruct (rnd (r * q)) as [|[|]|w]; simpl in *; try contradiction.
  exists w. repeat split; lra.
Qed.

End Rounding.

(** ** CSV parsing *)

Section CSV.

Lemma numeric_rows_header text drop first rest :
  numeric_rows text drop = first :: rest -> (2 <= List.length (csv_rows text))%nat.
Proof.
  unfold numeric_rows. destruct (csv_rows text) as [|h [|r rows]]; simpl; try discriminate.
  intros _. lia.
Qed.

(** The outcome of [parseCSV], case by case: the width test looks at the
    first surviving row. *)
Lemma parseCSV_cases text drop :
  let rows := csv_rows text in
  let numericData := numeric_rows text drop in
  ((List.length rows < 2)%nat /\ fst (parseCSV text drop) = Throw (Err header_error))
  \/ ((2 <= List.length rows)%nat /\ numericData = []
      /\ fst (parseCSV text drop) = Throw (Err no_rows_error))
  \/ (exists first rest, numericData = first :: rest /\ (List.length first < 2)%nat
      /\ fst (parseCSV text drop) = Throw (Err (features_error (List.length first))))
  \/ (exists first rest, numericData = first :: rest /\ (2 <= List.length first)%nat
      /\ fst (parseCSV text drop) = Ok (map row_point numericData)).
Proof.
  intros rows numericData. unfold parseCSV. fold rows. fold numericData.
  destruct (Nat.ltb_spec (List.length rows) 2) as [H|H].
  - left. split; [assumption | reflexivity].
  - right. destruct numericData as [|first rest] eqn:E.
    + left. split; [assumption|]. split; reflexivity.
    + right. destruct (Nat.ltb_spec (List.length first) 2) as [W|W].
      * left. exists first, rest. split; [reflexivity|]. split; [assumption|reflexivity].
      * right. exists first, rest. split; [reflexivity|]. split; [assumption|reflexivity].
Qed.

(** C1 (evaluation at the failing input): a header, a row of two numbers and a
    row of one number.  Parsing succeeds although a surviving row has fewer
    than two fields, and the second point has no [y] field to read. *)
Theorem parseCSV_ragged_row_accepted :
  numeric_rows "h
1,2
3" false = [[Fin 1%Q; Fin 2%Q]; [Fin 3%Q]]
  /\ parseCSV "h
1,2
3" false
     = (Ok [point (Fin 1%Q) (Fin 2%Q); mkPoint (JNum (Fin 3%Q)) JUndefined JUndefined], []).
Proof. split; vm_compute; reflexivity. Qed.

(** C10: when the first surviving numeric row has at least two fields, parsing
    succeeds whatever the later rows are, and a later surviving row with
    exactly one field yields a point whose [y] is read out of bounds, which is
    [undefined]. *)
Theorem parseCSV_checks_first_row_only text drop first rest :
  numeric_rows text drop = first :: rest ->
  (2 <= List.length first)%nat ->
  exists points,
    fst (parseCSV text drop) = Ok points
    /\ List.length points = S (List.length rest)
    /\ forall i v, nth_error rest i = Some [v] ->
         nth_error points (S i) = Some (mkPoint (JNum v) JUndefined JUndefined).
Proof.
  intros E W. exists (map row_point (first :: rest)).
  split; [|split].
  - pose proof (numeric_rows_header text drop first rest E) as H.
    unfold parseCSV. rewrite E.
    destruct (Nat.ltb_spec (List.length (csv_rows text)) 2) as [L|L]; [lia|].
    destruct (Nat.ltb_spec (List.length first) 2) as [L'|L']; [lia|]. reflexivity.
  - simpl. rewrite length_map. reflexivity.
  - intros i v Hi. simpl. rewrite nth_error_map, Hi. reflexivity.
Qed.

Lemma parseCSV_checks_first_row_only_witness :
  exists points,
    fst (parseCSV "h
1,2
3" false) = Ok points
    /\ List.length points = 2%nat
    /\ forall i v, nth_error [[Fin 3%Q]] i = Some [v] ->
         nth_error points (S i) = Some (mkPoint (JNum v) JUndefined JUndefined).
Proof.
  apply (parseCSV_checks_first_row_only "h
1,2
3" false [Fin 1%Q; Fin 2%Q] [[Fin 3%Q]]).
  - vm_compute. reflexivity.
  - simpl. lia.
Defined.

End CSV.

(** ** Dataset generation *)

Section Generator.
Context (B : Builtins).

Definition all_NaN (p : Point) : Prop :=
  p_x p = JNum NaN /\ p_y p = JNum NaN.

(** C2 (evaluation at the failing input): for two requested samples each
    moon has a single point, the angle is [0 / 0], and both points of the
    dataset have NaN coordinates, whatever the random draws. *)
Theorem generateDataset_moons_two_NaN (s : Rng) :
  exists p1 p2,
    fst (generateDataset B Moons 2 s) = Ok [p1; p2]
    /\ all_NaN p1 /\ all_NaN p2.
Proof.
  exists (point NaN NaN), (point NaN NaN).
  split; [|split; split; reflexivity].
  vm_compute. reflexivity.
Qed.

End Generator.

(** ** The radius rule on Circles data *)

Section Circles.
Context (B : Builtins).

(** The Euclidean distance of a point from the origin, and the label the
    radius rule gives it: cluster 0 beyond 0.75, cluster 1 otherwise. *)
Definition origin_distance (p : Point) : number :=
  Math_sqrt (add (mul (ToNumber (p_x p)) (ToNumber (p_x p)))
                 (mul (ToNumber (p_y p)) (ToNumber (p_y p)))).

Definition radius_label (p : Point) : number :=
  if gt (origin_distance p) (Fin (3 # 4)%Q) then Fin 0%Q else Fin 1%Q.

Lemma lit_values :
  lit 0%Q = Fin 0%Q /\ lit 1%Q = Fin 1%Q /\ lit (75 # 100)%Q = Fin (3 # 4)%Q
  /\ lit (-1)%Q = Fin (-1)%Q /\ lit 2%Q = Fin 2%Q.
Proof. vm_compute. repeat split; reflexivity. Qed.

Lemma radius_split_labels (points : list Point) :
  radius_split points = map (fun p => with_cluster p (radius_label p)) points.
Proof.
  unfold radius_split. apply map_ext. intros p. unfold radius_label, origin_distance.
  destruct lit_values as [E0 [E1 [E75 _]]]. rewrite E0, E1, E75. reflexivity.
Qed.

(** The metrics as a function of the three draws they consume. *)
Definition metrics_of_draws (r1 r2 r3 : number) : Metrics :=
  mkMetrics (round3 B (sub (mul r1 (lit (16 # 10)%Q)) (lit (6 # 10)%Q)))
            (round3 B (add (mul r2 (lit 500%Q)) (lit 50%Q)))
            (round3 B (add (mul r3 (lit (15 # 10)%Q)) (lit (3 # 10)%Q))).

Lemma generateMockMetrics_draws (points : list Point) (s : Rng) :
  generateMockMetrics B points s
  = (Ok (metrics_of_draws (s 0%nat) (s 1%nat) (s 2%nat)), fun i => s (S (S (S i)))).
Proof.
  cbv beta iota delta [generateMockMetrics bind Math_random ret]. reflexivity.
Qed.

Lemma generateMockMetrics_total (points : list Point) (s : Rng) :
  exists m, generateMockMetrics B points s = (Ok m, fun i => s (S (S (S i)))).
Proof. eexists. apply generateMockMetrics_draws. Qed.

(** C5: on Circles data the spectral run and the DBSCAN run return the input
    points, in order, each labelled 0 when its distance from the origin
    exceeds 0.75 and 1 otherwise: the labels are those a direct recomputation
    of the predicate gives. *)
Theorem circles_radius_rule (points : list Point) (n_clusters : number) (eps : number)
  (s : Rng) :
  (exists r s', runSpectralClustering B points n_clusters Circles s = (Ok r, s')
     /\ data r = map (fun p => with_cluster p (radius_label p)) points
     /\ map p_cluster (data r) = map (fun p => JNum (radius_label p)) points)
  /\ (exists r s', runDBSCAN B points eps Circles s = (Ok r, s')
     /\ data r = map (fun p => with_cluster p (radius_label p)) points
     /\ map p_cluster (data r) = map (fun p => JNum (radius_label p)) points).
Proof.
  split.
  - unfold runSpectralClustering, bind, ret.
    destruct (generateMockMetrics_total (radius_split points) s) as [m Em]. rewrite Em.
    eexists. eexists. split; [reflexivity|]. simpl.
    rewrite radius_split_labels. split; [reflexivity|].
    rewrite map_map. reflexivity.
  - unfold runDBSCAN, bind, ret.
    destruct (generateMockMetrics_total (radius_split points) s) as [m Em]. rewrite Em.
    eexists. eexists. split; [reflexivity|]. simpl.
    rewrite radius_split_labels. split; [reflexivity|].
    rewrite map_map. reflexivity.
Qed.

End Circles.

(** ** Decimal printing and parsing *)

Section Decimal.

Lemma digit_char_spec d :
  (0 <= d < 10)%Z -> is_digit (digit_char d) = true /\ digit_val (digit_char d) = d.
Proof.
  intros H.
  assert (C : (d = 0 \/ d = 1 \/ d = 2 \/ d = 3 \/ d = 4 \/ d = 5 \/ d = 6 \/ d = 7
              \/ d = 8 \/ d = 9)%Z) by lia.
  repeat (destruct C as [C|C]; [subst d; split; reflexivity|]).
  subst d; split; reflexivity.
Qed.

Definition value_from (acc : Z) (ds : list ascii) : Z :=
  fold_left (fun a c => (10 * a + digit_val c)%Z) ds acc.

Lemma value_from_shift ds acc :
  value_from acc ds = (acc * 10 ^ Z.of_nat (List.length ds) + digits_value ds)%Z.
Proof.
  unfold digits_value. fold (value_from 0 ds). revert acc.
  induction ds as [|c ds IH]; intros acc.
  - simpl. lia.
  - unfold value_from in *. cbn [fold_left List.length].
    rewrite IH. rewrite (IH (10 * 0 + digit_val c)%Z).
    rewrite Nat2Z.inj_succ, Z.pow_succ_r by lia. ring.
Qed.

Lemma digits_value_cons c ds :
  digits_value (c :: ds) = (digit_val c * 10 ^ Z.of_nat (List.length ds) + digits_value ds)%Z.
Proof.
  unfold digits_value at 1. cbn [fold_left]. fold (value_from (10 * 0 + digit_val c) ds).
  rewrite value_from_shift.
  replace (10 * 0 + digit_val c)%Z with (digit_val c) by lia. reflexivity.
Qed.

Lemma digits_value_app l1 l2 :
  digits_value (l1 ++ l2)
  = (digits_value l1 * 10 ^ Z.of_nat (List.length l2) + digits_value l2)%Z.
Proof.
  unfold digits_value at 1. rewrite fold_left_app.
  fold (digits_value l1). fold (value_from (digits_value l1) l2).
  apply value_from_shift.
Qed.

Lemma digits_aux_spec fuel :
  forall n acc, (0 <= n < 2 ^ Z.of_nat fuel)%Z ->
    Forall (fun c => is_digit c = true) acc ->
    digits_value (digits_aux fuel n acc)
    = (n * 10 ^ Z.of_nat (List.length acc) + digits_value acc)%Z
    /\ Forall (fun c => is_digit c = true) (digits_aux fuel n acc).
Proof.
  induction fuel as [|f IH]; intros n acc Hn Hacc.
  - simpl in *. assert (n = 0)%Z by lia. subst n. split; [lia | assumption].
  - cbn [digits_aux].
    assert (Hm : (0 <= n mod 10 < 10)%Z) by (apply Z.mod_pos_bound; lia).
    destruct (digit_char_spec (n mod 10) Hm) as [D1 D2].
    assert (Hacc' : Forall (fun c => is_digit c = true) (digit_char (n mod 10) :: acc))
      by (constructor; assumption).
    pose proof (Z.div_mod n 10 ltac:(lia)) as Hdm.
    destruct (Z.eqb_spec (n / 10) 0) as [E|E].
    + split; [|assumption]. rewrite digits_value_cons, D2. nia.
    + assert (Hn' : (0 <= n / 10 < 2 ^ Z.of_nat f)%Z).
      { split; [apply Z.div_pos; lia|]. rewrite Nat2Z.inj_succ, Z.pow_succ_r in Hn by lia.
        apply Z.div_lt_upper_bound; lia. }
      destruct (IH (n / 10)%Z _ Hn' Hacc') as [V F]. split; [|assumption].
      rewrite V, digits_value_cons, D2. cbn [List.length].
      rewrite Nat2Z.inj_succ, Z.pow_succ_r by lia. nia.
Qed.

Lemma digits_spec n :
  (0 <= n)%Z -> digits_value (digits n) = n /\ Forall (fun c => is_digit c = true) (digits n).
Proof.
  intros Hn. unfold digits.
  assert (B : (0 <= n < 2 ^ Z.of_nat (S (Z.to_nat (Z.log2 n))))%Z).
  { split; [assumption|]. rewrite Nat2Z.inj_succ, Z2Nat.id by apply Z.log2_nonneg.
    destruct (Z.eq_dec n 0) as [->|N]; [reflexivity|].
    assert (P : (0 < n)%Z) by lia.
    destruct (Z.log2_spec n P) as [_ L]. exact L. }
  destruct (digits_aux_spec _ n [] B (Forall_nil _)) as [V F].
  split; [|assumption]. rewrite V. unfold digits_value. cbn [fold_left List.length].
  change (Z.of_nat 0) with 0%Z. rewrite Z.pow_0_r. lia.
Qed.

Lemma digits_value_zeros k : digits_value (repeat "0"%char k) = 0%Z.
Proof.
  induction k as [|k IH]; [reflexivity|].
  cbn [repeat]. rewrite digits_value_cons, IH. reflexivity.
Qed.

Lemma pad_zeros_spec f m :
  Forall (fun c => is_digit c = true) m ->
  digits_value (pad_zeros f m) = digits_value m
  /\ Forall (fun c => is_digit c = true) (pad_zeros f m)
  /\ (S f <= List.length (pad_zeros f m))%nat.
Proof.
  intros F. unfold pad_zeros. split; [|split].
  - rewrite digits_value_app, digits_value_zeros. lia.
  - apply Forall_app. split; [|assumption].
    apply Forall_forall. intros c Hc. apply repeat_spec in Hc. subst c. reflexivity.
  - rewrite length_app, repeat_length. lia.
Qed.


Definition no_digit_head (s : string) : Prop :=
  match s with EmptyString => True | String c _ => is_digit c = false end.

Lemma span_digits_app ds rest :
  Forall (fun c => is_digit c = true) ds -> no_digit_head rest ->
  span_digits (of_chars ds ++ rest) = (ds, rest).
Proof.
  intros F H. induction F as [|c ds Hc F IH].
  - simpl. destruct rest as [|c r]; [reflexivity|]. simpl in *. rewrite H. reflexivity.
  - cbn [of_chars string_of_list_ascii append span_digits].
    rewrite Hc. fold (of_chars ds). rewrite IH. reflexivity.
Qed.

Lemma span_digits_all ds :
  Forall (fun c => is_digit c = true) ds -> span_digits (of_chars ds) = (ds, EmptyString).
Proof.
  intros F. induction F as [|c ds Hc F IH]; [reflexivity|].
  cbn [of_chars string_of_list_ascii span_digits].
  rewrite Hc. fold (of_chars ds). rewrite IH. reflexivity.
Qed.

Lemma digit_not_special c :
  is_digit c = true ->
  is_white c = false /\ c <> "-"%char /\ c <> "+"%char /\ c <> "I"%char.
Proof.
  intros H. repeat split; try (intros ->; discriminate H).
  destruct c as [[] [] [] [] [] [] [] []]; try discriminate H; reflexivity.
Qed.

Lemma parse_unsigned_decimal a b :
  a <> [] ->
  Forall (fun c => is_digit c = true) a -> Forall (fun c => is_digit c = true) b ->
  parse_unsigned (of_chars a ++ "." ++ of_chars b)
  = rnd (inject_Z (digits_value (a ++ b)) * (10 # 1) ^ (- Z.of_nat (List.length b)))%Q.
Proof.
  intros Na Fa Fb. unfold parse_unsigned.
  assert (P : prefix "Infinity" (of_chars a ++ "." ++ of_chars b) = false).
  { destruct a as [|c a]; [contradiction|]. inversion Fa as [|? ? Hc _]; subst.
    destruct (digit_not_special c Hc) as [_ [_ [_ NI]]].
    cbn [of_chars string_of_list_ascii append prefix].
    destruct (ascii_dec "I" c) as [E|E]; [congruence | reflexivity]. }
  rewrite P.
  rewrite (span_digits_app a ("." ++ of_chars b) Fa) by reflexivity.
  cbn [append]. rewrite (span_digits_all b Fb).
  destruct a as [|c a]; [contradiction|]. cbn [app].
  cbn [parse_exponent]. reflexivity.
Qed.

Lemma parseFloat_decimal a b :
  a <> [] ->
  Forall (fun c => is_digit c = true) a -> Forall (fun c => is_digit c = true) b ->
  parseFloat (of_chars a ++ "." ++ of_chars b)
  = rnd (inject_Z (digits_value (a ++ b)) * (10 # 1) ^ (- Z.of_nat (List.length b)))%Q.
Proof.
  intros Na Fa Fb. rewrite <- (parse_unsigned_decimal a b Na Fa Fb).
  destruct a as [|c a]; [contradiction|]. inversion Fa as [|? ? Hc _]; subst.
  destruct (digit_not_special c Hc) as [W [N1 [N2 _]]].
  unfold parseFloat. cbn [of_chars string_of_list_ascii append trim_start]. rewrite W.
  destruct c as [[] [] [] [] [] [] [] []]; try reflexivity; congruence.
Qed.

Lemma parseFloat_minus s : parseFloat (String "-" s) = neg (parse_unsigned s).
Proof. reflexivity. Qed.

End Decimal.

Section Round3.
Context (B : Builtins).
Local Open Scope Q_scope.

(** Rounding to three decimals through [toFixed] and [parseFloat]: the
    nearest multiple of 1/1000 (ties away from zero), as a binary64 value. *)
Definition nearest_thousandth (a : Q) : Z := Qfloor (a * (10 # 1) ^ 3 + (1 # 2)).

Definition Qmag (q : Q) : Q := if Qneg q then - q else q.

Lemma Qmag_nonneg q : 0 <= Qmag q.
Proof.
  unfold Qmag, Qneg. destruct (Qcompare_spec q 0) as [H|H|H]; lra.
Qed.

Lemma round3_spec q :
  Qle_bool ((10 # 1) ^ 21) (Qmag q) = false ->
  round3 B (Fin q)
  = let v := rnd (inject_Z (nearest_thousandth (Qmag q)) * (10 # 1) ^ (-3)) in
    if Qneg q then neg v else v.
Proof.
  intros Hbig. unfold round3, toFixed. fold (Qmag q). rewrite Hbig.
  change (Z.of_nat 3) with 3%Z. fold (nearest_thousandth (Qmag q)).
  set (n := nearest_thousandth (Qmag q)).
  assert (Hn : (0 <= n)%Z).
  { unfold n, nearest_thousandth. change 0%Z with (Qfloor 0). apply Qfloor_resp_le.
    pose proof (Qmag_nonneg q). assert (0 < (10 # 1) ^ 3) by reflexivity. nra. }
  destruct (digits_spec n Hn) as [V F].
  destruct (pad_zeros_spec 3 (digits n) F) as [V' [F' L]].
  set (m := pad_zeros 3 (digits n)) in *.
  set (k := List.length m) in *.
  assert (Fab : Forall (fun c => is_digit c = true) (firstn (k - 3) m ++ skipn (k - 3) m))
    by (rewrite firstn_skipn; exact F').
  apply Forall_app in Fab. destruct Fab as [Fa Fb].
  assert (Na : firstn (k - 3) m <> []).
  { intros E. apply (f_equal (@List.length ascii)) in E. rewrite length_firstn in E.
    simpl in E. fold k in E. lia. }
  assert (Lb : List.length (skipn (k - 3) m) = 3%nat) by (rewrite length_skipn; fold k; lia).
  assert (Vab : digits_value (firstn (k - 3) m ++ skipn (k - 3) m) = n)
    by (rewrite firstn_skipn, V'; exact V).
  destruct (Qneg q).
  - change ("-" ++ of_chars (firstn (k - 3) m) ++ "." ++ of_chars (skipn (k - 3) m))%string
      with (String "-" (of_chars (firstn (k - 3) m) ++ "." ++ of_chars (skipn (k - 3) m))).
    rewrite parseFloat_minus, (parse_unsigned_decimal _ _ Na Fa Fb), Vab, Lb. reflexivity.
  - change ("" ++ of_chars (firstn (k - 3) m) ++ "." ++ of_chars (skipn (k - 3) m))%string
      with (of_chars (firstn (k - 3) m) ++ "." ++ of_chars (skipn (k - 3) m))%string.
    rewrite (parseFloat_decimal _ _ Na Fa Fb), Vab, Lb. reflexivity.
Qed.

End Round3.

(** ** Mock metrics *)

Section MetricsFacts.
Context (B : Builtins).
Local Open Scope Q_scope.

Definition val (x : number) : Q := match x with Fin q => q | _ => 0 end.

(** A draw of [Math.random()]: a binary64 value in [0, 1). *)
Definition unit_draw (x : number) : Prop :=
  exists q, x = Fin q /\ double q /\ 0 <= q /\ q < 1.

Definition random_source (s : Rng) : Prop := forall i, unit_draw (s i).

Lemma le_num_le x y : num_le x y -> le x y = true.
Proof.
  destruct x as [|[|]|a], y as [|[|]|b]; simpl; try tauto.
  intros H. destruct (Qcompare_spec a b); try reflexivity. lra.
Qed.

Lemma num_le_le x y : le x y = true -> num_le x y.
Proof.
  destruct x as [|[|]|a], y as [|[|]|b]; simpl; try discriminate; auto.
  destruct (Qcompare_spec a b); try discriminate; intros _; lra.
Qed.

Lemma rnd_between p lo hi lo' hi' :
  lo <= p -> p <= hi -> rnd lo = Fin lo' -> rnd hi = Fin hi' ->
  exists a, rnd p = Fin a /\ lo' <= a /\ a <= hi'.
Proof.
  intros H1 H2 E1 E2.
  pose proof (rnd_le lo p H1) as L1. pose proof (rnd_le p hi H2) as L2.
  rewrite E1 in L1. rewrite E2 in L2.
  destruct (rnd p) as [|[|]|a]; simpl in *; try contradiction.
  exists a. auto.
Qed.

Lemma nearest_thousandth_le a b : a <= b -> (nearest_thousandth a <= nearest_thousandth b)%Z.
Proof.
  intros H. unfold nearest_thousandth. apply Qfloor_resp_le.
  assert (0 < (10 # 1) ^ 3) by reflexivity. nra.
Qed.

Lemma nearest_thousandth_nonneg a : 0 <= a -> (0 <= nearest_thousandth a)%Z.
Proof.
  intros H. unfold nearest_thousandth. change 0%Z with (Qfloor 0). apply Qfloor_resp_le.
  assert (0 < (10 # 1) ^ 3) by reflexivity. nra.
Qed.

Definition thousandth (n : Z) : number := rnd (inject_Z n * (10 # 1) ^ (-3)).

Lemma thousandth_le m n : (m <= n)%Z -> num_le (thousandth m) (thousandth n).
Proof.
  intros H. apply rnd_le. rewrite Zle_Qle in H.
  assert (0 < (10 # 1) ^ (-3)) by reflexivity. nra.
Qed.

Lemma thousandth_nonneg n : (0 <= n)%Z -> num_le (Fin 0) (thousandth n).
Proof.
  intros H. apply rnd_nonneg. rewrite Zle_Qle in H. change (inject_Z 0) with 0 in H.
  assert (0 < (10 # 1) ^ (-3)) by reflexivity. nra.
Qed.

Lemma Qneg_true q : Qneg q = true -> q < 0 /\ Qmag q == - q.
Proof.
  unfold Qmag. intros H. rewrite H. unfold Qneg in H.
  destruct (Qcompare_spec q 0); try discriminate. split; [assumption | reflexivity].
Qed.

Lemma Qneg_false q : Qneg q = false -> 0 <= q /\ Qmag q == q.
Proof.
  unfold Qmag. intros H. rewrite H. unfold Qneg in H.
  destruct (Qcompare_spec q 0); try discriminate; split; try reflexivity; lra.
Qed.

Lemma nearest_thousandth_comp a b : a == b -> nearest_thousandth a = nearest_thousandth b.
Proof. intros E. unfold nearest_thousandth. apply Qfloor_comp. rewrite E. reflexivity. Qed.

Lemma small_mag q c : Qmag q <= c -> c < (10 # 1) ^ 21 -> Qle_bool ((10 # 1) ^ 21) (Qmag q) = false.
Proof.
  intros H1 H2. destruct (Qle_bool ((10 # 1) ^ 21) (Qmag q)) eqn:E; [|reflexivity].
  apply Qle_bool_iff in E. lra.
Qed.

(** Rounding to three decimals is monotone (below 10^21 in magnitude). *)
Lemma round3_le p q :
  Qmag p < (10 # 1) ^ 21 -> Qmag q < (10 # 1) ^ 21 -> p <= q ->
  num_le (round3 B (Fin p)) (round3 B (Fin q)).
Proof.
  intros Hp Hq Hpq.
  rewrite !round3_spec by (eapply small_mag; [apply Qle_refl | assumption]).
  cbv zeta. fold (thousandth (nearest_thousandth (Qmag p))).
  fold (thousandth (nearest_thousandth (Qmag q))).
  destruct (Qneg p) eqn:Np, (Qneg q) eqn:Nq.
  - apply Qneg_true in Np, Nq. destruct Np as [P1 P2], Nq as [Q1 Q2].
    apply num_le_neg, thousandth_le, nearest_thousandth_le. lra.
  - apply num_le_trans with (Fin 0).
    + change (Fin 0) with (neg (Fin 0)). apply num_le_neg, thousandth_nonneg,
        nearest_thousandth_nonneg, Qmag_nonneg.
    + apply thousandth_nonneg, nearest_thousandth_nonneg, Qmag_nonneg.
  - apply Qneg_true in Nq. apply Qneg_false in Np. lra.
  - apply Qneg_false in Np, Nq. destruct Np as [P1 P2], Nq as [Q1 Q2].
    apply thousandth_le, nearest_thousandth_le. lra.
Qed.

Lemma Qmag_bound q lo hi : lo <= q -> q <= hi -> Qmag q <= Qmag lo + Qmag hi.
Proof.
  intros H1 H2. pose proof (Qmag_nonneg lo). pose proof (Qmag_nonneg hi).
  unfold Qmag in *. unfold Qneg in *.
  destruct (Qcompare_spec q 0); destruct (Qcompare_spec lo 0); destruct (Qcompare_spec hi 0); lra.
Qed.

Lemma round3_between q lo hi :
  lo <= q -> q <= hi -> Qmag lo + Qmag hi < (10 # 1) ^ 21 ->
  num_le (round3 B (Fin lo)) (round3 B (Fin q)) /\ num_le (round3 B (Fin q)) (round3 B (Fin hi)).
Proof.
  intros H1 H2 Hb.
  pose proof (Qmag_bound q lo hi H1 H2).
  pose proof (Qmag_nonneg lo). pose proof (Qmag_nonneg hi).
  split; apply round3_le; lra.
Qed.

Lemma silhouette_range r :
  unit_draw r ->
  let v := round3 B (sub (mul r (lit (16 # 10))) (lit (6 # 10))) in
  le (lit (-6 # 10)) v = true /\ le v (lit 1) = true.
Proof.
  intros [q [-> [_ [Q0 Q1]]]] v. subst v.
  assert (E16 : lit (16 # 10) = Fin (val (lit (16 # 10)))) by (vm_compute; reflexivity).
  assert (E06 : lit (6 # 10) = Fin (val (lit (6 # 10)))) by (vm_compute; reflexivity).
  rewrite E16, E06. set (c16 := val (lit (16 # 10))). set (c06 := val (lit (6 # 10))).
  assert (P16 : 0 <= c16) by (vm_compute; discriminate).
  cbn [mul].
  destruct (rnd_between (q * c16) 0 c16 0 c16) as [a [Ea [A0 A1]]];
    [nra | nra | reflexivity | vm_compute; reflexivity |].
  rewrite Ea. cbn [sub].
  destruct (rnd_between (a - c06) (0 - c06) (c16 - c06) (- c06) 1) as [b [Eb [B0 B1]]];
    [lra | lra | vm_compute; reflexivity | vm_compute; reflexivity |].
  rewrite Eb.
  destruct (round3_between b (- c06) 1 B0 B1) as [L U]; [vm_compute; reflexivity|].
  split; apply le_num_le.
  - replace (lit (-6 # 10)) with (round3 B (Fin (- c06))) by (vm_compute; reflexivity). exact L.
  - replace (lit 1) with (round3 B (Fin 1)) by (vm_compute; reflexivity). exact U.
Qed.


Lemma calinskiHarabasz_range r :
  unit_draw r ->
  let v := round3 B (add (mul r (lit 500)) (lit 50)) in
  le (lit 50) v = true /\ le v (lit 550) = true.
Proof.
  intros [q [-> [_ [Q0 Q1]]]] v. subst v.
  assert (E1 : lit 500 = Fin 500) by (vm_compute; reflexivity).
  assert (E2 : lit 50 = Fin 50) by (vm_compute; reflexivity).
  rewrite E1, E2. cbn [mul].
  destruct (rnd_between (q * 500) 0 500 0 500) as [a [Ea [A0 A1]]];
    [nra | nra | reflexivity | vm_compute; reflexivity |].
  rewrite Ea. cbn [add].
  destruct (rnd_between (a + 50) (0 + 50) (500 + 50) 50 550) as [b [Eb [Bl Bu]]];
    [lra | lra | vm_compute; reflexivity | vm_compute; reflexivity |].
  rewrite Eb.
  destruct (round3_between b 50 550 Bl Bu) as [L U]; [vm_compute; reflexivity|].
  split; apply le_num_le.
  - replace (Fin 50) with (round3 B (Fin 50)) by (vm_compute; reflexivity). exact L.
  - replace (lit 550) with (round3 B (Fin 550)) by (vm_compute; reflexivity). exact U.
Qed.

Lemma daviesBouldin_range r :
  unit_draw r ->
  let v := round3 B (add (mul r (lit (15 # 10))) (lit (3 # 10))) in
  le (lit (3 # 10)) v = true /\ le v (lit (18 # 10)) = true.
Proof.
  intros [q [-> [_ [Q0 Q1]]]] v. subst v.
  assert (E15 : lit (15 # 10) = Fin (3 # 2)) by (vm_compute; reflexivity).
  assert (E03 : lit (3 # 10) = Fin (val (lit (3 # 10)))) by (vm_compute; reflexivity).
  rewrite E15, E03. set (c03 := val (lit (3 # 10))).
  cbn [mul].
  destruct (rnd_between (q * (3 # 2)) 0 (3 # 2) 0 (3 # 2)) as [a [Ea [A0 A1]]];
    [nra | nra | reflexivity | vm_compute; reflexivity |].
  rewrite Ea. cbn [add].
  destruct (rnd_between (a + c03) (0 + c03) ((3 # 2) + c03) c03 (val (lit (18 # 10))))
    as [b [Eb [Bl Bu]]];
    [lra | lra | vm_compute; reflexivity | vm_compute; reflexivity |].
  rewrite Eb.
  destruct (round3_between b c03 (val (lit (18 # 10))) Bl Bu) as [L U]; [vm_compute; reflexivity|].
  split; apply le_num_le.
  - replace (Fin c03) with (round3 B (Fin c03)) by (vm_compute; reflexivity). exact L.
  - replace (lit (18 # 10)) with (round3 B (Fin (val (lit (18 # 10)))))
      by (vm_compute; reflexivity). exact U.
Qed.

(** For draws in [0, 1) the metrics are returned, each within its range. *)
Lemma generateMockMetrics_bounds (points : list Point) (s : Rng) :
  random_source s ->
  exists m s', generateMockMetrics B points s = (Ok m, s')
     /\ le (lit (-6 # 10)) (silhouette m) = true /\ le (silhouette m) (lit 1) = true
     /\ le (lit 50) (calinskiHarabasz m) = true /\ le (calinskiHarabasz m) (lit 550) = true
     /\ le (lit (3 # 10)) (daviesBouldin m) = true /\ le (daviesBouldin m) (lit (18 # 10)) = true.
Proof.
  intros Hs.
  rewrite generateMockMetrics_draws. eexists. eexists. split; [reflexivity|].
  destruct (silhouette_range (s 0%nat) (Hs 0%nat)) as [S1 S2].
  destruct (calinskiHarabasz_range (s 1%nat) (Hs 1%nat)) as [C1 C2].
  destruct (daviesBouldin_range (s 2%nat) (Hs 2%nat)) as [D1 D2].
  unfold metrics_of_draws. cbn [silhouette calinskiHarabasz daviesBouldin].
  repeat split; assumption.
Qed.

(** C8: the metrics do not depend on the clustered points they are given,
    and for draws in [0, 1) each field, rounded to three decimals, lies in its
    range: silhouette in [-0.6, 1], Calinski-Harabasz in [50, 550],
    Davies-Bouldin in [0.3, 1.8] (the bounds being the binary64 values of
    these literals). *)
Theorem generateMockMetrics_range (points1 points2 : list Point) (s : Rng) :
  random_source s ->
  generateMockMetrics B points1 s = generateMockMetrics B points2 s
  /\ exists m s', generateMockMetrics B points1 s = (Ok m, s')
     /\ le (lit (-6 # 10)) (silhouette m) = true /\ le (silhouette m) (lit 1) = true
     /\ le (lit 50) (calinskiHarabasz m) = true /\ le (calinskiHarabasz m) (lit 550) = true
     /\ le (lit (3 # 10)) (daviesBouldin m) = true /\ le (daviesBouldin m) (lit (18 # 10)) = true.
Proof.
  intros Hs. split.
  - rewrite !generateMockMetrics_draws. reflexivity.
  - apply generateMockMetrics_bounds. exact Hs.
Qed.

End MetricsFacts.

Definition half_draws : Rng := fun _ => Fin (1 # 2)%Q.

Lemma half_draws_random : random_source half_draws.
Proof.
  intros i. exists (1 # 2)%Q. repeat split; try (vm_compute; reflexivity); discriminate.
Qed.

Lemma generateMockMetrics_range_witness :
  generateMockMetrics B0 [] half_draws = generateMockMetrics B0 [point (Fin 1%Q) (Fin 2%Q)] half_draws
  /\ exists m s', generateMockMetrics B0 [] half_draws = (Ok m, s')
     /\ le (lit (-6 # 10)%Q) (silhouette m) = true /\ le (silhouette m) (lit 1%Q) = true
     /\ le (lit 50%Q) (calinskiHarabasz m) = true /\ le (calinskiHarabasz m) (lit 550%Q) = true
     /\ le (lit (3 # 10)%Q) (daviesBouldin m) = true /\ le (daviesBouldin m) (lit (18 # 10)%Q) = true.
Proof.
  apply (generateMockMetrics_range B0 [] [point (Fin 1%Q) (Fin 2%Q)] half_draws).
  intros i. exists (1 # 2)%Q. repeat split; try (vm_compute; reflexivity); discriminate.
Defined.

(** ** Mock assignment *)

Section IndexFacts.
Local Open Scope Q_scope.

Lemma double_pos_Z z : (0 < z < 2 ^ 53)%Z -> double (inject_Z z).
Proof.
  intros H. unfold double.
  assert (E : inject_Z z == inject_Z z * pow2 0) by (change (pow2 0) with 1; ring).
  rewrite (rnd_comp _ _ E), (Qred_complete _ _ E).
  apply rnd_exact_pos; [assumption | lia |].
  rewrite <- E. apply Qlt_trans with (pow2 53).
  - rewrite <- pow2_Z by lia. rewrite <- Zlt_Qlt. lia.
  - apply pow2_lt. lia.
Qed.

Lemma array_index_Z z : (0 <= z)%Z -> array_index (Fin (inject_Z z)) = Some (Z.to_nat z).
Proof.
  intros H. unfold array_index. rewrite Qfloor_Z.
  assert (E : Qeq_bool (inject_Z z) (inject_Z z) = true) by (apply Qeq_bool_iff; reflexivity).
  rewrite E. destruct (Z.leb_spec 0 z); [reflexivity | lia].
Qed.

(** [Math.floor(Math.random() * n)] is an index below [n]. *)
Lemma random_index_in_range r (n : nat) :
  unit_draw r -> (0 < n)%nat -> (Z.of_nat n < 2 ^ 53)%Z ->
  exists i, array_index (Math_floor (mul r (of_nat n))) = Some i /\ (i < n)%nat.
Proof.
  intros [q [-> [D [Q0 Q1]]]] Hn Hb.
  pose proof (double_lt_one q D Q0 Q1) as Q2.
  assert (Dn : double (inject_Z (Z.of_nat n))) by (apply double_pos_Z; lia).
  assert (N1 : 1 <= inject_Z (Z.of_nat n)).
  { change 1 with (inject_Z 1). rewrite <- Zle_Qle. lia. }
  destruct (rnd_unit_scale q _ Dn N1 Q0 Q2) as [w [Ew [W0 W1]]].
  unfold of_nat, of_Z. cbn [mul]. rewrite Ew. cbn [Math_floor].
  pose proof (Qfloor_bounds w) as [F1 F2].
  assert (F0 : (0 <= Qfloor w)%Z).
  { change 0%Z with (Qfloor 0). apply Qfloor_resp_le. exact W0. }
  assert (Fn : (Qfloor w < Z.of_nat n)%Z) by (rewrite Zlt_Qlt; lra).
  exists (Z.to_nat (Qfloor w)). split; [apply array_index_Z; assumption | lia].
Qed.

End IndexFacts.

Section MonadFacts.

Definition tail_source (s : Rng) : Rng := fun i => s (S i).

Lemma random_source_tail s : random_source s -> random_source (tail_source s).
Proof. intros H i. apply H. Qed.

Lemma bind_ok {A C : Type} (m : M A) (k : A -> M C) s a s' :
  m s = (Ok a, s') -> bind m k s = k a s'.
Proof. intros H. unfold bind. rewrite H. reflexivity. Qed.

Lemma bind_throw {A C : Type} (m : M A) (k : A -> M C) s e s' :
  m s = (Throw e, s') -> bind m k s = (Throw e, s').
Proof. intros H. unfold bind. rewrite H. reflexivity. Qed.

Lemma bind_inv {A C : Type} (m : M A) (k : A -> M C) s c s' :
  bind m k s = (Ok c, s') -> exists a s1, m s = (Ok a, s1) /\ k a s1 = (Ok c, s').
Proof.
  unfold bind. destruct (m s) as [[a|e] s1]; [|discriminate].
  intros H. exists a, s1. split; [reflexivity | exact H].
Qed.

Lemma Math_random_draw s :
  random_source s ->
  exists r, Math_random s = (Ok r, tail_source s) /\ unit_draw r.
Proof. intros H. exists (s 0%nat). split; [reflexivity | apply H]. Qed.

(** A loop body that succeeds on every random source, keeping an invariant
    of its results, makes [forM] succeed with as many results as inputs. *)
Lemma forM_total {X A : Type} (P : A -> Prop) (f : X -> M A) (l : list X) :
  (forall x s, In x l -> random_source s ->
     exists a s', f x s = (Ok a, s') /\ P a /\ random_source s') ->
  forall s, random_source s ->
    exists r s', forM l f s = (Ok r, s') /\ Forall P r
                 /\ List.length r = List.length l /\ random_source s'.
Proof.
  induction l as [|x l IH]; intros Hf s Hs.
  - exists [], s. repeat split; auto.
  - destruct (Hf x s (or_introl eq_refl) Hs) as [a [s1 [E1 [Pa Hs1]]]].
    destruct (IH (fun y t Hy => Hf y t (or_intror Hy)) s1 Hs1) as [r [s2 [E2 [Pr [L Hs2]]]]].
    exists (a :: r), s2. cbn [forM]. unfold bind. rewrite E1, E2.
    repeat split; auto. simpl. lia.
Qed.

End MonadFacts.

(** *** Array lengths and integer parameters *)

Section Lengths.
Local Open Scope Q_scope.

(** A length that [Array.from] can allocate. *)
Definition allocatable (k : number) : Prop := (ToLength k < 2 ^ 32)%Z.

Lemma le_of_Z_zero (z : Z) : le (of_Z z) (lit 0) = (z <=? 0)%Z.
Proof.
  replace (lit 0) with (Fin 0) by reflexivity. unfold of_Z. cbn [le].
  destruct (Z.leb_spec z 0) as [H|H]; destruct (Qcompare_spec (inject_Z z) 0) as [C|C|C];
    try reflexivity; exfalso; change 0 with (inject_Z 0) in C.
  - rewrite <- Zlt_Qlt in C. lia.
  - apply (proj1 (inject_Z_injective _ _)) in C. lia.
  - rewrite <- Zlt_Qlt in C. lia.
Qed.

Lemma ToLength_of_Z (z : Z) : ToLength (of_Z z) = Z.min (Z.max 0 z) (2 ^ 53 - 1).
Proof. unfold of_Z. cbn [ToLength]. rewrite Qfloor_Z. reflexivity. Qed.

Lemma allocatable_of_Z (z : Z) : allocatable (of_Z z) <-> (z < 2 ^ 32)%Z.
Proof.
  unfold allocatable. rewrite ToLength_of_Z.
  assert (P : (2 ^ 32 < 2 ^ 53 - 1)%Z) by reflexivity. lia.
Qed.

Lemma Array_from_of_Z {A : Type} (z : Z) (f : nat -> M A) :
  (z < 2 ^ 32)%Z -> Array_from (of_Z z) f = forM (seq 0 (Z.to_nat z)) f.
Proof.
  intros H. unfold Array_from. rewrite ToLength_of_Z. cbv zeta.
  assert (P : (2 ^ 32 < 2 ^ 53 - 1)%Z) by reflexivity.
  destruct (Z.ltb_spec (Z.min (Z.max 0 z) (2 ^ 53 - 1)) (2 ^ 32)) as [_|C]; [|lia].
  f_equal. f_equal. lia.
Qed.

Lemma Array_from_allocatable {A : Type} (k : number) (f : nat -> M A) :
  allocatable k -> Array_from k f = forM (seq 0 (Z.to_nat (ToLength k))) f.
Proof.
  intros H. unfold Array_from. cbv zeta.
  destruct (Z.ltb_spec (ToLength k) (2 ^ 32)) as [_|C]; [reflexivity|].
  unfold allocatable in H. lia.
Qed.

Lemma Array_from_overflow {A : Type} (k : number) (f : nat -> M A) (s : Rng) :
  ~ allocatable k -> Array_from k f s = (Throw RangeError, s).
Proof.
  intros H. unfold Array_from. cbv zeta.
  destruct (Z.ltb_spec (ToLength k) (2 ^ 32)) as [C|_]; [|reflexivity].
  exfalso. apply H. exact C.
Qed.

(** A length that cannot be allocated is a number above zero. *)
Lemma overflow_positive (k : number) : ~ allocatable k -> le k (lit 0) = false.
Proof.
  unfold allocatable. replace (lit 0) with (Fin 0) by reflexivity.
  destruct k as [|[|]|q]; cbn [ToLength le negb]; intros H; try reflexivity;
    try (exfalso; apply H; reflexivity).
  destruct (Qcompare_spec q 0) as [C|C|C]; try reflexivity; exfalso; apply H.
  - rewrite (Qfloor_comp _ _ C). reflexivity.
  - assert (F : (Qfloor q <= 0)%Z).
    { change 0%Z with (Qfloor 0). apply Qfloor_resp_le. lra. }
    assert (P : (0 < 2 ^ 32)%Z) by reflexivity. lia.
Qed.

End Lengths.

Section Centroids.

(** A cluster label that is an integer of the interval [lo, hi). *)
Definition int_label (lo hi : Z) (v : jsval) : Prop :=
  exists q z, v = JNum (Fin q) /\ (q == inject_Z z)%Q /\ (lo <= z < hi)%Z.

(** The noise sentinel. *)
Definition noise_label (v : jsval) : Prop := v = JNum (lit (-1)%Q).

Lemma int_label_of_nat (i : nat) (k : Z) :
  (Z.of_nat i < k)%Z -> int_label 0 k (JNum (of_nat i)).
Proof.
  intros H. exists (inject_Z (Z.of_nat i)), (Z.of_nat i).
  split; [reflexivity|]. split; [reflexivity | lia].
Qed.

Lemma int_label_not_noise lo hi v : (0 <= lo)%Z -> int_label lo hi v -> ~ noise_label v.
Proof.
  intros Hlo [q [z [-> [E Hz]]]] N. unfold noise_label in N.
  assert (L : lit (-1)%Q = Fin (-1)%Q) by (vm_compute; reflexivity).
  rewrite L in N. injection N as N. subst q.
  assert (Ez : (inject_Z (-1) == inject_Z z)%Q) by exact E.
  apply (proj1 (inject_Z_injective _ _)) in Ez. lia.
Qed.

Lemma closest_index point means : forall index st i d,
  closest point means index st = Ok (i, d) ->
  i = fst st \/ (index <= i < index + List.length means)%nat.
Proof.
  induction means as [|[mean|] means IH]; intros index st i d H; cbn [closest] in H.
  - injection H as H. subst st. left. reflexivity.
  - apply IH in H. cbn [List.length]. destruct H as [H|H]; [|right; lia].
    destruct (lt (distance point mean) (snd st)); cbn [fst] in H; [right; lia | left; exact H].
  - discriminate.
Qed.

Lemma closest_total point means : forall index st,
  Forall (fun m => m <> None) means ->
  exists i d, closest point means index st = Ok (i, d).
Proof.
  induction means as [|[mean|] means IH]; intros index st F; cbn [closest].
  - destruct st as [i d]. exists i, d. reflexivity.
  - inversion F; subst. apply IH. assumption.
  - inversion F; subst. congruence.
Qed.

Lemma mapE_Forall2 {X A : Type} (f : X -> outcome A) (l : list X) (r : list A) :
  mapE f l = Ok r -> Forall2 (fun x a => f x = Ok a) l r.
Proof.
  revert r. induction l as [|x l IH]; intros r H; cbn [mapE] in H.
  - injection H as <-. constructor.
  - destruct (f x) as [a|e] eqn:E; [|discriminate].
    destruct (mapE f l) as [r'|e] eqn:E'; [|discriminate].
    injection H as <-. constructor; [assumption | apply IH; reflexivity].
Qed.

Lemma mapE_total {X A : Type} (f : X -> outcome A) (l : list X) :
  (forall x, In x l -> exists a, f x = Ok a) -> exists r, mapE f l = Ok r.
Proof.
  induction l as [|x l IH]; intros H; cbn [mapE].
  - eexists; reflexivity.
  - destruct (H x (or_introl eq_refl)) as [a Ea]. rewrite Ea.
    destruct (IH (fun y Hy => H y (or_intror Hy))) as [r Er]. rewrite Er.
    eexists; reflexivity.
Qed.

Lemma forM_length {X A : Type} (f : X -> M A) (l : list X) : forall s r s',
  forM l f s = (Ok r, s') -> List.length r = List.length l.
Proof.
  induction l as [|x l IH]; intros s r s' H; cbn [forM] in H.
  - injection H as <- _. reflexivity.
  - unfold bind in H. destruct (f x s) as [[a|e] s1]; [|discriminate].
    destruct (forM l f s1) as [[r'|e] s2] eqn:E; [|discriminate].
    injection H as <- _. simpl. f_equal. eapply IH. exact E.
Qed.

(** What [assignClustersByCentroids] returns: every input point, in order,
    with the index of one of the [k] centroids as its cluster. *)
Definition centroid_labelled (k : Z) (points out : list Point) : Prop :=
  Forall2 (fun p p' => exists i : nat, p' = with_cluster p (of_nat i) /\ (Z.of_nat i < k)%Z)
          points out.

Lemma centroids_labels points (k : Z) s out s' :
  assignClustersByCentroids points (of_Z k) s = (Ok out, s') ->
  (out = [] /\ (points = [] \/ (k <= 0)%Z))
  \/ ((1 <= k < 2 ^ 32)%Z /\ centroid_labelled k points out).
Proof.
  unfold assignClustersByCentroids. rewrite le_of_Z_zero.
  destruct (Nat.eqb_spec (List.length points) 0) as [E0|N0]; cbn [orb].
  - intros H. injection H as <- _. left. split; [reflexivity|].
    left. destruct points; [reflexivity | discriminate].
  - destruct (Z.leb_spec k 0) as [K|K].
    + intros H. injection H as <- _. left. split; [reflexivity | right; assumption].
    + unfold bind, lift.
      destruct (Z_lt_dec k (2 ^ 32)) as [K32|K32];
        [|rewrite Array_from_overflow by (rewrite allocatable_of_Z; exact K32); discriminate].
      rewrite (Array_from_of_Z k _ K32).
      destruct (forM _ _ s) as [[means|e] s1] eqn:EA; [|discriminate].
      intros H. injection H as H _. right. split; [lia|].
      apply forM_length in EA. rewrite length_seq in EA.
      apply mapE_Forall2 in H. unfold centroid_labelled.
      eapply Forall2_impl; [|exact H]. intros p p' Hp. cbv beta in Hp.
      destruct (closest p means 0 (0%nat, Inf false)) as [[i d]|e] eqn:EC; [|discriminate].
      injection Hp as <-. exists i. split; [reflexivity|].
      apply closest_index in EC. cbn [fst] in EC. lia.
Qed.

(** The assignment returns for every number of clusters that can be
    allocated. *)
Lemma centroids_total points (k : number) s :
  random_source s -> array_sized points -> allocatable k ->
  exists out s', assignClustersByCentroids points k s = (Ok out, s')
                 /\ random_source s'.
Proof.
  intros Hs Hsz Hk. unfold assignClustersByCentroids.
  destruct (Nat.eqb_spec (List.length points) 0) as [E0|N0]; cbn [orb].
  - exists [], s. split; [reflexivity | assumption].
  - destruct (le k (lit 0%Q)).
    + exists [], s. split; [reflexivity | assumption].
    + rewrite (Array_from_allocatable k _ Hk).
      destruct (forM_total (fun m : option Point => m <> None)
                  (fun _ : nat => r <- Math_random ;;
                     ret (get points (Math_floor (mul r (of_nat (List.length points))))))
                  (seq 0 (Z.to_nat (ToLength k)))) with (s := s)
        as [means [s1 [EA [F [_ Hs1]]]]].
      * intros x t _ Ht. destruct (Math_random_draw t Ht) as [r [Er Hr]].
        unfold array_sized in Hsz.
        destruct (random_index_in_range r (List.length points) Hr) as [i [Ei Li]]; [lia | lia |].
        rewrite (bind_ok _ _ _ _ _ Er). unfold ret. eexists. eexists. split; [reflexivity|].
        split; [|apply random_source_tail; assumption].
        unfold get. rewrite Ei. apply nth_error_Some. exact Li.
      * assumption.
      * rewrite (bind_ok _ _ _ _ _ EA). unfold lift.
        destruct (mapE_total (fun point =>
                    match closest point means 0 (0%nat, Inf false) with
                    | Throw e => Throw e
                    | Ok (closestMeanIndex, _) => Ok (with_cluster point (of_nat closestMeanIndex))
                    end) points) as [out Eo].
        { intros p _. destruct (closest_total p means 0%nat (0%nat, Inf false) F) as [i [d E]].
          rewrite E. eexists; reflexivity. }
        exists out, s1. rewrite Eo. split; [reflexivity | assumption].
Qed.

(** It throws a RangeError, before any draw, when the centroids cannot be
    allocated. *)
Lemma centroids_overflow points (k : number) s :
  points <> [] -> ~ allocatable k ->
  assignClustersByCentroids points k s = (Throw RangeError, s).
Proof.
  intros Hp Hk. unfold assignClustersByCentroids.
  destruct (Nat.eqb_spec (List.length points) 0) as [E0|N0];
    [destruct points; [congruence | discriminate]|].
  rewrite (overflow_positive k Hk). cbn [orb]. unfold bind.
  rewrite (Array_from_overflow k _ s Hk). reflexivity.
Qed.

End Centroids.

Section SplitCluster.
Local Open Scope Q_scope.

Lemma rnd_Z_integer z :
  (0 <= z)%Z ->
  rnd (inject_Z z) = Inf false \/ exists v t, rnd (inject_Z z) = Fin v /\ v == inject_Z t.
Proof.
  intros Hz. destruct (Z.eq_dec z 0) as [->|Nz].
  - right. exists 0, 0%Z. split; reflexivity.
  - destruct (Z_lt_dec z (2 ^ 53)) as [Hs|Hl].
    + right. exists (Qred (inject_Z z)), z. split; [|apply Qred_correct].
      apply double_pos_Z. lia.
    + assert (Hq : 0 < inject_Z z) by (change 0 with (inject_Z 0); rewrite <- Zlt_Qlt; lia).
      assert (L : pow2 53 <= inject_Z z) by (rewrite <- pow2_Z by lia; rewrite <- Zle_Qle; lia).
      destruct (ilog2_spec _ Hq) as [_ U].
      assert (I : (53 < ilog2 (inject_Z z) + 1)%Z) by (apply pow2_lt_inv; lra).
      assert (C : (0 <= cexp (inject_Z z))%Z) by (unfold cexp; lia).
      unfold rnd. destruct (Qcompare_spec (inject_Z z) 0) as [H|H|H]; try lra.
      destruct (round_pos_shape _ Hq) as [E|[v [E [_ V]]]]; [left; exact E|].
      right. exists v, (mant (inject_Z z) * 2 ^ cexp (inject_Z z))%Z. split; [exact E|].
      rewrite V. unfold rval. rewrite inject_Z_mult, pow2_Z by assumption. reflexivity.
Qed.




Lemma lt_spec a b : lt (Fin a) (Fin b) = true <-> a < b.
Proof.
  cbn [lt]. destruct (Qcompare_spec a b); split; intros; try reflexivity; try discriminate; lra.
Qed.

Lemma lt_false a b : lt (Fin a) (Fin b) = false <-> b <= a.
Proof.
  cbn [lt]. destruct (Qcompare_spec a b); split; intros; try reflexivity; try discriminate; lra.
Qed.



Lemma index_ratio_below_one (i n : nat) :
  (i < n)%nat -> (Z.of_nat n < 2 ^ 53)%Z ->
  exists a, div (of_nat i) (of_nat n) = Fin a /\ 0 <= a /\ a <= 1 - pow2 (-53).
Proof.
  intros Hi Hn. unfold of_nat, of_Z. cbn [div].
  set (I := inject_Z (Z.of_nat i)). set (N := inject_Z (Z.of_nat n)).
  assert (HI : 0 <= I) by (unfold I; change 0 with (inject_Z 0); rewrite <- Zle_Qle; lia).
  assert (HIN : I + 1 <= N).
  { unfold I, N. change 1 with (inject_Z 1). rewrite <- inject_Z_plus, <- Zle_Qle. lia. }
  assert (HN : N <= pow2 53).
  { unfold N. rewrite <- pow2_Z by lia. rewrite <- Zle_Qle. lia. }
  assert (Z : Qzero N = false).
  { unfold Qzero. destruct (Qcompare_spec N 0); try reflexivity. lra. }
  rewrite Z.
  assert (D : pow2 53 * pow2 (-53) == 1) by reflexivity.
  assert (Dp : 0 < pow2 (-53)) by apply pow2_pos.
  assert (Hlo : 0 <= I / N) by (apply Qle_shift_div_l; lra).
  assert (Hhi : I / N <= 1 - pow2 (-53)).
  { apply Qle_shift_div_r; [lra|]. nra. }
  destruct (rnd_between (I / N) 0 (1 - pow2 (-53)) 0 (val (rnd (1 - pow2 (-53)))))
    as [a [Ea [A0 A1]]]; [assumption | assumption | reflexivity | vm_compute; reflexivity |].
  exists a. split; [exact Ea|]. split; [exact A0|].
  assert (val (rnd (1 - pow2 (-53))) <= 1 - pow2 (-53)) by (vm_compute; discriminate). lra.
Qed.

(** The label of position [index] among [totalPoints] is an integer of
    [0, k). *)
Lemma split_cluster_range k n i :
  (1 <= k)%Z -> double (inject_Z k) -> (i < n)%nat -> (Z.of_nat n < 2 ^ 53)%Z ->
  int_label 0 k (JNum (split_cluster (of_Z k) n i)).
Proof.
  intros Hk Dk Hi Hn. unfold split_cluster.
  destruct (index_ratio_below_one i n Hi Hn) as [a [Ea [A0 A1]]]. rewrite Ea.
  assert (K1 : 1 <= inject_Z k) by (change 1 with (inject_Z 1); rewrite <- Zle_Qle; lia).
  destruct (rnd_unit_scale a (inject_Z k) Dk K1 A0 A1) as [w [Ew [W0 W1]]].
  unfold of_Z. cbn [mul]. rewrite Ew. cbn [Math_floor].
  pose proof (Qfloor_bounds w) as [F1 F2].
  assert (F0 : (0 <= Qfloor w)%Z) by (change 0%Z with (Qfloor 0); apply Qfloor_resp_le; exact W0).
  assert (Fk : (Qfloor w < k)%Z) by (rewrite Zlt_Qlt; lra).
  replace (lit 1) with (Fin 1) by (vm_compute; reflexivity). cbn [sub].
  assert (Ek : inject_Z k - 1 == inject_Z (k - 1)).
  { unfold Zminus. rewrite inject_Z_plus. reflexivity. }
  rewrite (rnd_comp _ _ Ek).
  pose proof (rnd_nonneg (inject_Z (k - 1))) as Cn.
  assert (Ck : 0 <= inject_Z (k - 1)) by (change 0 with (inject_Z 0); rewrite <- Zle_Qle; lia).
  specialize (Cn Ck).
  destruct (rnd_Z_integer (k - 1)) as [E|[v [t [E V]]]]; [lia | |]; rewrite E in *.
  - cbn [Math_min lt negb]. exists (inject_Z (Qfloor w)), (Qfloor w).
    repeat split; try reflexivity; lia.
  - cbn [num_le] in Cn. cbn [Math_min].
    destruct (lt (Fin (inject_Z (Qfloor w))) (Fin v)) eqn:L.
    + exists (inject_Z (Qfloor w)), (Qfloor w). repeat split; try reflexivity; lia.
    + apply lt_false in L. exists v, t. split; [reflexivity|]. split; [exact V|].
      rewrite V in Cn, L. change 0 with (inject_Z 0) in Cn.
      rewrite <- Zle_Qle in Cn, L. lia.
Qed.

End SplitCluster.

Section Sorting.

Lemma mapi_from_length {A C : Type} (f : A -> nat -> C) (l : list A) : forall s,
  List.length (mapi_from s f l) = List.length l.
Proof. induction l as [|a l IH]; intros s; simpl; [reflexivity | rewrite IH; reflexivity]. Qed.

Lemma nth_error_mapi_from {A C : Type} (f : A -> nat -> C) (l : list A) : forall s i,
  nth_error (mapi_from s f l) i = option_map (fun a => f a (s + i)%nat) (nth_error l i).
Proof.
  induction l as [|a l IH]; intros s i.
  - destruct i; reflexivity.
  - destruct i as [|i]; cbn [mapi_from nth_error option_map].
    + rewrite Nat.add_0_r. reflexivity.
    + rewrite IH. replace (S s + i)%nat with (s + S i)%nat by lia. reflexivity.
Qed.


Lemma mapi_from_ext {A C : Type} (f g : A -> nat -> C) (l : list A) :
  (forall a i, f a i = g a i) -> forall s, mapi_from s f l = mapi_from s g l.
Proof.
  intros H. induction l as [|a l IH]; intros s; simpl; [reflexivity|].
  rewrite H, IH. reflexivity.
Qed.

Lemma map_mapi_from {A C D : Type} (h : C -> D) (f : A -> nat -> C) (l : list A) :
  forall s, map h (mapi_from s f l) = mapi_from s (fun a i => h (f a i)) l.
Proof. induction l as [|a l IH]; intros s; simpl; [reflexivity | rewrite IH; reflexivity]. Qed.

Lemma mapi_from_const {A C : Type} (h : A -> C) (l : list A) :
  forall s, mapi_from s (fun a _ => h a) l = map h l.
Proof. induction l as [|a l IH]; intros s; simpl; [reflexivity | rewrite IH; reflexivity]. Qed.

(** [a] may stand before [b]: the comparator does not ask for [b] first. *)
Definition in_order {A : Type} (cmp : A -> A -> number) (a b : A) : Prop :=
  gt (cmp a b) (lit 0%Q) = false.

Lemma HdRel_insert {A : Type} (cmp : A -> A -> number) (a b : A) (l : list A) :
  HdRel (in_order cmp) b l -> in_order cmp b a -> HdRel (in_order cmp) b (insert cmp a l).
Proof.
  intros H Hba. destruct l as [|c l]; cbn [insert].
  - constructor. assumption.
  - inversion H; subst. destruct (gt (cmp a c) (lit 0%Q)); constructor; assumption.
Qed.

Lemma insert_sorted {A : Type} (cmp : A -> A -> number) (a : A) (l : list A) :
  (forall x y, gt (cmp x y) (lit 0%Q) = true -> in_order cmp y x) ->
  Sorted (in_order cmp) l -> Sorted (in_order cmp) (insert cmp a l).
Proof.
  intros anti S. induction S as [|b l S IH H]; cbn [insert].
  - repeat constructor.
  - destruct (gt (cmp a b) (lit 0%Q)) eqn:E.
    + constructor; [assumption|]. apply HdRel_insert; [assumption | apply anti; assumption].
    + constructor; [constructor; assumption|]. constructor. exact E.
Qed.

Lemma sort_sorted {A : Type} (cmp : A -> A -> number) (l : list A) :
  (forall x y, gt (cmp x y) (lit 0%Q) = true -> in_order cmp y x) ->
  Sorted (in_order cmp) (sort cmp l).
Proof.
  intros anti. induction l as [|a l IH]; cbn [sort fold_right]; [constructor|].
  apply insert_sorted; assumption.
Qed.


Lemma compare_x_antisym a b :
  gt (compare_x a b) (lit 0%Q) = true -> in_order compare_x b a.
Proof.
  unfold in_order, compare_x, gt.
  replace (lit 0%Q) with (Fin 0%Q) by reflexivity.
  destruct (ToNumber (p_x a)) as [|[|]|u], (ToNumber (p_x b)) as [|[|]|v];
    cbn [sub lt Bool.eqb negb andb]; try discriminate; try reflexivity.
  intros H.
  pose proof (rnd_not_NaN (u - v)%Q) as N1. pose proof (rnd_not_NaN (v - u)%Q) as N2.
  destruct (rnd (u - v)%Q) as [|[|]|w] eqn:E1; cbn [lt negb] in H; try congruence.
  - assert (L : (0 < u - v)%Q).
    { apply Qnot_le_lt. intros C. pose proof (rnd_le _ _ C) as R.
      rewrite E1 in R. exact R. }
    assert (L' : (v - u <= 0)%Q) by lra.
    pose proof (rnd_le _ _ L') as R. change (rnd 0%Q) with (Fin 0%Q) in R.
    destruct (rnd (v - u)%Q) as [|[|]|w']; cbn [num_le lt negb] in *; try tauto.
    apply lt_false. exact R.
  - apply lt_spec in H.
    assert (L : (0 < u - v)%Q).
    { apply Qnot_le_lt. intros C. pose proof (rnd_le _ _ C) as R.
      rewrite E1 in R. change (rnd 0%Q) with (Fin 0%Q) in R. cbn [num_le] in R. lra. }
    assert (L' : (v - u <= 0)%Q) by lra.
    pose proof (rnd_le _ _ L') as R. change (rnd 0%Q) with (Fin 0%Q) in R.
    destruct (rnd (v - u)%Q) as [|[|]|w']; cbn [num_le lt negb] in *; try tauto.
    apply lt_false. exact R.
Qed.

Lemma Sorted_mapi_from (f : Point -> nat -> Point) (l : list Point) :
  (forall p i, p_x (f p i) = p_x p) ->
  Sorted (in_order compare_x) l -> forall s, Sorted (in_order compare_x) (mapi_from s f l).
Proof.
  intros Hf S. induction S as [|a l S IH H]; intros s; cbn [mapi_from]; constructor.
  - apply IH.
  - destruct H as [|b l H]; cbn [mapi_from]; constructor.
    unfold in_order, compare_x in *. rewrite !Hf. exact H.
Qed.

End Sorting.

(** *** The comparator of the positional split *)

Section Grid.
Local Open Scope Q_scope.

(** Binary64 values are multiples of the smallest subnormal. *)
Lemma double_pos_grid q : 0 < q -> double q -> exists z : Z, q == inject_Z z * pow2 (-1074).
Proof.
  intros Hq D. destruct (double_pos_rval q Hq D) as [R _].
  unfold rval in R. set (e := cexp q) in *.
  assert (He : (-1074 <= e)%Z) by (unfold e, cexp; lia).
  exists (mant q * 2 ^ (e + 1074))%Z.
  apply Qeq_trans with (inject_Z (mant q) * pow2 e); [symmetry; exact R|].
  rewrite inject_Z_mult, pow2_Z by lia.
  rewrite <- Qmult_assoc, <- pow2_add.
  replace (e + 1074 + -1074)%Z with e by lia. reflexivity.
Qed.

Lemma double_opp q : q < 0 -> double q -> double (- q).
Proof.
  intros Hq D. unfold double, rnd in *.
  assert (C1 : (q ?= 0) = Lt) by (apply Qlt_alt; exact Hq).
  assert (C2 : (- q ?= 0) = Gt) by (apply Qgt_alt; lra).
  rewrite C1 in D. rewrite C2.
  unfold round_pos in *. destruct (Qle_bool _ _); [discriminate D|].
  cbn [neg] in D. f_equal. apply Qred_complete.
  apply (f_equal (fun x => match x with Fin v => v | _ => 0 end)) in D. cbv beta iota in D.
  assert (E : - Qred (inject_Z (rne (- q / pow2 (cexp (- q)))) * pow2 (cexp (- q))) == Qred q)
    by (rewrite D; reflexivity).
  rewrite !Qred_correct in E.
  set (t := inject_Z (rne (- q / pow2 (cexp (- q)))) * pow2 (cexp (- q))) in *. lra.
Qed.

Lemma double_grid q : double q -> exists z : Z, q == inject_Z z * pow2 (-1074).
Proof.
  intros D. destruct (Qlt_le_dec 0 q) as [P|N].
  - apply double_pos_grid; assumption.
  - destruct (Qeq_dec q 0) as [E|NE].
    + exists 0%Z. rewrite E. ring.
    + assert (Hq : q < 0) by (destruct (Qlt_le_dec q 0); [assumption | exfalso; apply NE; lra]).
      destruct (double_pos_grid (- q)) as [z Hz]; [lra | apply double_opp; assumption |].
      exists (- z)%Z. rewrite inject_Z_opp.
      assert (E : q == - - q) by ring. rewrite E, Hz. ring.
Qed.

(** The difference of two distinct binary64 values does not round to zero. *)
Lemma sub_positive u v :
  double u -> double v -> v < u -> gt (sub (Fin u) (Fin v)) (lit 0) = true.
Proof.
  intros Du Dv L. destruct (double_grid u Du) as [a Ha]. destruct (double_grid v Dv) as [b Hb].
  pose proof (pow2_pos (-1074)) as P.
  assert (Hab : (b < a)%Z).
  { apply Z.nle_gt. intros C. rewrite Zle_Qle in C. nra. }
  assert (G : pow2 (-1074) <= u - v).
  { assert (1 <= inject_Z a - inject_Z b).
    { change 1 with (inject_Z 1). unfold Qminus.
      rewrite <- inject_Z_opp, <- inject_Z_plus, <- Zle_Qle. lia. }
    nra. }
  pose proof (rnd_le _ _ G) as R.
  assert (E : pow2 (-1074) == inject_Z 1 * pow2 (-1074)) by (change (inject_Z 1) with 1; ring).
  rewrite (rnd_comp _ _ E), rnd_exact_pos in R; [|lia|lia|].
  - cbn [sub]. replace (lit 0) with (Fin 0) by reflexivity. unfold gt.
    destruct (rnd (u - v)) as [|[|]|w]; cbn [num_le lt negb] in *; try contradiction;
      try reflexivity.
    apply lt_spec. rewrite Qred_correct in R. rewrite <- E in R. lra.
  - rewrite <- E. apply pow2_lt. lia.
Qed.

End Grid.

Section XOrder.
Context (B : Builtins).
Local Open Scope Q_scope.

(** A point whose [x] is a binary64 value. *)
Definition double_x (p : Point) : Prop := exists q, p_x p = JNum (Fin q) /\ double q.

Definition x_le (a b : Point) : Prop :=
  exists u v, p_x a = JNum (Fin u) /\ p_x b = JNum (Fin v) /\ u <= v.

Lemma in_order_x_le a b :
  double_x a -> double_x b -> in_order compare_x a b -> x_le a b.
Proof.
  intros [u [Eu Du]] [v [Ev Dv]] H. exists u, v. split; [exact Eu|]. split; [exact Ev|].
  apply Qnot_lt_le. intros L. unfold in_order, compare_x in H. rewrite Eu, Ev in H.
  cbn [ToNumber] in H. rewrite (sub_positive u v Du Dv L) in H. discriminate H.
Qed.

Lemma x_le_trans a b c : x_le a b -> x_le b c -> x_le a c.
Proof.
  intros [u [v [Eu [Ev L]]]] [v' [w [Ev' [Ew L']]]]. exists u, w.
  split; [exact Eu|]. split; [exact Ew|].
  rewrite Ev in Ev'. injection Ev' as <-. lra.
Qed.

Lemma sorted_x_le l :
  Sorted (in_order compare_x) l -> Forall double_x l -> StronglySorted x_le l.
Proof.
  intros S. induction S as [|a l S IH H]; intros F; [constructor|].
  inversion F as [|? ? Da Fl]; subst. specialize (IH Fl). constructor; [exact IH|].
  destruct H as [|b l H]; [constructor|].
  inversion Fl as [|? ? Db Fl']; subst.
  pose proof (in_order_x_le a b Da Db H) as Hab.
  constructor; [exact Hab|].
  inversion IH as [|? ? _ Fb]; subst.
  eapply Forall_impl; [|exact Fb]. intros c Hc. eapply x_le_trans; eassumption.
Qed.

Lemma strongly_sorted_nth {A : Type} (R : A -> A -> Prop) (l : list A) :
  StronglySorted R l ->
  forall i j a b, (i < j)%nat -> nth_error l i = Some a -> nth_error l j = Some b -> R a b.
Proof.
  intros S. induction S as [|x l S IH F]; intros i j a b Hij Hi Hj.
  - destruct i; discriminate.
  - destruct j as [|j]; [lia|]. cbn [nth_error] in Hj. destruct i as [|i].
    + injection Hi as <-. apply nth_error_In in Hj. revert b Hj. apply Forall_forall. exact F.
    + cbn [nth_error] in Hi. apply (IH i j); [lia | assumption | assumption].
Qed.

Lemma double_x_mapi_from (f : Point -> nat -> Point) (l : list Point) :
  (forall p i, p_x (f p i) = p_x p) ->
  Forall double_x l -> forall s, Forall double_x (mapi_from s f l).
Proof.
  intros Hf F. induction F as [|a l [q [E D]] F IH]; intros s; cbn [mapi_from]; constructor.
  - exists q. rewrite Hf. split; assumption.
  - apply IH.
Qed.

(** The rounded difference of two binary64 values has the sign of their
    difference. *)
Lemma sign_sub u v : double u -> double v -> sign (sub (Fin u) (Fin v)) = Some (u ?= v).
Proof.
  intros Du Dv. destruct (Qcompare_spec u v) as [E|L|G].
  - cbn [sub]. assert (E0 : u - v == 0) by lra. rewrite (rnd_comp _ _ E0). reflexivity.
  - pose proof (sub_positive v u Dv Du L) as P.
    replace (lit 0) with (Fin 0) in P by reflexivity. unfold gt in P. cbn [sub] in *.
    assert (N : rnd (u - v) = neg (rnd (v - u))).
    { unfold rnd. assert (C1 : (u - v ?= 0) = Lt) by (apply (proj1 (Qlt_alt _ _)); lra).
      assert (C2 : (v - u ?= 0) = Gt) by (apply (proj1 (Qgt_alt _ _)); lra).
      rewrite C1, C2. f_equal. apply round_pos_comp; [lra | ring]. }
    rewrite N. destruct (rnd (v - u)) as [|[|]|w]; cbn [lt negb] in P; try discriminate.
    + reflexivity.
    + apply lt_spec in P. cbn [neg sign]. f_equal. apply (proj1 (Qlt_alt _ _)). lra.
  - pose proof (sub_positive u v Du Dv G) as P.
    replace (lit 0) with (Fin 0) in P by reflexivity. unfold gt in P. cbn [sub] in *.
    destruct (rnd (u - v)) as [|[|]|w]; cbn [lt negb] in P; try discriminate.
    + reflexivity.
    + apply lt_spec in P. cbn [sign]. f_equal. apply (proj1 (Qgt_alt _ _)). exact P.
Qed.

(** On points whose [x] are binary64 values, [(a, b) => a.x - b.x] is a
    consistent comparator. *)
Lemma compare_x_consistent (l : list Point) : Forall double_x l -> consistent compare_x l.
Proof.
  intros F a b c Ha Hb Hc.
  destruct (proj1 (Forall_forall _ _) F a Ha) as [u [Eu Du]].
  destruct (proj1 (Forall_forall _ _) F b Hb) as [v [Ev Dv]].
  destruct (proj1 (Forall_forall _ _) F c Hc) as [w [Ew Dw]].
  unfold compare_x. rewrite Eu, Ev, Ew. cbn [ToNumber].
  rewrite !sign_sub by assumption.
  split; [discriminate|]. split; [f_equal; apply (proj1 (Qeq_alt _ _)); reflexivity|].
  repeat split; intros H1; try intros H2; injection H1 as H1; try injection H2 as H2; f_equal.
  - apply (proj1 (Qeq_alt _ _)). apply (proj2 (Qeq_alt _ _)) in H1. symmetry. exact H1.
  - apply (proj1 (Qeq_alt _ _)). apply (proj2 (Qeq_alt _ _)) in H1, H2. lra.
  - apply (proj1 (Qlt_alt _ _)). apply (proj2 (Qlt_alt _ _)) in H1, H2. lra.
  - apply (proj1 (Qgt_alt _ _)). apply (proj2 (Qgt_alt _ _)) in H1, H2. lra.
Qed.

(** There the sort of the run time is the stable sort. *)
Lemma Array_sort_x (l : list Point) :
  Forall double_x l -> Array_sort B compare_x l = sort compare_x l.
Proof. intros F. apply Array_sort_consistent, compare_x_consistent. exact F. Qed.

Lemma double_x_perm (l l' : list Point) :
  Permutation l l' -> Forall double_x l' -> Forall double_x l.
Proof.
  intros P F. apply Forall_forall. intros p Hp. apply (Permutation_in _ P) in Hp.
  revert p Hp. apply Forall_forall. exact F.
Qed.

End XOrder.

Section XSplit.
Context (B : Builtins).

Definition coords (p : Point) : jsval * jsval := (p_x p, p_y p).

Lemma with_cluster_twice p c c' : with_cluster (with_cluster p c) c' = with_cluster p c'.
Proof. reflexivity. Qed.

Lemma xsplit_guard_num points (k : number) :
  (points = [] \/ le k (lit 0%Q) = true) -> assignClustersByXSplit B points k = [].
Proof.
  intros H. unfold assignClustersByXSplit.
  destruct H as [->|H]; [reflexivity|].
  rewrite H, orb_true_r. reflexivity.
Qed.

Lemma xsplit_unfold_num points (k : number) :
  points <> [] -> le k (lit 0%Q) = false ->
  assignClustersByXSplit B points k
  = mapi (fun point index =>
            with_cluster point (split_cluster k (List.length points) index))
         (Array_sort B compare_x points).
Proof.
  intros Hp Hk. unfold assignClustersByXSplit.
  destruct (Nat.eqb_spec (List.length points) 0) as [E|_].
  - destruct points; [congruence | discriminate].
  - rewrite Hk. cbn [orb].
    rewrite (Permutation_length (Array_sort_permutes B _ compare_x points)). reflexivity.
Qed.

Lemma xsplit_guard points (k : Z) :
  (points = [] \/ (k <= 0)%Z) -> assignClustersByXSplit B points (of_Z k) = [].
Proof.
  intros H. apply xsplit_guard_num. destruct H as [H|H]; [left; exact H | right].
  rewrite le_of_Z_zero. apply Z.leb_le. exact H.
Qed.

Lemma xsplit_unfold points (k : Z) :
  points <> [] -> (1 <= k)%Z ->
  assignClustersByXSplit B points (of_Z k)
  = mapi (fun point index =>
            with_cluster point (split_cluster (of_Z k) (List.length points) index))
         (Array_sort B compare_x points).
Proof.
  intros Hp Hk. apply xsplit_unfold_num; [exact Hp|].
  rewrite le_of_Z_zero. apply Z.leb_gt. lia.
Qed.

(** The result on points whose [x] are binary64 values: the stable sort by
    [x], labelled by position. *)
Lemma xsplit_sorted_unfold points (k : number) :
  points <> [] -> le k (lit 0%Q) = false -> Forall double_x points ->
  let out := mapi (fun point index =>
                     with_cluster point (split_cluster k (List.length points) index))
                  (sort compare_x points) in
  assignClustersByXSplit B points k = out
  /\ Forall double_x out /\ Sorted (in_order compare_x) out /\ StronglySorted x_le out.
Proof.
  intros Hp Hk F out.
  assert (Fs : Forall double_x (sort compare_x points))
    by (apply (double_x_perm _ _ (sort_perm compare_x points)); exact F).
  assert (Fo : Forall double_x out)
    by (apply double_x_mapi_from; [reflexivity | exact Fs]).
  assert (So : Sorted (in_order compare_x) out).
  { apply Sorted_mapi_from; [reflexivity|]. apply sort_sorted. exact compare_x_antisym. }
  split; [|split; [exact Fo|split; [exact So|apply sorted_x_le; assumption]]].
  rewrite (xsplit_unfold_num points k Hp Hk), (Array_sort_x B points F). reflexivity.
Qed.

Lemma xsplit_sorted points (k : number) :
  Forall double_x points ->
  forall i j a b, (i <= j)%nat ->
    nth_error (assignClustersByXSplit B points k) i = Some a ->
    nth_error (assignClustersByXSplit B points k) j = Some b ->
    x_le a b.
Proof.
  intros F. destruct (le k (lit 0%Q)) eqn:K.
  { rewrite xsplit_guard_num by (right; exact K). intros i j a b _ Hi. destruct i; discriminate. }
  destruct points as [|p0 points'].
  { intros i j a b _ Hi. destruct i; discriminate. }
  set (points := p0 :: points') in *.
  destruct (xsplit_sorted_unfold points k ltac:(discriminate) K F) as [E [Fo [_ So]]].
  rewrite E. intros i j a b Hij Hi Hj. destruct (Nat.eq_dec i j) as [->|N].
  - rewrite Hi in Hj. injection Hj as <-.
    apply nth_error_In in Hi. destruct (proj1 (Forall_forall _ _) Fo a Hi) as [q [Eq _]].
    exists q, q. split; [exact Eq|]. split; [exact Eq|]. apply Qle_refl.
  - apply (strongly_sorted_nth _ _ So i j); [lia | assumption | assumption].
Qed.


(** The labels of the positional split are integers of [0, k). *)
Lemma xsplit_int_labels (points : list Point) (k : Z) :
  (1 <= k)%Z -> double (inject_Z k) -> array_sized points ->
  Forall (fun p => int_label 0 k (p_cluster p)) (assignClustersByXSplit B points (of_Z k)).
Proof.
  intros Hk Dk Hsz.
  destruct points as [|p0 points']; [constructor|].
  set (points := p0 :: points') in *.
  assert (Hp : points <> []) by discriminate.
  rewrite (xsplit_unfold points k Hp Hk).
  apply Forall_forall. intros p Hin.
  apply In_nth_error in Hin. destruct Hin as [i Hi].
  unfold mapi in Hi. rewrite nth_error_mapi_from in Hi.
  destruct (nth_error (Array_sort B compare_x points) i) as [a|] eqn:Ea; [|discriminate].
  injection Hi as <-. cbn [with_cluster p_cluster Nat.add].
  apply split_cluster_range; try assumption.
  + assert (L : (i < List.length (Array_sort B compare_x points))%nat)
      by (apply nth_error_Some; congruence).
    rewrite (Permutation_length (Array_sort_permutes B _ compare_x points)) in L. exact L.
  + unfold array_sized, points in Hsz. cbn [List.length] in Hsz |- *.
    assert (2 ^ 32 < 2 ^ 53)%Z by reflexivity. lia.
Qed.


End XSplit.

Definition split_points : list Point :=
  [point (Fin 2%Q) (Fin 0%Q); point (Fin 1%Q) (Fin 5%Q); point (Fin 2%Q) (Fin 7%Q);
   point (Fin (-3)%Q) (Fin 1%Q)].

(** On points whose [x] are numbers the result is that of the stable sort,
    whatever the engine. *)
Lemma xsplit_engine_free (B : Builtins) (points : list Point) (k : number) :
  Forall double_x points ->
  assignClustersByXSplit B points k = assignClustersByXSplit B0 points k.
Proof.
  intros F. unfold assignClustersByXSplit. cbv zeta.
  rewrite (Array_sort_x B points F), (Array_sort_x B0 points F). reflexivity.
Qed.

Lemma split_points_double : Forall double_x split_points.
Proof.
  repeat constructor; eexists; (split; [reflexivity | vm_compute; reflexivity]).
Qed.


Example xsplit_example :
  assignClustersByXSplit B0 split_points (of_Z 2)
  = [mkPoint (JNum (Fin (-3)%Q)) (JNum (Fin 1%Q)) (JNum (Fin 0%Q));
     mkPoint (JNum (Fin 1%Q)) (JNum (Fin 5%Q)) (JNum (Fin 0%Q));
     mkPoint (JNum (Fin 2%Q)) (JNum (Fin 0%Q)) (JNum (Fin 1%Q));
     mkPoint (JNum (Fin 2%Q)) (JNum (Fin 7%Q)) (JNum (Fin 1%Q))].
Proof. vm_compute. reflexivity. Qed.


Section Noise.
Local Open Scope Q_scope.

(** [Math.floor(n * 0.05)] iterations are at most the integer part of [n / 20]. *)
Lemma noise_count_bound (n : nat) :
  (Z.of_nat n < 2 ^ 32)%Z ->
  (loop_count (Math_floor (mul (of_nat n) (lit (5 # 100)))) <= n / 20)%nat.
Proof.
  intros Hn.
  assert (E : lit (5 # 100) = Fin (val (lit (5 # 100)))) by (vm_compute; reflexivity).
  rewrite E. set (c := val (lit (5 # 100))).
  assert (Ec : c == 3602879701896397 # 72057594037927936) by (vm_compute; reflexivity).
  unfold of_nat, of_Z. cbn [mul].
  set (m := Z.of_nat (n / 20)).
  assert (Hm : (0 <= m)%Z) by (unfold m; lia).
  assert (Hnm : (Z.of_nat n <= 20 * m + 19)%Z).
  { unfold m. rewrite Nat2Z.inj_div. change (Z.of_nat 20) with 20%Z.
    pose proof (Z.div_mod (Z.of_nat n) 20 ltac:(lia)).
    pose proof (Z.mod_pos_bound (Z.of_nat n) 20 ltac:(lia)). lia. }
  assert (Hm32 : (m < 2 ^ 32)%Z).
  { unfold m. rewrite Nat2Z.inj_div. change (Z.of_nat 20) with 20%Z.
    apply Z.div_lt_upper_bound; lia. }
  (* a binary64 value between the product and the next integer *)
  set (N := ((m + 1) * 1024 - 1)%Z).
  assert (HN : (0 < N < 2 ^ 53)%Z).
  { unfold N. assert (2 ^ 32 * 1024 < 2 ^ 53)%Z by reflexivity. lia. }
  assert (Et : rnd (inject_Z N * pow2 (-10)) = Fin (Qred (inject_Z N * pow2 (-10)))).
  { apply rnd_exact_pos; [assumption | lia |].
    apply Qlt_trans with (pow2 53 * pow2 (-10)).
    - assert (0 < pow2 (-10)) by apply pow2_pos.
      assert (inject_Z N < pow2 53) by (rewrite <- pow2_Z by lia; rewrite <- Zlt_Qlt; lia).
      nra.
    - reflexivity. }
  assert (Hq : inject_Z (Z.of_nat n) * c <= inject_Z N * pow2 (-10)).
  { assert (Q1 : inject_Z (Z.of_nat n) <= 20 * inject_Z m + 19).
    { change 20 with (inject_Z 20). change 19 with (inject_Z 19).
      rewrite <- inject_Z_mult, <- inject_Z_plus, <- Zle_Qle. exact Hnm. }
    assert (Q2 : inject_Z N == (inject_Z m + 1) * 1024 - 1).
    { unfold N, Zminus. rewrite inject_Z_plus, inject_Z_mult, inject_Z_plus. reflexivity. }
    assert (Q3 : inject_Z m <= 4294967296).
    { change 4294967296 with (inject_Z (2 ^ 32)). rewrite <- Zle_Qle. lia. }
    assert (Q4 : 0 <= inject_Z m) by (change 0 with (inject_Z 0); rewrite <- Zle_Qle; lia).
    assert (P10 : pow2 (-10) == 1 # 1024) by reflexivity.
    rewrite Q2, P10, Ec. nra. }
  pose proof (rnd_le _ _ Hq) as L. rewrite Et in L.
  assert (L0 : num_le (Fin 0) (rnd (inject_Z (Z.of_nat n) * c))).
  { apply rnd_nonneg. assert (0 <= inject_Z (Z.of_nat n))
      by (change 0 with (inject_Z 0); rewrite <- Zle_Qle; lia).
    assert (0 <= c) by (rewrite Ec; discriminate). nra. }
  destruct (rnd (inject_Z (Z.of_nat n) * c)) as [|[|]|w]; cbn [num_le] in L, L0; try contradiction.
  cbn [Math_floor loop_count]. rewrite Qceiling_Z.
  rewrite Qred_correct in L.
  assert (W : w < inject_Z (m + 1)).
  { rewrite inject_Z_plus. change (inject_Z 1) with 1.
    assert (Q2 : inject_Z N == (inject_Z m + 1) * 1024 - 1).
    { unfold N, Zminus. rewrite inject_Z_plus, inject_Z_mult, inject_Z_plus. reflexivity. }
    assert (P10 : pow2 (-10) == 1 # 1024) by reflexivity.
    rewrite Q2, P10 in L. lra. }
  pose proof (Qfloor_bounds w) as [F1 _].
  assert (F : (Qfloor w < m + 1)%Z) by (rewrite Zlt_Qlt; lra).
  unfold m in F. lia.
Qed.

End Noise.

(** ** The four runs *)

Section Runs.
Context (B : Builtins).

Lemma int_label_bit (b : bool) :
  int_label 0 2 (JNum (if b then lit 0%Q else lit 1%Q)).
Proof.
  destruct lit_values as [E0 [E1 _]]. rewrite E0, E1.
  destruct b; [exists 0%Q, 0%Z | exists 1%Q, 1%Z]; repeat split; try reflexivity; lia.
Qed.

Lemma half_split_labels points :
  List.length (half_split points) = List.length points
  /\ Forall (fun p => int_label 0 2 (p_cluster p)) (half_split points).
Proof.
  unfold half_split, mapi. split; [apply mapi_from_length|].
  apply Forall_forall. intros p Hin. apply In_nth_error in Hin. destruct Hin as [i Hi].
  rewrite nth_error_mapi_from in Hi.
  destruct (nth_error points i) as [a|]; [|discriminate]. injection Hi as <-.
  cbn [with_cluster p_cluster]. apply int_label_bit.
Qed.

Lemma radius_split_range points :
  List.length (radius_split points) = List.length points
  /\ Forall (fun p => int_label 0 2 (p_cluster p)) (radius_split points).
Proof.
  unfold radius_split. split; [apply length_map|].
  apply Forall_forall. intros p Hin. apply in_map_iff in Hin. destruct Hin as [a [<- _]].
  cbn [with_cluster p_cluster]. apply int_label_bit.
Qed.

Lemma centroid_labelled_range k points out :
  centroid_labelled k points out ->
  List.length out = List.length points
  /\ Forall (fun p => int_label 0 k (p_cluster p)) out.
Proof.
  intros H. split; [symmetry; eapply Forall2_length; exact H|].
  induction H as [|p p' points out [i [-> Hi]] H IH]; constructor; [|assumption].
  cbn [with_cluster p_cluster]. apply int_label_of_nat. assumption.
Qed.

(** The labels of a centroid assignment that returned. *)
Lemma centroids_range points (k : Z) s out s' :
  assignClustersByCentroids points (of_Z k) s = (Ok out, s') ->
  Forall (fun p => int_label 0 k (p_cluster p)) out.
Proof.
  intros H. destruct (centroids_labels _ _ _ _ _ H) as [[-> _]|[_ L]]; [constructor|].
  apply centroid_labelled_range in L. tauto.
Qed.

Lemma xsplit_range points (k : Z) :
  ((1 <= k)%Z -> double (inject_Z k)) -> array_sized points ->
  Forall (fun p => int_label 0 k (p_cluster p)) (assignClustersByXSplit B points (of_Z k)).
Proof.
  intros Dk Hsz. destruct (Z.leb_spec k 0) as [K|K].
  - rewrite xsplit_guard by (right; assumption). constructor.
  - assert (K1 : (1 <= k)%Z) by lia.
    apply xsplit_int_labels; auto.
Qed.

(** *** The noise loop of DBSCAN *)

Definition is_noise (p : Point) : bool :=
  match p_cluster p with
  | JNum (Fin q) => Qeq_bool q (-1)%Q
  | _ => false
  end.

Definition count_noise (l : list Point) : nat := List.length (filter is_noise l).

Definition noise_or_cluster (k : Z) (p : Point) : Prop :=
  noise_label (p_cluster p) \/ int_label 0 k (p_cluster p).

Lemma set_cluster_length i c l : List.length (set_cluster i c l) = List.length l.
Proof.
  revert i. induction l as [|p l IH]; intros [|i]; simpl; try reflexivity.
  rewrite IH. reflexivity.
Qed.

Lemma set_cluster_Forall (P : Point -> Prop) i c l :
  (forall p, P (with_cluster p c)) -> Forall P l -> Forall P (set_cluster i c l).
Proof.
  intros Hc F. revert i. induction F as [|p l Hp F IH]; intros [|i]; cbn [set_cluster];
    constructor; auto.
Qed.

Lemma count_noise_set i c l : (count_noise (set_cluster i c l) <= S (count_noise l))%nat.
Proof.
  unfold count_noise. revert i. induction l as [|p l IH]; intros [|i]; cbn [set_cluster filter];
    try (simpl; lia).
  - destruct (is_noise (with_cluster p c)), (is_noise p); simpl; lia.
  - specialize (IH i). destruct (is_noise p); simpl; lia.
Qed.

Lemma mark_noise_safe k c : forall l s out s',
  mark_noise c l s = (Ok out, s') ->
  Forall (noise_or_cluster k) l -> Forall (noise_or_cluster k) out.
Proof.
  induction c as [|c IH]; intros l s out s' H F; cbn [mark_noise] in H.
  - injection H as <- _. exact F.
  - apply bind_inv in H. destruct H as [r [s1 [_ H]]].
    destruct (array_index _) as [i|]; [|discriminate].
    destruct (i <? List.length l)%nat; [|discriminate].
    apply IH in H; [exact H|].
    apply set_cluster_Forall; [|exact F]. intros p. left. reflexivity.
Qed.

Lemma mark_noise_total c : forall l s,
  random_source s -> (c = 0%nat \/ l <> []) -> (Z.of_nat (List.length l) < 2 ^ 53)%Z ->
  exists out s', mark_noise c l s = (Ok out, s') /\ random_source s'
    /\ List.length out = List.length l
    /\ (count_noise out <= count_noise l + c)%nat.
Proof.
  induction c as [|c IH]; intros l s Hs Hl Hsz; cbn [mark_noise].
  - exists l, s. repeat split; auto. lia.
  - destruct Hl as [Hl|Hl]; [discriminate|].
    destruct (Math_random_draw s Hs) as [r [Er Hr]].
    assert (Hpos : (0 < List.length l)%nat) by (destruct l; [congruence | simpl; lia]).
    destruct (random_index_in_range r (List.length l) Hr Hpos Hsz) as [i [Ei Li]].
    rewrite (bind_ok _ _ _ _ _ Er). rewrite Ei.
    destruct (Nat.ltb_spec i (List.length l)) as [_|C]; [|lia].
    destruct (IH (set_cluster i (lit (-1)%Q) l) (tail_source s)) as [out [s' [E [Hs' [L C]]]]].
    + apply random_source_tail. assumption.
    + right. intros E. apply (f_equal (@List.length Point)) in E.
      rewrite set_cluster_length in E. simpl in E. lia.
    + rewrite set_cluster_length. assumption.
    + exists out, s'. split; [exact E|]. split; [exact Hs'|].
      rewrite set_cluster_length in L. split; [exact L|].
      pose proof (count_noise_set i (lit (-1)%Q) l). lia.
Qed.

Lemma count_noise_zero k l :
  Forall (fun p => int_label 0 k (p_cluster p)) l -> count_noise l = 0%nat.
Proof.
  unfold count_noise. intros F. induction F as [|p l [q [z [E [Eq Hz]]]] F IH]; [reflexivity|].
  cbn [filter]. unfold is_noise at 1. rewrite E.
  destruct (Qeq_bool q (-1)%Q) eqn:Q; [|exact IH].
  apply Qeq_bool_iff in Q. rewrite Eq in Q.
  assert (Ez : (inject_Z z == inject_Z (-1))%Q) by exact Q.
  apply (proj1 (inject_Z_injective _ _)) in Ez. lia.
Qed.


(** *** The shape shared by the four runs *)

Definition finish (name : string) (p : Params) (clustering : M (list Point)) : M ClusterResult :=
  clusteredData <- clustering ;;
  m <- generateMockMetrics B clusteredData ;;
  ret (mkResult name clusteredData m p).

Definition finite_metrics (m : Metrics) : Prop :=
  isFinite (silhouette m) = true /\ isFinite (calinskiHarabasz m) = true
  /\ isFinite (daviesBouldin m) = true.

Lemma finish_inv name p clustering s r s' :
  finish name p clustering s = (Ok r, s') ->
  exists s1, clustering s = (Ok (data r), s1) /\ algorithm r = name.
Proof.
  unfold finish. intros H. apply bind_inv in H. destruct H as [cd [s1 [E H]]].
  rewrite (bind_ok _ _ _ _ _ (generateMockMetrics_draws B cd s1)) in H.
  unfold ret in H. injection H as <- _. exists s1. split; [exact E | reflexivity].
Qed.

Lemma between_finite lo hi v :
  isFinite lo = true -> isFinite hi = true -> le lo v = true -> le v hi = true ->
  isFinite v = true.
Proof.
  destruct lo as [|?|a], hi as [|?|b]; try discriminate.
  destruct v as [|[|]|q]; cbn [le isFinite negb]; auto.
Qed.

Lemma finish_total name p clustering s cd s1 :
  clustering s = (Ok cd, s1) -> random_source s1 ->
  exists r s', finish name p clustering s = (Ok r, s')
    /\ data r = cd /\ algorithm r = name /\ finite_metrics (metrics r) /\ random_source s'.
Proof.
  intros E Hs. unfold finish. rewrite (bind_ok _ _ _ _ _ E).
  destruct (generateMockMetrics_bounds B cd s1 Hs)
    as [m [s2 [Em [S1 [S2 [C1 [C2 [D1 D2]]]]]]]].
  pose proof (generateMockMetrics_draws B cd s1) as Ed. rewrite Em in Ed.
  injection Ed as Em' Es'.
  rewrite (bind_ok _ _ _ _ _ Em). unfold ret.
  eexists. eexists. split; [reflexivity|]. cbn [data algorithm metrics].
  split; [reflexivity|]. split; [reflexivity|]. split.
  - repeat split.
    + eapply between_finite; [| |exact S1|exact S2]; vm_compute; reflexivity.
    + eapply between_finite; [| |exact C1|exact C2]; vm_compute; reflexivity.
    + eapply between_finite; [| |exact D1|exact D2]; vm_compute; reflexivity.
  - rewrite Es'. intros i. apply Hs.
Qed.

Lemma ret_run {A : Type} (a : A) (s : Rng) : ret a s = (Ok a, s).
Proof. reflexivity. Qed.

(** The number of clusters behind each run's labels. *)
Definition spectral_k (type : DatasetType) (n_clusters : Z) : Z :=
  match type with Moons | Circles => 2 | _ => n_clusters end.

Definition dbscan_k (type : DatasetType) : Z :=
  match type with Moons | Circles => 2 | _ => 3 end.

Definition cluster_only (k : Z) (p : Point) : Prop :=
  int_label 0 k (p_cluster p) /\ ~ noise_label (p_cluster p).

Lemma cluster_only_intro k l :
  Forall (fun p => int_label 0 k (p_cluster p)) l -> Forall (cluster_only k) l.
Proof.
  intros F. eapply Forall_impl; [|exact F]. intros p H. split; [exact H|].
  eapply int_label_not_noise; [|exact H]. lia.
Qed.

Lemma spectral_labels points (k : Z) type s r s' :
  runSpectralClustering B points (of_Z k) type s = (Ok r, s') ->
  Forall (fun p => int_label 0 (spectral_k type k) (p_cluster p)) (data r).
Proof.
  intros H. change (runSpectralClustering B points (of_Z k) type)
    with (finish "Spectral Clustering" (ClusterParams (of_Z k))
            match type with
            | Moons => ret (half_split points)
            | Circles => ret (radius_split points)
            | _ => assignClustersByCentroids points (of_Z k)
            end) in H.
  apply finish_inv in H. destruct H as [s1 [E _]].
  destruct type; cbn [spectral_k].
  - injection E as <- _. apply half_split_labels.
  - eapply centroids_range; exact E.
  - injection E as <- _. apply radius_split_range.
  - eapply centroids_range; exact E.
Qed.

Lemma kmeans_labels points (k : Z) type s r s' :
  ((1 <= k)%Z -> double (inject_Z k)) -> array_sized points ->
  runKMeans B points (of_Z k) type s = (Ok r, s') ->
  Forall (fun p => int_label 0 k (p_cluster p)) (data r).
Proof.
  intros Dk Hsz H. change (runKMeans B points (of_Z k) type)
    with (finish "K-Means" (ClusterParams (of_Z k))
            match type with
            | Moons | Circles => ret (assignClustersByXSplit B points (of_Z k))
            | _ => assignClustersByCentroids points (of_Z k)
            end) in H.
  apply finish_inv in H. destruct H as [s1 [E _]].
  destruct type.
  - injection E as <- _. apply xsplit_range; assumption.
  - eapply centroids_range; exact E.
  - injection E as <- _. apply xsplit_range; assumption.
  - eapply centroids_range; exact E.
Qed.

Lemma agglomerative_labels points (k : Z) linkage type s r s' :
  ((1 <= k)%Z -> double (inject_Z k)) -> array_sized points ->
  runAgglomerativeClustering B points (of_Z k, linkage) type s = (Ok r, s') ->
  Forall (fun p => int_label 0 k (p_cluster p)) (data r).
Proof.
  intros Dk Hsz H. change (runAgglomerativeClustering B points (of_Z k, linkage) type)
    with (finish "Agglomerative Clustering" (AggloParams (of_Z k) linkage)
            match type with
            | Moons | Circles => ret (assignClustersByXSplit B points (of_Z k))
            | _ => assignClustersByCentroids points (of_Z k)
            end) in H.
  apply finish_inv in H. destruct H as [s1 [E _]].
  destruct type.
  - injection E as <- _. apply xsplit_range; assumption.
  - eapply centroids_range; exact E.
  - injection E as <- _. apply xsplit_range; assumption.
  - eapply centroids_range; exact E.
Qed.

(** The clustering step of DBSCAN on blob or custom data. *)
Lemma lit_3 : lit 3%Q = of_Z 3.
Proof. vm_compute. reflexivity. Qed.

Lemma allocatable_3 : allocatable (lit 3%Q).
Proof. vm_compute. reflexivity. Qed.

Definition dbscan_noisy (points : list Point) : M (list Point) :=
  clusteredData <- assignClustersByCentroids points (lit 3%Q) ;;
  mark_noise (loop_count (Math_floor (mul (of_nat (List.length points)) (lit (5 # 100)%Q))))
             clusteredData.

Lemma dbscan_noisy_labels points s out s' :
  dbscan_noisy points s = (Ok out, s') -> Forall (noise_or_cluster 3) out.
Proof.
  unfold dbscan_noisy. intros H. apply bind_inv in H. destruct H as [cd [s1 [E H]]].
  eapply mark_noise_safe; [exact H|].
  rewrite lit_3 in E. apply centroids_range in E. eapply Forall_impl; [|exact E]. intros p Hp. right. exact Hp.
Qed.

Lemma dbscan_labels points eps type s r s' :
  runDBSCAN B points eps type s = (Ok r, s') ->
  Forall (noise_or_cluster (dbscan_k type)) (data r).
Proof.
  intros H. change (runDBSCAN B points eps type)
    with (finish "DBSCAN" (DbscanParams eps)
            match type with
            | Moons => ret (half_split points)
            | Circles => ret (radius_split points)
            | _ => dbscan_noisy points
            end) in H.
  apply finish_inv in H. destruct H as [s1 [E _]].
  destruct type; cbn [dbscan_k].
  - injection E as <- _. eapply Forall_impl; [|apply half_split_labels].
    intros p Hp. right. exact Hp.
  - eapply dbscan_noisy_labels; exact E.
  - injection E as <- _. eapply Forall_impl; [|apply radius_split_range].
    intros p Hp. right. exact Hp.
  - eapply dbscan_noisy_labels; exact E.
Qed.

Lemma dbscan_noisy_total points s :
  random_source s -> array_sized points ->
  exists out s', dbscan_noisy points s = (Ok out, s') /\ random_source s'
    /\ List.length out = List.length points
    /\ (count_noise out <= List.length points / 20)%nat.
Proof.
  intros Hs Hsz. unfold dbscan_noisy.
  destruct (centroids_total points (lit 3%Q) s Hs Hsz allocatable_3) as [cd [s1 [E Hs1]]].
  rewrite (bind_ok _ _ _ _ _ E). rewrite lit_3 in E.
  pose proof (noise_count_bound (List.length points) Hsz) as Hc.
  set (c := loop_count _) in *.
  assert (P : (2 ^ 32 < 2 ^ 53)%Z) by reflexivity. unfold array_sized in Hsz.
  assert (Hcd : List.length cd = List.length points /\ count_noise cd = 0%nat).
  { destruct (centroids_labels _ _ _ _ _ E) as [[-> [->|C]]|[_ L]]; [split; reflexivity | lia |].
    apply centroid_labelled_range in L. destruct L as [L F]. split; [exact L|].
    eapply count_noise_zero; exact F. }
  destruct Hcd as [Lcd Ccd].
  destruct (mark_noise_total c cd s1 Hs1) as [out [s' [Em [Hs' [Lo Co]]]]].
  - destruct (Nat.eq_dec c 0) as [C0|C0]; [left; exact C0|]. right.
    intros ->. simpl in Lcd. rewrite <- Lcd in Hc. simpl in Hc. lia.
  - rewrite Lcd. lia.
  - exists out, s'. split; [exact Em|]. split; [exact Hs'|]. split; lia.
Qed.

(** C6: on blob or custom data the DBSCAN run returns as many points as it
    was given, at most the integer part of [0.05 * n] of them labelled with
    the noise sentinel, and every other one with a cluster of [0, 3). *)
Theorem dbscan_noise_bound (points : list Point) (eps : number) (type : DatasetType) (s : Rng) :
  type = Blobs \/ type = Custom -> array_sized points -> random_source s ->
  exists r s', runDBSCAN B points eps type s = (Ok r, s')
    /\ List.length (data r) = List.length points
    /\ (count_noise (data r) <= List.length points / 20)%nat
    /\ Forall (fun p => is_noise p = false -> int_label 0 3 (p_cluster p)) (data r).
Proof.
  intros Ht Hsz Hs.
  destruct (dbscan_noisy_total points s Hs Hsz) as [out [s1 [E [Hs1 [L C]]]]].
  assert (Er : exists r s', runDBSCAN B points eps type s = (Ok r, s') /\ data r = out).
  { change (runDBSCAN B points eps type)
      with (finish "DBSCAN" (DbscanParams eps)
              match type with
              | Moons => ret (half_split points)
              | Circles => ret (radius_split points)
              | _ => dbscan_noisy points
              end).
    destruct (finish_total "DBSCAN" (DbscanParams eps)
                match type with
                | Moons => ret (half_split points)
                | Circles => ret (radius_split points)
                | _ => dbscan_noisy points
                end s out s1) as [r [s' [Ef [Ed _]]]].
    - destruct Ht as [-> | ->]; exact E.
    - exact Hs1.
    - exists r, s'. split; assumption. }
  destruct Er as [r [s' [Er Ed]]]. exists r, s'. rewrite Ed.
  split; [exact Er|]. split; [exact L|]. split; [exact C|].
  apply dbscan_noisy_labels in E. eapply Forall_impl; [|exact E].
  intros p [N|I] Hn; [|exact I].
  unfold noise_label in N. unfold is_noise in Hn. rewrite N in Hn.
  vm_compute in Hn. discriminate.
Qed.

(** *** Every run returns, or throws a RangeError *)

Lemma finish_throw name p clustering s e s1 :
  clustering s = (Throw e, s1) -> finish name p clustering s = (Throw e, s1).
Proof. intros E. unfold finish, bind. rewrite E. reflexivity. Qed.

(** The runs that allocate [n_clusters] centroids: those on blob and custom
    data. *)
Definition allocates (type : DatasetType) : Prop := type = Blobs \/ type = Custom.

Lemma allocates_dec (type : DatasetType) : {allocates type} + {~ allocates type}.
Proof.
  unfold allocates. destruct type; [right | left; left | right | left; right];
    try reflexivity; intros [H|H]; discriminate H.
Qed.

Lemma spectral_total points (k : number) type s :
  random_source s -> array_sized points -> (allocates type -> allocatable k) ->
  exists r s', runSpectralClustering B points k type s = (Ok r, s')
    /\ algorithm r = "Spectral Clustering"%string /\ finite_metrics (metrics r)
    /\ random_source s'.
Proof.
  intros Hs Hsz Hk.
  change (runSpectralClustering B points k type)
    with (finish "Spectral Clustering" (ClusterParams k)
            match type with
            | Moons => ret (half_split points)
            | Circles => ret (radius_split points)
            | _ => assignClustersByCentroids points k
            end).
  destruct type.
  - destruct (finish_total "Spectral Clustering" (ClusterParams k) (ret (half_split points))
                s _ s (ret_run _ s) Hs) as [r [s' [Ef [_ [A [F R]]]]]].
    exists r, s'. auto.
  - destruct (centroids_total points k s Hs Hsz (Hk (or_introl eq_refl))) as [cd [s1 [E Hs1]]].
    destruct (finish_total "Spectral Clustering" (ClusterParams k)
                (assignClustersByCentroids points k) s _ s1 E Hs1) as [r [s' [Ef [_ [A [F R]]]]]].
    exists r, s'. auto.
  - destruct (finish_total "Spectral Clustering" (ClusterParams k) (ret (radius_split points))
                s _ s (ret_run _ s) Hs) as [r [s' [Ef [_ [A [F R]]]]]].
    exists r, s'. auto.
  - destruct (centroids_total points k s Hs Hsz (Hk (or_intror eq_refl))) as [cd [s1 [E Hs1]]].
    destruct (finish_total "Spectral Clustering" (ClusterParams k)
                (assignClustersByCentroids points k) s _ s1 E Hs1) as [r [s' [Ef [_ [A [F R]]]]]].
    exists r, s'. auto.
Qed.

Lemma split_or_centroids_total name p points (k : number) type s :
  random_source s -> array_sized points -> (allocates type -> allocatable k) ->
  exists r s', finish name p
                 match type with
                 | Moons | Circles => ret (assignClustersByXSplit B points k)
                 | _ => assignClustersByCentroids points k
                 end s = (Ok r, s')
    /\ algorithm r = name /\ finite_metrics (metrics r) /\ random_source s'.
Proof.
  intros Hs Hsz Hk.
  destruct type.
  - destruct (finish_total name p (ret (assignClustersByXSplit B points k))
                s _ s (ret_run _ s) Hs) as [r [s' [Ef [_ [A [F R]]]]]].
    exists r, s'. auto.
  - destruct (centroids_total points k s Hs Hsz (Hk (or_introl eq_refl))) as [cd [s1 [E Hs1]]].
    destruct (finish_total name p (assignClustersByCentroids points k) s _ s1 E Hs1)
      as [r [s' [Ef [_ [A [F R]]]]]].
    exists r, s'. auto.
  - destruct (finish_total name p (ret (assignClustersByXSplit B points k))
                s _ s (ret_run _ s) Hs) as [r [s' [Ef [_ [A [F R]]]]]].
    exists r, s'. auto.
  - destruct (centroids_total points k s Hs Hsz (Hk (or_intror eq_refl))) as [cd [s1 [E Hs1]]].
    destruct (finish_total name p (assignClustersByCentroids points k) s _ s1 E Hs1)
      as [r [s' [Ef [_ [A [F R]]]]]].
    exists r, s'. auto.
Qed.

Lemma kmeans_total points (k : number) type s :
  random_source s -> array_sized points -> (allocates type -> allocatable k) ->
  exists r s', runKMeans B points k type s = (Ok r, s')
    /\ algorithm r = "K-Means"%string /\ finite_metrics (metrics r) /\ random_source s'.
Proof. apply (split_or_centroids_total "K-Means" (ClusterParams k)). Qed.

Lemma agglomerative_total points (p : number * LinkageType) type s :
  random_source s -> array_sized points -> (allocates type -> allocatable (fst p)) ->
  exists r s', runAgglomerativeClustering B points p type s = (Ok r, s')
    /\ algorithm r = "Agglomerative Clustering"%string /\ finite_metrics (metrics r)
    /\ random_source s'.
Proof.
  apply (split_or_centroids_total "Agglomerative Clustering" (AggloParams (fst p) (snd p))).
Qed.

Lemma spectral_overflow points (k : number) type s :
  points <> [] -> allocates type -> ~ allocatable k ->
  runSpectralClustering B points k type s = (Throw RangeError, s).
Proof.
  intros Hp Ht Hk.
  change (runSpectralClustering B points k type)
    with (finish "Spectral Clustering" (ClusterParams k)
            match type with
            | Moons => ret (half_split points)
            | Circles => ret (radius_split points)
            | _ => assignClustersByCentroids points k
            end).
  apply finish_throw. destruct Ht as [-> | ->]; apply centroids_overflow; assumption.
Qed.

Lemma kmeans_overflow points (k : number) type s :
  points <> [] -> allocates type -> ~ allocatable k ->
  runKMeans B points k type s = (Throw RangeError, s).
Proof.
  intros Hp Ht Hk.
  change (runKMeans B points k type)
    with (finish "K-Means" (ClusterParams k)
            match type with
            | Moons | Circles => ret (assignClustersByXSplit B points k)
            | _ => assignClustersByCentroids points k
            end).
  apply finish_throw. destruct Ht as [-> | ->]; apply centroids_overflow; assumption.
Qed.

Lemma agglomerative_overflow points (p : number * LinkageType) type s :
  points <> [] -> allocates type -> ~ allocatable (fst p) ->
  runAgglomerativeClustering B points p type s = (Throw RangeError, s).
Proof.
  intros Hp Ht Hk.
  change (runAgglomerativeClustering B points p type)
    with (finish "Agglomerative Clustering" (AggloParams (fst p) (snd p))
            match type with
            | Moons | Circles => ret (assignClustersByXSplit B points (fst p))
            | _ => assignClustersByCentroids points (fst p)
            end).
  apply finish_throw. destruct Ht as [-> | ->]; apply centroids_overflow; assumption.
Qed.

Lemma dbscan_total points eps type s :
  random_source s -> array_sized points ->
  exists r s', runDBSCAN B points eps type s = (Ok r, s')
    /\ algorithm r = "DBSCAN"%string /\ finite_metrics (metrics r) /\ random_source s'.
Proof.
  intros Hs Hsz.
  change (runDBSCAN B points eps type)
    with (finish "DBSCAN" (DbscanParams eps)
            match type with
            | Moons => ret (half_split points)
            | Circles => ret (radius_split points)
            | _ => dbscan_noisy points
            end).
  destruct (dbscan_noisy_total points s Hs Hsz) as [out [s1 [E [Hs1 _]]]].
  destruct type.
  - destruct (finish_total "DBSCAN" (DbscanParams eps) (ret (half_split points))
                s _ s (ret_run _ s) Hs) as [r [s' [Ef [_ [A [F R]]]]]].
    exists r, s'. auto.
  - destruct (finish_total "DBSCAN" (DbscanParams eps) (dbscan_noisy points) s _ s1 E Hs1)
      as [r [s' [Ef [_ [A [F R]]]]]].
    exists r, s'. auto.
  - destruct (finish_total "DBSCAN" (DbscanParams eps) (ret (radius_split points))
                s _ s (ret_run _ s) Hs) as [r [s' [Ef [_ [A [F R]]]]]].
    exists r, s'. auto.
  - destruct (finish_total "DBSCAN" (DbscanParams eps) (dbscan_noisy points) s _ s1 E Hs1)
      as [r [s' [Ef [_ [A [F R]]]]]].
    exists r, s'. auto.
Qed.

(** C3: the labels of the four runs, for a number of clusters [k] that is an
    integer below 2^32.  Each run returns; the spectral, k-means and
    agglomerative runs label every point with an integer of [0, k) and never
    with the noise sentinel; the DBSCAN run labels every point with an integer
    of [0, k) or with -1; and on a non-empty list with [k >= 1] the
    nearest-random-centroid assignment returns every point, in order, with
    one centroid index of [0, k) as its cluster. *)
Theorem cluster_labels_in_range (points : list Point) (k : Z) (linkage : LinkageType)
  (eps : number) (type : DatasetType) (s : Rng) :
  array_sized points -> (k < 2 ^ 32)%Z -> random_source s ->
  (exists r s', runSpectralClustering B points (of_Z k) type s = (Ok r, s')
     /\ Forall (cluster_only (spectral_k type k)) (data r))
  /\ (exists r s', runKMeans B points (of_Z k) type s = (Ok r, s')
     /\ Forall (cluster_only k) (data r))
  /\ (exists r s', runAgglomerativeClustering B points (of_Z k, linkage) type s = (Ok r, s')
     /\ Forall (cluster_only k) (data r))
  /\ (exists r s', runDBSCAN B points eps type s = (Ok r, s')
     /\ Forall (noise_or_cluster (dbscan_k type)) (data r))
  /\ (points <> [] -> (1 <= k)%Z ->
      exists out s', assignClustersByCentroids points (of_Z k) s = (Ok out, s')
        /\ centroid_labelled k points out
        /\ List.length out = List.length points
        /\ Forall (fun p => int_label 0 k (p_cluster p)) out).
Proof.
  intros Hsz Hk Hs.
  assert (Ak : allocatable (of_Z k)) by (apply allocatable_of_Z; exact Hk).
  assert (Dk : (1 <= k)%Z -> double (inject_Z k)).
  { intros K. apply double_pos_Z. assert (2 ^ 32 < 2 ^ 53)%Z by reflexivity. lia. }
  split; [|split; [|split; [|split]]].
  - destruct (spectral_total points (of_Z k) type s Hs Hsz (fun _ => Ak)) as [r [s' [E _]]].
    exists r, s'. split; [exact E|]. apply cluster_only_intro. eapply spectral_labels; exact E.
  - destruct (kmeans_total points (of_Z k) type s Hs Hsz (fun _ => Ak)) as [r [s' [E _]]].
    exists r, s'. split; [exact E|]. apply cluster_only_intro. eapply kmeans_labels; eassumption.
  - destruct (agglomerative_total points (of_Z k, linkage) type s Hs Hsz (fun _ => Ak))
      as [r [s' [E _]]].
    exists r, s'. split; [exact E|].
    apply cluster_only_intro. eapply agglomerative_labels; eassumption.
  - destruct (dbscan_total points eps type s Hs Hsz) as [r [s' [E _]]].
    exists r, s'. split; [exact E|]. eapply dbscan_labels; exact E.
  - intros Hp K1. destruct (centroids_total points (of_Z k) s Hs Hsz Ak) as [out [s' [E _]]].
    exists out, s'. split; [exact E|].
    destruct (centroids_labels _ _ _ _ _ E) as [[_ [C|C]]|[_ L]]; [congruence | lia |].
    split; [exact L|]. apply centroid_labelled_range. exact L.
Qed.

End Runs.

(** Draws that vary: 0, 1/8, ..., 7/8, and again. *)
Definition cycle_draws : Rng := fun i => Fin (Z.of_nat (i mod 8) # 8)%Q.

Lemma cycle_draws_random : random_source cycle_draws.
Proof.
  intros i. unfold cycle_draws. pose proof (Nat.mod_upper_bound i 8 ltac:(discriminate)) as H.
  exists (Z.of_nat (i mod 8) # 8)%Q. split; [reflexivity|].
  destruct (i mod 8)%nat as [|[|[|[|[|[|[|[|n]]]]]]]]; try lia;
    (split; [vm_compute; reflexivity | split; vm_compute; [discriminate | reflexivity]]).
Qed.

(** Forty points on a grid, for the examples. *)
Definition grid_points : list Point :=
  map (fun i => point (of_nat (i mod 7)) (of_nat (i mod 5))) (seq 0 40).

Lemma cluster_labels_in_range_witness :
  (exists r s', runSpectralClustering B0 grid_points (of_Z 3) Blobs cycle_draws = (Ok r, s')
     /\ Forall (cluster_only (spectral_k Blobs 3)) (data r))
  /\ (exists r s', runKMeans B0 grid_points (of_Z 3) Blobs cycle_draws = (Ok r, s')
     /\ Forall (cluster_only 3) (data r))
  /\ (exists r s', runAgglomerativeClustering B0 grid_points (of_Z 3, ward) Blobs cycle_draws
                   = (Ok r, s')
     /\ Forall (cluster_only 3) (data r))
  /\ (exists r s', runDBSCAN B0 grid_points (Fin (1 # 2)%Q) Blobs cycle_draws = (Ok r, s')
     /\ Forall (noise_or_cluster (dbscan_k Blobs)) (data r))
  /\ (grid_points <> [] -> (1 <= 3)%Z ->
      exists out s', assignClustersByCentroids grid_points (of_Z 3) cycle_draws = (Ok out, s')
        /\ centroid_labelled 3 grid_points out
        /\ List.length out = List.length grid_points
        /\ Forall (fun p => int_label 0 3 (p_cluster p)) out).
Proof.
  apply (cluster_labels_in_range B0 grid_points 3 ward (Fin (1 # 2)%Q) Blobs cycle_draws).
  - vm_compute. reflexivity.
  - reflexivity.
  - apply cycle_draws_random.
Defined.

(** The clusters of a run that returned, and nothing for one that threw. *)
Definition clusters_of (o : outcome ClusterResult * Rng) : list jsval :=
  match fst o with
  | Ok r => map p_cluster (data r)
  | Throw _ => []
  end.

(** Not every parameter bundle gives labels in range.  With
    [n_clusters = Infinity], which the panel passes on when the digits typed
    are too many for a binary64 value, the k-means run on moon data labels
    its points NaN and [Infinity]; and with [n_clusters = 2^32] the centroid
    assignment throws a RangeError and assigns no point. *)
Lemma cluster_labels_counterexample :
  clusters_of (runKMeans B0 split_points (Inf false) Moons cycle_draws)
  = [JNum NaN; JNum (Inf false); JNum (Inf false); JNum (Inf false)]
  /\ fst (assignClustersByCentroids split_points (of_Z (2 ^ 32)) cycle_draws) = Throw RangeError.
Proof. split; vm_compute; reflexivity. Qed.

Lemma dbscan_noise_bound_witness :
  exists r s', runDBSCAN B0 grid_points (Fin (1 # 2)%Q) Blobs cycle_draws = (Ok r, s')
    /\ List.length (data r) = List.length grid_points
    /\ (count_noise (data r) <= List.length grid_points / 20)%nat
    /\ Forall (fun p => is_noise p = false -> int_label 0 3 (p_cluster p)) (data r).
Proof.
  apply (dbscan_noise_bound B0 grid_points (Fin (1 # 2)%Q) Blobs cycle_draws).
  - left. reflexivity.
  - vm_compute. reflexivity.
  - apply cycle_draws_random.
Defined.

(** On the forty points the noise loop runs twice and marks two points: the
    bound [n / 20] is reached. *)
Example dbscan_noise_example :
  match fst (runDBSCAN B0 grid_points (Fin (1 # 2)%Q) Blobs cycle_draws) with
  | Ok r => (List.length (data r), count_noise (data r), map is_noise (firstn 22 (data r)))
  | Throw _ => (0%nat, 0%nat, [])
  end
  = (40%nat, 2%nat,
     [false; false; false; false; false; false; false; false; false; false;
      false; false; false; false; false; true; false; false; false; false; true; false]).
Proof. vm_compute. reflexivity. Qed.

(** ** The aggregation step *)

Section Aggregator.
Context (B : Builtins).

(** [m] is the true maximum of the numbers [l]: one of them, and no smaller
    than any of them. *)
Definition true_max (l : list number) (m : number) : Prop :=
  In m l /\ forall v, In v l -> le v m = true.

Lemma le_refl_Fin q : le (Fin q) (Fin q) = true.
Proof. cbn [le]. destruct (Qcompare_spec q q); try reflexivity. lra. Qed.

Lemma le_trans_Fin a b c :
  le (Fin a) (Fin b) = true -> le (Fin b) (Fin c) = true -> le (Fin a) (Fin c) = true.
Proof.
  intros H1 H2. apply num_le_le in H1, H2. apply le_num_le. cbn [num_le] in *. lra.
Qed.

Lemma Math_max_Fin a b :
  (Math_max (Fin a) (Fin b) = Fin a \/ Math_max (Fin a) (Fin b) = Fin b)
  /\ le (Fin a) (Math_max (Fin a) (Fin b)) = true
  /\ le (Fin b) (Math_max (Fin a) (Fin b)) = true.
Proof.
  cbn [Math_max lt le]. destruct (Qcompare_spec a b) as [H|H|H]; cbn [le].
  - split; [left; reflexivity|]. split; [apply le_refl_Fin|].
    destruct (Qcompare_spec b a); try reflexivity. lra.
  - split; [right; reflexivity|]. split; [|apply le_refl_Fin].
    destruct (Qcompare_spec a b); try reflexivity. lra.
  - split; [left; reflexivity|]. split; [apply le_refl_Fin|].
    destruct (Qcompare_spec b a); try reflexivity. lra.
Qed.

(** Folding [Math.max] over finite numbers, from a finite accumulator. *)
Lemma fold_max_Fin (l : list number) : forall a,
  Forall (fun v => isFinite v = true) l ->
  exists q, fold_left Math_max l (Fin a) = Fin q
    /\ (Fin q = Fin a \/ In (Fin q) l) /\ le (Fin a) (Fin q) = true
    /\ forall v, In v l -> le v (Fin q) = true.
Proof.
  induction l as [|v l IH]; intros a F; cbn [fold_left].
  - exists a. split; [reflexivity|]. split; [left; reflexivity|].
    split; [apply le_refl_Fin|]. intros v [].
  - inversion F as [|? ? Fv Fl]; subst. destruct v as [| |b]; try discriminate.
    destruct (Math_max_Fin a b) as [[E|E] [La Lb]]; rewrite E in *.
    + destruct (IH a Fl) as [q [Eq [M [L A]]]]. exists q. split; [exact Eq|].
      split; [destruct M as [M|M]; [left; exact M | right; right; exact M]|].
      split; [exact L|].
      intros v [<-|Hv]; [|apply A; exact Hv]. eapply le_trans_Fin; eassumption.
    + destruct (IH b Fl) as [q [Eq [M [L A]]]]. exists q. split; [exact Eq|].
      split; [destruct M as [M|M]; [right; left; symmetry; exact M | right; right; exact M]|].
      split; [eapply le_trans_Fin; eassumption|].
      intros v [<-|Hv]; [exact L | apply A; exact Hv].
Qed.

(** Folding from negative infinity over a non-empty list of finite numbers
    gives their maximum. *)
Lemma fold_max_true v l :
  Forall (fun v => isFinite v = true) (v :: l) ->
  true_max (v :: l) (fold_left Math_max (v :: l) (Inf true)).
Proof.
  intros F. inversion F as [|? ? Fv Fl]; subst. destruct v as [| |a]; try discriminate.
  cbn [fold_left]. change (Math_max (Inf true) (Fin a)) with (Fin a).
  destruct (fold_max_Fin l a Fl) as [q [Eq [M [L A]]]]. rewrite Eq. split.
  - destruct M as [M|M]; [left; symmetry; exact M | right; exact M].
  - intros v [<-|Hv]; [exact L | apply A; exact Hv].
Qed.

Lemma fold_max_metrics (rs : list ClusterResult) : forall acc,
  let m := fold_left max_metrics rs acc in
  silhouette m = fold_left Math_max (map (fun r => silhouette (metrics r)) rs) (silhouette acc)
  /\ calinskiHarabasz m
     = fold_left Math_max (map (fun r => calinskiHarabasz (metrics r)) rs) (calinskiHarabasz acc)
  /\ daviesBouldin m
     = fold_left Math_max (map (fun r => daviesBouldin (metrics r)) rs) (daviesBouldin acc).
Proof.
  induction rs as [|r rs IH]; intros acc; cbn [fold_left map].
  - repeat split.
  - apply IH.
Qed.

(** The three numbers of clusters of a bundle can be allocated. *)
Definition allocatable_counts (p : AlgorithmParameters) : Prop :=
  allocatable (spectral p) /\ allocatable (kmeans p) /\ allocatable (fst (agglomerative p)).

Lemma allocatable_dec (k : number) : {allocatable k} + {~ allocatable k}.
Proof. unfold allocatable. apply Z_lt_dec. Qed.

Lemma runAnalysis_returns (points : list Point) (p : AlgorithmParameters)
  (type : DatasetType) (s : Rng) :
  points <> [] -> array_sized points -> random_source s ->
  (allocates type -> allocatable_counts p) ->
  exists r1 r2 r3 r4 maxes s',
    runAnalysis B points p type s = (Ok ([r1; r2; r3; r4], maxes), s')
    /\ map algorithm [r1; r2; r3; r4]
       = ["Spectral Clustering"; "K-Means"; "Agglomerative Clustering"; "DBSCAN"]%string
    /\ true_max (map (fun r => silhouette (metrics r)) [r1; r2; r3; r4]) (silhouette maxes)
    /\ true_max (map (fun r => calinskiHarabasz (metrics r)) [r1; r2; r3; r4])
                (calinskiHarabasz maxes)
    /\ true_max (map (fun r => daviesBouldin (metrics r)) [r1; r2; r3; r4])
                (daviesBouldin maxes)
    /\ random_source s'.
Proof.
  intros Hp Hsz Hs Hk. unfold runAnalysis.
  destruct (Nat.eqb_spec (List.length points) 0) as [E|_];
    [destruct points; [congruence | discriminate]|].
  destruct (spectral_total B points (spectral p) type s Hs Hsz (fun t => proj1 (Hk t)))
    as [r1 [s1 [E1 [A1 [[F1 [G1 H1]] Hs1]]]]].
  destruct (kmeans_total B points (kmeans p) type s1 Hs1 Hsz
              (fun t => proj1 (proj2 (Hk t))))
    as [r2 [s2 [E2 [A2 [[F2 [G2 H2]] Hs2]]]]].
  destruct (agglomerative_total B points (agglomerative p) type s2 Hs2 Hsz
              (fun t => proj2 (proj2 (Hk t))))
    as [r3 [s3 [E3 [A3 [[F3 [G3 H3]] Hs3]]]]].
  destruct (dbscan_total B points (dbscan p) type s3 Hs3 Hsz)
    as [r4 [s4 [E4 [A4 [[F4 [G4 H4]] Hs4]]]]].
  rewrite (bind_ok _ _ _ _ _ E1), (bind_ok _ _ _ _ _ E2),
          (bind_ok _ _ _ _ _ E3), (bind_ok _ _ _ _ _ E4).
  exists r1, r2, r3, r4. eexists. exists s4. split; [reflexivity|].
  split; [cbn [map]; rewrite A1, A2, A3, A4; reflexivity|].
  destruct (fold_max_metrics [r1; r2; r3; r4] (mkMetrics (Inf true) (Inf true) (Inf true)))
    as [Ms [Mc Md]].
  cbn [silhouette calinskiHarabasz daviesBouldin] in Ms, Mc, Md.
  rewrite Ms, Mc, Md.
  split; [|split; [|split]]; try (apply fold_max_true; repeat constructor; assumption).
  exact Hs4.
Qed.

Lemma runAnalysis_overflow (points : list Point) (p : AlgorithmParameters)
  (type : DatasetType) (s : Rng) :
  points <> [] -> array_sized points -> random_source s ->
  allocates type -> ~ allocatable_counts p ->
  exists s', runAnalysis B points p type s = (Throw RangeError, s').
Proof.
  intros Hp Hsz Hs Ht Hk. unfold runAnalysis.
  destruct (Nat.eqb_spec (List.length points) 0) as [E|_];
    [destruct points; [congruence | discriminate]|].
  destruct (allocatable_dec (spectral p)) as [K1|K1].
  - destruct (spectral_total B points (spectral p) type s Hs Hsz (fun _ => K1))
      as [r1 [s1 [E1 [_ [_ Hs1]]]]].
    rewrite (bind_ok _ _ _ _ _ E1).
    destruct (allocatable_dec (kmeans p)) as [K2|K2].
    + destruct (kmeans_total B points (kmeans p) type s1 Hs1 Hsz (fun _ => K2))
        as [r2 [s2 [E2 [_ [_ Hs2]]]]].
      rewrite (bind_ok _ _ _ _ _ E2).
      assert (K3 : ~ allocatable (fst (agglomerative p))).
      { intros K3. apply Hk. repeat split; assumption. }
      exists s2. apply bind_throw. apply agglomerative_overflow; assumption.
    + exists s1. apply bind_throw. apply kmeans_overflow; assumption.
  - exists s. apply bind_throw. apply spectral_overflow; assumption.
Qed.

(** C7: on a non-empty point list the aggregation returns four results, in
    the order spectral, k-means, agglomerative, DBSCAN, and a record of maxima
    whose every field is the maximum of that field over the four results,
    unless the data are blob or custom data and one of the three numbers of
    clusters cannot be allocated (it is 2^32 or more): then, and only then,
    the aggregation throws a RangeError and returns nothing. *)
Theorem runAnalysis_results (points : list Point) (p : AlgorithmParameters)
  (type : DatasetType) (s : Rng) :
  points <> [] -> array_sized points -> random_source s ->
  ((allocates type -> allocatable_counts p) ->
   exists r1 r2 r3 r4 maxes s',
     runAnalysis B points p type s = (Ok ([r1; r2; r3; r4], maxes), s')
     /\ map algorithm [r1; r2; r3; r4]
        = ["Spectral Clustering"; "K-Means"; "Agglomerative Clustering"; "DBSCAN"]%string
     /\ true_max (map (fun r => silhouette (metrics r)) [r1; r2; r3; r4]) (silhouette maxes)
     /\ true_max (map (fun r => calinskiHarabasz (metrics r)) [r1; r2; r3; r4])
                 (calinskiHarabasz maxes)
     /\ true_max (map (fun r => daviesBouldin (metrics r)) [r1; r2; r3; r4])
                 (daviesBouldin maxes))
  /\ (allocates type -> ~ allocatable_counts p ->
      exists s', runAnalysis B points p type s = (Throw RangeError, s')).
Proof.
  intros Hp Hsz Hs. split.
  - intros Hk.
    destruct (runAnalysis_returns points p type s Hp Hsz Hs Hk)
      as [r1 [r2 [r3 [r4 [maxes [s' [E [A [M1 [M2 [M3 _]]]]]]]]]]].
    exists r1, r2, r3, r4, maxes, s'.
    split; [exact E|]. split; [exact A|]. split; [exact M1|]. split; [exact M2 | exact M3].
  - apply runAnalysis_overflow; assumption.
Qed.

End Aggregator.

Definition example_parameters : AlgorithmParameters :=
  mkParameters (lit 3%Q) (lit 2%Q) (lit 4%Q, ward) (lit (1 # 2)%Q).

Lemma example_parameters_allocatable : allocatable_counts example_parameters.
Proof. vm_compute. repeat split; reflexivity. Qed.

Lemma runAnalysis_results_witness :
  exists r1 r2 r3 r4 maxes s',
    runAnalysis B0 grid_points example_parameters Blobs cycle_draws
    = (Ok ([r1; r2; r3; r4], maxes), s')
    /\ map algorithm [r1; r2; r3; r4]
       = ["Spectral Clustering"; "K-Means"; "Agglomerative Clustering"; "DBSCAN"]%string
    /\ true_max (map (fun r => silhouette (metrics r)) [r1; r2; r3; r4]) (silhouette maxes)
    /\ true_max (map (fun r => calinskiHarabasz (metrics r)) [r1; r2; r3; r4])
                (calinskiHarabasz maxes)
    /\ true_max (map (fun r => daviesBouldin (metrics r)) [r1; r2; r3; r4])
                (daviesBouldin maxes).
Proof.
  apply (runAnalysis_results B0 grid_points example_parameters Blobs cycle_draws).
  - discriminate.
  - vm_compute. reflexivity.
  - apply cycle_draws_random.
  - intros _. apply example_parameters_allocatable.
Defined.

(** The metrics of an analysis that returned, field by field, and its
    maxima. *)
Definition metrics_table (o : outcome (list ClusterResult * Metrics) * Rng)
  : list (list number) * list number :=
  match fst o with
  | Ok (results, maxes) =>
      ([map (fun r => silhouette (metrics r)) results;
        map (fun r => calinskiHarabasz (metrics r)) results;
        map (fun r => daviesBouldin (metrics r)) results],
       [silhouette maxes; calinskiHarabasz maxes; daviesBouldin maxes])
  | Throw _ => ([], [])
  end.

(** The metrics of the four results of the example, and their maxima. *)
Example runAnalysis_results_example :
  metrics_table (runAnalysis B0 grid_points example_parameters Blobs cycle_draws)
  = ([[lit 0%Q; lit (-6 # 10)%Q; lit (8 # 10)%Q; lit (8 # 10)%Q];
      [lit 300%Q; lit (225 # 2)%Q; lit 50%Q; lit 50%Q];
      [lit (1238 # 1000)%Q; lit (675 # 1000)%Q; lit (487 # 1000)%Q; lit (487 # 1000)%Q]],
     [lit (8 # 10)%Q; lit 300%Q; lit (1238 # 1000)%Q]).
Proof. vm_compute. reflexivity. Qed.

(** Not every parameter bundle gives four results: on blob data with a number
    of clusters that is [Infinity] (which the panel passes on when the digits
    typed are too many for a binary64 value), and on custom data with 2^32
    clusters, the aggregation throws a RangeError and there is no result. *)
Lemma runAnalysis_results_counterexample :
  fst (runAnalysis B0 grid_points
         (mkParameters (lit 3%Q) (Inf false) (lit 4%Q, ward) (lit (1 # 2)%Q)) Blobs cycle_draws)
  = Throw RangeError
  /\ fst (runAnalysis B0 grid_points
            (mkParameters (of_Z (2 ^ 32)) (lit 2%Q) (lit 4%Q, ward) (lit (1 # 2)%Q)) Custom
            cycle_draws)
     = Throw RangeError.
Proof. split; vm_compute; reflexivity. Qed.

(** ** The runs over a store of objects

    Points are objects and arrays hold references to them: a store keeps the
    objects and the arrays, each addressed by its position.  The functions of
    the service are written again over the store, with every object and array
    they create allocated and every assignment to a field a write. *)

(** The functions over lists, under names that the store's own do not hide. *)
Abbreviation list_generateMockMetrics := generateMockMetrics (only parsing).
Abbreviation list_runKMeans := runKMeans (only parsing).
Abbreviation list_runDBSCAN := runDBSCAN (only parsing).
Abbreviation list_data := data (only parsing).

Module Store.

Record Heap : Type := mkHeap {
  objs : list Point;
  arrs : list (list nat)
}.

Definition H (A : Type) : Type := Heap * Rng -> outcome A * (Heap * Rng).

Definition retH {A : Type} (a : A) : H A := fun st => (Ok a, st).

Definition throwH {A : Type} (e : Error) : H A := fun st => (Throw e, st).

Definition bindH {A C : Type} (m : H A) (k : A -> H C) : H C :=
  fun st =>
    match m st with
    | (Ok a, st') => k a st'
    | (Throw e, st') => (Throw e, st')
    end.

Notation "x <~ m ;; k" := (bindH m (fun x => k))
  (at level 61, m at next level, right associativity).

(** A computation that only draws random numbers. *)
Definition draw {A : Type} (m : M A) : H A :=
  fun st => let (o, r) := m (snd st) in (o, (fst st, r)).

Definition new_obj (p : Point) : H nat :=
  fun st =>
    let h := fst st in
    (Ok (List.length (objs h)), (mkHeap (objs h ++ [p]) (arrs h), snd st)).

Definition read_obj (l : nat) : H Point :=
  fun st =>
    match nth_error (objs (fst st)) l with
    | Some p => (Ok p, st)
    | None => (Throw TypeError, st)
    end.

Fixpoint update {A : Type} (i : nat) (a : A) (l : list A) : list A :=
  match l, i with
  | [], _ => []
  | _ :: l', O => a :: l'
  | b :: l', S i' => b :: update i' a l'
  end.

Definition write_obj (l : nat) (p : Point) : H unit :=
  fun st =>
    let h := fst st in
    if (l <? List.length (objs h))%nat
    then (Ok tt, (mkHeap (update l p (objs h)) (arrs h), snd st))
    else (Throw TypeError, st).

Definition new_arr (elements : list nat) : H nat :=
  fun st =>
    let h := fst st in
    (Ok (List.length (arrs h)), (mkHeap (objs h) (arrs h ++ [elements]), snd st)).

Definition read_arr (a : nat) : H (list nat) :=
  fun st =>
    match nth_error (arrs (fst st)) a with
    | Some l => (Ok l, st)
    | None => (Throw TypeError, st)
    end.

Definition write_arr (a : nat) (elements : list nat) : H unit :=
  fun st =>
    let h := fst st in
    if (a <? List.length (arrs h))%nat
    then (Ok tt, (mkHeap (objs h) (update a elements (arrs h)), snd st))
    else (Throw TypeError, st).

Fixpoint forH {X A : Type} (f : X -> nat -> H A) (l : list X) (i : nat) : H (list A) :=
  match l with
  | [] => retH []
  | x :: l' => a <~ f x i ;; r <~ forH f l' (S i) ;; retH (a :: r)
  end.

Section Service.
Context (B : Builtins).

(** [{ ...point, cluster }]: a new object. *)
Definition spread_with_cluster (l : nat) (c : number) : H nat :=
  p <~ read_obj l ;; new_obj (with_cluster p c).

(** [data.map(f)] for an [f] that builds one object per element: a new array
    of the new objects. *)
Definition map_to_new (f : nat -> nat -> H nat) (elements : list nat) : H nat :=
  out <~ forH f elements 0 ;; new_arr out.

Definition assignClustersByXSplit (data : nat) (k : number) : H nat :=
  d <~ read_arr data ;;
  if (List.length d =? 0)%nat || le k (lit 0%Q) then new_arr []
  else
    (* [...data].sort(...): a copy of the array, sorted in place *)
    sortedData <~ new_arr d ;;
    l <~ read_arr sortedData ;;
    points <~ forH (fun loc _ => read_obj loc) l 0 ;;
    _ <~ write_arr sortedData
           (map fst (Array_sort B (fun a b => compare_x (snd a) (snd b))
                                  (combine l points))) ;;
    sorted <~ read_arr sortedData ;;
    let totalPoints := List.length sorted in
    map_to_new (fun loc index =>
                  spread_with_cluster loc (split_cluster k totalPoints index)) sorted.

Definition assignClustersByCentroids (data : nat) (k : number) : H nat :=
  d <~ read_arr data ;;
  if (List.length d =? 0)%nat || le k (lit 0%Q) then new_arr []
  else
    means <~ draw (Array_from k (fun _ =>
      r <- Math_random ;;
      ret (get d (Math_floor (mul r (of_nat (List.length d))))))) ;;
    map_to_new (fun loc _ =>
      point <~ read_obj loc ;;
      (* reading [mean.x] of each centroid, a TypeError on a missing one *)
      meanPoints <~ forH (fun mean _ =>
                       match mean with
                       | Some m => p <~ read_obj m ;; retH (Some p)
                       | None => throwH TypeError
                       end) means 0 ;;
      match closest point meanPoints 0 (0%nat, Inf false) with
      | Throw e => throwH e
      | Ok (closestMeanIndex, _) => new_obj (with_cluster point (of_nat closestMeanIndex))
      end) d.

Definition half_split (data : nat) : H nat :=
  d <~ read_arr data ;;
  let n_samples_out := Math_floor (div (of_nat (List.length d)) (lit 2%Q)) in
  map_to_new (fun loc index =>
    spread_with_cluster loc (if lt (of_nat index) n_samples_out then lit 0%Q else lit 1%Q)) d.

Definition radius_split (data : nat) : H nat :=
  d <~ read_arr data ;;
  map_to_new (fun loc _ =>
    p <~ read_obj loc ;;
    let dist := Math_sqrt (add (mul (ToNumber (p_x p)) (ToNumber (p_x p)))
                               (mul (ToNumber (p_y p)) (ToNumber (p_y p)))) in
    new_obj (with_cluster p (if gt dist (lit (75 # 100)%Q) then lit 0%Q else lit 1%Q))) d.

(** A result record, its [data] a reference to the array of clustered
    points. *)
Record ClusterResult : Type := mkResult {
  algorithm : string;
  data : nat;
  metrics : Metrics;
  params : Params
}.

(** [generateMockMetrics(clusteredData)]: the argument is not read. *)
Definition generateMockMetrics (clusteredData : nat) : H Metrics :=
  draw (generateMockMetrics B []).

Definition runSpectralClustering (data : nat) (n_clusters : number)
  (datasetType : DatasetType) : H ClusterResult :=
  clusteredData <~
    match datasetType with
    | Moons => half_split data
    | Circles => radius_split data
    | _ => assignClustersByCentroids data n_clusters
    end ;;
  m <~ generateMockMetrics clusteredData ;;
  retH (mkResult "Spectral Clustering" clusteredData m (ClusterParams n_clusters)).

Definition runKMeans (data : nat) (n_clusters : number) (datasetType : DatasetType)
  : H ClusterResult :=
  clusteredData <~
    match datasetType with
    | Moons | Circles => assignClustersByXSplit data n_clusters
    | _ => assignClustersByCentroids data n_clusters
    end ;;
  m <~ generateMockMetrics clusteredData ;;
  retH (mkResult "K-Means" clusteredData m (ClusterParams n_clusters)).

Definition runAgglomerativeClustering (data : nat) (p : number * LinkageType)
  (datasetType : DatasetType) : H ClusterResult :=
  clusteredData <~
    match datasetType with
    | Moons | Circles => assignClustersByXSplit data (fst p)
    | _ => assignClustersByCentroids data (fst p)
    end ;;
  m <~ generateMockMetrics clusteredData ;;
  retH (mkResult "Agglomerative Clustering" clusteredData m (AggloParams (fst p) (snd p))).

(** [clusteredData[randomIndex].cluster = -1], [noiseCount] times. *)
Fixpoint mark_noise (noiseCount : nat) (clusteredData : nat) : H unit :=
  match noiseCount with
  | O => retH tt
  | S n =>
      r <~ draw Math_random ;;
      l <~ read_arr clusteredData ;;
      let randomIndex := Math_floor (mul r (of_nat (List.length l))) in
      match get l randomIndex with
      | None => throwH TypeError
      | Some loc =>
          p <~ read_obj loc ;;
          _ <~ write_obj loc (with_cluster p (lit (-1)%Q)) ;;
          mark_noise n clusteredData
      end
  end.

Definition runDBSCAN (data : nat) (eps : number) (datasetType : DatasetType)
  : H ClusterResult :=
  clusteredData <~
    match datasetType with
    | Moons => half_split data
    | Circles => radius_split data
    | _ =>
        clusteredData <~ assignClustersByCentroids data (lit 3%Q) ;;
        d <~ read_arr data ;;
        let noiseCount := Math_floor (mul (of_nat (List.length d)) (lit (5 # 100)%Q)) in
        _ <~ mark_noise (loop_count noiseCount) clusteredData ;;
        retH clusteredData
    end ;;
  m <~ generateMockMetrics clusteredData ;;
  retH (mkResult "DBSCAN" clusteredData m (DbscanParams eps)).

End Service.

(** The points an array of the store refers to. *)
Definition view (h : Heap) (a : nat) : option (list (option Point)) :=
  option_map (map (nth_error (objs h))) (nth_error (arrs h) a).


(** *** What a computation does to the store *)

(** Objects were added after those of [h], and no array was touched. *)
Definition grows (h h' : Heap) : Prop :=
  (exists eo, objs h' = objs h ++ eo) /\ arrs h' = arrs h.

(** Objects and arrays were added after those of [h]. *)
Definition appends (h h' : Heap) : Prop :=
  (exists eo, objs h' = objs h ++ eo) /\ (exists ea, arrs h' = arrs h ++ ea).

Definition heap_same {A : Type} (m : H A) : Prop :=
  forall st, fst (snd (m st)) = fst st.

(** [m] returns the address of an object it has created. *)
Definition allocating (m : H nat) : Prop :=
  forall st,
    let h := fst st in
    let h' := fst (snd (m st)) in
    grows h h'
    /\ match fst (m st) with
       | Ok loc => (List.length (objs h) <= loc < List.length (objs h'))%nat
       | Throw _ => True
       end.

(** The locations between the objects of [h] and those of [h']. *)
Definition created (h h' : Heap) (loc : nat) : Prop :=
  (List.length (objs h) <= loc < List.length (objs h'))%nat.

(** [a] is an array created after [h] whose elements were all created
    after [h]. *)
Definition fresh_array (h h' : Heap) (a : nat) : Prop :=
  (List.length (arrs h) <= a)%nat
  /\ exists out, nth_error (arrs h') a = Some out /\ Forall (created h h') out.

(** [m] returns a new array of new objects, and has only added to the store. *)
Definition fresh_result (m : H nat) : Prop :=
  forall st,
    let h := fst st in
    let h' := fst (snd (m st)) in
    appends h h'
    /\ match fst (m st) with
       | Ok a => fresh_array h h' a
       | Throw _ => True
       end.

Lemma grows_refl h : grows h h.
Proof. split; [exists []; rewrite app_nil_r|]; reflexivity. Qed.

Lemma grows_trans h1 h2 h3 : grows h1 h2 -> grows h2 h3 -> grows h1 h3.
Proof.
  intros [[e1 E1] A1] [[e2 E2] A2]. split; [|congruence].
  exists (e1 ++ e2). rewrite E2, E1, app_assoc. reflexivity.
Qed.

Lemma grows_length h h' : grows h h' -> (List.length (objs h) <= List.length (objs h'))%nat.
Proof. intros [[e E] _]. rewrite E, length_app. lia. Qed.

Lemma appends_refl h : appends h h.
Proof. split; exists []; rewrite app_nil_r; reflexivity. Qed.

Lemma appends_trans h1 h2 h3 : appends h1 h2 -> appends h2 h3 -> appends h1 h3.
Proof.
  intros [[e1 E1] [a1 A1]] [[e2 E2] [a2 A2]]. split.
  - exists (e1 ++ e2). rewrite E2, E1, app_assoc. reflexivity.
  - exists (a1 ++ a2). rewrite A2, A1, app_assoc. reflexivity.
Qed.

Lemma grows_appends h h' : grows h h' -> appends h h'.
Proof.
  intros [E A]. split; [exact E|]. exists []. rewrite app_nil_r. exact A.
Qed.

Lemma appends_length h h' :
  appends h h' ->
  (List.length (objs h) <= List.length (objs h'))%nat
  /\ (List.length (arrs h) <= List.length (arrs h'))%nat.
Proof. intros [[e E] [a A]]. rewrite E, A, !length_app. lia. Qed.

Lemma heap_same_ret {A : Type} (a : A) : heap_same (retH a).
Proof. intros st. reflexivity. Qed.

Lemma heap_same_throw {A : Type} (e : Error) : heap_same (@throwH A e).
Proof. intros st. reflexivity. Qed.

Lemma heap_same_read_obj l : heap_same (read_obj l).
Proof. intros st. unfold read_obj. destruct (nth_error _ l); reflexivity. Qed.

Lemma heap_same_read_arr a : heap_same (read_arr a).
Proof. intros st. unfold read_arr. destruct (nth_error _ a); reflexivity. Qed.

Lemma heap_same_draw {A : Type} (m : M A) : heap_same (draw m).
Proof. intros st. unfold draw. destruct (m (snd st)). reflexivity. Qed.

Lemma heap_same_bind {A C : Type} (m : H A) (k : A -> H C) :
  heap_same m -> (forall a, heap_same (k a)) -> heap_same (bindH m k).
Proof.
  intros Hm Hk st. unfold bindH. specialize (Hm st).
  destruct (m st) as [[a|e] st'] eqn:E; cbn [fst snd] in *.
  - rewrite Hk. exact Hm.
  - exact Hm.
Qed.

Lemma heap_same_forH {X A : Type} (f : X -> nat -> H A) (l : list X) :
  (forall x i, heap_same (f x i)) -> forall i, heap_same (forH f l i).
Proof.
  intros Hf. induction l as [|x l IH]; intros i; cbn [forH].
  - apply heap_same_ret.
  - apply heap_same_bind; [apply Hf|]. intros a.
    apply heap_same_bind; [apply IH|]. intros r. apply heap_same_ret.
Qed.

Lemma allocating_new_obj p : allocating (new_obj p).
Proof.
  intros st. cbn. split.
  - split; [eexists; reflexivity | reflexivity].
  - rewrite length_app. simpl. lia.
Qed.

Lemma allocating_throw e : allocating (throwH e).
Proof. intros st. cbn. split; [apply grows_refl | exact I]. Qed.

Lemma allocating_bind {A : Type} (m : H A) (k : A -> H nat) :
  heap_same m -> (forall a, allocating (k a)) -> allocating (bindH m k).
Proof.
  intros Hm Hk st. unfold bindH. specialize (Hm st).
  destruct (m st) as [[a|e] st'] eqn:E; cbn [fst snd] in *.
  - specialize (Hk a st'). cbv zeta in Hk. rewrite Hm in Hk. exact Hk.
  - rewrite Hm. split; [apply grows_refl | exact I].
Qed.

Lemma created_mono h h1 h2 loc :
  created h h1 loc -> (List.length (objs h1) <= List.length (objs h2))%nat -> created h h2 loc.
Proof. unfold created. lia. Qed.

Lemma created_later h h1 h2 loc :
  created h1 h2 loc -> (List.length (objs h) <= List.length (objs h1))%nat -> created h h2 loc.
Proof. unfold created. lia. Qed.

(** A loop of allocating bodies returns locations created by the loop. *)
Lemma forH_allocating {X : Type} (f : X -> nat -> H nat) (l : list X) :
  (forall x i, allocating (f x i)) ->
  forall i st,
    let h := fst st in
    let h' := fst (snd (forH f l i st)) in
    grows h h'
    /\ match fst (forH f l i st) with
       | Ok out => Forall (created h h') out
       | Throw _ => True
       end.
Proof.
  intros Hf. induction l as [|x l IH]; intros i st; cbn [forH].
  - cbn. split; [apply grows_refl | constructor].
  - unfold bindH. specialize (Hf x i st). cbv zeta in Hf.
    destruct (f x i st) as [[a|e] st1] eqn:E1; cbn [fst snd] in *; [|tauto].
    destruct Hf as [G1 C1]. specialize (IH (S i) st1). cbv zeta in IH.
    destruct (forH f l (S i) st1) as [[r|e] st2] eqn:E2; cbn [fst snd] in *.
    + destruct IH as [G2 C2]. split; [eapply grows_trans; eassumption|].
      constructor.
      * eapply created_mono; [exact C1 | apply grows_length; exact G2].
      * eapply Forall_impl; [|exact C2]. intros loc Hl.
        eapply created_later; [exact Hl | apply grows_length; exact G1].
    + destruct IH as [G2 _]. split; [eapply grows_trans; eassumption | exact I].
Qed.

Lemma fresh_new_arr_nil : fresh_result (new_arr []).
Proof.
  intros st. unfold new_arr, fresh_array. cbn [fst snd objs arrs]. split.
  - split; [exists []; rewrite app_nil_r; reflexivity | eexists; reflexivity].
  - split; [lia|]. exists []. split; [|constructor].
    rewrite nth_error_app2 by lia. rewrite Nat.sub_diag. reflexivity.
Qed.

Lemma map_to_new_fresh (f : nat -> nat -> H nat) (l : list nat) :
  (forall x i, allocating (f x i)) -> fresh_result (map_to_new f l).
Proof.
  intros Hf st. unfold map_to_new, bindH.
  pose proof (forH_allocating f l Hf 0 st) as Hl. cbv zeta in Hl.
  destruct (forH f l 0 st) as [[out|e] st1] eqn:E; cbn [fst snd] in *.
  - destruct Hl as [[[eo Eo] Ea] C]. unfold new_arr, fresh_array. cbn [fst snd objs arrs]. split.
    + split; [exists eo; exact Eo | exists [out]; rewrite Ea; reflexivity].
    + split; [rewrite Ea; lia|]. exists out. split; [|exact C].
      rewrite nth_error_app2 by lia. rewrite Nat.sub_diag. reflexivity.
  - destruct Hl as [G _]. split; [apply grows_appends; exact G | exact I].
Qed.

Lemma fresh_bind_same {A : Type} (m : H A) (k : A -> H nat) :
  heap_same m -> (forall a, fresh_result (k a)) -> fresh_result (bindH m k).
Proof.
  intros Hm Hk st. unfold bindH. specialize (Hm st).
  destruct (m st) as [[a|e] st'] eqn:E; cbn [fst snd] in *.
  - specialize (Hk a st'). cbv zeta in Hk. rewrite Hm in Hk. exact Hk.
  - rewrite Hm. split; [apply appends_refl | exact I].
Qed.

Lemma allocating_spread loc c : allocating (spread_with_cluster loc c).
Proof.
  apply allocating_bind; [apply heap_same_read_obj|]. intros p. apply allocating_new_obj.
Qed.

Lemma half_split_fresh data : fresh_result (half_split data).
Proof.
  apply fresh_bind_same; [apply heap_same_read_arr|]. intros d.
  apply map_to_new_fresh. intros loc i. apply allocating_spread.
Qed.

Lemma radius_split_fresh data : fresh_result (radius_split data).
Proof.
  apply fresh_bind_same; [apply heap_same_read_arr|]. intros d.
  apply map_to_new_fresh. intros loc i.
  apply allocating_bind; [apply heap_same_read_obj|]. intros p. apply allocating_new_obj.
Qed.

Lemma centroids_fresh data k : fresh_result (assignClustersByCentroids data k).
Proof.
  apply fresh_bind_same; [apply heap_same_read_arr|]. intros d.
  destruct ((List.length d =? 0)%nat || le k (lit 0%Q)); [apply fresh_new_arr_nil|].
  apply fresh_bind_same; [apply heap_same_draw|]. intros means.
  apply map_to_new_fresh. intros loc i.
  apply allocating_bind; [apply heap_same_read_obj|]. intros p.
  apply allocating_bind.
  - apply heap_same_forH. intros [m|] j.
    + apply heap_same_bind; [apply heap_same_read_obj|]. intros q. apply heap_same_ret.
    + apply heap_same_throw.
  - intros meanPoints. destruct (closest p meanPoints 0 (0%nat, Inf false)) as [[c _]|e].
    + apply allocating_new_obj.
    + apply allocating_throw.
Qed.


Lemma update_length {A : Type} (i : nat) (a : A) (l : list A) :
  List.length (update i a l) = List.length l.
Proof.
  revert i. induction l as [|b l IH]; intros [|i]; simpl; try reflexivity.
  rewrite IH. reflexivity.
Qed.

Lemma update_app_r {A : Type} (l1 l2 : list A) (a : A) : forall i,
  (List.length l1 <= i)%nat -> update i a (l1 ++ l2) = l1 ++ update (i - List.length l1) a l2.
Proof.
  induction l1 as [|b l1 IH]; intros i Hi.
  - simpl. rewrite Nat.sub_0_r. reflexivity.
  - destruct i as [|i]; [simpl in Hi; lia|].
    cbn [app update List.length Nat.sub]. rewrite IH by (simpl in Hi; lia). reflexivity.
Qed.

Lemma fresh_array_mono h h1 h2 a :
  fresh_array h1 h2 a -> appends h h1 -> fresh_array h h2 a.
Proof.
  intros [La [out [E F]]] Hh. destruct (appends_length _ _ Hh) as [Lo Lr].
  split; [lia|]. exists out. split; [exact E|].
  eapply Forall_impl; [|exact F]. intros loc Hl. eapply created_later; eassumption.
Qed.

(** A fresh result stays fresh with respect to an earlier store. *)
Lemma fresh_result_from (m : H nat) :
  fresh_result m ->
  forall h st, appends h (fst st) ->
    appends h (fst (snd (m st)))
    /\ match fst (m st) with
       | Ok a => fresh_array h (fst (snd (m st))) a
       | Throw _ => True
       end.
Proof.
  intros Hm h st Hh. specialize (Hm st). cbv zeta in Hm. destruct Hm as [A F].
  split; [eapply appends_trans; eassumption|].
  destruct (fst (m st)); [|exact I]. eapply fresh_array_mono; eassumption.
Qed.

Definition fresh_from (h : Heap) (res : outcome nat * (Heap * Rng)) : Prop :=
  appends h (fst (snd res))
  /\ match fst res with
     | Ok a => fresh_array h (fst (snd res)) a
     | Throw _ => True
     end.

Lemma fresh_from_bind {A : Type} h (m : H A) (k : A -> H nat) st :
  (forall a st', m st = (Ok a, st') -> fresh_from h (k a st')) ->
  (forall e st', m st = (Throw e, st') -> appends h (fst st')) ->
  fresh_from h (bindH m k st).
Proof.
  intros Hok Hthrow. unfold bindH. destruct (m st) as [[a|e] st'].
  - apply Hok. reflexivity.
  - split; [apply (Hthrow e); reflexivity | exact I].
Qed.

Lemma fresh_from_same {A : Type} h (m : H A) (k : A -> H nat) st :
  heap_same m -> appends h (fst st) ->
  (forall a r, fresh_from h (k a (fst st, r))) ->
  fresh_from h (bindH m k st).
Proof.
  intros Hm Hh Hk. apply fresh_from_bind.
  - intros a [h' r'] E. pose proof (Hm st) as R. rewrite E in R. cbn [fst snd] in R.
    subst h'. apply Hk.
  - intros e st' E. pose proof (Hm st) as R. rewrite E in R. cbn [fst snd] in R.
    rewrite R. exact Hh.
Qed.

Lemma update_last {A : Type} (l : list A) (a b : A) :
  update (List.length l) a (l ++ [b]) = l ++ [a].
Proof.
  rewrite update_app_r by lia. rewrite Nat.sub_diag. reflexivity.
Qed.

Lemma xsplit_fresh B data k : fresh_result (assignClustersByXSplit B data k).
Proof.
  apply fresh_bind_same; [apply heap_same_read_arr|]. intros d.
  destruct ((List.length d =? 0)%nat || le k (lit 0%Q)); [apply fresh_new_arr_nil|].
  intros [h r]. change (fresh_from h
    ((sortedData <~ new_arr d ;;
      l <~ read_arr sortedData ;;
      points <~ forH (fun loc (_ : nat) => read_obj loc) l 0 ;;
      _ <~ write_arr sortedData
             (map fst (Array_sort B (fun a b => compare_x (snd a) (snd b))
                                    (combine l points))) ;;
      sorted <~ read_arr sortedData ;;
      map_to_new (fun loc index =>
                    spread_with_cluster loc (split_cluster k (List.length sorted) index))
                 sorted) (h, r))).
  apply fresh_from_bind; [|intros e st' E; discriminate E].
  intros sortedData st1 E. unfold new_arr in E. cbn [fst snd] in E.
  injection E as <- <-.
  set (h1 := mkHeap (objs h) (arrs h ++ [d])).
  assert (A1 : appends h h1).
  { split; [exists []; rewrite app_nil_r; reflexivity | exists [d]; reflexivity]. }
  apply fresh_from_same; [apply heap_same_read_arr | exact A1 |]. intros l r1. cbn [fst].
  apply fresh_from_same;
    [apply heap_same_forH; intros; apply heap_same_read_obj | exact A1 |].
  intros points r2. cbn [fst].
  set (sorted := map fst (Array_sort B (fun a b => compare_x (snd a) (snd b))
                                     (combine l points))).
  apply fresh_from_bind.
  2:{ intros e st' E. unfold write_arr in E. cbn [fst snd] in E.
      destruct (_ <? _)%nat in E; [discriminate E|]. injection E as _ <-. exact A1. }
  intros u st2 E. unfold write_arr in E. cbn [fst snd] in E.
  destruct (_ <? _)%nat in E; [|discriminate E]. injection E as _ <-.
  unfold h1. cbn [objs arrs]. rewrite update_last.
  set (h2 := mkHeap (objs h) (arrs h ++ [sorted])).
  assert (A2 : appends h h2).
  { split; [exists []; rewrite app_nil_r; reflexivity | exists [sorted]; reflexivity]. }
  apply fresh_from_same; [apply heap_same_read_arr | exact A2 |]. intros l' r3. cbn [fst].
  apply (fresh_result_from _ (map_to_new_fresh _ l' (fun loc i => allocating_spread loc _))
           h (h2, r3) A2).
Qed.

Lemma state_bind {A C : Type} (P : Heap * Rng -> Prop) (m : H A) (k : A -> H C) st :
  (forall a st', m st = (Ok a, st') -> P (snd (k a st'))) ->
  (forall e st', m st = (Throw e, st') -> P st') ->
  P (snd (bindH m k st)).
Proof.
  intros Hok Hthrow. unfold bindH. destruct (m st) as [[a|e] st'].
  - apply Hok. reflexivity.
  - apply (Hthrow e). reflexivity.
Qed.

Lemma state_same {A C : Type} (P : Heap * Rng -> Prop) (m : H A) (k : A -> H C) st :
  heap_same m ->
  (forall r, P (fst st, r)) ->
  (forall a r, m st = (Ok a, (fst st, r)) -> P (snd (k a (fst st, r)))) ->
  P (snd (bindH m k st)).
Proof.
  intros Hm Hp Hk. apply state_bind.
  - intros a [h' r'] E. pose proof (Hm st) as R. rewrite E in R. cbn [fst snd] in R.
    subst h'. apply Hk. exact E.
  - intros e [h' r'] E. pose proof (Hm st) as R. rewrite E in R. cbn [fst snd] in R.
    subst h'. apply Hp.
Qed.

(** The array [cd] and its objects were created after [h], and nothing of [h]
    has gone. *)
Definition kept (h : Heap) (cd : nat) (st : Heap * Rng) : Prop :=
  appends h (fst st) /\ fresh_array h (fst st) cd.

(** The noise loop writes to objects of its array only: with respect to a
    store [h] after which that array and its objects were created, it adds
    nothing and keeps the array. *)
Lemma mark_noise_keeps h cd c : forall st,
  kept h cd st -> kept h cd (snd (mark_noise c cd st)).
Proof.
  induction c as [|c IH]; intros [h1 r] K; cbn [mark_noise].
  - exact K.
  - apply state_same; [apply heap_same_draw | intros r'; exact K |].
    intros x r1 _. cbn [fst].
    apply state_same; [apply heap_same_read_arr | intros r'; exact K |].
    intros l r2 El. cbn [fst] in *.
    unfold read_arr in El. cbn [fst] in El.
    destruct (nth_error (arrs h1) cd) as [l0|] eqn:Ea; [|discriminate El].
    assert (l0 = l) by congruence. subst l0. clear El.
    destruct (get l (Math_floor (mul x (of_nat (List.length l))))) as [loc|] eqn:G;
      [|exact K].
    assert (Hc : created h h1 loc).
    { destruct K as [_ [_ [out [Eo Fo]]]]. cbn [fst] in Eo, Fo.
      assert (out = l) by congruence. subst out.
      revert loc G. unfold get. destruct (array_index _) as [i|]; [|discriminate].
      intros loc G. apply nth_error_In in G. revert loc G. apply Forall_forall. exact Fo. }
    apply state_same; [apply heap_same_read_obj | intros r'; exact K |].
    intros p r3 _. cbn [fst].
    apply state_bind.
    2:{ intros e st' E. unfold write_obj in E. cbn [fst snd] in E.
        destruct (_ <? _)%nat in E; [discriminate E|]. injection E as _ <-. exact K. }
    intros u st' E. unfold write_obj in E. cbn [fst snd] in E.
    destruct (_ <? _)%nat in E; [|discriminate E]. injection E as _ <-.
    apply IH. destruct K as [[[eo Eo'] Ar] [La [out [Eo Fo]]]]. cbn [fst] in *.
    unfold created in Hc. split; [split|split]; cbn [fst objs arrs].
    + exists (update (loc - List.length (objs h)) (with_cluster p (lit (-1)%Q)) eo).
      rewrite Eo'. apply update_app_r. lia.
    + exact Ar.
    + exact La.
    + exists out. split; [exact Eo|].
      eapply Forall_impl; [|exact Fo]. intros l1 Hl. unfold created in *. cbn [objs].
      rewrite update_length. exact Hl.
Qed.

(** The clustering step of DBSCAN on blob or custom data. *)
Definition dbscan_noisy (data : nat) : H nat :=
  clusteredData <~ assignClustersByCentroids data (lit 3%Q) ;;
  d <~ read_arr data ;;
  let noiseCount := Math_floor (mul (of_nat (List.length d)) (lit (5 # 100)%Q)) in
  _ <~ mark_noise (loop_count noiseCount) clusteredData ;;
  retH clusteredData.

Lemma dbscan_noisy_fresh data : fresh_result (dbscan_noisy data).
Proof.
  intros [h r]. change (fresh_from h (dbscan_noisy data (h, r))). unfold dbscan_noisy.
  apply fresh_from_bind.
  2:{ intros e st' E. pose proof (centroids_fresh data (lit 3%Q) (h, r)) as Hc. cbv zeta in Hc.
      rewrite E in Hc. apply Hc. }
  intros cd [h1 r1] E. pose proof (centroids_fresh data (lit 3%Q) (h, r)) as Hc. cbv zeta in Hc.
  rewrite E in Hc. cbn [fst snd] in Hc. destruct Hc as [A1 F1].
  apply fresh_from_same; [apply heap_same_read_arr | exact A1 |]. intros d r2. cbn [fst].
  set (c := loop_count _).
  pose proof (mark_noise_keeps h cd c (h1, r2) (conj A1 F1)) as [A3 F3].
  unfold bindH. destruct (mark_noise c cd (h1, r2)) as [[u|e] st3]; cbn [fst snd] in *.
  - split; assumption.
  - split; [assumption | exact I].
Qed.

(** *** The four runs *)

Definition run_fresh (m : H ClusterResult) : Prop :=
  forall st,
    let h := fst st in
    let h' := fst (snd (m st)) in
    appends h h'
    /\ match fst (m st) with
       | Ok r => fresh_array h h' (data r)
       | Throw _ => True
       end.

Lemma finish_fresh B name p (clustering : H nat) :
  fresh_result clustering ->
  run_fresh (clusteredData <~ clustering ;;
             m <~ generateMockMetrics B clusteredData ;;
             retH (mkResult name clusteredData m p)).
Proof.
  intros Hc st. specialize (Hc st). cbv zeta in *. unfold bindH.
  destruct (clustering st) as [[cd|e] st1]; cbn [fst snd] in *; [|exact Hc].
  destruct Hc as [A F].
  pose proof (heap_same_draw (list_generateMockMetrics B []) st1) as R.
  unfold generateMockMetrics.
  destruct (draw (list_generateMockMetrics B []) st1) as [[m|e] st2];
    unfold retH; cbn [fst snd data] in *; rewrite R; [split; assumption | split; [assumption | exact I]].
Qed.

(** Every object and every array of [h] is in [h'] as it was. *)
Definition preserves (h h' : Heap) : Prop :=
  (forall l p, nth_error (objs h) l = Some p -> nth_error (objs h') l = Some p)
  /\ (forall a l, nth_error (arrs h) a = Some l -> nth_error (arrs h') a = Some l).

(** [a] is an array of [h] whose elements are objects of [h]. *)
Definition well_formed (h : Heap) (a : nat) : Prop :=
  exists l, nth_error (arrs h) a = Some l
            /\ Forall (fun loc => (loc < List.length (objs h))%nat) l.

Lemma appends_preserves h h' : appends h h' -> preserves h h'.
Proof.
  intros [[eo Eo] [ea Ea]]. split.
  - intros l p Hl. rewrite Eo. rewrite nth_error_app1; [exact Hl|].
    apply nth_error_Some. congruence.
  - intros a l Hl. rewrite Ea. rewrite nth_error_app1; [exact Hl|].
    apply nth_error_Some. congruence.
Qed.

Lemma preserves_view h h' a : preserves h h' -> well_formed h a -> view h' a = view h a.
Proof.
  intros [Po Pa] [l [El Fl]]. unfold view. rewrite El, (Pa _ _ El). cbn [option_map].
  f_equal. apply map_ext_in. intros loc Hin.
  assert (Hl : (loc < List.length (objs h))%nat) by (revert loc Hin; apply Forall_forall; exact Fl).
  destruct (nth_error (objs h) loc) as [p|] eqn:E.
  - apply Po. exact E.
  - apply nth_error_None in E. lia.
Qed.

(** What "the run does not mutate its input" says of a run [m]: whatever the
    store and the draws, every object and array that existed before the call
    is unchanged after it, so that an array of points shows the same points,
    and a result that is returned holds a new array of new objects. *)
Definition leaves_input (m : H ClusterResult) : Prop :=
  forall (h : Heap) (r : Rng),
    let h' := fst (snd (m (h, r))) in
    preserves h h'
    /\ (forall a, well_formed h a -> view h' a = view h a)
    /\ match fst (m (h, r)) with
       | Ok result => fresh_array h h' (data result)
       | Throw _ => True
       end.

Lemma run_fresh_leaves_input m : run_fresh m -> leaves_input m.
Proof.
  intros Hm h r. specialize (Hm (h, r)). cbv zeta in Hm. cbn [fst] in Hm.
  destruct Hm as [A F]. pose proof (appends_preserves _ _ A) as P.
  split; [exact P|]. split; [|exact F].
  intros a Ha. apply preserves_view; assumption.
Qed.

(** C9: none of the four runs mutates its input.  After a run every object
    (with its [x], [y] and [cluster]) and every array that existed before the
    call is as it was, the input list among them; the result refers to a
    newly created array of newly created objects; the noise loop of DBSCAN
    writes to those new objects only.  A later run on the same array reads the
    same points. *)
Theorem runs_leave_input_unchanged (B : Builtins) (input : nat) (k : number)
  (linkage : LinkageType) (eps : number) (type : DatasetType) :
  leaves_input (runSpectralClustering B input k type)
  /\ leaves_input (runKMeans B input k type)
  /\ leaves_input (runAgglomerativeClustering B input (k, linkage) type)
  /\ leaves_input (runDBSCAN B input eps type).
Proof.
  split; [|split; [|split]]; apply run_fresh_leaves_input.
  - apply finish_fresh. destruct type;
      [apply half_split_fresh | apply centroids_fresh
       | apply radius_split_fresh | apply centroids_fresh].
  - apply finish_fresh. destruct type;
      [apply xsplit_fresh | apply centroids_fresh | apply xsplit_fresh | apply centroids_fresh].
  - apply finish_fresh. destruct type;
      [apply xsplit_fresh | apply centroids_fresh | apply xsplit_fresh | apply centroids_fresh].
  - apply (finish_fresh B "DBSCAN" (DbscanParams eps)
             match type with
             | Moons => half_split input
             | Circles => radius_split input
             | _ => dbscan_noisy input
             end).
    destruct type;
      [apply half_split_fresh | apply dbscan_noisy_fresh
       | apply radius_split_fresh | apply dbscan_noisy_fresh].
Qed.

(** Twenty points on a line, in one array. *)
Definition line : Heap :=
  mkHeap (map (fun i => point (of_nat i) (of_nat i)) (seq 0 20)) [seq 0 20].

(** DBSCAN on blob data over [line]: one of the twenty copies is marked as
    noise, the twenty points of the input are as they were, and the array of
    the result shows the points that the run over lists returns. *)
Example dbscan_marks_copies :
  let res := runDBSCAN B0 0 (Fin (1 # 2)%Q) Blobs (line, half_draws) in
  let h' := fst (snd res) in
  (exists r, fst res = Ok r /\ data r = 1%nat)
  /\ view h' 0 = view line 0
  /\ option_map (map (option_map p_cluster)) (view h' 1)
     = Some (repeat (Some (JNum (of_nat 0))) 10 ++ [Some (JNum (lit (-1)%Q))]
             ++ repeat (Some (JNum (of_nat 0))) 9)
  /\ match fst (list_runDBSCAN B0 (objs line) (Fin (1 # 2)%Q) Blobs half_draws) with
     | Ok r => view h' 1 = Some (map Some (list_data r))
     | Throw _ => False
     end.
Proof.
  cbv zeta. split; [eexists; split; vm_compute; reflexivity|].
  split; [vm_compute; reflexivity|]. split; vm_compute; reflexivity.
Qed.

(** K-means on moon data over [line]: the sorted copy is a new array. *)
Example kmeans_sorts_a_copy :
  let res := runKMeans B0 0 (of_Z 2) Moons (line, half_draws) in
  let h' := fst (snd res) in
  (exists r, fst res = Ok r /\ data r = 2%nat)
  /\ view h' 0 = view line 0
  /\ match fst (list_runKMeans B0 (objs line) (of_Z 2) Moons half_draws) with
     | Ok r => view h' 2 = Some (map Some (list_data r))
     | Throw _ => False
     end.
Proof.
  cbv zeta. split; [eexists; split; vm_compute; reflexivity|].
  split; vm_compute; reflexivity.
Qed.

End Store.

(** * Further properties of the service *)

(** ** CSV texts, line by line *)

Section CSVLines.
Local Open Scope string_scope.

(** The text whose lines are [lines]: the lines with a separator between
    each two. *)
Fixpoint join (sep : ascii) (lines : list string) : string :=
  match lines with
  | [] => ""
  | [l] => l
  | l :: rest => l ++ String sep (join sep rest)
  end.

Fixpoint no_char (c : ascii) (s : string) : bool :=
  match s with
  | EmptyString => true
  | String a r => negb (Ascii.eqb a c) && no_char c r
  end.

Definition LF : ascii := "010"%char.
Definition CR : ascii := "013"%char.

(** A line of a text: a string without a line feed. *)
Definition text_line (s : string) : Prop := no_char LF s = true.

Definition blank (s : string) : bool := is_empty (trim s).

Lemma split_first sep l r :
  no_char sep l = true -> split sep (l ++ String sep r) = l :: split sep r.
Proof.
  induction l as [|c l IH]; intros H; cbn [append split].
  - rewrite Ascii.eqb_refl. reflexivity.
  - cbn [no_char] in H. apply andb_true_iff in H. destruct H as [Hc Hl].
    apply negb_true_iff in Hc. rewrite Hc, (IH Hl). reflexivity.
Qed.

Lemma split_single sep l : no_char sep l = true -> split sep l = [l].
Proof.
  induction l as [|c l IH]; intros H; cbn [split].
  - reflexivity.
  - cbn [no_char] in H. apply andb_true_iff in H. destruct H as [Hc Hl].
    apply negb_true_iff in Hc. rewrite Hc, (IH Hl). reflexivity.
Qed.

(** Splitting a text at its separators gives back its lines. *)
Lemma split_join sep lines :
  lines <> [] -> Forall (fun l => no_char sep l = true) lines ->
  split sep (join sep lines) = lines.
Proof.
  induction lines as [|l [|l' rest] IH]; intros Hne F.
  - congruence.
  - cbn [join]. apply split_single. inversion F; assumption.
  - change (join sep (l :: l' :: rest)) with (l ++ String sep (join sep (l' :: rest))).
    inversion F as [|? ? Hl F']; subst.
    rewrite (split_first _ _ _ Hl). f_equal. apply IH; [discriminate | assumption].
Qed.

Lemma csv_rows_join lines :
  Forall text_line lines -> csv_rows (join LF lines) = filter (fun l => negb (blank l)) lines.
Proof.
  intros F. unfold csv_rows. destruct lines as [|l rest].
  - reflexivity.
  - rewrite split_join; [reflexivity | discriminate | exact F].
Qed.

(** [parseCSV] looks at the non-blank lines only, and at the first of them
    only to count it. *)
Lemma parseCSV_rows text text' drop :
  List.length (csv_rows text) = List.length (csv_rows text') ->
  tl (csv_rows text) = tl (csv_rows text') ->
  parseCSV text drop = parseCSV text' drop.
Proof.
  intros L T. unfold parseCSV, numeric_rows. rewrite L, T. reflexivity.
Qed.

Lemma filter_line (f : string -> bool) lines : Forall text_line lines -> Forall text_line (filter f lines).
Proof.
  intros F. apply Forall_forall. intros l Hl. apply filter_In in Hl.
  revert l Hl. intros l [Hl _]. revert l Hl. apply Forall_forall. exact F.
Qed.

(** X1: blank lines of the text are skipped wherever they are: the outcome is
    that of the text without them. *)
Theorem parseCSV_skips_blank_lines (lines : list string) (drop : bool) :
  Forall text_line lines ->
  parseCSV (join LF lines) drop
  = parseCSV (join LF (filter (fun l => negb (blank l)) lines)) drop.
Proof.
  intros F.
  assert (E : csv_rows (join LF (filter (fun l => negb (blank l)) lines))
              = csv_rows (join LF lines)).
  { rewrite !csv_rows_join by (try apply filter_line; exact F).
    clear F. induction lines as [|l rest IH]; [reflexivity|].
    cbn [filter]. destruct (negb (blank l)) eqn:Bl; [|exact IH].
    cbn [filter]. rewrite Bl, IH. reflexivity. }
  apply parseCSV_rows; rewrite E; reflexivity.
Qed.

(** X2: the first non-blank line is discarded unread: with any other
    non-blank line in its place the outcome is the same. *)
Theorem parseCSV_discards_header (header header' : string) (rows : list string) (drop : bool) :
  text_line header -> text_line header' -> blank header = false -> blank header' = false ->
  Forall text_line rows ->
  parseCSV (join LF (header :: rows)) drop = parseCSV (join LF (header' :: rows)) drop.
Proof.
  intros H H' N N' F.
  apply parseCSV_rows; rewrite !csv_rows_join by (constructor; assumption);
    cbn [filter]; rewrite N, N'; reflexivity.
Qed.

(** *** Carriage returns *)

(** [s] with [c] after its last character. *)
Definition snoc (s : string) (c : ascii) : string := s ++ String c "".

Fixpoint snoc_last (c : ascii) (l : list string) : list string :=
  match l with
  | [] => []
  | [w] => [snoc w c]
  | w :: ws => w :: snoc_last c ws
  end.

Lemma split_nonempty sep s : split sep s <> [].
Proof.
  destruct s as [|a s]; cbn [split]; [discriminate|].
  destruct (Ascii.eqb a sep); [discriminate|]. destruct (split sep s); discriminate.
Qed.

Lemma split_snoc sep c s :
  Ascii.eqb c sep = false -> split sep (snoc s c) = snoc_last c (split sep s).
Proof.
  intros Hc. unfold snoc. induction s as [|a s IH]; cbn [append split].
  - rewrite Hc. reflexivity.
  - rewrite IH. destruct (Ascii.eqb a sep).
    + pose proof (split_nonempty sep s). destruct (split sep s); [congruence | reflexivity].
    + pose proof (split_nonempty sep s).
      destruct (split sep s) as [|w [|w' ws]]; [congruence | reflexivity | reflexivity].
Qed.

Lemma trim_end_snoc t c : is_white c = true -> trim_end (snoc t c) = trim_end t.
Proof.
  intros Hc. unfold snoc. induction t as [|a t IH]; cbn [append trim_end].
  - rewrite Hc. reflexivity.
  - rewrite IH. reflexivity.
Qed.

Lemma trim_snoc s c : is_white c = true -> trim (snoc s c) = trim s.
Proof.
  intros Hc. unfold trim. induction s as [|a s IH].
  - unfold snoc. cbn [append trim_start]. rewrite Hc. reflexivity.
  - change (snoc (String a s) c) with (String a (snoc s c)).
    cbn [trim_start]. destruct (is_white a); [exact IH|].
    change (String a (snoc s c)) with (snoc (String a s) c).
    apply trim_end_snoc. exact Hc.
Qed.

Lemma map_trim_snoc_last {A : Type} (g : string -> A) c l :
  is_white c = true ->
  map (fun v => g (trim v)) (snoc_last c l) = map (fun v => g (trim v)) l.
Proof.
  intros Hc. induction l as [|w [|w' ws] IH]; [reflexivity | |].
  - cbn [snoc_last map]. rewrite trim_snoc by exact Hc. reflexivity.
  - change (snoc_last c (w :: w' :: ws)) with (w :: snoc_last c (w' :: ws)).
    cbn [map] in *. rewrite IH. reflexivity.
Qed.

Lemma numeric_row_snoc drop row c :
  is_white c = true -> Ascii.eqb c ","%char = false ->
  numeric_row drop (snoc row c) = numeric_row drop row.
Proof.
  intros Hw Hc. unfold numeric_row.
  rewrite (split_snoc _ _ _ Hc), (map_trim_snoc_last parseFloat c _ Hw). reflexivity.
Qed.

Lemma no_char_snoc sep s c :
  Ascii.eqb c sep = false -> no_char sep s = true -> no_char sep (snoc s c) = true.
Proof.
  intros Hc. unfold snoc. induction s as [|a s IH]; cbn [append no_char]; intros H.
  - rewrite Hc. reflexivity.
  - apply andb_true_iff in H. destruct H as [Ha Hs]. rewrite Ha, (IH Hs). reflexivity.
Qed.

Lemma parseCSV_numeric text text' drop :
  List.length (csv_rows text) = List.length (csv_rows text') ->
  map (numeric_row drop) (tl (csv_rows text)) = map (numeric_row drop) (tl (csv_rows text')) ->
  parseCSV text drop = parseCSV text' drop.
Proof.
  intros L T. unfold parseCSV, numeric_rows. rewrite L, T. reflexivity.
Qed.

(** X3: a carriage return at the end of every line (a file with CRLF line
    ends) does not change the outcome. *)
Theorem parseCSV_ignores_carriage_returns (lines : list string) (drop : bool) :
  Forall text_line lines ->
  parseCSV (join LF (map (fun l => snoc l CR) lines)) drop = parseCSV (join LF lines) drop.
Proof.
  intros F.
  assert (F' : Forall text_line (map (fun l => snoc l CR) lines)).
  { apply Forall_forall. intros l Hl. apply in_map_iff in Hl. destruct Hl as [l0 [<- Hl0]].
    apply no_char_snoc; [reflexivity|]. revert l0 Hl0. apply Forall_forall. exact F. }
  assert (E : csv_rows (join LF (map (fun l => snoc l CR) lines))
              = map (fun l => snoc l CR) (csv_rows (join LF lines))).
  { rewrite !csv_rows_join by assumption. clear F F'.
    induction lines as [|l rest IH]; [reflexivity|].
    cbn [map filter]. unfold blank at 1. rewrite trim_snoc by reflexivity.
    fold (blank l). destruct (negb (blank l)); cbn [map]; rewrite IH; reflexivity. }
  apply parseCSV_numeric; rewrite E.
  - apply length_map.
  - destruct (csv_rows (join LF lines)) as [|h rows]; [reflexivity|].
    cbn [map tl]. rewrite map_map. apply map_ext. intros row.
    apply numeric_row_snoc; reflexivity.
Qed.

(** *** What a successful parse returns *)

Lemma filter_some_In {A : Type} (l : list (option A)) (a : A) :
  In a (filter_some l) <-> In (Some a) l.
Proof.
  induction l as [|[b|] l IH]; cbn [filter_some In].
  - tauto.
  - rewrite IH. split; intros [H|H]; auto; left; congruence.
  - rewrite IH. split; [auto | intros [H|H]; [discriminate | exact H]].
Qed.

Lemma numeric_rows_no_NaN text drop row :
  In row (numeric_rows text drop) -> Forall (fun v => isNaN v = false) row.
Proof.
  unfold numeric_rows. rewrite filter_some_In, in_map_iff. intros [r [E _]].
  unfold numeric_row in E.
  destruct (forallb _ _) eqn:Fb in E; [|discriminate]. injection E as <-.
  rewrite forallb_forall in Fb. apply Forall_forall. intros v Hv.
  apply negb_true_iff, Fb, Hv.
Qed.

(** A field of a point that was read from a row: a number that is not NaN. *)
Definition numeric (v : jsval) : Prop := exists n, v = JNum n /\ isNaN n = false.

(** X4: a successful parse returns one point per surviving row, in order and
    without a cluster; a coordinate is [undefined] (the row is too short) or a
    number that is not NaN; both coordinates of the first point are numbers,
    and so are those of every point of a row with two fields or more; without
    the last-column drop every point has a number as its [x]. *)
Theorem parseCSV_points (text : string) (drop : bool) (points : list Point) :
  fst (parseCSV text drop) = Ok points ->
  points = map row_point (numeric_rows text drop)
  /\ Forall (fun p => p_cluster p = JUndefined
                      /\ (p_x p = JUndefined \/ numeric (p_x p))
                      /\ (p_y p = JUndefined \/ numeric (p_y p))) points
  /\ (exists p rest, points = p :: rest /\ numeric (p_x p) /\ numeric (p_y p))
  /\ (forall i row p, nth_error (numeric_rows text drop) i = Some row ->
        nth_error points i = Some p ->
        (2 <= List.length row)%nat -> numeric (p_x p) /\ numeric (p_y p))
  /\ (drop = false -> Forall (fun p => numeric (p_x p)) points).
Proof.
  intros H.
  assert (Hnum : forall row k, In row (numeric_rows text drop) ->
            match nth_error row k with
            | Some v => numeric (JNum v)
            | None => True
            end).
  { intros row k Hin. destruct (nth_error row k) as [v|] eqn:E; [|exact I].
    exists v. split; [reflexivity|]. apply nth_error_In in E.
    revert v E. apply Forall_forall. eapply numeric_rows_no_NaN. exact Hin. }
  assert (Hlong : forall row k, In row (numeric_rows text drop) ->
            (k < List.length row)%nat ->
            numeric (match nth_error row k with Some v => JNum v | None => JUndefined end)).
  { intros row k Hin Hk. specialize (Hnum row k Hin).
    destruct (nth_error row k) eqn:E; [exact Hnum|].
    apply nth_error_None in E. lia. }
  destruct (parseCSV_cases text drop) as [[_ E]|[[_ [_ E]]|[[f [r [_ [_ E]]]]|[f [r [En [W E]]]]]]];
    rewrite E in H; try discriminate.
  injection H as <-. split; [reflexivity|]. split; [|split; [|split]].
  - apply Forall_forall. intros p Hp. apply in_map_iff in Hp. destruct Hp as [row [<- Hin]].
    unfold row_point. cbn [p_cluster p_x p_y]. split; [reflexivity|].
    pose proof (Hnum row 0%nat Hin) as H0. pose proof (Hnum row 1%nat Hin) as H1.
    split.
    + destruct (nth_error row 0); [right; exact H0 | left; reflexivity].
    + destruct (nth_error row 1); [right; exact H1 | left; reflexivity].
  - rewrite En. cbn [map]. eexists. eexists. split; [reflexivity|].
    assert (Hin : In f (numeric_rows text drop)) by (rewrite En; left; reflexivity).
    unfold row_point. cbn [p_x p_y]. split; apply Hlong; try assumption; lia.
  - intros i row p Hi Hp L. rewrite nth_error_map, Hi in Hp. injection Hp as <-.
    apply nth_error_In in Hi.
    unfold row_point. cbn [p_x p_y]. split; apply Hlong; try assumption; lia.
  - intros ->. apply Forall_forall. intros p Hp. apply in_map_iff in Hp.
    destruct Hp as [row [<- Hin]]. unfold row_point. cbn [p_x].
    apply Hlong; [exact Hin|].
    unfold numeric_rows in Hin. rewrite filter_some_In, in_map_iff in Hin.
    destruct Hin as [r0 [E0 _]]. unfold numeric_row in E0.
    destruct (forallb _ _) in E0; [|discriminate]. injection E0 as <-.
    rewrite length_map. pose proof (split_nonempty ","%char r0).
    destruct (split ","%char r0); [congruence | simpl; lia].
Qed.

(** X5: [parseCSV] fails in three cases only, each with its own message:
    fewer than two non-blank lines; no line after the header whose fields all
    read as numbers; and a first such line with fewer than two fields, whose
    count the message names.  Nothing is written to the console then. *)
Theorem parseCSV_failures (text : string) (drop : bool) (e : Error) :
  fst (parseCSV text drop) = Throw e <->
    ((List.length (csv_rows text) < 2)%nat /\ e = Err header_error)
    \/ ((2 <= List.length (csv_rows text))%nat /\ numeric_rows text drop = []
        /\ e = Err no_rows_error)
    \/ (exists first rest, numeric_rows text drop = first :: rest
        /\ (List.length first < 2)%nat /\ e = Err (features_error (List.length first))).
Proof.
  destruct (parseCSV_cases text drop) as [[L E]|[[L [N E]]|[[f [r [N [W E]]]]|[f [r [N [W E]]]]]]];
    rewrite E; split.
  - intros H. injection H as <-. left. split; [exact L | reflexivity].
  - intros [[_ ->]|[[L' _]|[f [r [N _]]]]]; [reflexivity | lia |].
    apply numeric_rows_header in N. lia.
  - intros H. injection H as <-. right. left. repeat split; assumption.
  - intros [[L' _]|[[_ [_ ->]]|[f [r [N' _]]]]]; [lia | reflexivity | congruence].
  - intros H. injection H as <-. right. right. exists f, r. repeat split; assumption.
  - intros [[L' _]|[[_ [N' _]]|[f' [r' [N' [_ ->]]]]]].
    + apply numeric_rows_header in N. lia.
    + congruence.
    + rewrite N in N'. injection N' as <- _. reflexivity.
  - discriminate.
  - intros [[L' _]|[[_ [N' _]]|[f' [r' [N' [W' _]]]]]].
    + apply numeric_rows_header in N. lia.
    + congruence.
    + rewrite N in N'. injection N' as <- _. lia.
Qed.

End CSVLines.

Lemma parseCSV_skips_blank_lines_witness :
  parseCSV (join LF ["a,b"; "  "; "1,2"; ""; "3,4"; ""]%string) false
  = parseCSV (join LF ["a,b"; "1,2"; "3,4"]%string) false.
Proof.
  apply (parseCSV_skips_blank_lines ["a,b"; "  "; "1,2"; ""; "3,4"; ""]%string false).
  repeat constructor.
Defined.

Lemma parseCSV_discards_header_witness :
  parseCSV (join LF ["x,y"; "1,2"; "3,4"]%string) true
  = parseCSV (join LF ["7"; "1,2"; "3,4"]%string) true.
Proof.
  apply (parseCSV_discards_header "x,y" "7" ["1,2"; "3,4"]%string true);
    try reflexivity. repeat constructor.
Defined.

Lemma parseCSV_ignores_carriage_returns_witness :
  parseCSV (join LF (map (fun l => snoc l CR) ["a,b"; "1,2"; "3,4"]%string)) false
  = parseCSV (join LF ["a,b"; "1,2"; "3,4"]%string) false.
Proof.
  apply (parseCSV_ignores_carriage_returns ["a,b"; "1,2"; "3,4"]%string false).
  repeat constructor.
Defined.

Lemma parseCSV_points_witness :
  let points := [point (Fin 1%Q) (Fin 2%Q); point (Fin 3%Q) (Fin 4%Q)] in
  points = map row_point (numeric_rows (join LF ["a,b,c"; "1,2,x"; "3,4,y"]%string) true)
  /\ Forall (fun p => p_cluster p = JUndefined
                      /\ (p_x p = JUndefined \/ numeric (p_x p))
                      /\ (p_y p = JUndefined \/ numeric (p_y p))) points
  /\ (exists p rest, points = p :: rest /\ numeric (p_x p) /\ numeric (p_y p))
  /\ (forall i row p,
        nth_error (numeric_rows (join LF ["a,b,c"; "1,2,x"; "3,4,y"]%string) true) i = Some row ->
        nth_error points i = Some p ->
        (2 <= List.length row)%nat -> numeric (p_x p) /\ numeric (p_y p))
  /\ (true = false -> Forall (fun p => numeric (p_x p)) points).
Proof.
  apply (parseCSV_points (join LF ["a,b,c"; "1,2,x"; "3,4,y"]%string) true).
  vm_compute. reflexivity.
Defined.

(** ** The generated datasets *)

Section Intervals.
Local Open Scope Q_scope.

(** A finite number between two bounds. *)
Definition within (lo hi : Q) (x : number) : Prop :=
  exists q, x = Fin q /\ lo <= q /\ q <= hi.

Lemma within_rnd p lo hi lo' hi' :
  lo <= p -> p <= hi -> rnd lo = Fin lo' -> rnd hi = Fin hi' -> within lo' hi' (rnd p).
Proof. intros. eapply rnd_between; eassumption. Qed.

Lemma within_weaken lo hi lo' hi' x :
  within lo hi x -> lo' <= lo -> hi <= hi' -> within lo' hi' x.
Proof. intros [q [-> [L U]]] H1 H2. exists q. split; [reflexivity | lra]. Qed.

Lemma within_add a b c d lo hi x y :
  within a b x -> within c d y -> rnd (a + c) = Fin lo -> rnd (b + d) = Fin hi ->
  within lo hi (add x y).
Proof.
  intros [p [-> [P1 P2]]] [q [-> [Q1 Q2]]] E1 E2. cbn [add].
  eapply within_rnd; [| |exact E1|exact E2]; lra.
Qed.

Lemma within_sub a b c d lo hi x y :
  within a b x -> within c d y -> rnd (a - d) = Fin lo -> rnd (b - c) = Fin hi ->
  within lo hi (sub x y).
Proof.
  intros [p [-> [P1 P2]]] [q [-> [Q1 Q2]]] E1 E2. cbn [sub].
  eapply within_rnd; [| |exact E1|exact E2]; lra.
Qed.

Lemma within_mul_r a b c lo hi x :
  within a b x -> 0 <= c -> rnd (a * c) = Fin lo -> rnd (b * c) = Fin hi ->
  within lo hi (mul x (Fin c)).
Proof.
  intros [p [-> [P1 P2]]] C E1 E2. cbn [mul].
  eapply within_rnd; [| |exact E1|exact E2]; nra.
Qed.

Lemma within_mul_l a b c lo hi x :
  within a b x -> 0 <= c -> rnd (c * a) = Fin lo -> rnd (c * b) = Fin hi ->
  within lo hi (mul (Fin c) x).
Proof.
  intros [p [-> [P1 P2]]] C E1 E2. cbn [mul].
  eapply within_rnd; [| |exact E1|exact E2]; nra.
Qed.

Lemma within_exact q : within q q (Fin q).
Proof. exists q. split; [reflexivity | lra]. Qed.

Lemma unit_draw_within r : unit_draw r -> within 0 1 r.
Proof. intros [q [-> [_ [Q0 Q1]]]]. exists q. split; [reflexivity | lra]. Qed.

End Intervals.

Ltac by_rounding := vm_compute; reflexivity.

Section GeneratorFacts.
Context (B : Builtins).
Local Open Scope Q_scope.

(** [loop_count] and the halves of a sample count. *)

Lemma loop_count_Z z : (0 <= z < 2 ^ 53)%Z -> loop_count (rnd (inject_Z z)) = Z.to_nat z.
Proof.
  intros Hz. destruct (Z.eq_dec z 0) as [->|Nz]; [reflexivity|].
  rewrite (double_pos_Z z) by lia. cbn [loop_count].
  rewrite (Qceiling_comp _ _ (Qred_correct _)), Qceiling_Z. reflexivity.
Qed.

Lemma half_floor (n : nat) :
  (Z.of_nat n < 2 ^ 53)%Z ->
  Math_floor (div (of_nat n) (lit 2)) = of_Z (Z.of_nat n / 2).
Proof.
  intros Hn. replace (lit 2) with (Fin 2) by reflexivity.
  unfold of_nat, of_Z. cbn [div]. change (Qzero 2) with false. cbv iota.
  unfold of_Z. destruct (Z.eq_dec (Z.of_nat n) 0) as [E|N].
  - rewrite E. reflexivity.
  - assert (Eq : inject_Z (Z.of_nat n) / 2 == inject_Z (Z.of_nat n) * pow2 (-1)).
    { change (pow2 (-1)) with (1 # 2). field. }
    rewrite (rnd_comp _ _ Eq).
    rewrite rnd_exact_pos; [|lia|lia|].
    + cbn [Math_floor]. f_equal. f_equal.
      rewrite (Qfloor_comp _ _ (Qred_correct _)).
      assert (E2 : inject_Z (Z.of_nat n) * pow2 (-1) == Z.of_nat n # 2).
      { change (pow2 (-1)) with (1 # 2). rewrite (Qmake_Qdiv (Z.of_nat n) 2).
        change (inject_Z (Zpos 2)) with 2. field. }
      rewrite (Qfloor_comp _ _ E2). reflexivity.
    + apply Qlt_trans with (pow2 53).
      * assert (L : inject_Z (Z.of_nat n) < pow2 53).
        { rewrite <- pow2_Z by lia. rewrite <- Zlt_Qlt. lia. }
        assert (L0 : 0 < inject_Z (Z.of_nat n)).
        { change 0 with (inject_Z 0). rewrite <- Zlt_Qlt. lia. }
        change (pow2 (-1)) with (1 # 2). lra.
      * apply pow2_lt. lia.
Qed.

Lemma moon_sizes (n : nat) :
  (Z.of_nat n < 2 ^ 53)%Z ->
  let n_samples_out := Math_floor (div (of_nat n) (lit 2)) in
  loop_count n_samples_out = (n / 2)%nat
  /\ loop_count (sub (of_nat n) n_samples_out) = (n - n / 2)%nat.
Proof.
  intros Hn. cbv zeta. rewrite (half_floor n Hn).
  assert (H2 : (Z.of_nat n / 2 = Z.of_nat (n / 2))%Z).
  { rewrite Nat2Z.inj_div. reflexivity. }
  assert (Hh : (n / 2 <= n)%nat) by (apply Nat.Div0.div_le_upper_bound; lia).
  split.
  - unfold of_Z. cbn [loop_count]. rewrite Qceiling_Z, H2. apply Nat2Z.id.
  - unfold of_nat, of_Z. cbn [sub].
    assert (E : inject_Z (Z.of_nat n) - inject_Z (Z.of_nat n / 2)
                == inject_Z (Z.of_nat (n - n / 2))).
    { rewrite H2, Nat2Z.inj_sub by exact Hh. unfold Z.sub.
      rewrite inject_Z_plus, inject_Z_opp. reflexivity. }
    rewrite (rnd_comp _ _ E), loop_count_Z by lia. apply Nat2Z.id.
Qed.

Lemma forM_always {X A : Type} (Q : Rng -> Prop) (f : X -> M A) (l : list X) :
  (forall x s, exists a s', f x s = (Ok a, s') /\ (Q s -> Q s')) ->
  forall s, exists r s', forM l f s = (Ok r, s') /\ List.length r = List.length l
                         /\ (Q s -> Q s').
Proof.
  intros Hf. induction l as [|x l IH]; intros s.
  - exists [], s. split; [reflexivity|]. split; [reflexivity | auto].
  - destruct (Hf x s) as [a [s1 [E1 Q1]]]. destruct (IH s1) as [r [s2 [E2 [L Q2]]]].
    exists (a :: r), s2. cbn [forM]. unfold bind. rewrite E1, E2.
    split; [reflexivity|]. split; [simpl; lia | auto].
Qed.

(** Two or three draws leave a source of draws of [0, 1) one. *)
Lemma random_source_skip (s : Rng) (k : nat) :
  random_source s -> random_source (fun i => s (k + i)%nat).
Proof. intros H i. apply H. Qed.

(** *** The loops that fill the array *)

(** A loop that pushes one element per round does what [forM] does, while
    the array can grow. *)
Lemma for_each_push {X A : Type} (l : list X) (body : X -> list A -> M (list A))
  (f : X -> M A) :
  (forall x pts s, body x pts s = (p <- f x ;; push pts p) s) ->
  forall acc s, (Z.of_nat (List.length acc) + Z.of_nat (List.length l) < 2 ^ 32)%Z ->
    for_each l body acc s = (ps <- forM l f ;; ret (acc ++ ps)%list) s.
Proof.
  intros Hb. induction l as [|x l IH]; intros acc s Hl.
  - cbn [for_each forM]. unfold bind, ret. rewrite app_nil_r. reflexivity.
  - cbn [for_each forM List.length] in *.
    destruct (f x s) as [[p|e] s1] eqn:E.
    + assert (L : body x acc s = (Ok (acc ++ [p])%list, s1)).
      { rewrite Hb, (bind_ok _ _ _ _ _ E). unfold push.
        destruct (Z.ltb_spec (Z.of_nat (List.length acc) + 1) (2 ^ 32)) as [_|C]; [|lia].
        reflexivity. }
      rewrite (bind_ok _ _ _ _ _ L), IH by (rewrite length_app; cbn [List.length]; lia).
      destruct (forM l f s1) as [[ps|e] s2] eqn:E2.
      * assert (R : (a <- f x ;; r <- forM l f ;; ret (a :: r)) s = (Ok (p :: ps), s2))
          by (rewrite (bind_ok _ _ _ _ _ E), (bind_ok _ _ _ _ _ E2); reflexivity).
        rewrite (bind_ok _ _ _ _ _ R), (bind_ok _ _ _ _ _ E2). unfold ret.
        rewrite <- app_assoc. reflexivity.
      * assert (R : (a <- f x ;; r <- forM l f ;; ret (a :: r)) s = (Throw e, s2))
          by (rewrite (bind_ok _ _ _ _ _ E); apply bind_throw; exact E2).
        rewrite (bind_throw _ _ _ _ _ R), (bind_throw _ _ _ _ _ E2). reflexivity.
    + assert (L : body x acc s = (Throw e, s1)) by (rewrite Hb; apply bind_throw; exact E).
      assert (R : (a <- f x ;; r <- forM l f ;; ret (a :: r)) s = (Throw e, s1))
        by (apply bind_throw; exact E).
      rewrite (bind_throw _ _ _ _ _ L), (bind_throw _ _ _ _ _ R). reflexivity.
Qed.

(** A loop whose every round ends in a push fills the array while it can
    grow, and ends in a RangeError when the array cannot take all the
    elements. *)
Lemma for_each_fills {X A : Type} (l : list X) (body : X -> list A -> M (list A)) :
  (forall x pts s, exists p s', body x pts s = push pts p s') ->
  forall acc s, (Z.of_nat (List.length acc) + Z.of_nat (List.length l) < 2 ^ 32)%Z ->
    exists r s', for_each l body acc s = (Ok r, s')
                 /\ List.length r = (List.length acc + List.length l)%nat.
Proof.
  intros Hb. induction l as [|x l IH]; intros acc s Hl.
  - exists acc, s. split; [reflexivity | cbn [List.length]; lia].
  - cbn [for_each List.length] in *. destruct (Hb x acc s) as [p [s1 E]].
    assert (L : body x acc s = (Ok (acc ++ [p])%list, s1)).
    { rewrite E. unfold push.
      destruct (Z.ltb_spec (Z.of_nat (List.length acc) + 1) (2 ^ 32)) as [_|C]; [|lia].
      reflexivity. }
    rewrite (bind_ok _ _ _ _ _ L).
    destruct (IH (acc ++ [p])%list s1) as [r [s' [Er Lr]]];
      [rewrite length_app; cbn [List.length]; lia|].
    exists r, s'. split; [exact Er|]. rewrite Lr, length_app. cbn [List.length]. lia.
Qed.

Lemma for_each_overflow {X A : Type} (l : list X) (body : X -> list A -> M (list A)) :
  (forall x pts s, exists p s', body x pts s = push pts p s') ->
  forall acc s, (Z.of_nat (List.length acc) < 2 ^ 32)%Z ->
    (2 ^ 32 <= Z.of_nat (List.length acc) + Z.of_nat (List.length l))%Z ->
    exists s', for_each l body acc s = (Throw RangeError, s').
Proof.
  intros Hb. induction l as [|x l IH]; intros acc s Ha Hl.
  - cbn [List.length] in Hl. lia.
  - cbn [for_each List.length] in *. destruct (Hb x acc s) as [p [s1 E]].
    destruct (Z.ltb_spec (Z.of_nat (List.length acc) + 1) (2 ^ 32)) as [L|C].
    + assert (L1 : body x acc s = (Ok (acc ++ [p])%list, s1)).
      { rewrite E. unfold push.
        destruct (Z.ltb_spec (Z.of_nat (List.length acc) + 1) (2 ^ 32)) as [_|C]; [|lia].
        reflexivity. }
      rewrite (bind_ok _ _ _ _ _ L1). apply IH; rewrite length_app; cbn [List.length]; lia.
    + exists s1. apply bind_throw. rewrite E. unfold push.
      destruct (Z.ltb_spec (Z.of_nat (List.length acc) + 1) (2 ^ 32)) as [L|_]; [lia|].
      reflexivity.
Qed.

(** The points the loops compute, as lists. *)
Definition moons_list (n_samples : nat) (noise : number) : M (list Point) :=
  let n_samples_out := Math_floor (div (of_nat n_samples) (lit 2)) in
  let n_samples_in := sub (of_nat n_samples) n_samples_out in
  top <- forM (seq 0 (loop_count n_samples_out)) (fun i =>
    let angle := mul (div (of_nat i) (sub n_samples_out (lit 1))) Math_PI in
    r1 <- Math_random ;;
    let x := add (Math_cos B angle) (jitter r1 noise) in
    r2 <- Math_random ;;
    let y := add (Math_sin B angle) (jitter r2 noise) in
    ret (point x y)) ;;
  bottom <- forM (seq 0 (loop_count n_samples_in)) (fun i =>
    let angle := mul (div (of_nat i) (sub n_samples_in (lit 1))) Math_PI in
    r1 <- Math_random ;;
    let x := add (sub (lit 1) (Math_cos B angle)) (jitter r1 noise) in
    r2 <- Math_random ;;
    let y := add (sub (lit (1 # 2)) (Math_sin B angle)) (jitter r2 noise) in
    ret (point x y)) ;;
  ret (top ++ bottom)%list.

Definition blob_centers (centers : nat) : M (list Point) :=
  forM (seq 0 centers) (fun _ =>
    r1 <- Math_random ;;
    r2 <- Math_random ;;
    ret (point (mul (sub r1 (lit (1 # 2))) (lit 8)) (mul (sub r2 (lit (1 # 2))) (lit 8)))).

Definition blob_of (centerPoints : list Point) (centers : nat) (cluster_std : number) (i : nat)
  : M Point :=
  match (if (centers =? 0)%nat then None else nth_error centerPoints (i mod centers)) with
  | None => throw TypeError
  | Some center =>
      r1 <- Math_random ;;
      let x := add (ToNumber (p_x center)) (mul (mul (sub r1 (lit (1 # 2))) (lit 2)) cluster_std) in
      r2 <- Math_random ;;
      let y := add (ToNumber (p_y center)) (mul (mul (sub r2 (lit (1 # 2))) (lit 2)) cluster_std) in
      ret (point x y)
  end.

Definition blobs_list (n_samples : nat) (centers : nat) (cluster_std : number)
  : M (list Point) :=
  centerPoints <- blob_centers centers ;;
  forM (seq 0 n_samples) (blob_of centerPoints centers cluster_std).

Definition circle_of (n_samples : nat) (factor noise : number) (i : nat) : M Point :=
  let is_outer := ge (of_nat i) (div (of_nat n_samples) (lit 2)) in
  let r := if is_outer then lit 1 else factor in
  a <- Math_random ;;
  let angle := mul (mul a (lit 2)) Math_PI in
  r1 <- Math_random ;;
  let x := add (mul r (Math_cos B angle)) (jitter r1 noise) in
  r2 <- Math_random ;;
  let y := add (mul r (Math_sin B angle)) (jitter r2 noise) in
  ret (point x y).

Definition circles_list (n_samples : nat) (factor noise : number) : M (list Point) :=
  forM (seq 0 n_samples) (circle_of n_samples factor noise).

Definition dataset_list (type : DatasetType) (n_samples : nat) : M (list Point) :=
  match type with
  | Moons => moons_list n_samples (lit (8 # 100))
  | Blobs => blobs_list n_samples 3 (lit (1 # 2))
  | Circles => circles_list n_samples (lit (1 # 2)) (lit (5 # 100))
  | Custom => ret []
  end.

Lemma blob_centers_from (s : Rng) :
  Array_from (of_nat 3) (fun _ : nat =>
    r1 <- Math_random ;;
    r2 <- Math_random ;;
    ret (point (mul (sub r1 (lit (1 # 2))) (lit 8)) (mul (sub r2 (lit (1 # 2))) (lit 8)))) s
  = blob_centers 3 s.
Proof. reflexivity. Qed.

(** Below 2^32 samples the generators return the points of the loops. *)
Lemma moons_small (n : nat) (noise : number) (s : Rng) :
  (Z.of_nat n < 2 ^ 32)%Z -> generateMoons B n noise s = moons_list n noise s.
Proof.
  intros Hn. assert (P : (2 ^ 32 < 2 ^ 53)%Z) by reflexivity.
  unfold generateMoons, moons_list. cbv zeta.
  destruct (moon_sizes n ltac:(lia)) as [E1 E2]. rewrite E1, E2.
  assert (Hh : (n / 2 <= n)%nat) by (apply Nat.Div0.div_le_upper_bound; lia).
  match goal with |- (_ <- for_each ?l1 ?b1 [] ;; _) s = (_ <- forM _ ?f1 ;; _) s =>
    pose proof (for_each_push l1 b1 f1 (fun x pts t => eq_refl) [] s) as L1 end.
  rewrite length_seq in L1. cbn [List.length app] in L1. specialize (L1 ltac:(lia)).
  match type of L1 with _ = (_ <- forM ?l ?f ;; _) s =>
    destruct (forM l f s) as [[top|e] s1] eqn:Et end.
  - rewrite (bind_ok _ _ _ _ _ Et) in L1. unfold ret in L1.
    rewrite (bind_ok _ _ _ _ _ L1). rewrite (bind_ok _ _ _ _ _ Et).
    apply forM_length in Et. rewrite length_seq in Et.
    match goal with |- (_ <- for_each ?l2 ?b2 top ;; _) s1 = (_ <- forM _ ?f2 ;; _) s1 =>
      pose proof (for_each_push l2 b2 f2 (fun x pts t => eq_refl) top s1) as L2 end.
    rewrite length_seq, Et in L2. specialize (L2 ltac:(lia)).
    match type of L2 with _ = (_ <- forM ?l ?f ;; _) s1 =>
      destruct (forM l f s1) as [[bottom|e] s2] eqn:Eb end.
    + rewrite (bind_ok _ _ _ _ _ Eb) in L2. unfold ret in L2.
      rewrite (bind_ok _ _ _ _ _ L2). rewrite (bind_ok _ _ _ _ _ Eb). reflexivity.
    + rewrite (bind_throw _ _ _ _ _ Eb) in L2.
      rewrite (bind_throw _ _ _ _ _ L2). rewrite (bind_throw _ _ _ _ _ Eb). reflexivity.
  - rewrite (bind_throw _ _ _ _ _ Et) in L1.
    rewrite (bind_throw _ _ _ _ _ L1). rewrite (bind_throw _ _ _ _ _ Et). reflexivity.
Qed.

Lemma blob_body (cs : list Point) (centers : nat) (std : number) x (pts : list Point) t :
  match (if (centers =? 0)%nat then None else nth_error cs (x mod centers)) with
  | None => throw TypeError
  | Some center =>
      r1 <- Math_random ;;
      let x := add (ToNumber (p_x center)) (mul (mul (sub r1 (lit (1 # 2))) (lit 2)) std) in
      r2 <- Math_random ;;
      let y := add (ToNumber (p_y center)) (mul (mul (sub r2 (lit (1 # 2))) (lit 2)) std) in
      push pts (point x y)
  end t
  = (p <- blob_of cs centers std x ;; push pts p) t.
Proof.
  unfold blob_of. destruct (if (centers =? 0)%nat then None else _); reflexivity.
Qed.

Lemma blobs_small (n : nat) (std : number) (s : Rng) :
  (Z.of_nat n < 2 ^ 32)%Z -> generateBlobs n 3 std s = blobs_list n 3 std s.
Proof.
  intros Hn. unfold generateBlobs, blobs_list. cbv zeta.
  destruct (blob_centers 3 s) as [[cs|e] s1] eqn:Ec.
  - pose proof Ec as Ec'. rewrite <- blob_centers_from in Ec'.
    rewrite (bind_ok _ _ _ _ _ Ec'), (bind_ok _ _ _ _ _ Ec).
    rewrite (for_each_push _ _ (blob_of cs 3 std) (blob_body cs 3 std))
      by (cbn [List.length]; rewrite length_seq; lia).
    unfold bind. destruct (forM _ _ s1) as [[ps|e] s2]; reflexivity.
  - pose proof Ec as Ec'. rewrite <- blob_centers_from in Ec'.
    rewrite (bind_throw _ _ _ _ _ Ec'), (bind_throw _ _ _ _ _ Ec). reflexivity.
Qed.

Lemma circles_small (n : nat) (factor noise : number) (s : Rng) :
  (Z.of_nat n < 2 ^ 32)%Z -> generateCircles B n factor noise s = circles_list n factor noise s.
Proof.
  intros Hn. unfold generateCircles, circles_list. cbv zeta.
  rewrite (for_each_push _ _ (circle_of n factor noise) (fun x pts t => eq_refl))
    by (cbn [List.length]; rewrite length_seq; lia).
  unfold bind. destruct (forM _ _ s) as [[ps|e] s2]; reflexivity.
Qed.

(** Below 2^32 samples the generators return the points of the loops. *)
Lemma generateDataset_small (type : DatasetType) (n : nat) (s : Rng) :
  (Z.of_nat n < 2 ^ 32)%Z -> generateDataset B type n s = dataset_list type n s.
Proof.
  intros Hn. destruct type; cbn [generateDataset dataset_list].
  - apply moons_small. exact Hn.
  - apply blobs_small. exact Hn.
  - apply circles_small. exact Hn.
  - reflexivity.
Qed.

Lemma dataset_list_returns (type : DatasetType) (n : nat) (s : Rng) :
  (Z.of_nat n < 2 ^ 53)%Z ->
  exists points s',
    dataset_list type n s = (Ok points, s')
    /\ List.length points = match type with Custom => 0%nat | _ => n end
    /\ (random_source s -> random_source s').
Proof.
  intros Hn. destruct type; cbn [dataset_list].
  - unfold moons_list. destruct (moon_sizes n Hn) as [E1 E2]. rewrite E1, E2.
    match goal with |- context [bind (forM ?l ?f) _] =>
      destruct (forM_always random_source f l) with (s := s) as [top [s1 [Et [Lt Q1]]]] end.
    { intros x t. eexists. eexists. split; [reflexivity|]. apply (random_source_skip t 2). }
    rewrite (bind_ok _ _ _ _ _ Et).
    match goal with |- context [bind (forM ?l ?f) _] =>
      destruct (forM_always random_source f l) with (s := s1) as [bottom [s2 [Eb [Lb Q2]]]] end.
    { intros x t. eexists. eexists. split; [reflexivity|]. apply (random_source_skip t 2). }
    rewrite (bind_ok _ _ _ _ _ Eb).
    exists (top ++ bottom)%list, s2. split; [reflexivity|]. split; [|auto].
    rewrite length_app, Lt, Lb, !length_seq.
    assert (n / 2 <= n)%nat by (apply Nat.Div0.div_le_upper_bound; lia). lia.
  - unfold blobs_list, blob_centers.
    match goal with |- context [bind (forM ?l ?f) _] =>
      destruct (forM_always random_source f l) with (s := s) as [cs [s1 [Ec [Lc Q1]]]] end.
    { intros x t. eexists. eexists. split; [reflexivity|]. apply (random_source_skip t 2). }
    rewrite (bind_ok _ _ _ _ _ Ec). rewrite length_seq in Lc.
    match goal with |- context [forM ?l ?f] =>
      destruct (forM_always random_source f l) with (s := s1) as [ps [s2 [Ep [Lp Q2]]]] end.
    { intros i t. unfold blob_of. cbn [Nat.eqb].
      destruct (nth_error cs (i mod 3)) as [c|] eqn:Ei.
      - eexists. eexists. split; [reflexivity|]. apply (random_source_skip t 2).
      - apply nth_error_None in Ei. pose proof (Nat.mod_upper_bound i 3). lia. }
    exists ps, s2. split; [exact Ep|]. split; [rewrite Lp; apply length_seq | auto].
  - unfold circles_list.
    match goal with |- context [forM ?l ?f] =>
      destruct (forM_always random_source f l) with (s := s) as [ps [s2 [Ep [Lp Q2]]]] end.
    { intros i t. unfold circle_of. eexists. eexists. split; [reflexivity|].
      apply (random_source_skip t 3). }
    exists ps, s2. split; [exact Ep|]. split; [rewrite Lp; apply length_seq | auto].
  - exists [], s. split; [reflexivity|]. split; [reflexivity | auto].
Qed.

Lemma generateDataset_returns (type : DatasetType) (n : nat) (s : Rng) :
  (Z.of_nat n < 2 ^ 32)%Z ->
  exists points s',
    generateDataset B type n s = (Ok points, s')
    /\ List.length points = match type with Custom => 0%nat | _ => n end
    /\ (random_source s -> random_source s').
Proof.
  intros Hn. rewrite generateDataset_small by exact Hn. apply dataset_list_returns.
  assert (P : (2 ^ 32 < 2 ^ 53)%Z) by reflexivity. lia.
Qed.

(** From 2^32 samples on the array cannot take the points. *)
Lemma generateDataset_overflow (type : DatasetType) (n : nat) (s : Rng) :
  type <> Custom -> (2 ^ 32 <= Z.of_nat n < 2 ^ 53)%Z ->
  exists s', generateDataset B type n s = (Throw RangeError, s').
Proof.
  intros Ht Hn. assert (P : (0 < 2 ^ 32)%Z) by reflexivity.
  destruct type; cbn [generateDataset]; [| | |congruence].
  - unfold generateMoons. cbv zeta.
    destruct (moon_sizes n ltac:(lia)) as [E1 E2]. rewrite E1, E2.
    assert (Hh : (n / 2 <= n)%nat) by (apply Nat.Div0.div_le_upper_bound; lia).
    destruct (Z_lt_dec (Z.of_nat (n / 2)) (2 ^ 32)) as [S1|S1].
    + match goal with |- exists _, (_ <- for_each ?l1 ?b1 [] ;; _) s = _ =>
        destruct (for_each_fills l1 b1) with (acc := @nil Point) (s := s)
          as [top [s1 [Et Lt]]] end.
      { intros x pts t. eexists. eexists. reflexivity. }
      { rewrite length_seq. cbn [List.length]. lia. }
      rewrite (bind_ok _ _ _ _ _ Et). rewrite length_seq in Lt. cbn [List.length] in Lt.
      match goal with |- exists _, (_ <- for_each ?l2 ?b2 top ;; _) s1 = _ =>
        destruct (for_each_overflow l2 b2) with (acc := top) (s := s1) as [s2 E2'] end.
      * intros x pts t. eexists. eexists. reflexivity.
      * lia.
      * rewrite length_seq. lia.
      * exists s2. apply bind_throw. exact E2'.
    + match goal with |- exists _, (_ <- for_each ?l1 ?b1 [] ;; _) s = _ =>
        destruct (for_each_overflow l1 b1) with (acc := @nil Point) (s := s) as [s1 E1'] end.
      * intros x pts t. eexists. eexists. reflexivity.
      * cbn [List.length]. lia.
      * rewrite length_seq. cbn [List.length]. lia.
      * exists s1. apply bind_throw. exact E1'.
  - unfold generateBlobs. cbv zeta.
    destruct (forM_always (fun _ => True)
                (fun _ : nat =>
                   r1 <- Math_random ;;
                   r2 <- Math_random ;;
                   ret (point (mul (sub r1 (lit (1 # 2))) (lit 8))
                              (mul (sub r2 (lit (1 # 2))) (lit 8))))
                (seq 0 3)) with (s := s) as [cs [s1 [Ec [Lc _]]]].
    { intros x t. eexists. eexists. split; [reflexivity | auto]. }
    change (forM (seq 0 3) _ s) with (blob_centers 3 s) in Ec.
    rewrite <- blob_centers_from in Ec. rewrite (bind_ok _ _ _ _ _ Ec).
    rewrite length_seq in Lc.
    apply for_each_overflow.
    + intros i pts t. cbn [Nat.eqb].
      destruct (nth_error cs (i mod 3)) as [c|] eqn:Ei.
      * eexists. eexists. reflexivity.
      * apply nth_error_None in Ei. pose proof (Nat.mod_upper_bound i 3). lia.
    + cbn [List.length]. lia.
    + rewrite length_seq. cbn [List.length]. lia.
  - unfold generateCircles. cbv zeta.
    apply for_each_overflow.
    + intros i pts t. eexists. eexists. reflexivity.
    + cbn [List.length]. lia.
    + rewrite length_seq. cbn [List.length]. lia.
Qed.

(** X6: below 2^32 samples [generateDataset] returns exactly as many points
    as were asked for, for the three synthetic types and whatever the draws,
    and no point for the custom type; from 2^32 samples on a synthetic type
    ends in a RangeError, the array being full. *)
Theorem generateDataset_length (type : DatasetType) (n : nat) (s : Rng) :
  ((Z.of_nat n < 2 ^ 32)%Z ->
   exists points s',
     generateDataset B type n s = (Ok points, s')
     /\ List.length points = match type with Custom => 0%nat | _ => n end)
  /\ ((2 ^ 32 <= Z.of_nat n < 2 ^ 53)%Z -> type <> Custom ->
      exists s', generateDataset B type n s = (Throw RangeError, s')).
Proof.
  split.
  - intros Hn. destruct (generateDataset_returns type n s Hn) as [points [s' [E [L _]]]].
    exists points, s'. split; assumption.
  - intros Hn Ht. apply generateDataset_overflow; assumption.
Qed.

(** *** Where the generated points lie *)

(** [Math.cos] and [Math.sin] of the run time return values of [-1, 1]. *)
Definition unit_trig : Prop :=
  forall q, within (-1) 1 (cos_approx B q) /\ within (-1) 1 (sin_approx B q).

(** A point with finite coordinates, in a rectangle. *)
Definition in_box (xlo xhi ylo yhi : Q) (p : Point) : Prop :=
  exists x y, p = point x y /\ within xlo xhi x /\ within ylo yhi y.

Definition box (type : DatasetType) : Point -> Prop :=
  match type with
  | Moons => in_box (-11 # 10) (21 # 10) (-11 # 10) (16 # 10)
  | Blobs => in_box (-45 # 10) (45 # 10) (-45 # 10) (45 # 10)
  | Circles => in_box (-11 # 10) (11 # 10) (-11 # 10) (11 # 10)
  | Custom => fun _ => True
  end.

Ltac bound := vm_compute; discriminate.

Lemma centred_within r : unit_draw r -> within (-1 # 2) (1 # 2) (sub r (lit (1 # 2))).
Proof.
  intros Hr. replace (lit (1 # 2)) with (Fin (1 # 2)) by by_rounding.
  eapply within_sub; [apply unit_draw_within; exact Hr | apply within_exact | |]; by_rounding.
Qed.

(** The noise added to a coordinate of a moon or a circle stays below 0.09. *)
Lemma jitter_within r (noise : Q) :
  unit_draw r -> (noise = 8 # 100 \/ noise = 5 # 100) ->
  within (-9 # 100) (9 # 100) (jitter r (lit noise)).
Proof.
  intros Hr Hn. unfold jitter. pose proof (centred_within r Hr) as H.
  replace (lit 2) with (Fin 2) by by_rounding.
  destruct Hn as [-> | ->].
  - set (c := val (lit (8 # 100))).
    replace (lit (8 # 100)) with (Fin c) by by_rounding.
    eapply within_weaken;
      [eapply within_mul_r;
         [eapply within_mul_r; [exact H | bound | by_rounding | by_rounding]
         | bound | by_rounding | by_rounding]
      | bound | bound].
  - set (c := val (lit (5 # 100))).
    replace (lit (5 # 100)) with (Fin c) by by_rounding.
    eapply within_weaken;
      [eapply within_mul_r;
         [eapply within_mul_r; [exact H | bound | by_rounding | by_rounding]
         | bound | by_rounding | by_rounding]
      | bound | bound].
Qed.

(** The angle of a point is finite, so that its cosine and sine are those of
    the run time. *)
Lemma trig_within (angle : number) :
  unit_trig -> (exists lo hi, within lo hi angle) ->
  within (-1) 1 (Math_cos B angle) /\ within (-1) 1 (Math_sin B angle).
Proof.
  intros T [lo [hi [q [-> _]]]]. apply T.
Qed.

Lemma blob_centre (s : Rng) :
  random_source s ->
  exists c s',
    (r1 <- Math_random ;; r2 <- Math_random ;;
     ret (point (mul (sub r1 (lit (1 # 2))) (lit 8)) (mul (sub r2 (lit (1 # 2))) (lit 8)))) s
    = (Ok c, s')
    /\ in_box (-4) 4 (-4) 4 c /\ random_source s'.
Proof.
  intros Hs. cbv beta iota zeta delta [bind Math_random ret].
  eexists. eexists. split; [reflexivity|].
  split; [|intros j; apply Hs].
  eexists. eexists. split; [reflexivity|].
  replace (lit 8) with (Fin 8) by by_rounding.
  split; (eapply within_mul_r; [apply centred_within; apply Hs | bound | by_rounding | by_rounding]).
Qed.

Lemma blob_point (c : Point) (s : Rng) :
  random_source s -> in_box (-4) 4 (-4) 4 c ->
  exists p s',
    (r1 <- Math_random ;;
     let x := add (ToNumber (p_x c))
                  (mul (mul (sub r1 (lit (1 # 2))) (lit 2)) (lit (1 # 2))) in
     r2 <- Math_random ;;
     let y := add (ToNumber (p_y c))
                  (mul (mul (sub r2 (lit (1 # 2))) (lit 2)) (lit (1 # 2))) in
     ret (point x y)) s = (Ok p, s')
    /\ box Blobs p /\ random_source s'.
Proof.
  intros Hs [cx [cy [-> [Hx Hy]]]]. cbv beta iota zeta delta [bind Math_random ret].
  eexists. eexists. split; [reflexivity|].
  split; [|intros j; apply Hs].
  eexists. eexists. split; [reflexivity|]. cbn [point p_x p_y ToNumber].
  replace (lit 2) with (Fin 2) by by_rounding.
  replace (lit (1 # 2)) with (Fin (1 # 2)) by by_rounding.
  assert (J : forall r, unit_draw r ->
            within (-1 # 2) (1 # 2) (mul (mul (sub r (Fin (1 # 2))) (Fin 2)) (Fin (1 # 2)))).
  { intros r Hr. pose proof (centred_within r Hr) as H.
    replace (lit (1 # 2)) with (Fin (1 # 2)) in H by by_rounding.
    eapply within_mul_r;
      [eapply within_mul_r; [exact H | bound | by_rounding | by_rounding]
      | bound | by_rounding | by_rounding]. }
  split.
  - eapply within_weaken;
      [eapply within_add; [exact Hx | apply J, Hs | by_rounding | by_rounding] | bound | bound].
  - eapply within_weaken;
      [eapply within_add; [exact Hy | apply J, Hs | by_rounding | by_rounding] | bound | bound].
Qed.

Lemma circle_point (r : number) (s : Rng) :
  unit_trig -> random_source s -> (r = lit 1 \/ r = lit (1 # 2)) ->
  exists p s',
    (a <- Math_random ;;
     let angle := mul (mul a (lit 2)) Math_PI in
     r1 <- Math_random ;;
     let x := add (mul r (Math_cos B angle)) (jitter r1 (lit (5 # 100))) in
     r2 <- Math_random ;;
     let y := add (mul r (Math_sin B angle)) (jitter r2 (lit (5 # 100))) in
     ret (point x y)) s = (Ok p, s')
    /\ box Circles p /\ random_source s'.
Proof.
  intros T Hs Hr. cbv beta iota zeta delta [bind Math_random ret].
  eexists. eexists. split; [reflexivity|].
  split; [|intros j; apply Hs].
  eexists. eexists. split; [reflexivity|].
  assert (A : exists lo hi, within lo hi (mul (mul (s 0%nat) (lit 2)) Math_PI)).
  { replace (lit 2) with (Fin 2) by by_rounding.
    set (pi := val Math_PI). replace Math_PI with (Fin pi) by by_rounding.
    eexists. eexists.
    eapply within_mul_r;
      [eapply within_mul_r; [apply unit_draw_within, Hs | bound | by_rounding | by_rounding]
      | bound | by_rounding | by_rounding]. }
  destruct (trig_within _ T A) as [C S].
  assert (R : forall v, within (-1) 1 v -> within (-1) 1 (mul r v)).
  { intros v Hv. destruct Hr as [-> | ->].
    - replace (lit 1) with (Fin 1) by by_rounding.
      eapply within_mul_l; [exact Hv | bound | by_rounding | by_rounding].
    - replace (lit (1 # 2)) with (Fin (1 # 2)) by by_rounding.
      eapply within_weaken; [eapply within_mul_l;
        [exact Hv | bound | by_rounding | by_rounding] | bound | bound]. }
  split.
  - eapply within_weaken; [eapply within_add;
      [apply R, C | apply (jitter_within (s 1%nat)); [apply Hs | right; reflexivity]
       | by_rounding | by_rounding] | bound | bound].
  - eapply within_weaken; [eapply within_add;
      [apply R, S | apply (jitter_within (s 2%nat)); [apply Hs | right; reflexivity]
       | by_rounding | by_rounding] | bound | bound].
Qed.

(** The angle of the [i]-th point of a moon of [m >= 2] points. *)
Lemma moon_angle (m : number) (i : nat) :
  within 2 (inject_Z (2 ^ 53)) m -> (Z.of_nat i < 2 ^ 53)%Z ->
  exists lo hi, within lo hi (mul (div (of_nat i) (sub m (lit 1))) Math_PI).
Proof.
  intros Hm Hi. replace (lit 1) with (Fin 1) by by_rounding.
  assert (S1 : within 1 (inject_Z (2 ^ 53)) (sub m (Fin 1))).
  { eapply within_weaken;
      [eapply within_sub; [exact Hm | apply within_exact | by_rounding | by_rounding]
      | bound | bound]. }
  destruct S1 as [v [-> [V _]]].
  unfold of_nat, of_Z. cbn [div].
  assert (Z0 : Qzero v = false).
  { unfold Qzero. destruct (Qcompare_spec v 0); try reflexivity. lra. }
  rewrite Z0.
  assert (I0 : 0 <= inject_Z (Z.of_nat i)).
  { change 0 with (inject_Z 0). rewrite <- Zle_Qle. lia. }
  assert (I1 : inject_Z (Z.of_nat i) <= inject_Z (2 ^ 53)).
  { rewrite <- Zle_Qle. lia. }
  assert (D : within 0 (inject_Z (2 ^ 53)) (rnd (inject_Z (Z.of_nat i) / v))).
  { apply (within_rnd _ 0 (inject_Z (2 ^ 53))); [| |by_rounding|by_rounding].
    - apply Qle_shift_div_l; lra.
    - apply Qle_shift_div_r; [lra | nra]. }
  set (pi := val Math_PI). replace Math_PI with (Fin pi) by by_rounding.
  eexists. eexists.
  eapply within_mul_r; [exact D | bound | by_rounding | by_rounding].
Qed.

Lemma moon_top (m : number) (i : nat) (s : Rng) :
  unit_trig -> random_source s ->
  within 2 (inject_Z (2 ^ 53)) m -> (Z.of_nat i < 2 ^ 53)%Z ->
  exists p s',
    (let angle := mul (div (of_nat i) (sub m (lit 1))) Math_PI in
     r1 <- Math_random ;;
     let x := add (Math_cos B angle) (jitter r1 (lit (8 # 100))) in
     r2 <- Math_random ;;
     let y := add (Math_sin B angle) (jitter r2 (lit (8 # 100))) in
     ret (point x y)) s = (Ok p, s')
    /\ box Moons p /\ random_source s'.
Proof.
  intros T Hs Hm Hi. cbv beta iota zeta delta [bind Math_random ret].
  eexists. eexists. split; [reflexivity|].
  split; [|intros j; apply Hs].
  eexists. eexists. split; [reflexivity|].
  destruct (trig_within _ T (moon_angle m i Hm Hi)) as [C S].
  split.
  - eapply within_weaken; [eapply within_add;
      [exact C | apply (jitter_within (s 0%nat)); [apply Hs | left; reflexivity]
       | by_rounding | by_rounding] | bound | bound].
  - eapply within_weaken; [eapply within_add;
      [exact S | apply (jitter_within (s 1%nat)); [apply Hs | left; reflexivity]
       | by_rounding | by_rounding] | bound | bound].
Qed.

Lemma moon_bottom (m : number) (i : nat) (s : Rng) :
  unit_trig -> random_source s ->
  within 2 (inject_Z (2 ^ 53)) m -> (Z.of_nat i < 2 ^ 53)%Z ->
  exists p s',
    (let angle := mul (div (of_nat i) (sub m (lit 1))) Math_PI in
     r1 <- Math_random ;;
     let x := add (sub (lit 1) (Math_cos B angle)) (jitter r1 (lit (8 # 100))) in
     r2 <- Math_random ;;
     let y := add (sub (lit (1 # 2)) (Math_sin B angle)) (jitter r2 (lit (8 # 100))) in
     ret (point x y)) s = (Ok p, s')
    /\ box Moons p /\ random_source s'.
Proof.
  intros T Hs Hm Hi. cbv beta iota zeta delta [bind Math_random ret].
  eexists. eexists. split; [reflexivity|].
  split; [|intros j; apply Hs].
  eexists. eexists. split; [reflexivity|].
  destruct (trig_within _ T (moon_angle m i Hm Hi)) as [C S].
  replace (lit 1) with (Fin 1) by by_rounding.
  replace (lit (1 # 2)) with (Fin (1 # 2)) by by_rounding.
  split.
  - eapply within_weaken; [eapply within_add;
      [eapply within_sub; [apply within_exact | exact C | by_rounding | by_rounding]
       | apply (jitter_within (s 0%nat)); [apply Hs | left; reflexivity]
       | by_rounding | by_rounding] | bound | bound].
  - eapply within_weaken; [eapply within_add;
      [eapply within_sub; [apply within_exact | exact S | by_rounding | by_rounding]
       | apply (jitter_within (s 1%nat)); [apply Hs | left; reflexivity]
       | by_rounding | by_rounding] | bound | bound].
Qed.

Lemma in_seq_bound (i n : nat) : In i (seq 0 n) -> (i < n)%nat.
Proof. intros H. apply in_seq in H. lia. Qed.

Lemma dataset_list_finite (type : DatasetType) (n : nat) (s : Rng) :
  random_source s ->
  (type <> Blobs -> unit_trig) ->
  (type = Moons -> 4 <= n)%nat ->
  (Z.of_nat n < 2 ^ 53)%Z ->
  exists points s',
    dataset_list type n s = (Ok points, s')
    /\ List.length points = match type with Custom => 0%nat | _ => n end
    /\ Forall (box type) points.
Proof.
  intros Hs T H4 Hn. destruct type; cbn [dataset_list].
  - specialize (T ltac:(discriminate)). specialize (H4 eq_refl).
    unfold moons_list. destruct (moon_sizes n Hn) as [E1 E2].
    rewrite E1. rewrite E2. clear E1 E2. rewrite (half_floor n Hn).
    assert (H2 : (Z.of_nat n / 2 = Z.of_nat (n / 2))%Z) by (rewrite Nat2Z.inj_div; reflexivity).
    assert (Hh2 : (2 <= n / 2)%nat) by (apply Nat.div_le_lower_bound; lia).
    assert (Hl : (n / 2 <= n - 2)%nat).
    { pose proof (Nat.div_mod_eq n 2). pose proof (Nat.mod_upper_bound n 2). lia. }
    assert (Wo : within 2 (inject_Z (2 ^ 53)) (of_Z (Z.of_nat n / 2))).
    { exists (inject_Z (Z.of_nat n / 2)). split; [reflexivity|].
      change 2 with (inject_Z 2). rewrite <- !Zle_Qle. lia. }
    assert (Wi : within 2 (inject_Z (2 ^ 53)) (sub (of_nat n) (of_Z (Z.of_nat n / 2)))).
    { unfold of_nat, of_Z. cbn [sub].
      apply (within_rnd _ 2 (inject_Z (2 ^ 53))); [| |by_rounding|by_rounding].
      - assert (E : 2 + inject_Z (Z.of_nat n / 2) <= inject_Z (Z.of_nat n)).
        { change 2 with (inject_Z 2). rewrite <- inject_Z_plus, <- Zle_Qle. lia. }
        lra.
      - assert (E : inject_Z (Z.of_nat n) <= inject_Z (2 ^ 53)) by (rewrite <- Zle_Qle; lia).
        assert (E0 : 0 <= inject_Z (Z.of_nat n / 2)).
        { change 0 with (inject_Z 0). rewrite <- Zle_Qle. lia. }
        lra. }
    match goal with |- context [bind (forM ?l ?f) _] =>
      destruct (forM_total (box Moons) f l) with (s := s) as [top [s1 [Et [Ft [Lt Hs1]]]]] end.
    { intros i t Hi Ht. apply in_seq_bound in Hi. apply moon_top; try assumption. lia. }
    { exact Hs. }
    rewrite (bind_ok _ _ _ _ _ Et).
    match goal with |- context [bind (forM ?l ?f) _] =>
      destruct (forM_total (box Moons) f l) with (s := s1) as [bot [s2 [Eb [Fb [Lb Hs2]]]]] end.
    { intros i t Hi Ht. apply in_seq_bound in Hi. apply moon_bottom; try assumption. lia. }
    { exact Hs1. }
    rewrite (bind_ok _ _ _ _ _ Eb).
    exists (top ++ bot)%list, s2. split; [reflexivity|]. split.
    + rewrite length_app, Lt, Lb, !length_seq. lia.
    + apply Forall_app. split; assumption.
  - unfold blobs_list, blob_centers.
    match goal with |- context [bind (forM ?l ?f) _] =>
      destruct (forM_total (in_box (-4) 4 (-4) 4) f l) with (s := s)
        as [cs [s1 [Ec [Fc [Lc Hs1]]]]] end.
    { intros i t _ Ht. apply blob_centre. exact Ht. }
    { exact Hs. }
    rewrite (bind_ok _ _ _ _ _ Ec). rewrite length_seq in Lc.
    match goal with |- context [forM ?l ?f] =>
      destruct (forM_total (box Blobs) f l) with (s := s1) as [ps [s2 [Ep [Fp [Lp Hs2]]]]] end.
    { intros i t _ Ht. unfold blob_of. cbn [Nat.eqb].
      destruct (nth_error cs (i mod 3)) as [c|] eqn:Ei.
      - apply blob_point; [exact Ht|]. apply nth_error_In in Ei.
        revert c Ei. apply Forall_forall. exact Fc.
      - apply nth_error_None in Ei. pose proof (Nat.mod_upper_bound i 3). lia. }
    { exact Hs1. }
    exists ps, s2. split; [exact Ep|]. split; [rewrite Lp; apply length_seq | exact Fp].
  - specialize (T ltac:(discriminate)). unfold circles_list.
    match goal with |- context [forM ?l ?f] =>
      destruct (forM_total (box Circles) f l) with (s := s) as [ps [s2 [Ep [Fp [Lp Hs2]]]]] end.
    { intros i t _ Ht. unfold circle_of. apply circle_point; [exact T | exact Ht |].
      destruct (ge _ _); [left | right]; reflexivity. }
    { exact Hs. }
    exists ps, s2. split; [exact Ep|]. split; [rewrite Lp; apply length_seq | exact Fp].
  - exists [], s. split; [reflexivity|]. split; [reflexivity | constructor].
Qed.

(** X7: with draws of [0, 1) and a cosine and sine of [-1, 1], every point of
    a generated dataset has finite coordinates, in a rectangle that depends on
    the type only: blobs in [-4.5, 4.5] x [-4.5, 4.5], circles in
    [-1.1, 1.1] x [-1.1, 1.1], and moons of four samples or more in
    [-1.1, 2.1] x [-1.1, 1.6].  Blobs need nothing of the cosine and sine.
    From 2^32 samples on there is no dataset: the array is full and the
    generator ends in a RangeError. *)
Theorem generateDataset_finite (type : DatasetType) (n : nat) (s : Rng) :
  random_source s ->
  (type <> Blobs -> unit_trig) ->
  (type = Moons -> 4 <= n)%nat ->
  (Z.of_nat n < 2 ^ 53)%Z ->
  ((Z.of_nat n < 2 ^ 32)%Z ->
   exists points s',
     generateDataset B type n s = (Ok points, s')
     /\ List.length points = match type with Custom => 0%nat | _ => n end
     /\ Forall (box type) points)
  /\ ((2 ^ 32 <= Z.of_nat n)%Z -> type <> Custom ->
      exists s', generateDataset B type n s = (Throw RangeError, s')).
Proof.
  intros Hs T H4 Hn. split.
  - intros H32. rewrite generateDataset_small by exact H32.
    apply dataset_list_finite; assumption.
  - intros H32 Ht. apply generateDataset_overflow; [exact Ht | lia].
Qed.

End GeneratorFacts.

Lemma generateDataset_length_witness :
  exists points s',
    generateDataset B0 Moons 7 cycle_draws = (Ok points, s')
    /\ List.length points = 7%nat.
Proof.
  apply (proj1 (generateDataset_length B0 Moons 7 cycle_draws)). reflexivity.
Defined.

Lemma unit_trig_B0 : unit_trig B0.
Proof.
  intros q. split; eexists; (split; [reflexivity|]); split; vm_compute; discriminate.
Qed.

Lemma generateDataset_finite_witness :
  exists points s',
    generateDataset B0 Moons 4 half_draws = (Ok points, s')
    /\ List.length points = 4%nat
    /\ Forall (box Moons) points.
Proof.
  apply (generateDataset_finite B0 Moons 4 half_draws).
  - apply half_draws_random.
  - intros _. apply unit_trig_B0.
  - intros _. apply le_n.
  - reflexivity.
  - reflexivity.
Defined.

(** ** The order of the positional split *)

Section XSplitOrder.
Context (B : Builtins).
Local Open Scope Q_scope.

(** X8: the positional split returns its points in ascending order of [x]:
    when every [x] is a binary64 value, a point of the result never has a
    greater [x] than a later one, whatever the number of clusters and the
    sort of the run time. *)
Theorem xsplit_sorted_by_x (points : list Point) (k : number) :
  Forall double_x points ->
  forall i j a b, (i <= j)%nat ->
    nth_error (assignClustersByXSplit B points k) i = Some a ->
    nth_error (assignClustersByXSplit B points k) j = Some b ->
    x_le a b.
Proof. apply xsplit_sorted. Qed.

(** *** Stability *)

(** The points whose [x] is the number [c]. *)
Definition same_x (c : Q) (p : Point) : bool :=
  match p_x p with
  | JNum (Fin q) => Qeq_bool q c
  | _ => false
  end.

Lemma filter_insert (c : Q) (a : Point) (l : list Point) :
  filter (same_x c) (insert compare_x a l)
  = if same_x c a then a :: filter (same_x c) l else filter (same_x c) l.
Proof.
  induction l as [|b l IH]; cbn [insert].
  - cbn [filter]. destruct (same_x c a); reflexivity.
  - destruct (gt (compare_x a b) (lit 0)) eqn:G.
    + cbn [filter]. rewrite IH. destruct (same_x c a) eqn:Pa; [|reflexivity].
      assert (Pb : same_x c b = false).
      { unfold same_x in *. unfold compare_x, gt in G.
        destruct (p_x a) as [|[|[|]|u]]; try discriminate.
        destruct (p_x b) as [|[|[|]|v]]; try reflexivity.
        cbn [ToNumber sub] in G. apply Qeq_bool_iff in Pa.
        destruct (Qeq_bool v c) eqn:Ev; [|reflexivity]. apply Qeq_bool_iff in Ev.
        assert (L : u - v <= 0) by lra.
        pose proof (rnd_le _ _ L) as R. change (rnd 0) with (Fin 0) in R.
        replace (lit 0) with (Fin 0) in G by reflexivity.
        destruct (rnd (u - v)) as [|[|]|w]; cbn [num_le lt negb] in *; try discriminate;
          try contradiction.
        apply lt_spec in G. lra. }
      rewrite Pb. reflexivity.
    + cbn [filter]. destruct (same_x c a); reflexivity.
Qed.

Lemma filter_sort (c : Q) (l : list Point) :
  filter (same_x c) (sort compare_x l) = filter (same_x c) l.
Proof.
  induction l as [|a l IH]; [reflexivity|].
  cbn [sort fold_right]. fold (sort compare_x l). rewrite filter_insert, IH. reflexivity.
Qed.

Lemma filter_mapi_from (c : Q) (f : Point -> nat -> Point) (l : list Point) :
  (forall p i, coords (f p i) = coords p) ->
  forall s, map coords (filter (same_x c) (mapi_from s f l)) = map coords (filter (same_x c) l).
Proof.
  intros Hf. induction l as [|a l IH]; intros s; [reflexivity|].
  cbn [mapi_from filter].
  assert (E : same_x c (f a s) = same_x c a).
  { unfold same_x. pose proof (Hf a s) as H. unfold coords in H. injection H as -> _. reflexivity. }
  rewrite E. destruct (same_x c a); cbn [map]; rewrite IH; [rewrite Hf|]; reflexivity.
Qed.

(** X9: on points whose [x] are numbers (binary64 values) the sort of the
    positional split is stable: the points with any one [x] come out in the
    order in which they went in, for every number of clusters that is not
    zero or below. *)
Theorem xsplit_stable (points : list Point) (k : number) (c : Q) :
  le k (lit 0) = false -> Forall double_x points ->
  map coords (filter (same_x c) (assignClustersByXSplit B points k))
  = map coords (filter (same_x c) points).
Proof.
  intros Hk F. destruct points as [|p0 points']; [reflexivity|].
  set (points := p0 :: points') in *.
  destruct (xsplit_sorted_unfold B points k ltac:(discriminate) Hk F) as [E _].
  rewrite E. unfold mapi.
  rewrite filter_mapi_from by reflexivity. rewrite filter_sort. reflexivity.
Qed.

End XSplitOrder.

Lemma xsplit_sorted_by_x_witness :
  Forall double_x split_points
  /\ forall i j a b, (i <= j)%nat ->
       nth_error (assignClustersByXSplit B0 split_points (lit 2%Q)) i = Some a ->
       nth_error (assignClustersByXSplit B0 split_points (lit 2%Q)) j = Some b ->
       x_le a b.
Proof.
  split; [exact split_points_double|].
  apply (xsplit_sorted_by_x B0 split_points (lit 2%Q) split_points_double).
Defined.

Lemma xsplit_stable_witness :
  map coords (filter (same_x 2) (assignClustersByXSplit B0 split_points (lit 2%Q)))
  = map coords (filter (same_x 2) split_points).
Proof.
  apply (xsplit_stable B0 split_points (lit 2%Q) 2).
  - reflexivity.
  - exact split_points_double.
Defined.

Example xsplit_stable_example :
  map coords (filter (same_x 2) split_points)
  = [(JNum (Fin 2%Q), JNum (Fin 0%Q)); (JNum (Fin 2%Q), JNum (Fin 7%Q))].
Proof. reflexivity. Qed.

(** ** The nearest centroid *)

Section Nearest.
Local Open Scope Q_scope.

Lemma lt_irrefl x : lt x x = false.
Proof.
  destruct x as [|[|]|q]; try reflexivity. cbn [lt].
  destruct (Qcompare_spec q q); try reflexivity. lra.
Qed.

Lemma lt_trans x y z : lt x y = true -> lt y z = true -> lt x z = true.
Proof.
  destruct x as [|[|]|a], y as [|[|]|b], z as [|[|]|c]; cbn [lt andb negb];
    try discriminate; try reflexivity.
  intros H1 H2. apply lt_spec in H1. apply lt_spec in H2. apply lt_spec. lra.
Qed.

(** [a < b] and not [c < b], for a [c] that is a number, give [a < c]. *)
Lemma lt_le_trans a b c :
  lt a b = true -> lt c b = false -> isNaN c = false -> lt a c = true.
Proof.
  destruct a as [|[|]|u], b as [|[|]|v], c as [|[|]|w]; cbn [lt andb negb isNaN];
    try discriminate; try reflexivity.
  intros H1 H2 _. apply lt_spec in H1. apply lt_false in H2. apply lt_spec. lra.
Qed.

Lemma lt_not_NaN a b : lt a b = true -> isNaN a = false /\ isNaN b = false.
Proof. destruct a as [|[|]|u], b as [|[|]|v]; cbn [lt isNaN]; try discriminate; auto. Qed.

(** What the loop over the centroids computes, from any state whose
    distance is not NaN. *)
Lemma closest_spec (point : Point) (means : list (option Point)) :
  forall index st i d,
  isNaN (snd st) = false ->
  closest point means index st = Ok (i, d) ->
  (forall j m, nth_error means j = Some (Some m) -> lt (distance point m) d = false)
  /\ lt (snd st) d = false
  /\ isNaN d = false
  /\ ((i, d) = st
      \/ exists m, (index <= i)%nat
           /\ nth_error means (i - index) = Some (Some m)
           /\ d = distance point m
           /\ lt d (snd st) = true
           /\ forall j mj, (j < i - index)%nat -> nth_error means j = Some (Some mj) ->
                lt d (distance point mj) = true \/ isNaN (distance point mj) = true).
Proof.
  induction means as [|[mean|] means IH]; intros index st i d Hst H; cbn [closest] in H.
  - injection H as ->. cbn [snd] in *. split; [intros [|j] m Hj; discriminate|].
    split; [apply lt_irrefl|]. split; [exact Hst|]. left. reflexivity.
  - set (d0 := distance point mean) in *.
    set (st' := if lt d0 (snd st) then (index, d0) else st) in *.
    assert (Hst' : isNaN (snd st') = false).
    { unfold st'. destruct (lt d0 (snd st)) eqn:L; [|exact Hst].
      apply lt_not_NaN in L. apply L. }
    destruct (IH (S index) st' i d Hst' H) as [A [Bq [Nd Cq]]].
    assert (L0 : lt d0 d = false).
    { unfold st' in Bq. destruct (lt d0 (snd st)) eqn:L; cbn [snd] in Bq; [exact Bq|].
      destruct (lt d0 d) eqn:L'; [|reflexivity].
      rewrite (lt_le_trans d0 d (snd st) L' Bq Hst) in L. discriminate L. }
    assert (L1 : lt (snd st) d = false).
    { unfold st' in Bq. destruct (lt d0 (snd st)) eqn:L; cbn [snd] in Bq; [|exact Bq].
      destruct (lt (snd st) d) eqn:L'; [|reflexivity].
      rewrite (lt_trans _ _ _ L L') in Bq. discriminate Bq. }
    split; [|split; [exact L1|split; [exact Nd|]]].
    + intros [|j] m Hj; cbn [nth_error] in Hj.
      * injection Hj as <-. exact L0.
      * apply (A j). exact Hj.
    + destruct Cq as [E|[m [Hi [Hm [Ed [Ld Hj]]]]]].
      * unfold st' in E. destruct (lt d0 (snd st)) eqn:L; [|left; exact E].
        injection E as -> ->. right. exists mean. rewrite Nat.sub_diag.
        split; [lia|]. split; [reflexivity|]. split; [reflexivity|]. split; [exact L|].
        intros j mj Hlt. lia.
      * right. exists m. split; [lia|].
        replace (i - index)%nat with (S (i - S index)) by lia. cbn [nth_error].
        split; [exact Hm|]. split; [exact Ed|].
        assert (Ls : lt d (snd st) = true).
        { unfold st' in Ld. destruct (lt d0 (snd st)) eqn:L; cbn [snd] in Ld; [|exact Ld].
          eapply lt_trans; eassumption. }
        split; [exact Ls|].
        intros [|j] mj Hlt Hnth; cbn [nth_error] in Hnth.
        -- injection Hnth as <-. fold d0.
           destruct (isNaN d0) eqn:N0; [right; reflexivity | left].
           unfold st' in Ld. destruct (lt d0 (snd st)) eqn:L; cbn [snd] in Ld; [exact Ld|].
           eapply lt_le_trans; eassumption.
        -- apply (Hj j); [lia | exact Hnth].
  - discriminate.
Qed.

(** [i] is the index of the centroid nearest to [p]: no centroid is closer
    than the [i]-th, and every earlier one is farther (or at no distance that
    compares, a NaN). *)
Definition nearest (p : Point) (means : list Point) (i : nat) : Prop :=
  exists m, nth_error means i = Some m
    /\ (forall j mj, nth_error means j = Some mj ->
          lt (distance p mj) (distance p m) = false)
    /\ (forall j mj, (j < i)%nat -> nth_error means j = Some mj ->
          lt (distance p m) (distance p mj) = true \/ isNaN (distance p mj) = true).

Lemma closest_nearest (p : Point) (means : list Point) (i : nat) (d : number) :
  means <> [] ->
  closest p (map Some means) 0 (0%nat, Inf false) = Ok (i, d) -> nearest p means i.
Proof.
  intros Hne H. apply closest_spec in H; [|reflexivity].
  destruct H as [A [_ [_ C]]].
  assert (A' : forall j mj, nth_error means j = Some mj -> lt (distance p mj) d = false).
  { intros j mj Hj. apply (A j). rewrite nth_error_map, Hj. reflexivity. }
  destruct C as [E|[m [_ [Hm [Ed [_ Hj]]]]]].
  - injection E as -> ->. destruct means as [|m0 means]; [congruence|].
    exists m0. split; [reflexivity|]. split; [|intros j mj Hlt; lia].
    intros j mj Hnth. pose proof (A' 0%nat m0 eq_refl) as H0. pose proof (A' j mj Hnth) as H1.
    destruct (distance p m0) as [|[|]|u]; try discriminate H0;
      destruct (distance p mj) as [|[|]|v]; try discriminate H1; reflexivity.
  - rewrite Nat.sub_0_r in *. rewrite nth_error_map in Hm.
    destruct (nth_error means i) as [m'|] eqn:En; [|discriminate]. injection Hm as ->.
    exists m. split; [exact En|]. subst d. split; [exact A'|].
    intros j mj Hlt Hnth. apply (Hj j); [exact Hlt|].
    rewrite nth_error_map, Hnth. reflexivity.
Qed.

Lemma closest_all_some (p : Point) (means : list (option Point)) :
  forall index st r, closest p means index st = Ok r ->
  exists ms, means = map Some ms.
Proof.
  induction means as [|[m|] means IH]; intros index st r H; cbn [closest] in H.
  - exists []. reflexivity.
  - apply IH in H. destruct H as [ms ->]. exists (m :: ms). reflexivity.
  - discriminate.
Qed.

Lemma forM_Forall {X A : Type} (P : A -> Prop) (f : X -> M A) (l : list X) :
  (forall x s a s', f x s = (Ok a, s') -> P a) ->
  forall s r s', forM l f s = (Ok r, s') -> Forall P r.
Proof.
  intros Hf. induction l as [|x l IH]; intros s r s' H; cbn [forM] in H.
  - injection H as <- _. constructor.
  - apply bind_inv in H. destruct H as [a [s1 [Ea H]]].
    apply bind_inv in H. destruct H as [r' [s2 [Er H]]].
    injection H as <- _. constructor; [eapply Hf; exact Ea | eapply IH; exact Er].
Qed.

(** X10: the centroid assignment picks [k] of the input points as centroids and
    labels every point with the index of the centroid nearest to it, the
    first of them when several are equally near. *)
Theorem centroids_nearest (points : list Point) (k : Z) (s : Rng) (out : list Point) (s' : Rng) :
  points <> [] -> (1 <= k)%Z ->
  assignClustersByCentroids points (of_Z k) s = (Ok out, s') ->
  exists means,
    List.length means = Z.to_nat k
    /\ Forall (fun m => In m points) means
    /\ Forall2 (fun p p' => exists i, p' = with_cluster p (of_nat i) /\ nearest p means i)
               points out.
Proof.
  intros Hp Hk. unfold assignClustersByCentroids.
  destruct (Nat.eqb_spec (List.length points) 0) as [E0|N0];
    [destruct points; [congruence | discriminate]|].
  rewrite le_of_Z_zero. destruct (Z.leb_spec k 0) as [K|_]; [lia|]. cbn [orb].
  intros H. apply bind_inv in H. destruct H as [means [s1 [EA H]]].
  unfold lift in H. injection H as H _.
  assert (K32 : (k < 2 ^ 32)%Z).
  { destruct (Z_lt_dec k (2 ^ 32)) as [K|K]; [exact K|].
    rewrite Array_from_overflow in EA by (rewrite allocatable_of_Z; exact K). discriminate EA. }
  rewrite (Array_from_of_Z k _ K32) in EA.
  assert (L : List.length means = Z.to_nat k).
  { apply forM_length in EA. rewrite length_seq in EA. exact EA. }
  assert (F : Forall (fun m => forall p, m = Some p -> In p points) means).
  { eapply forM_Forall; [|exact EA].
    intros x t a t' Ha. apply bind_inv in Ha. destruct Ha as [r [t1 [_ Ha]]].
    injection Ha as <- _. intros p Hg. unfold get in Hg.
    destruct (array_index _); [|discriminate]. eapply nth_error_In. exact Hg. }
  apply mapE_Forall2 in H.
  assert (Hms : exists ms, means = map Some ms).
  { destruct points as [|p0 ps]; [congruence|]. inversion H as [|? ? ? ? H0 _]; subst.
    destruct (closest p0 means 0 (0%nat, Inf false)) as [r|e] eqn:Ec; [|discriminate].
    eapply closest_all_some. exact Ec. }
  destruct Hms as [ms ->]. rewrite length_map in L.
  assert (Hne : ms <> []).
  { intros ->. cbn in L. lia. }
  exists ms. split; [exact L|]. split.
  - apply Forall_forall. intros m Hm.
    apply (proj1 (Forall_forall _ _) F (Some m)); [apply in_map; exact Hm | reflexivity].
  - eapply Forall2_impl; [|exact H]. intros p p' Hpp. cbv beta in Hpp.
    destruct (closest p (map Some ms) 0 (0%nat, Inf false)) as [[i d]|e] eqn:Ec; [|discriminate].
    injection Hpp as <-. exists i. split; [reflexivity|].
    eapply closest_nearest; eassumption.
Qed.

End Nearest.

Lemma centroids_nearest_witness :
  let points := [point (Fin 0%Q) (Fin 0%Q); point (Fin 3%Q) (Fin 4%Q)] in
  exists means,
    List.length means = 2%nat
    /\ Forall (fun m => In m points) means
    /\ Forall2 (fun p p' => exists i, p' = with_cluster p (of_nat i) /\ nearest p means i)
               points
               [with_cluster (point (Fin 0%Q) (Fin 0%Q)) (of_nat 0);
                with_cluster (point (Fin 3%Q) (Fin 4%Q)) (of_nat 1)].
Proof.
  apply (centroids_nearest [point (Fin 0%Q) (Fin 0%Q); point (Fin 3%Q) (Fin 4%Q)] 2
           (fun i => match i with O => Fin 0%Q | _ => Fin (1 # 2)%Q end)
           _ (fun _ => Fin (1 # 2)%Q)).
  - discriminate.
  - lia.
  - vm_compute. reflexivity.
Defined.

(** ** What the runs do to the points *)

Section RunsFacts.
Context (B : Builtins).
Local Open Scope Q_scope.

Lemma half_split_coords points : map coords (half_split points) = map coords points.
Proof.
  unfold half_split, mapi. rewrite map_mapi_from.
  rewrite (mapi_from_ext _ (fun a _ => coords a)) by reflexivity. apply mapi_from_const.
Qed.

Lemma radius_split_coords points : map coords (radius_split points) = map coords points.
Proof. unfold radius_split. rewrite map_map. apply map_ext. reflexivity. Qed.

Lemma centroid_labelled_coords k points out :
  centroid_labelled k points out -> map coords out = map coords points.
Proof.
  intros H. induction H as [|p p' points out [i [-> _]] H IH]; [reflexivity|].
  cbn [map]. rewrite IH. reflexivity.
Qed.

Lemma centroids_coords points (k : number) s out s' :
  le k (lit 0) = false -> assignClustersByCentroids points k s = (Ok out, s') ->
  map coords out = map coords points.
Proof.
  intros Hk. unfold assignClustersByCentroids.
  destruct (Nat.eqb_spec (List.length points) 0) as [E0|N0]; cbn [orb].
  - intros H. injection H as <- _. destruct points; [reflexivity | discriminate].
  - rewrite Hk. intros H. apply bind_inv in H. destruct H as [means [s1 [_ H]]].
    unfold lift in H. injection H as H _. apply mapE_Forall2 in H. clear N0.
    induction H as [|p p' l l' Hp H IH]; [reflexivity|].
    cbn [map]. rewrite IH. f_equal.
    destruct (closest p means 0 (0%nat, Inf false)) as [[i d]|e]; [|discriminate].
    injection Hp as <-. reflexivity.
Qed.

Lemma centroids_guard points (k : number) s :
  le k (lit 0) = true -> assignClustersByCentroids points k s = (Ok [], s).
Proof.
  intros Hk. unfold assignClustersByCentroids. rewrite Hk, orb_true_r. reflexivity.
Qed.

Lemma xsplit_coords points (k : number) :
  le k (lit 0) = false ->
  Permutation (map coords (assignClustersByXSplit B points k)) (map coords points).
Proof.
  intros Hk. destruct points as [|p0 points']; [reflexivity|].
  set (points := p0 :: points').
  rewrite (xsplit_unfold_num B points k) by (try discriminate; exact Hk).
  unfold mapi. rewrite map_mapi_from.
  rewrite (mapi_from_ext _ (fun a _ => coords a)) by reflexivity.
  rewrite mapi_from_const. apply Permutation_map, Array_sort_permutes.
Qed.

Lemma set_cluster_coords i c l : map coords (set_cluster i c l) = map coords l.
Proof.
  revert i. induction l as [|p l IH]; intros [|i]; cbn [set_cluster map]; try reflexivity.
  rewrite IH. reflexivity.
Qed.

Lemma mark_noise_coords c : forall l s out s',
  mark_noise c l s = (Ok out, s') -> map coords out = map coords l.
Proof.
  induction c as [|c IH]; intros l s out s' H; cbn [mark_noise] in H.
  - injection H as <- _. reflexivity.
  - apply bind_inv in H. destruct H as [r [s1 [_ H]]].
    destruct (array_index _) as [i|]; [|discriminate].
    destruct (i <? List.length l)%nat; [|discriminate].
    apply IH in H. rewrite H. apply set_cluster_coords.
Qed.

Lemma dbscan_noisy_coords points s out s' :
  dbscan_noisy points s = (Ok out, s') -> map coords out = map coords points.
Proof.
  unfold dbscan_noisy. intros H. apply bind_inv in H. destruct H as [cd [s1 [E H]]].
  apply mark_noise_coords in H. rewrite H. eapply centroids_coords; [|exact E]. reflexivity.
Qed.

Lemma runDBSCAN_finish points eps type :
  runDBSCAN B points eps type
  = finish B "DBSCAN" (DbscanParams eps)
      match type with
      | Moons => ret (half_split points)
      | Circles => ret (radius_split points)
      | _ => dbscan_noisy points
      end.
Proof. reflexivity. Qed.

Lemma spectral_keeps points (k : number) type s r s' :
  le k (lit 0) = false -> runSpectralClustering B points k type s = (Ok r, s') ->
  map coords (data r) = map coords points.
Proof.
  intros Hk E. apply (finish_inv B "Spectral Clustering" (ClusterParams k)) in E.
  destruct E as [s1 [E _]]. destruct type.
  - injection E as <- _. apply half_split_coords.
  - eapply centroids_coords; eassumption.
  - injection E as <- _. apply radius_split_coords.
  - eapply centroids_coords; eassumption.
Qed.

Lemma split_or_centroids_keeps name p points (k : number) type s r s' :
  le k (lit 0) = false ->
  finish B name p
    match type with
    | Moons | Circles => ret (assignClustersByXSplit B points k)
    | _ => assignClustersByCentroids points k
    end s = (Ok r, s') ->
  Permutation (map coords (data r)) (map coords points)
  /\ (type = Blobs \/ type = Custom -> map coords (data r) = map coords points).
Proof.
  intros Hk E. apply finish_inv in E. destruct E as [s1 [E _]]. destruct type.
  - injection E as <- _. split; [apply xsplit_coords; exact Hk | intros [C|C]; discriminate C].
  - apply centroids_coords in E; [|exact Hk]. rewrite E. split; [reflexivity | auto].
  - injection E as <- _. split; [apply xsplit_coords; exact Hk | intros [C|C]; discriminate C].
  - apply centroids_coords in E; [|exact Hk]. rewrite E. split; [reflexivity | auto].
Qed.

Lemma dbscan_keeps points eps type s r s' :
  runDBSCAN B points eps type s = (Ok r, s') -> map coords (data r) = map coords points.
Proof.
  intros E. rewrite runDBSCAN_finish in E. apply finish_inv in E.
  destruct E as [s1 [E _]]. destruct type.
  - injection E as <- _. apply half_split_coords.
  - eapply dbscan_noisy_coords; exact E.
  - injection E as <- _. apply radius_split_coords.
  - eapply dbscan_noisy_coords; exact E.
Qed.

(** X11: a run does not change, add or drop a point.  For a number of
    clusters that is not zero or below, and that can be allocated when the
    data are blob or custom data, every run returns the coordinates of its
    input: the spectral and the DBSCAN run in the order of the input, whatever
    the type; the k-means and the agglomerative run in the order of the input
    on blob and custom data and in the order of the positional split on moons
    and circles.  The DBSCAN run does so whatever its parameter. *)
Theorem runs_keep_points (points : list Point) (k : number) (linkage : LinkageType)
  (eps : number) (type : DatasetType) (s : Rng) :
  random_source s -> array_sized points -> le k (lit 0) = false ->
  (allocates type -> allocatable k) ->
  (exists r s', runSpectralClustering B points k type s = (Ok r, s')
     /\ map coords (data r) = map coords points)
  /\ (exists r s', runKMeans B points k type s = (Ok r, s')
     /\ Permutation (map coords (data r)) (map coords points)
     /\ (type = Blobs \/ type = Custom -> map coords (data r) = map coords points))
  /\ (exists r s', runAgglomerativeClustering B points (k, linkage) type s = (Ok r, s')
     /\ Permutation (map coords (data r)) (map coords points)
     /\ (type = Blobs \/ type = Custom -> map coords (data r) = map coords points))
  /\ (exists r s', runDBSCAN B points eps type s = (Ok r, s')
     /\ map coords (data r) = map coords points).
Proof.
  intros Hs Hsz Hk Ha. split; [|split; [|split]].
  - destruct (spectral_total B points k type s Hs Hsz Ha) as [r [s' [E _]]].
    exists r, s'. split; [exact E|]. eapply spectral_keeps; eassumption.
  - destruct (kmeans_total B points k type s Hs Hsz Ha) as [r [s' [E _]]].
    exists r, s'. split; [exact E|].
    apply (split_or_centroids_keeps "K-Means" (ClusterParams k) points k type s r s' Hk E).
  - destruct (agglomerative_total B points (k, linkage) type s Hs Hsz Ha) as [r [s' [E _]]].
    exists r, s'. split; [exact E|].
    apply (split_or_centroids_keeps "Agglomerative Clustering" (AggloParams k linkage)
             points k type s r s' Hk E).
  - destruct (dbscan_total B points eps type s Hs Hsz) as [r [s' [E _]]].
    exists r, s'. split; [exact E|]. eapply dbscan_keeps; exact E.
Qed.

(** X12: with [n_clusters <= 0] the k-means and the agglomerative run return
    no point at all, whatever the input and the type, and so does the spectral
    run on blob and custom data; each still returns its metrics. *)
Theorem runs_without_clusters (points : list Point) (k : number) (linkage : LinkageType)
  (type : DatasetType) (s : Rng) :
  random_source s -> le k (lit 0) = true ->
  (exists r s', runKMeans B points k type s = (Ok r, s')
     /\ data r = [] /\ finite_metrics (metrics r))
  /\ (exists r s', runAgglomerativeClustering B points (k, linkage) type s = (Ok r, s')
     /\ data r = [] /\ finite_metrics (metrics r))
  /\ (type = Blobs \/ type = Custom ->
      exists r s', runSpectralClustering B points k type s = (Ok r, s')
        /\ data r = [] /\ finite_metrics (metrics r)).
Proof.
  intros Hs Hk.
  assert (X : assignClustersByXSplit B points k = [])
    by (apply xsplit_guard_num; right; exact Hk).
  pose proof (centroids_guard points k s Hk) as C.
  assert (F : forall name p (clustering : M (list Point)),
            clustering s = (Ok [], s) ->
            exists r s', finish B name p clustering s = (Ok r, s')
              /\ data r = [] /\ finite_metrics (metrics r)).
  { intros name p clustering E.
    destruct (finish_total B name p clustering s [] s E Hs) as [r [s' [Ef [D [_ [Fm _]]]]]].
    exists r, s'. auto. }
  split; [|split].
  - apply (F "K-Means"%string (ClusterParams k)). destruct type; try exact C; rewrite X; reflexivity.
  - apply (F "Agglomerative Clustering"%string (AggloParams k linkage)).
    destruct type; try exact C; cbn [fst]; rewrite X; reflexivity.
  - intros T. apply (F "Spectral Clustering"%string (ClusterParams k)).
    destruct type; try exact C; destruct T; discriminate.
Qed.

(** *** The labels on moon data *)

Lemma half_split_spec (points : list Point) :
  (Z.of_nat (List.length points) < 2 ^ 53)%Z ->
  half_split points
  = mapi (fun p i => with_cluster p (if (i <? List.length points / 2)%nat then Fin 0 else Fin 1))
         points.
Proof.
  intros Hn. unfold half_split. rewrite (half_floor _ Hn). unfold mapi.
  apply mapi_from_ext. intros p i. f_equal.
  replace (lit 0) with (Fin 0) by reflexivity. replace (lit 1) with (Fin 1) by reflexivity.
  unfold of_nat, of_Z.
  assert (H2 : (Z.of_nat (List.length points) / 2 = Z.of_nat (List.length points / 2))%Z)
    by (rewrite Nat2Z.inj_div; reflexivity).
  rewrite H2.
  destruct (Nat.ltb_spec i (List.length points / 2)) as [L|L].
  - assert (E : lt (Fin (inject_Z (Z.of_nat i)))
                   (Fin (inject_Z (Z.of_nat (List.length points / 2)))) = true).
    { apply lt_spec. rewrite <- Zlt_Qlt. lia. }
    rewrite E. reflexivity.
  - assert (E : lt (Fin (inject_Z (Z.of_nat i)))
                   (Fin (inject_Z (Z.of_nat (List.length points / 2)))) = false).
    { apply lt_false. rewrite <- Zle_Qle. lia. }
    rewrite E. reflexivity.
Qed.

Lemma mapi_from_labels (h : nat) (l : list Point) : forall s,
  map p_cluster (mapi_from s (fun p i => with_cluster p (if (i <? h)%nat then Fin 0 else Fin 1)) l)
  = (repeat (JNum (Fin 0)) (Nat.min (h - s) (List.length l))
     ++ repeat (JNum (Fin 1)) (List.length l - (h - s)))%list.
Proof.
  induction l as [|p l IH]; intros s; cbn [mapi_from map List.length].
  - rewrite Nat.min_0_r. reflexivity.
  - rewrite IH. cbn [p_cluster with_cluster]. destruct (Nat.ltb_spec s h) as [L|L].
    + replace (h - s)%nat with (S (h - S s)) by lia. cbn [Nat.min Nat.sub repeat app].
      reflexivity.
    + replace (h - s)%nat with 0%nat by lia. replace (h - S s)%nat with 0%nat by lia.
      cbn [Nat.min repeat app Nat.sub]. rewrite Nat.sub_0_r. reflexivity.
Qed.

(** X13: on moon data the spectral and the DBSCAN run label the points by
    position alone: the first half of the input (its length halved and
    rounded down) gets cluster 0 and the rest cluster 1, whatever the
    coordinates, the parameters and the draws. *)
Theorem moons_labels_by_position (points : list Point) (k : number) (eps : number) (s : Rng) :
  (Z.of_nat (List.length points) < 2 ^ 53)%Z ->
  let n := List.length points in
  let labels := (repeat (JNum (Fin 0)) (n / 2) ++ repeat (JNum (Fin 1)) (n - n / 2))%list in
  (exists r s', runSpectralClustering B points k Moons s = (Ok r, s')
     /\ map coords (data r) = map coords points /\ map p_cluster (data r) = labels)
  /\ (exists r s', runDBSCAN B points eps Moons s = (Ok r, s')
     /\ map coords (data r) = map coords points /\ map p_cluster (data r) = labels).
Proof.
  intros Hn n labels.
  assert (L : map p_cluster (half_split points) = labels).
  { rewrite (half_split_spec points Hn). unfold mapi. rewrite mapi_from_labels.
    fold n. rewrite Nat.sub_0_r. unfold labels. f_equal. f_equal.
    assert (n / 2 <= n)%nat by (apply Nat.Div0.div_le_upper_bound; lia). lia. }
  split.
  - unfold runSpectralClustering.
    rewrite (bind_ok _ _ _ _ _ (ret_run (half_split points) s)).
    rewrite (bind_ok _ _ _ _ _ (generateMockMetrics_draws B (half_split points) s)).
    eexists. eexists. split; [reflexivity|]. cbn [data].
    split; [apply half_split_coords | exact L].
  - unfold runDBSCAN.
    rewrite (bind_ok _ _ _ _ _ (ret_run (half_split points) s)).
    rewrite (bind_ok _ _ _ _ _ (generateMockMetrics_draws B (half_split points) s)).
    eexists. eexists. split; [reflexivity|]. cbn [data].
    split; [apply half_split_coords | exact L].
Qed.

End RunsFacts.

Lemma runs_keep_points_witness :
  (exists r s', runSpectralClustering B0 grid_points (lit 3%Q) Blobs cycle_draws = (Ok r, s')
     /\ map coords (data r) = map coords grid_points)
  /\ (exists r s', runKMeans B0 grid_points (lit 3%Q) Blobs cycle_draws = (Ok r, s')
     /\ Permutation (map coords (data r)) (map coords grid_points)
     /\ (Blobs = Blobs \/ Blobs = Custom -> map coords (data r) = map coords grid_points))
  /\ (exists r s', runAgglomerativeClustering B0 grid_points (lit 3%Q, ward) Blobs cycle_draws
                   = (Ok r, s')
     /\ Permutation (map coords (data r)) (map coords grid_points)
     /\ (Blobs = Blobs \/ Blobs = Custom -> map coords (data r) = map coords grid_points))
  /\ (exists r s', runDBSCAN B0 grid_points (Fin (1 # 2)%Q) Blobs cycle_draws = (Ok r, s')
     /\ map coords (data r) = map coords grid_points).
Proof.
  apply (runs_keep_points B0 grid_points (lit 3%Q) ward (Fin (1 # 2)%Q) Blobs cycle_draws).
  - apply cycle_draws_random.
  - vm_compute. reflexivity.
  - reflexivity.
  - intros _. vm_compute. reflexivity.
Defined.

(** On moon data the k-means run returns the points in the order of their
    [x], the spectral run in the order of the input. *)
Example runs_keep_points_example :
  match fst (runKMeans B0 split_points (lit 2%Q) Moons cycle_draws),
        fst (runSpectralClustering B0 split_points (lit 2%Q) Moons cycle_draws) with
  | Ok r, Ok r' => (map p_x (data r), map p_x (data r'))
  | _, _ => ([], [])
  end
  = ([JNum (Fin (-3)%Q); JNum (Fin 1%Q); JNum (Fin 2%Q); JNum (Fin 2%Q)],
     [JNum (Fin 2%Q); JNum (Fin 1%Q); JNum (Fin 2%Q); JNum (Fin (-3)%Q)]).
Proof. vm_compute. reflexivity. Qed.

Lemma runs_without_clusters_witness :
  (exists r s', runKMeans B0 split_points (lit 0%Q) Moons half_draws = (Ok r, s')
     /\ data r = [] /\ finite_metrics (metrics r))
  /\ (exists r s', runAgglomerativeClustering B0 split_points (lit 0%Q, ward) Moons half_draws
                   = (Ok r, s')
     /\ data r = [] /\ finite_metrics (metrics r))
  /\ (Moons = Blobs \/ Moons = Custom ->
      exists r s', runSpectralClustering B0 split_points (lit 0%Q) Moons half_draws = (Ok r, s')
        /\ data r = [] /\ finite_metrics (metrics r)).
Proof.
  apply (runs_without_clusters B0 split_points (lit 0%Q) ward Moons half_draws).
  - apply half_draws_random.
  - reflexivity.
Defined.

Lemma moons_labels_by_position_witness :
  let points := [point (Fin 0%Q) (Fin 0%Q); point (Fin 1%Q) (Fin 1%Q); point (Fin 2%Q) (Fin 2%Q)] in
  let labels := [JNum (Fin 0%Q); JNum (Fin 1%Q); JNum (Fin 1%Q)] in
  (exists r s', runSpectralClustering B0 points (lit 2%Q) Moons half_draws = (Ok r, s')
     /\ map coords (data r) = map coords points /\ map p_cluster (data r) = labels)
  /\ (exists r s', runDBSCAN B0 points (Fin (1 # 2)%Q) Moons half_draws = (Ok r, s')
     /\ map coords (data r) = map coords points /\ map p_cluster (data r) = labels).
Proof.
  apply (moons_labels_by_position B0
           [point (Fin 0%Q) (Fin 0%Q); point (Fin 1%Q) (Fin 1%Q); point (Fin 2%Q) (Fin 2%Q)]
           (lit 2%Q) (Fin (1 # 2)%Q) half_draws).
  vm_compute. reflexivity.
Defined.

(** ** How many points DBSCAN marks as noise *)

Section NoiseFacts.
Context (B : Builtins).
Local Open Scope Q_scope.

Lemma is_noise_marked p : is_noise (with_cluster p (lit (-1))) = true.
Proof. reflexivity. Qed.

Lemma count_noise_set_ge i l :
  (count_noise l <= count_noise (set_cluster i (lit (-1)) l))%nat.
Proof.
  unfold count_noise. revert i. induction l as [|p l IH]; intros [|i];
    cbn [set_cluster filter]; try lia.
  - rewrite is_noise_marked. destruct (is_noise p); cbn [List.length]; lia.
  - specialize (IH i). destruct (is_noise p); cbn [List.length]; lia.
Qed.

Lemma count_noise_set_pos i l :
  (i < List.length l)%nat -> (1 <= count_noise (set_cluster i (lit (-1)) l))%nat.
Proof.
  unfold count_noise. revert i. induction l as [|p l IH]; intros [|i] Hi;
    cbn [set_cluster filter List.length] in *; try lia.
  - rewrite is_noise_marked. cbn [List.length]. lia.
  - specialize (IH i ltac:(lia)). destruct (is_noise p); cbn [List.length]; lia.
Qed.

Lemma mark_noise_grows c : forall l s out s',
  mark_noise c l s = (Ok out, s') -> (count_noise l <= count_noise out)%nat.
Proof.
  induction c as [|c IH]; intros l s out s' H; cbn [mark_noise] in H.
  - injection H as <- _. lia.
  - apply bind_inv in H. destruct H as [r [s1 [_ H]]].
    destruct (array_index _) as [i|]; [|discriminate].
    destruct (i <? List.length l)%nat; [|discriminate].
    apply IH in H. pose proof (count_noise_set_ge i l). lia.
Qed.

Lemma mark_noise_marks c l s out s' :
  (1 <= c)%nat -> mark_noise c l s = (Ok out, s') -> (1 <= count_noise out)%nat.
Proof.
  intros Hc H. destruct c as [|c]; [lia|]. cbn [mark_noise] in H.
  apply bind_inv in H. destruct H as [r [s1 [_ H]]].
  destruct (array_index _) as [i|]; [|discriminate].
  destruct (Nat.ltb_spec i (List.length l)) as [Hi|]; [|discriminate].
  apply mark_noise_grows in H. pose proof (count_noise_set_pos i l Hi). lia.
Qed.

(** [Math.floor(n * 0.05)] is at least 1 from twenty points on. *)
Lemma noise_count_pos (n : nat) :
  (20 <= n)%nat -> (Z.of_nat n < 2 ^ 32)%Z ->
  (1 <= loop_count (Math_floor (mul (of_nat n) (lit (5 # 100)))))%nat.
Proof.
  intros Hn Hb. set (c := val (lit (5 # 100))).
  replace (lit (5 # 100)) with (Fin c) by (vm_compute; reflexivity).
  unfold of_nat, of_Z. cbn [mul].
  assert (C : 1 # 20 <= c) by (vm_compute; discriminate).
  assert (C' : c <= 1) by (vm_compute; discriminate).
  assert (N1 : 20 <= inject_Z (Z.of_nat n)).
  { change 20 with (inject_Z 20). rewrite <- Zle_Qle. lia. }
  assert (N2 : inject_Z (Z.of_nat n) <= inject_Z (2 ^ 32)) by (rewrite <- Zle_Qle; lia).
  destruct (rnd_between (inject_Z (Z.of_nat n) * c) 1 (inject_Z (2 ^ 32)) 1 (inject_Z (2 ^ 32)))
    as [w [Ew [W1 _]]]; [nra | nra | vm_compute; reflexivity | vm_compute; reflexivity |].
  rewrite Ew. cbn [Math_floor loop_count]. rewrite Qceiling_Z.
  assert (F : (1 <= Qfloor w)%Z).
  { change 1%Z with (Qfloor 1). apply Qfloor_resp_le. exact W1. }
  lia.
Qed.

(** X14: on blob and custom data the DBSCAN run marks no point as noise when
    there are fewer than twenty points, and at least one point from twenty
    points on. *)
Theorem dbscan_noise_threshold (points : list Point) (eps : number) (type : DatasetType)
  (s : Rng) :
  type = Blobs \/ type = Custom -> random_source s -> array_sized points ->
  exists r s',
    runDBSCAN B points eps type s = (Ok r, s')
    /\ ((List.length points < 20)%nat -> count_noise (data r) = 0%nat)
    /\ ((20 <= List.length points)%nat -> (1 <= count_noise (data r))%nat).
Proof.
  intros T Hs Hsz.
  destruct (dbscan_noisy_total points s Hs Hsz) as [out [s1 [E [Hs1 [_ C]]]]].
  destruct (finish_total B "DBSCAN" (DbscanParams eps) (dbscan_noisy points) s out s1 E Hs1)
    as [r [s' [Ef [D _]]]].
  exists r, s'. rewrite runDBSCAN_finish. split.
  - destruct T as [-> | ->]; exact Ef.
  - rewrite D. split.
    + intros L. rewrite (Nat.div_small _ 20 L) in C. lia.
    + intros L. unfold dbscan_noisy in E. apply bind_inv in E.
      destruct E as [cd [s2 [_ E]]]. eapply mark_noise_marks; [|exact E].
      apply noise_count_pos; assumption.
Qed.

End NoiseFacts.

Lemma dbscan_noise_threshold_witness :
  exists r s',
    runDBSCAN B0 grid_points (Fin (1 # 2)%Q) Custom cycle_draws = (Ok r, s')
    /\ ((List.length grid_points < 20)%nat -> count_noise (data r) = 0%nat)
    /\ ((20 <= List.length grid_points)%nat -> (1 <= count_noise (data r))%nat).
Proof.
  apply (dbscan_noise_threshold B0 grid_points (Fin (1 # 2)%Q) Custom cycle_draws).
  - right. reflexivity.
  - apply cycle_draws_random.
  - vm_compute. reflexivity.
Defined.

(** Nineteen points stay without noise; forty points get two marks. *)
Example dbscan_noise_threshold_example :
  match fst (runDBSCAN B0 (firstn 19 grid_points) (Fin (1 # 2)%Q) Custom cycle_draws),
        fst (runDBSCAN B0 grid_points (Fin (1 # 2)%Q) Custom cycle_draws) with
  | Ok r, Ok r' => (count_noise (data r), count_noise (data r'))
  | _, _ => (0%nat, 0%nat)
  end = (0%nat, 2%nat).
Proof. vm_compute. reflexivity. Qed.

(** ** The metrics as decimals *)

Section MetricDecimals.
Context (B : Builtins).
Local Open Scope Q_scope.

(** The binary64 value nearest to a decimal with three fractional digits,
    or its opposite. *)
Definition three_decimals (v : number) : Prop :=
  exists z : Z, v = rnd (inject_Z z * (10 # 1) ^ (-3))
                \/ v = neg (rnd (inject_Z z * (10 # 1) ^ (-3))).

Lemma round3_decimals lo hi x :
  within lo hi x -> Qmag lo + Qmag hi < (10 # 1) ^ 21 -> three_decimals (round3 B x).
Proof.
  intros [q [-> [L U]]] Hb.
  rewrite round3_spec.
  - exists (nearest_thousandth (Qmag q)). cbv zeta.
    destruct (Qneg q); [right | left]; reflexivity.
  - pose proof (Qmag_bound q lo hi L U). eapply small_mag; [eassumption | exact Hb].
Qed.

(** X15: each of the three metrics is a decimal with three fractional digits
    (its nearest binary64 value), as [toFixed(3)] printed it. *)
Theorem metrics_three_decimals (points : list Point) (s : Rng) :
  random_source s ->
  exists m s',
    generateMockMetrics B points s = (Ok m, s')
    /\ three_decimals (silhouette m)
    /\ three_decimals (calinskiHarabasz m)
    /\ three_decimals (daviesBouldin m).
Proof.
  intros Hs. rewrite generateMockMetrics_draws. eexists. eexists. split; [reflexivity|].
  unfold metrics_of_draws. cbn [silhouette calinskiHarabasz daviesBouldin].
  pose proof (unit_draw_within _ (Hs 0%nat)) as H0.
  pose proof (unit_draw_within _ (Hs 1%nat)) as H1.
  pose proof (unit_draw_within _ (Hs 2%nat)) as H2.
  split; [|split].
  - set (a := val (lit (16 # 10))). replace (lit (16 # 10)) with (Fin a) by by_rounding.
    set (b := val (lit (6 # 10))). replace (lit (6 # 10)) with (Fin b) by by_rounding.
    eapply round3_decimals;
      [eapply within_sub;
         [eapply within_mul_r; [exact H0 | vm_compute; discriminate | by_rounding | by_rounding]
         | apply within_exact | by_rounding | by_rounding]
      | vm_compute; reflexivity].
  - replace (lit 500) with (Fin 500) by by_rounding.
    replace (lit 50) with (Fin 50) by by_rounding.
    eapply round3_decimals;
      [eapply within_add;
         [eapply within_mul_r; [exact H1 | vm_compute; discriminate | by_rounding | by_rounding]
         | apply within_exact | by_rounding | by_rounding]
      | vm_compute; reflexivity].
  - set (a := val (lit (15 # 10))). replace (lit (15 # 10)) with (Fin a) by by_rounding.
    set (b := val (lit (3 # 10))). replace (lit (3 # 10)) with (Fin b) by by_rounding.
    eapply round3_decimals;
      [eapply within_add;
         [eapply within_mul_r; [exact H2 | vm_compute; discriminate | by_rounding | by_rounding]
         | apply within_exact | by_rounding | by_rounding]
      | vm_compute; reflexivity].
Qed.

End MetricDecimals.

Lemma metrics_three_decimals_witness :
  exists m s',
    generateMockMetrics B0 [] half_draws = (Ok m, s')
    /\ three_decimals (silhouette m)
    /\ three_decimals (calinskiHarabasz m)
    /\ three_decimals (daviesBouldin m).
Proof.
  apply (metrics_three_decimals B0 [] half_draws). apply half_draws_random.
Defined.

(** ** From the controls to the results ([App.tsx])

    [runAnalysis] first obtains the points: from the uploaded file when the
    type is custom and a file is there, from the generator otherwise (with its
    default of 200 samples).  The file is given by its text. *)

Section Analysis.
Context (B : Builtins).

Definition loadData (datasetType : DatasetType) (file : option string)
  (dropLastColumn : bool) : M (list Point) :=
  match datasetType, file with
  | Custom, Some text => lift (fst (parseCSV text dropLastColumn))
  | _, _ => generateDataset B datasetType 200
  end.

Definition onAnalyze (datasetType : DatasetType) (file : option string)
  (p : AlgorithmParameters) (dropLastColumn : bool) : M (list ClusterResult * Metrics) :=
  currentData <- loadData datasetType file dropLastColumn ;;
  runAnalysis B currentData p datasetType.

Definition algorithms : list string :=
  ["Spectral Clustering"; "K-Means"; "Agglomerative Clustering"; "DBSCAN"]%string.

Lemma coords_length (l l' : list Point) :
  Permutation (map coords l) (map coords l') -> List.length l = List.length l'.
Proof. intros H. apply Permutation_length in H. rewrite !length_map in H. exact H. Qed.

(** The three numbers of clusters are above zero: none of the runs takes the
    way of [n_clusters <= 0], which returns no point. *)
Definition positive_counts (p : AlgorithmParameters) : Prop :=
  le (spectral p) (lit 0%Q) = false /\ le (kmeans p) (lit 0%Q) = false
  /\ le (fst (agglomerative p)) (lit 0%Q) = false.

(** The four runs on points that are there. *)
Lemma runAnalysis_runs (points : list Point) (p : AlgorithmParameters)
  (type : DatasetType) (s : Rng) :
  points <> [] -> array_sized points -> random_source s ->
  positive_counts p -> (allocates type -> allocatable_counts p) ->
  exists results maxes s',
    runAnalysis B points p type s = (Ok (results, maxes), s')
    /\ map algorithm results = algorithms
    /\ Forall (fun r => List.length (data r) = List.length points) results.
Proof.
  intros Hp Hsz Hs [K1 [K2 K3]] Ha. unfold runAnalysis.
  destruct (Nat.eqb_spec (List.length points) 0) as [E|_];
    [destruct points; [congruence | discriminate]|].
  destruct (spectral_total B points (spectral p) type s Hs Hsz (fun T => proj1 (Ha T)))
    as [r1 [s1 [E1 [A1 [_ Hs1]]]]].
  destruct (kmeans_total B points (kmeans p) type s1 Hs1 Hsz
              (fun T => proj1 (proj2 (Ha T))))
    as [r2 [s2 [E2 [A2 [_ Hs2]]]]].
  destruct (agglomerative_total B points (agglomerative p) type s2 Hs2 Hsz
              (fun T => proj2 (proj2 (Ha T))))
    as [r3 [s3 [E3 [A3 [_ Hs3]]]]].
  destruct (dbscan_total B points (dbscan p) type s3 Hs3 Hsz)
    as [r4 [s4 [E4 [A4 [_ Hs4]]]]].
  rewrite (bind_ok _ _ _ _ _ E1), (bind_ok _ _ _ _ _ E2),
          (bind_ok _ _ _ _ _ E3), (bind_ok _ _ _ _ _ E4).
  eexists. eexists. exists s4. split; [reflexivity|].
  split; [cbn [map]; rewrite A1, A2, A3, A4; reflexivity|].
  repeat constructor.
  - pose proof (spectral_keeps B _ _ _ _ _ _ K1 E1) as L.
    apply (f_equal (@List.length _)) in L. rewrite !length_map in L. exact L.
  - apply coords_length.
    apply (split_or_centroids_keeps B "K-Means" (ClusterParams (kmeans p))
             points (kmeans p) type s1 r2 s2 K2 E2).
  - apply coords_length.
    apply (split_or_centroids_keeps B "Agglomerative Clustering"
             (AggloParams (fst (agglomerative p)) (snd (agglomerative p)))
             points (fst (agglomerative p)) type s2 r3 s3 K3 E3).
  - pose proof (dbscan_keeps B _ _ _ _ _ _ E4) as L.
    apply (f_equal (@List.length _)) in L. rewrite !length_map in L. exact L.
Qed.

(** X16: for a synthetic type, with the three numbers of clusters above zero
    and, on blobs, below the largest length of an array (2^32), the analysis
    succeeds: 200 points are generated, whatever file is selected, and the
    four results come in their fixed order with 200 points each.  On blobs
    with a number of clusters that no array can hold, the analysis ends with
    the RangeError of the allocation of the centroids. *)
Theorem onAnalyze_synthetic (type : DatasetType) (file : option string)
  (p : AlgorithmParameters) (dropLastColumn : bool) (s : Rng) :
  type <> Custom -> random_source s ->
  (positive_counts p -> (allocates type -> allocatable_counts p) ->
   exists results maxes s',
     onAnalyze type file p dropLastColumn s = (Ok (results, maxes), s')
     /\ map algorithm results = algorithms
     /\ Forall (fun r => List.length (data r) = 200%nat) results)
  /\ (type = Blobs -> ~ allocatable_counts p ->
      exists s', onAnalyze type file p dropLastColumn s = (Throw RangeError, s')).
Proof.
  intros T Hs. split; [intros K Ha | intros Tb Hn]; unfold onAnalyze.
  2:{ destruct (generateDataset_returns B type 200 s) as [points [s1 [E [L Hs1]]]];
        [reflexivity|].
      assert (El : loadData type file dropLastColumn s = (Ok points, s1)).
      { unfold loadData. destruct type; try exact E. congruence. }
      assert (L' : List.length points = 200%nat) by (destruct type; try exact L; congruence).
      rewrite (bind_ok _ _ _ _ _ El).
      apply runAnalysis_overflow.
      - intros ->. discriminate L'.
      - unfold array_sized. rewrite L'. reflexivity.
      - apply Hs1, Hs.
      - left. exact Tb.
      - exact Hn. }
  destruct (generateDataset_returns B type 200 s) as [points [s1 [E [L Hs1]]]];
    [reflexivity|].
  assert (El : loadData type file dropLastColumn s = (Ok points, s1)).
  { unfold loadData. destruct type; try exact E. congruence. }
  assert (L' : List.length points = 200%nat) by (destruct type; try exact L; congruence).
  rewrite (bind_ok _ _ _ _ _ El).
  destruct (runAnalysis_runs points p type s1) as [results [maxes [s' [Er [A F]]]]];
    try assumption.
  - intros ->. discriminate L'.
  - unfold array_sized. rewrite L'. reflexivity.
  - apply Hs1, Hs.
  - exists results, maxes, s'. split; [exact Er|]. split; [exact A|].
    rewrite <- L'. exact F.
Qed.

(** X17: for the custom type the analysis stands on the file: without a file
    it ends with the load error, before any draw; a file that does not parse
    ends it with the error of the parser; and a file that parses is never
    empty and has one point for each numeric row: with the three numbers of
    clusters above zero and below the largest length of an array (2^32) it
    gives four results with that many points each, and with a number of
    clusters that no array can hold the analysis ends with a RangeError. *)
Theorem onAnalyze_custom (file : option string) (p : AlgorithmParameters)
  (dropLastColumn : bool) (s : Rng) :
  (file = None ->
   onAnalyze Custom file p dropLastColumn s = (Throw (Err load_error), s))
  /\ (forall text e, file = Some text ->
        fst (parseCSV text dropLastColumn) = Throw e ->
        onAnalyze Custom file p dropLastColumn s = (Throw e, s))
  /\ (forall text points, file = Some text ->
        fst (parseCSV text dropLastColumn) = Ok points ->
        array_sized points -> random_source s ->
        List.length points = List.length (numeric_rows text dropLastColumn)
        /\ points <> []
        /\ (positive_counts p -> allocatable_counts p ->
            exists results maxes s',
              onAnalyze Custom file p dropLastColumn s = (Ok (results, maxes), s')
              /\ map algorithm results = algorithms
              /\ Forall (fun r => List.length (data r) = List.length points) results)
        /\ (~ allocatable_counts p ->
            exists s', onAnalyze Custom file p dropLastColumn s = (Throw RangeError, s'))).
Proof.
  split; [|split].
  - intros ->. reflexivity.
  - intros text e -> E. unfold onAnalyze, loadData, bind, lift. rewrite E. reflexivity.
  - intros text points -> E Hsz Hs.
    assert (Hp : points = map row_point (numeric_rows text dropLastColumn)
                 /\ points <> []).
    { destruct (parseCSV_cases text dropLastColumn)
        as [[_ E']|[[_ [_ E']]|[[f [r [_ [_ E']]]]|[f [r [En [_ E']]]]]]];
        rewrite E' in E; try discriminate.
      injection E as <-. split; [reflexivity|]. rewrite En. discriminate. }
    destruct Hp as [Ep Hne].
    split; [rewrite Ep; apply length_map|]. split; [exact Hne|]. split.
    + intros K Ha.
      destruct (runAnalysis_runs points p Custom s Hne Hsz Hs K (fun _ => Ha))
        as [results [maxes [s' [Er [A F]]]]].
      exists results, maxes, s'. unfold onAnalyze, loadData, bind, lift. rewrite E.
      split; [exact Er|]. split; [exact A | exact F].
    + intros Hn.
      destruct (runAnalysis_overflow B points p Custom s Hne Hsz Hs
                  (or_intror eq_refl) Hn) as [s' Er].
      exists s'. unfold onAnalyze, loadData, bind, lift. rewrite E. exact Er.
Qed.

End Analysis.

Definition default_parameters : AlgorithmParameters :=
  mkParameters (lit 2%Q) (lit 2%Q) (lit 2%Q, ward) (lit (1 # 2)%Q).

Lemma default_parameters_positive : positive_counts default_parameters.
Proof. repeat split. Qed.

Lemma default_parameters_allocatable : allocatable_counts default_parameters.
Proof. repeat split. Qed.

Lemma onAnalyze_synthetic_witness :
  exists results maxes s',
    onAnalyze B0 Blobs None example_parameters false cycle_draws = (Ok (results, maxes), s')
    /\ map algorithm results = algorithms
    /\ Forall (fun r => List.length (data r) = 200%nat) results.
Proof.
  apply (proj1 (onAnalyze_synthetic B0 Blobs None example_parameters false cycle_draws
                  ltac:(discriminate) cycle_draws_random)).
  - repeat split.
  - intros _. exact example_parameters_allocatable.
Defined.

(** With the parameters of the example the run on blobs returns its four
    results; with a number of clusters that is not finite it ends with a
    RangeError. *)
Example onAnalyze_blobs_example :
  (exists results maxes s',
     onAnalyze B0 Blobs None example_parameters false cycle_draws = (Ok (results, maxes), s')
     /\ map algorithm results = algorithms
     /\ map (fun r => List.length (data r)) results = [200; 200; 200; 200]%nat)
  /\ fst (onAnalyze B0 Blobs None
            (mkParameters (Inf false) (lit 2%Q) (lit 2%Q, ward) (lit (1 # 2)%Q))
            false cycle_draws) = Throw RangeError.
Proof.
  split.
  - do 3 eexists. split; [vm_compute; reflexivity|]. split; reflexivity.
  - vm_compute. reflexivity.
Qed.

Definition example_file : string := "x,y,label
1,2,a
3,4,b
5,6,a".

Lemma onAnalyze_custom_witness :
  exists results maxes s',
    onAnalyze B0 Custom (Some example_file) default_parameters true cycle_draws
    = (Ok (results, maxes), s')
    /\ map algorithm results = algorithms
    /\ Forall (fun r => List.length (data r) = 3%nat) results.
Proof.
  apply (proj1 (proj2 (proj2
           (proj2 (proj2 (onAnalyze_custom B0 (Some example_file) default_parameters true
                            cycle_draws))
              example_file
              [point (Fin 1%Q) (Fin 2%Q); point (Fin 3%Q) (Fin 4%Q); point (Fin 5%Q) (Fin 6%Q)]
              eq_refl ltac:(vm_compute; reflexivity) ltac:(vm_compute; reflexivity)
              cycle_draws_random)))).
  - exact default_parameters_positive.
  - exact default_parameters_allocatable.
Defined.

(** ** The metric bars ([components/MetricsChartDisplay.tsx])

    Each result is shown with three bars, one for each metric; the width of a
    bar is a percentage of the largest value among the four results, except
    for the silhouette, whose range [-1, 1] is mapped to [0, 1]. *)

Record Bar : Type := mkBar {
  widthPercent : number;
  barColor : string;
  text : string
}.

Section MetricBars.
Context (B : Builtins).
Local Open Scope string_scope.

Definition MetricBar (label : string) (value maxValue : number) (lowerIsBetter : bool) : Bar :=
  let normalizedValue :=
    if (label =? "Silhouette") then div (add value (lit 1)) (lit 2) else value in
  let normalizedMaxValue := if (label =? "Silhouette") then lit 1 else maxValue in
  let widthPercent :=
    if gt normalizedMaxValue (lit 0)
    then mul (div normalizedValue normalizedMaxValue) (lit 100)
    else lit 0 in
  let widthPercent := if lt widthPercent (lit 0) then lit 0 else widthPercent in
  let widthPercent := if gt widthPercent (lit 100) then lit 100 else widthPercent in
  let barColor :=
    if lowerIsBetter then
      if gt widthPercent (lit 75) then "bg-red-500"
      else if gt widthPercent (lit 40) then "bg-yellow-500"
      else "bg-green-500"
    else
      if lt widthPercent (lit 25) then "bg-red-500"
      else if lt widthPercent (lit 60) then "bg-yellow-500"
      else "bg-green-500" in
  mkBar widthPercent barColor (toFixed B value 2).

(** The three bars of a result. *)
Definition MetricsChartDisplay (result : ClusterResult) (maxMetrics : Metrics) : list Bar :=
  [ MetricBar "Silhouette" (silhouette (metrics result)) (lit 1) false;
    MetricBar "Calinski-Harabasz" (calinskiHarabasz (metrics result))
              (calinskiHarabasz maxMetrics) false;
    MetricBar "Davies-Bouldin" (daviesBouldin (metrics result))
              (daviesBouldin maxMetrics) true ].

End MetricBars.

Section MetricBarFacts.
Context (B : Builtins).
Local Open Scope Q_scope.

(** The two clamps of the width. *)
Definition clamp (w : number) : number :=
  let w := if lt w (lit 0) then lit 0 else w in
  if gt w (lit 100) then lit 100 else w.

Lemma clamp_within w : isNaN w = false -> within 0 100 (clamp w).
Proof.
  unfold clamp. replace (lit 0) with (Fin 0) by reflexivity.
  replace (lit 100) with (Fin 100) by (vm_compute; reflexivity).
  destruct w as [|[|]|q]; try discriminate; intros _; cbn [lt gt negb].
  - change (lt (Fin 100) (Fin 0)) with false. cbv iota. exists 0. split; [reflexivity | lra].
  - exists 100. split; [reflexivity | lra].
  - destruct (Qcompare_spec q 0) as [E|L|G].
    + destruct (Qcompare_spec 100 q) as [E'|L'|G']; try lra.
      exists q. split; [reflexivity | lra].
    + change (lt (Fin 100) (Fin 0)) with false. cbv iota.
      exists 0. split; [reflexivity | lra].
    + destruct (Qcompare_spec 100 q) as [E'|L'|G'].
      * exists q. split; [reflexivity | lra].
      * exists 100. split; [reflexivity | lra].
      * exists q. split; [reflexivity | lra].
Qed.

Lemma clamp_NaN : clamp NaN = NaN.
Proof. reflexivity. Qed.

Lemma clamp_id q : 0 <= q -> q <= 100 -> clamp (Fin q) = Fin q.
Proof.
  intros L U. unfold clamp. replace (lit 0) with (Fin 0) by reflexivity.
  replace (lit 100) with (Fin 100) by (vm_compute; reflexivity).
  assert (E1 : lt (Fin q) (Fin 0) = false) by (apply lt_false; exact L).
  rewrite E1. unfold gt.
  assert (E2 : lt (Fin 100) (Fin q) = false) by (apply lt_false; exact U).
  rewrite E2. reflexivity.
Qed.

Lemma MetricBar_width label value maxValue lower :
  widthPercent (MetricBar B label value maxValue lower)
  = clamp (let nv := if (label =? "Silhouette")%string
                     then div (add value (lit 1)) (lit 2) else value in
           let nm := if (label =? "Silhouette")%string then lit 1 else maxValue in
           if gt nm (lit 0) then mul (div nv nm) (lit 100) else lit 0).
Proof. reflexivity. Qed.

Lemma mul_100_number x : isNaN x = false -> isNaN (mul x (lit 100)) = false.
Proof.
  replace (lit 100) with (Fin 100) by (vm_compute; reflexivity).
  destruct x as [|s|q]; try discriminate; intros _; cbn [mul].
  - reflexivity.
  - pose proof (rnd_not_NaN (q * 100)). destruct (rnd (q * 100)); [congruence | |]; reflexivity.
Qed.

Lemma div_pos_number a m :
  gt m (lit 0) = true -> isNaN (div (Fin a) m) = false.
Proof.
  replace (lit 0) with (Fin 0) by reflexivity. unfold gt.
  destruct m as [|[|]|b]; cbn [lt negb]; try discriminate; intros H; cbn [div].
  - reflexivity.
  - apply lt_spec in H.
    assert (Z0 : Qzero b = false).
    { unfold Qzero. destruct (Qcompare_spec b 0); try reflexivity. lra. }
    rewrite Z0. pose proof (rnd_not_NaN (a / b)). destruct (rnd (a / b)); [congruence | |]; reflexivity.
Qed.

Lemma MetricBar_width_cases (label : string) (value maxValue : number) (lower : bool) :
  let w := widthPercent (MetricBar B label value maxValue lower) in
  (isNaN w = true \/ within 0 100 w)
  /\ (isFinite value = true -> isNaN maxValue = false -> within 0 100 w).
Proof.
  cbv zeta. rewrite MetricBar_width. cbv zeta. split.
  - match goal with |- context [clamp ?x] => destruct (isNaN x) eqn:N end.
    + left. match goal with |- context [clamp ?x] => destruct x; try discriminate end.
      reflexivity.
    + right. apply clamp_within. exact N.
  - intros Fv Nm. apply clamp_within. destruct value as [| |a]; try discriminate.
    destruct (label =? "Silhouette")%string.
    + replace (lit 1) with (Fin 1) by (vm_compute; reflexivity).
      replace (lit 2) with (Fin 2) by (vm_compute; reflexivity).
      replace (lit 0) with (Fin 0) by reflexivity.
      change (gt (Fin 1) (Fin 0)) with true. cbv iota. apply mul_100_number.
      cbn [add]. pose proof (rnd_not_NaN (a + 1)) as N1.
      destruct (rnd (a + 1)) as [|s|c]; [congruence | reflexivity |].
      cbn [div]. change (Qzero 2) with false. cbv iota.
      pose proof (rnd_not_NaN (c / 2)) as N2.
      destruct (rnd (c / 2)) as [|s|d]; [congruence | reflexivity |].
      cbn [div]. change (Qzero 1) with false. cbv iota.
      pose proof (rnd_not_NaN (d / 1)) as N3. destruct (rnd (d / 1)); [congruence | |]; reflexivity.
    + destruct (gt maxValue (lit 0)) eqn:G; [|reflexivity].
      apply mul_100_number, div_pos_number. exact G.
Qed.

(** X18: the width of a bar is a percentage: whatever the value and the
    maximum, it is NaN or a number of [0, 100]; and it is a number of
    [0, 100] whenever the value is finite and the maximum is not NaN. *)
Theorem MetricBar_width_range (label : string) (value maxValue : number) (lower : bool) :
  let w := widthPercent (MetricBar B label value maxValue lower) in
  (isNaN w = true \/ within 0 100 w)
  /\ (isFinite value = true -> isNaN maxValue = false -> within 0 100 w).
Proof. apply MetricBar_width_cases. Qed.

Lemma MetricBar_unclamped (label : string) (v m : Q) (lower : bool) :
  (label =? "Silhouette")%string = false -> 0 <= v -> v <= m -> 0 < m ->
  let bar := MetricBar B label (Fin v) (Fin m) lower in
  widthPercent bar = mul (div (Fin v) (Fin m)) (lit 100)
  /\ within 0 100 (widthPercent bar)
  /\ (v == m ->
      widthPercent bar = Fin 100
      /\ barColor bar = if lower then "bg-red-500"%string else "bg-green-500"%string).
Proof.
  intros Hl V0 Vm M0 bar.
  assert (Z0 : Qzero m = false).
  { unfold Qzero. destruct (Qcompare_spec m 0); try reflexivity; lra. }
  assert (G : gt (Fin m) (lit 0) = true).
  { replace (lit 0) with (Fin 0) by reflexivity. apply lt_spec. exact M0. }
  assert (D : within 0 1 (div (Fin v) (Fin m))).
  { cbn [div]. rewrite Z0. apply (within_rnd _ 0 1); try (vm_compute; reflexivity).
    - apply Qle_shift_div_l; lra.
    - apply Qle_shift_div_r; lra. }
  assert (W : within 0 100 (mul (div (Fin v) (Fin m)) (lit 100))).
  { replace (lit 100) with (Fin 100) by (vm_compute; reflexivity).
    eapply within_mul_r; [exact D | vm_compute; discriminate | |]; vm_compute; reflexivity. }
  assert (E : widthPercent bar = mul (div (Fin v) (Fin m)) (lit 100)).
  { unfold bar. rewrite MetricBar_width. rewrite Hl. cbv zeta. rewrite G.
    destruct W as [q [Eq [Q0 Q1]]]. rewrite Eq. apply clamp_id; assumption. }
  split; [exact E|]. split; [rewrite E; exact W|].
  intros Evm.
  assert (E100 : mul (div (Fin v) (Fin m)) (lit 100) = Fin 100).
  { cbn [div]. rewrite Z0.
    assert (E1 : v / m == 1) by (rewrite Evm; field; lra).
    rewrite (rnd_comp _ _ E1). vm_compute. reflexivity. }
  split; [rewrite E; exact E100|].
  unfold bar, MetricBar. rewrite Hl. cbv zeta. rewrite G, E100.
  destruct lower; vm_compute; reflexivity.
Qed.

(** X19: a bar other than the silhouette's is proportional to its value: for
    a value between 0 and a positive maximum the width is the quotient times
    100 as computed, within [0, 100] without any clamping; and the value that
    is the maximum gets the full width, shown green, or red when lower is
    better. *)
Theorem MetricBar_proportional (label : string) (v m : Q) (lower : bool) :
  (label =? "Silhouette")%string = false -> 0 <= v -> v <= m -> 0 < m ->
  let bar := MetricBar B label (Fin v) (Fin m) lower in
  widthPercent bar = mul (div (Fin v) (Fin m)) (lit 100)
  /\ within 0 100 (widthPercent bar)
  /\ (v == m ->
      widthPercent bar = Fin 100
      /\ barColor bar = if lower then "bg-red-500"%string else "bg-green-500"%string).
Proof. apply MetricBar_unclamped. Qed.

End MetricBarFacts.

Lemma MetricBar_proportional_witness :
  let bar := MetricBar B0 "Davies-Bouldin" (Fin (3 # 2)%Q) (Fin (3 # 2)%Q) true in
  widthPercent bar = mul (div (Fin (3 # 2)%Q) (Fin (3 # 2)%Q)) (lit 100%Q)
  /\ within 0 100 (widthPercent bar)
  /\ ((3 # 2 == 3 # 2)%Q ->
      widthPercent bar = Fin 100%Q /\ barColor bar = "bg-red-500"%string).
Proof.
  apply (MetricBar_proportional B0 "Davies-Bouldin" (3 # 2)%Q (3 # 2)%Q true).
  - reflexivity.
  - vm_compute. discriminate.
  - vm_compute. discriminate.
  - reflexivity.
Defined.

(** *** The bars of an analysis *)

Section AnalysisBars.
Context (B : Builtins).
Local Open Scope Q_scope.

(** The ranges of the three metrics. *)
Definition metric_bounds (m : Metrics) : Prop :=
  le (lit (-6 # 10)) (silhouette m) = true /\ le (silhouette m) (lit 1) = true
  /\ le (lit 50) (calinskiHarabasz m) = true /\ le (calinskiHarabasz m) (lit 550) = true
  /\ le (lit (3 # 10)) (daviesBouldin m) = true /\ le (daviesBouldin m) (lit (18 # 10)) = true.

Lemma finish_bounds name p (clustering : M (list Point)) s r s' :
  finish B name p clustering s = (Ok r, s') ->
  (forall cd s1, clustering s = (Ok cd, s1) -> random_source s1) ->
  metric_bounds (metrics r).
Proof.
  unfold finish. intros H Hc. apply bind_inv in H. destruct H as [cd [s1 [E H]]].
  destruct (generateMockMetrics_bounds B cd s1 (Hc cd s1 E)) as [m [s2 [Em Bm]]].
  rewrite (bind_ok _ _ _ _ _ Em) in H. injection H as <- _. exact Bm.
Qed.

Lemma centroids_source points k s cd s1 :
  random_source s -> array_sized points ->
  assignClustersByCentroids points k s = (Ok cd, s1) -> random_source s1.
Proof.
  intros Hs Hsz E. destruct (allocatable_dec k) as [Hk|Hk].
  - destruct (centroids_total points k s Hs Hsz Hk) as [out [s' [E' Hs']]].
    rewrite E in E'. injection E' as _ ->. exact Hs'.
  - destruct points as [|p0 points'].
    + injection E as _ <-. exact Hs.
    + rewrite (centroids_overflow (p0 :: points') k s) in E by (discriminate || exact Hk).
      discriminate E.
Qed.

Lemma dbscan_noisy_source points s cd s1 :
  random_source s -> array_sized points ->
  dbscan_noisy points s = (Ok cd, s1) -> random_source s1.
Proof.
  intros Hs Hsz E. destruct (dbscan_noisy_total points s Hs Hsz) as [out [s' [E' [Hs' _]]]].
  rewrite E in E'. injection E' as _ ->. exact Hs'.
Qed.

Lemma ret_source {A : Type} (a : A) s (cd : A) s1 :
  random_source s -> ret a s = (Ok cd, s1) -> random_source s1.
Proof. intros Hs E. injection E as _ <-. exact Hs. Qed.

Lemma run_bounds points (p : AlgorithmParameters) eps type s :
  random_source s -> array_sized points ->
  (forall r s', runSpectralClustering B points (spectral p) type s = (Ok r, s') ->
     metric_bounds (metrics r))
  /\ (forall r s', runKMeans B points (kmeans p) type s = (Ok r, s') ->
     metric_bounds (metrics r))
  /\ (forall r s', runAgglomerativeClustering B points (agglomerative p) type s = (Ok r, s') ->
     metric_bounds (metrics r))
  /\ (forall r s', runDBSCAN B points eps type s = (Ok r, s') ->
     metric_bounds (metrics r)).
Proof.
  intros Hs Hsz. split; [|split; [|split]]; intros r s' E.
  - apply (finish_bounds "Spectral Clustering" (ClusterParams (spectral p))) in E; [exact E|].
    intros cd s1. destruct type;
      try apply (ret_source _ _ _ _ Hs); apply centroids_source; assumption.
  - apply (finish_bounds "K-Means" (ClusterParams (kmeans p))) in E; [exact E|].
    intros cd s1. destruct type;
      try apply (ret_source _ _ _ _ Hs); apply centroids_source; assumption.
  - apply (finish_bounds "Agglomerative Clustering"
             (AggloParams (fst (agglomerative p)) (snd (agglomerative p)))) in E; [exact E|].
    intros cd s1. destruct type;
      try apply (ret_source _ _ _ _ Hs); apply centroids_source; assumption.
  - rewrite runDBSCAN_finish in E. apply finish_bounds in E; [exact E|].
    intros cd s1. destruct type;
      try apply (ret_source _ _ _ _ Hs); apply dbscan_noisy_source; assumption.
Qed.

(** A metric within positive bounds, as a rational. *)
Lemma bounded_value lo hi v :
  le (Fin lo) v = true -> le v (Fin hi) = true -> exists q, v = Fin q /\ lo <= q /\ q <= hi.
Proof.
  intros L U. apply num_le_le in L, U.
  destruct v as [|[|]|q]; cbn [num_le] in *; try contradiction.
  exists q. auto.
Qed.

(** The bar that shows the value [f] of a result. *)
Definition bar_of (label : string) (lower : bool) (f : Metrics -> number)
  (maxMetrics : Metrics) (r : ClusterResult) : Bar :=
  MetricBar B label (f (metrics r)) (f maxMetrics) lower.

Lemma full_bar (label : string) (lower : bool) (f : Metrics -> number)
  (results : list ClusterResult) (maxMetrics : Metrics) (lo hi : Q) :
  (label =? "Silhouette")%string = false -> 0 < lo ->
  Forall (fun r => exists q, f (metrics r) = Fin q /\ lo <= q /\ q <= hi) results ->
  true_max (map (fun r => f (metrics r)) results) (f maxMetrics) ->
  Forall (fun r => within 0 100 (widthPercent (bar_of label lower f maxMetrics r))) results
  /\ exists r, In r results
       /\ widthPercent (bar_of label lower f maxMetrics r) = Fin 100
       /\ barColor (bar_of label lower f maxMetrics r)
          = if lower then "bg-red-500"%string else "bg-green-500"%string.
Proof.
  intros Hl Hlo F [Hin Hmax]. apply in_map_iff in Hin. destruct Hin as [r0 [E0 Hr0]].
  destruct (proj1 (Forall_forall _ _) F r0 Hr0) as [m [Em [M1 M2]]].
  rewrite <- E0 in Hmax. unfold bar_of. rewrite <- E0, Em in *. split.
  - apply Forall_forall. intros r Hr.
    destruct (proj1 (Forall_forall _ _) F r Hr) as [q [Eq [Q1 Q2]]].
    assert (L : le (f (metrics r)) (Fin m) = true).
    { apply Hmax. apply in_map_iff. exists r. split; [reflexivity | exact Hr]. }
    rewrite Eq in *. apply num_le_le in L. cbn [num_le] in L.
    apply (MetricBar_unclamped B label q m lower Hl); lra.
  - exists r0. split; [exact Hr0|]. rewrite Em.
    apply (MetricBar_unclamped B label m m lower Hl); lra.
Qed.

(** X20: in every analysis that returns (on blob and custom data: with
    numbers of clusters below 2^32, the largest length of an array) the bars
    are well formed: the width of each of the twelve bars is a number of
    [0, 100]; one of the four results has the full Calinski-Harabasz bar, in
    green; and one has the full Davies-Bouldin bar, in red. *)
Theorem analysis_bars (points : list Point) (p : AlgorithmParameters)
  (type : DatasetType) (s : Rng) :
  points <> [] -> array_sized points -> random_source s ->
  (allocates type -> allocatable_counts p) ->
  exists results maxes s',
    runAnalysis B points p type s = (Ok (results, maxes), s')
    /\ Forall (fun r => Forall (fun bar => within 0 100 (widthPercent bar))
                               (MetricsChartDisplay B r maxes)) results
    /\ (exists r, In r results
          /\ nth_error (MetricsChartDisplay B r maxes) 1
             = Some (mkBar (Fin 100) "bg-green-500"
                           (toFixed B (calinskiHarabasz (metrics r)) 2)))
    /\ (exists r, In r results
          /\ nth_error (MetricsChartDisplay B r maxes) 2
             = Some (mkBar (Fin 100) "bg-red-500"
                           (toFixed B (daviesBouldin (metrics r)) 2))).
Proof.
  intros Hp Hsz Hs Ha. unfold runAnalysis.
  destruct (Nat.eqb_spec (List.length points) 0) as [E|_];
    [destruct points; [congruence | discriminate]|].
  destruct (spectral_total B points (spectral p) type s Hs Hsz (fun T => proj1 (Ha T)))
    as [r1 [s1 [E1 [_ [[F1 [G1 H1]] Hs1]]]]].
  destruct (kmeans_total B points (kmeans p) type s1 Hs1 Hsz
              (fun T => proj1 (proj2 (Ha T))))
    as [r2 [s2 [E2 [_ [[F2 [G2 H2]] Hs2]]]]].
  destruct (agglomerative_total B points (agglomerative p) type s2 Hs2 Hsz
              (fun T => proj2 (proj2 (Ha T))))
    as [r3 [s3 [E3 [_ [[F3 [G3 H3]] Hs3]]]]].
  destruct (dbscan_total B points (dbscan p) type s3 Hs3 Hsz)
    as [r4 [s4 [E4 [_ [[F4 [G4 H4]] Hs4]]]]].
  pose proof (proj1 (run_bounds points p (dbscan p) type s Hs Hsz) r1 s1 E1) as B1.
  pose proof (proj1 (proj2 (run_bounds points p (dbscan p) type s1 Hs1 Hsz)) r2 s2 E2) as B2.
  pose proof (proj1 (proj2 (proj2 (run_bounds points p (dbscan p) type s2 Hs2 Hsz))) r3 s3 E3)
    as B3.
  pose proof (proj2 (proj2 (proj2 (run_bounds points p (dbscan p) type s3 Hs3 Hsz))) r4 s4 E4)
    as B4.
  rewrite (bind_ok _ _ _ _ _ E1), (bind_ok _ _ _ _ _ E2),
          (bind_ok _ _ _ _ _ E3), (bind_ok _ _ _ _ _ E4).
  set (results := [r1; r2; r3; r4]).
  set (maxes := fold_left max_metrics results (mkMetrics (Inf true) (Inf true) (Inf true))).
  exists results, maxes, s4. split; [reflexivity|].
  destruct (fold_max_metrics results (mkMetrics (Inf true) (Inf true) (Inf true)))
    as [Ms [Mc Md]].
  fold maxes in Ms, Mc, Md. cbn [silhouette calinskiHarabasz daviesBouldin] in Ms, Mc, Md.
  assert (Tc : true_max (map (fun r => calinskiHarabasz (metrics r)) results)
                        (calinskiHarabasz maxes)).
  { rewrite Mc. apply fold_max_true. repeat constructor; assumption. }
  assert (Td : true_max (map (fun r => daviesBouldin (metrics r)) results)
                        (daviesBouldin maxes)).
  { rewrite Md. apply fold_max_true. repeat constructor; assumption. }
  assert (Bs : Forall (fun r => metric_bounds (metrics r)) results).
  { constructor; [exact B1|]. constructor; [exact B2|]. constructor; [exact B3|].
    constructor; [exact B4 | constructor]. }
  set (c50 := val (lit 50)). set (c550 := val (lit 550)).
  set (c03 := val (lit (3 # 10))). set (c18 := val (lit (18 # 10))).
  assert (Fc : Forall (fun r => exists q, calinskiHarabasz (metrics r) = Fin q
                                 /\ c50 <= q /\ q <= c550) results).
  { eapply Forall_impl; [|exact Bs]. intros r [_ [_ [L [U _]]]].
    apply bounded_value; [exact L | exact U]. }
  assert (Fd : Forall (fun r => exists q, daviesBouldin (metrics r) = Fin q
                                 /\ c03 <= q /\ q <= c18) results).
  { eapply Forall_impl; [|exact Bs]. intros r [_ [_ [_ [_ [L U]]]]].
    apply bounded_value; [exact L | exact U]. }
  destruct (full_bar "Calinski-Harabasz" false calinskiHarabasz results maxes c50 c550
              eq_refl ltac:(vm_compute; reflexivity) Fc Tc) as [Wc [rc [Hrc [Wrc Crc]]]].
  destruct (full_bar "Davies-Bouldin" true daviesBouldin results maxes c03 c18
              eq_refl ltac:(vm_compute; reflexivity) Fd Td) as [Wd [rd [Hrd [Wrd Crd]]]].
  split; [|split].
  - apply Forall_forall. intros r Hr. unfold MetricsChartDisplay.
    constructor; [|constructor; [|constructor; [|constructor]]].
    + destruct (proj1 (Forall_forall _ _) Bs r Hr) as [L [U _]].
      apply (MetricBar_width_cases B "Silhouette" _ _ false).
      * apply num_le_le in L.
        destruct (silhouette (metrics r)) as [|[|]|q]; cbn [num_le] in *; try contradiction;
          try reflexivity.
        apply num_le_le in U. cbn in U. contradiction.
      * vm_compute. reflexivity.
    + apply (proj1 (Forall_forall _ _) Wc r Hr).
    + apply (proj1 (Forall_forall _ _) Wd r Hr).
  - exists rc. split; [exact Hrc|]. unfold MetricsChartDisplay. cbn [nth_error].
    f_equal. unfold bar_of in Wrc, Crc.
    destruct (MetricBar B "Calinski-Harabasz" (calinskiHarabasz (metrics rc))
                (calinskiHarabasz maxes) false) as [w c t] eqn:Eb.
    cbn [widthPercent barColor] in *. subst w c. f_equal.
    apply (f_equal text) in Eb. cbn [text] in Eb. symmetry. exact Eb.
  - exists rd. split; [exact Hrd|]. unfold MetricsChartDisplay. cbn [nth_error].
    f_equal. unfold bar_of in Wrd, Crd.
    destruct (MetricBar B "Davies-Bouldin" (daviesBouldin (metrics rd))
                (daviesBouldin maxes) true) as [w c t] eqn:Eb.
    cbn [widthPercent barColor] in *. subst w c. f_equal.
    apply (f_equal text) in Eb. cbn [text] in Eb. symmetry. exact Eb.
Qed.

End AnalysisBars.

Lemma analysis_bars_witness :
  exists results maxes s',
    runAnalysis B0 grid_points example_parameters Blobs cycle_draws = (Ok (results, maxes), s')
    /\ Forall (fun r => Forall (fun bar => within 0 100 (widthPercent bar))
                               (MetricsChartDisplay B0 r maxes)) results
    /\ (exists r, In r results
          /\ nth_error (MetricsChartDisplay B0 r maxes) 1
             = Some (mkBar (Fin 100%Q) "bg-green-500"
                           (toFixed B0 (calinskiHarabasz (metrics r)) 2)))
    /\ (exists r, In r results
          /\ nth_error (MetricsChartDisplay B0 r maxes) 2
             = Some (mkBar (Fin 100%Q) "bg-red-500"
                           (toFixed B0 (daviesBouldin (metrics r)) 2))).
Proof.
  apply (analysis_bars B0 grid_points example_parameters Blobs cycle_draws).
  - discriminate.
  - vm_compute. reflexivity.
  - apply cycle_draws_random.
  - intros _. exact example_parameters_allocatable.
Defined.

(** The colours of the bars of the example: the four results differ. *)
Example analysis_bars_example :
  match fst (runAnalysis B0 grid_points example_parameters Blobs cycle_draws) with
  | Ok (results, maxes) =>
      map (fun r => map barColor (MetricsChartDisplay B0 r maxes)) results
  | Throw _ => []
  end
  = [["bg-yellow-500"; "bg-green-500"; "bg-red-500"];
     ["bg-red-500"; "bg-yellow-500"; "bg-yellow-500"];
     ["bg-green-500"; "bg-red-500"; "bg-green-500"];
     ["bg-green-500"; "bg-red-500"; "bg-green-500"]]%string.
Proof. vm_compute. reflexivity. Qed.

(** ** The control panel ([ControlPanel])

    The state of the panel and its event handlers.  The state is the one after
    mounting (the effect that sets the first hint has run); a file is given by
    its text. *)

Module ControlPanel.
Local Open Scope string_scope.

(** [parseInt(s, 10)]: leading white space and a sign are skipped, then the
    longest prefix of decimal digits is read; its value is rounded to
    binary64.  (Past twenty significant digits the language lets an
    implementation replace digits by zeros; the value below is the exact
    one.) *)
Definition parse_digits (s : string) : number :=
  match span_digits s with
  | ([], _) => NaN
  | (ds, _) => rnd (inject_Z (digits_value ds))
  end.

Definition parseInt (s : string) : number :=
  match trim_start s with
  | String c r =>
      if Ascii.eqb c "-" then neg (parse_digits r)
      else if Ascii.eqb c "+" then parse_digits r
      else parse_digits (String c r)
  | EmptyString => NaN
  end.

(** [AlgorithmParameters], with the numbers the inputs produce. *)
Record Parameters : Type := mkParameters {
  spectral : number;
  kmeans : number;
  agglomerative : number * LinkageType;
  dbscan : number
}.

Record State : Type := mkState {
  datasetType : DatasetType;
  selectedFile : option string;
  dropLastColumn : bool;
  datasetHint : string;
  params : Parameters
}.

Definition getHintForDataset (datasetType : DatasetType) : string :=
  match datasetType with
  | Moons | Circles => "Tests how algorithms handle non-convex shapes."
  | Blobs => "Ideal for standard, distance-based clustering."
  | Custom => ""
  end.

Definition initial : State :=
  mkState Moons None true (getHintForDataset Moons)
          (mkParameters (lit 2) (lit 2) (lit 2, ward) (lit (1 # 2))).

Definition set_clusters (v : number) (p : Parameters) : Parameters :=
  mkParameters v v (v, snd (agglomerative p)) (dbscan p).

Definition handleFileChange (files : list string) (st : State) : State :=
  match files with
  | file :: _ => mkState Custom (Some file) (dropLastColumn st) "" (params st)
  | [] => st
  end.

Definition handleDatasetChange (newType : DatasetType) (st : State) : State :=
  let selectedFile :=
    match newType with Custom => selectedFile st | _ => None end in
  let newClusters := match newType with Blobs => lit 3 | _ => lit 2 end in
  mkState newType selectedFile (dropLastColumn st) (getHintForDataset newType)
          (set_clusters newClusters (params st)).

(** The [onChange] of the input "Clusters (K)". *)
Definition handleClustersChange (value : string) (st : State) : State :=
  let val := parseInt value in
  if isNaN val || lt val (lit 2) then st
  else mkState (datasetType st) (selectedFile st) (dropLastColumn st) (datasetHint st)
               (set_clusters val (params st)).

Definition handleLinkageChange (val : LinkageType) (st : State) : State :=
  let p := params st in
  mkState (datasetType st) (selectedFile st) (dropLastColumn st) (datasetHint st)
          (mkParameters (spectral p) (kmeans p) (fst (agglomerative p), val) (dbscan p)).

Definition handleEpsChange (value : string) (st : State) : State :=
  let p := params st in
  mkState (datasetType st) (selectedFile st) (dropLastColumn st) (datasetHint st)
          (mkParameters (spectral p) (kmeans p) (agglomerative p) (parseFloat value)).

Definition handleDropLastColumnChange (checked : bool) (st : State) : State :=
  mkState (datasetType st) (selectedFile st) checked (datasetHint st) (params st).

Inductive Event : Type :=
| FileChange (files : list string)
| DatasetChange (newType : DatasetType)
| ClustersChange (value : string)
| LinkageChange (val : LinkageType)
| EpsChange (value : string)
| DropLastColumnChange (checked : bool).

Definition handle (st : State) (e : Event) : State :=
  match e with
  | FileChange files => handleFileChange files st
  | DatasetChange newType => handleDatasetChange newType st
  | ClustersChange value => handleClustersChange value st
  | LinkageChange val => handleLinkageChange val st
  | EpsChange value => handleEpsChange value st
  | DropLastColumnChange checked => handleDropLastColumnChange checked st
  end.

(** The state after a sequence of events. *)
Definition after (events : list Event) : State := fold_left handle events initial.

(** What [handleAnalyzeClick] passes to [onAnalyze]. *)
Definition handleAnalyzeClick (st : State)
  : DatasetType * option string * Parameters * bool :=
  (datasetType st, selectedFile st, params st, dropLastColumn st).

(** A number of clusters the panel can hold: an integer from 2 on, or
    [Infinity] (from a digit string beyond the range of binary64). *)
Definition cluster_count (x : number) : Prop :=
  x = Inf false \/ exists q z, x = Fin q /\ (q == inject_Z z)%Q /\ (2 <= z)%Z.

Definition invariant (st : State) : Prop :=
  spectral (params st) = kmeans (params st)
  /\ fst (agglomerative (params st)) = kmeans (params st)
  /\ cluster_count (kmeans (params st))
  /\ (selectedFile st <> None -> datasetType st = Custom)
  /\ datasetHint st = getHintForDataset (datasetType st).

Lemma digits_value_nonneg ds : forall acc, (0 <= acc)%Z ->
  (0 <= fold_left (fun a c => 10 * a + digit_val c) ds acc)%Z.
Proof.
  induction ds as [|c ds IH]; intros acc H; cbn [fold_left]; [exact H|].
  apply IH. unfold digit_val. lia.
Qed.

Lemma parse_digits_cases s :
  parse_digits s = NaN \/ parse_digits s = Inf false
  \/ exists v t, parse_digits s = Fin v /\ (v == inject_Z t)%Q /\ (0 <= v)%Q.
Proof.
  unfold parse_digits. destruct (span_digits s) as [[|c ds] r]; [left; reflexivity|].
  right. set (n := digits_value (c :: ds)).
  assert (Hn : (0 <= n)%Z) by (apply digits_value_nonneg; lia).
  destruct (rnd_Z_integer n Hn) as [O|[v [t [E Hv]]]]; [left; exact O|].
  right. exists v, t. split; [exact E|]. split; [exact Hv|].
  assert (N : (0 <= inject_Z n)%Q) by (change 0%Q with (inject_Z 0); rewrite <- Zle_Qle; lia).
  pose proof (rnd_nonneg _ N) as R. rewrite E in R. exact R.
Qed.

(** A value that the input of the number of clusters accepts. *)
Lemma parseInt_accepted s :
  isNaN (parseInt s) || lt (parseInt s) (lit 2) = false -> cluster_count (parseInt s).
Proof.
  replace (lit 2) with (Fin 2%Q) by reflexivity.
  assert (P : forall r, isNaN (parse_digits r) || lt (parse_digits r) (Fin 2%Q) = false ->
              cluster_count (parse_digits r)).
  { intros r H. destruct (parse_digits_cases r) as [E|[E|[v [t [E [Hv V0]]]]]]; rewrite E in *.
    - discriminate H.
    - left. reflexivity.
    - right. exists v, t. split; [reflexivity|]. split; [exact Hv|].
      cbn [isNaN orb] in H. apply lt_false in H. rewrite Hv in H.
      change 2%Q with (inject_Z 2) in H. rewrite <- Zle_Qle in H. exact H. }
  assert (N : forall r, isNaN (neg (parse_digits r)) || lt (neg (parse_digits r)) (Fin 2%Q)
                        = true).
  { intros r. destruct (parse_digits_cases r) as [E|[E|[v [t [E [Hv V0]]]]]]; rewrite E.
    - reflexivity.
    - reflexivity.
    - cbn [neg isNaN orb]. apply lt_spec. lra. }
  unfold parseInt. destruct (trim_start s) as [|c r]; [discriminate|].
  destruct (Ascii.eqb c "-"%char); [rewrite N; discriminate|].
  destruct (Ascii.eqb c "+"%char); apply P.
Qed.

Lemma handle_invariant st e : invariant st -> invariant (handle st e).
Proof.
  intros [I1 [I2 [I3 [I4 I5]]]]. destruct e as [files|t|value|l|value|b]; cbn [handle].
  - unfold handleFileChange. destruct files as [|f fs]; [repeat split; assumption|].
    repeat split; cbn; auto.
  - unfold handleDatasetChange, invariant. cbn.
    split; [reflexivity|]. split; [reflexivity|]. split.
    + right. destruct t; [exists 2%Q, 2%Z | exists 3%Q, 3%Z | exists 2%Q, 2%Z | exists 2%Q, 2%Z];
        (split; [reflexivity|]; split; [reflexivity | lia]).
    + split; [|reflexivity]. destruct t; congruence.
  - unfold handleClustersChange.
    destruct (isNaN (parseInt value) || lt (parseInt value) (lit 2)) eqn:C;
      [repeat split; assumption|].
    unfold invariant. cbn. split; [reflexivity|]. split; [reflexivity|].
    split; [apply parseInt_accepted; exact C|]. split; assumption.
  - unfold handleLinkageChange, invariant. cbn. repeat split; assumption.
  - unfold handleEpsChange, invariant. cbn. repeat split; assumption.
  - unfold handleDropLastColumnChange, invariant. cbn. repeat split; assumption.
Qed.

Lemma after_invariant (events : list Event) : invariant (after events).
Proof.
  unfold after.
  assert (H : invariant initial).
  { unfold invariant. cbn. split; [reflexivity|]. split; [reflexivity|]. split.
    - right. exists 2%Q, 2%Z. split; [reflexivity|]. split; [reflexivity | lia].
    - split; [congruence | reflexivity]. }
  revert H. generalize initial. induction events as [|e events IH]; intros st H; cbn [fold_left].
  - exact H.
  - apply IH. apply handle_invariant. exact H.
Qed.

(** X21: whatever the user does, the three numbers of clusters of the panel are
    the same number, an integer from 2 on (or [Infinity]): the inputs never
    produce a number of clusters below 2, nor a fraction, nor NaN.  A file is
    selected only while the type is custom, and the hint shown is the hint of
    the type. *)
Theorem panel_invariant (events : list Event) :
  let st := after events in
  spectral (params st) = kmeans (params st)
  /\ fst (agglomerative (params st)) = kmeans (params st)
  /\ cluster_count (kmeans (params st))
  /\ (selectedFile st <> None -> datasetType st = Custom)
  /\ datasetHint st = getHintForDataset (datasetType st).
Proof.
  cbv zeta. exact (after_invariant events).
Qed.

(** X22: the panel and the analysis together.  Whatever the user did before the
    click, a file that the panel shows as selected is the data that the
    analysis reads, with the choice of the check box; and when no file is
    selected the data are generated, 200 points of the selected type. *)
Theorem selected_file_is_analysed (B : Builtins) (events : list Event) :
  let st := after events in
  match selectedFile st with
  | Some text =>
      loadData B (datasetType st) (selectedFile st) (dropLastColumn st)
      = lift (fst (parseCSV text (dropLastColumn st)))
  | None =>
      loadData B (datasetType st) (selectedFile st) (dropLastColumn st)
      = generateDataset B (datasetType st) 200
  end.
Proof.
  cbv zeta. destruct (after_invariant events) as [_ [_ [_ [I _]]]].
  destruct (selectedFile (after events)) as [text|] eqn:E.
  - rewrite I by discriminate. reflexivity.
  - unfold loadData. destruct (datasetType (after events)); reflexivity.
Qed.

Example panel_session :
  handleAnalyzeClick
    (after [ClustersChange "5"; ClustersChange "1"; ClustersChange "abc"; EpsChange "0.7";
            FileChange ["x,y"]; DatasetChange Blobs; LinkageChange single])
  = (Blobs, None,
     mkParameters (Fin 3%Q) (Fin 3%Q) (Fin 3%Q, single) (parseFloat "0.7"), true).
Proof. vm_compute. reflexivity. Qed.

End ControlPanel.

(** ** The scatter plot ([components/ClusterPlot.tsx])

    The points of a result are grouped by cluster in an object whose keys are
    the cluster numbers; every group becomes one series of the plot.  Two
    numbers give the same key exactly when they are the same number, so that an
    object with number keys is a list of keys and values without a repeated
    key, in the order in which the keys were created. *)

Section ClusterPlot.
(** [Number::toString], for the name of a series *)
Context (Number_toString : number -> string).
Local Open Scope string_scope.

Definition COLORS : list string :=
  ["#8884d8"; "#82ca9d"; "#ffc658"; "#ff8042"; "#0088FE"; "#00C49F"; "#FFBB28"; "#FF8042"].

Definition NOISE_COLOR : string := "#6b7280".

(** [{ ...point, z: 1 }] *)
Definition Augmented : Type := (Point * number)%type.

Definition augmentedPoint (point : Point) : Augmented := (point, lit 1).

(** [point.cluster ?? -1] *)
Definition clusterId (point : Point) : number :=
  match p_cluster point with
  | JUndefined => lit (-1)
  | JNum n => n
  end.

Definition same_key (a b : number) : bool :=
  match a, b with
  | NaN, NaN => true
  | Inf s, Inf t => Bool.eqb s t
  | Fin p, Fin q => Qeq_bool p q
  | _, _ => false
  end.

(** [if (!acc[k]) acc[k] = []; acc[k].push(x)] *)
Fixpoint push_to {A : Type} (k : number) (x : A) (acc : list (number * list A))
  : list (number * list A) :=
  match acc with
  | [] => [(k, [x])]
  | (k', g) :: rest =>
      if same_key k k' then (k', (g ++ [x])%list) :: rest
      else (k', g) :: push_to k x rest
  end.

Definition dataByCluster (data : list Point) : list (number * list Augmented) :=
  fold_left (fun acc point => push_to (clusterId point) (augmentedPoint point) acc) data [].

(** A key that is an array index: an integer from 0 to 2^32 - 2. *)
Definition index_key (k : number) : bool :=
  match array_index k with
  | Some i => (Z.of_nat i <? 2 ^ 32 - 1)%Z
  | None => false
  end.

(** [Object.entries]: the index keys in ascending order, then the other keys
    in the order of their creation. *)
Definition Object_entries {A : Type} (o : list (number * list A)) : list (number * list A) :=
  (sort (fun a b => sub (fst a) (fst b)) (filter (fun e => index_key (fst e)) o)
   ++ filter (fun e => negb (index_key (fst e))) o)%list.

(** [clusterId === -1] *)
Definition is_noise_id (k : number) : bool :=
  match k with
  | Fin q => Qeq_bool q (-1)
  | _ => false
  end.

(** [COLORS[clusterId % COLORS.length]]: defined when the remainder is an
    index of the array (a remainder of zero is one, whatever its sign). *)
Definition color_at (k : number) : option string :=
  match k with
  | Fin q =>
      if Qeq_bool q (inject_Z (Qfloor q)) then
        let r := Z.rem (Qfloor q) 8 in
        if (0 <=? r)%Z then nth_error COLORS (Z.to_nat r) else None
      else None
  | _ => None
  end.

Record Scatter : Type := mkScatter {
  key : number;
  name : string;
  series : list Augmented;
  fill : option string
}.

Definition scatters (data : list Point) : list Scatter :=
  map (fun e =>
         let clusterId := fst e in
         mkScatter clusterId
                   (if is_noise_id clusterId then "Noise"
                    else "Cluster " ++ Number_toString clusterId)
                   (snd e)
                   (if is_noise_id clusterId then Some NOISE_COLOR else color_at clusterId))
      (Object_entries (dataByCluster data)).

End ClusterPlot.

Section ClusterPlotFacts.
Local Open Scope Q_scope.

Lemma same_key_refl a : same_key a a = true.
Proof.
  destruct a as [|[|]|q]; try reflexivity. apply Qeq_bool_iff. reflexivity.
Qed.

Lemma same_key_sym a b : same_key a b = same_key b a.
Proof.
  destruct a as [|[|]|p], b as [|[|]|q]; try reflexivity. cbn [same_key].
  destruct (Qeq_bool p q) eqn:E1, (Qeq_bool q p) eqn:E2; try reflexivity.
  - apply Qeq_bool_iff in E1. apply Qeq_bool_neq in E2. exfalso. apply E2. symmetry. exact E1.
  - apply Qeq_bool_iff in E2. apply Qeq_bool_neq in E1. exfalso. apply E1. symmetry. exact E2.
Qed.

Lemma same_key_trans a b c : same_key a b = true -> same_key b c = true -> same_key a c = true.
Proof.
  destruct a as [|[|]|p], b as [|[|]|q], c as [|[|]|r]; cbn [same_key Bool.eqb];
    try discriminate; try reflexivity.
  intros H1 H2. apply Qeq_bool_iff in H1, H2. apply Qeq_bool_iff. lra.
Qed.

Lemma same_key_class a b c : same_key a b = true -> same_key a c = same_key b c.
Proof.
  intros H. destruct (same_key b c) eqn:E.
  - eapply same_key_trans; eassumption.
  - destruct (same_key a c) eqn:E'; [|reflexivity].
    rewrite same_key_sym in H. rewrite (same_key_trans _ _ _ H E') in E. discriminate E.
Qed.

(** The points of [data] with the key [k], in their order. *)
Definition group (k : number) (data : list Point) : list Augmented :=
  map augmentedPoint (filter (fun p => same_key (clusterId p) k) data).

(** The keys of [data], each once, in the order of their first point. *)
Definition add_key (k : number) (ks : list number) : list number :=
  if existsb (same_key k) ks then ks else (ks ++ [k])%list.

Definition first_keys (data : list Point) : list number :=
  fold_left (fun ks p => add_key (clusterId p) ks) data [].

Definition distinct (ks : list number) : Prop :=
  ForallOrdPairs (fun a b => same_key a b = false) ks.

Lemma group_snoc k seen p :
  group k (seen ++ [p])
  = (group k seen ++ if same_key (clusterId p) k then [augmentedPoint p] else [])%list.
Proof.
  unfold group. rewrite filter_app, map_app. cbn [filter].
  destruct (same_key (clusterId p) k); reflexivity.
Qed.

Lemma add_key_cons k k' ks :
  same_key k k' = false -> add_key k (k' :: ks) = k' :: add_key k ks.
Proof.
  intros E. unfold add_key. cbn [existsb]. rewrite E. cbn [orb].
  destruct (existsb (same_key k) ks); reflexivity.
Qed.

Lemma existsb_same_key k ks :
  existsb (same_key k) ks = false <-> Forall (fun k' => same_key k k' = false) ks.
Proof.
  induction ks as [|k' ks IH]; cbn [existsb].
  - split; [constructor | reflexivity].
  - rewrite orb_false_iff, IH. split.
    + intros [H1 H2]. constructor; assumption.
    + intros H. inversion H; subst. split; assumption.
Qed.

Lemma add_key_distinct k ks : distinct ks -> distinct (add_key k ks).
Proof.
  intros D. unfold add_key. destruct (existsb (same_key k) ks) eqn:E; [exact D|].
  apply existsb_same_key in E. clear -D E.
  induction D as [|k' ks H D IH]; cbn [app].
  - constructor; [constructor | constructor].
  - inversion E as [|? ? Ek Er]; subst. constructor.
    + apply Forall_app. split; [exact H|]. constructor; [|constructor].
      rewrite same_key_sym. exact Ek.
    + apply IH. exact Er.
Qed.

Lemma add_key_covers k ks :
  existsb (same_key k) (add_key k ks) = true
  /\ forall k', existsb (same_key k') ks = true -> existsb (same_key k') (add_key k ks) = true.
Proof.
  unfold add_key. destruct (existsb (same_key k) ks) eqn:E.
  - split; [exact E | auto].
  - split.
    + rewrite existsb_app. cbn [existsb]. rewrite same_key_refl, orb_true_r. reflexivity.
    + intros k' H. rewrite existsb_app, H. reflexivity.
Qed.

Lemma first_keys_snoc seen p :
  first_keys (seen ++ [p]) = add_key (clusterId p) (first_keys seen).
Proof. unfold first_keys. rewrite fold_left_app. reflexivity. Qed.

Lemma first_keys_spec (data : list Point) :
  distinct (first_keys data)
  /\ (forall p, In p data -> existsb (same_key (clusterId p)) (first_keys data) = true)
  /\ (forall k, In k (first_keys data) -> exists p, In p data /\ clusterId p = k).
Proof.
  induction data as [|p seen IH] using rev_ind.
  - split; [constructor|]. split; [intros p [] | intros k []].
  - destruct IH as [D [C N]]. rewrite first_keys_snoc.
    destruct (add_key_covers (clusterId p) (first_keys seen)) as [A1 A2].
    split; [apply add_key_distinct; exact D|]. split.
    + intros q Hq. apply in_app_or in Hq. destruct Hq as [Hq|[<-|[]]]; [|exact A1].
      apply A2, C, Hq.
    + intros k Hk. unfold add_key in Hk.
      destruct (existsb (same_key (clusterId p)) (first_keys seen)).
      * destruct (N k Hk) as [q [Hq Eq]]. exists q. split; [apply in_or_app; left; exact Hq | exact Eq].
      * apply in_app_or in Hk. destruct Hk as [Hk|[<-|[]]].
        -- destruct (N k Hk) as [q [Hq Eq]]. exists q.
           split; [apply in_or_app; left; exact Hq | exact Eq].
        -- exists p. split; [apply in_or_app; right; left; reflexivity | reflexivity].
Qed.

Lemma push_to_groups seen p ks :
  distinct ks ->
  (existsb (same_key (clusterId p)) ks = false -> group (clusterId p) seen = []) ->
  push_to (clusterId p) (augmentedPoint p) (map (fun k => (k, group k seen)) ks)
  = map (fun k => (k, group k (seen ++ [p]))) (add_key (clusterId p) ks).
Proof.
  set (k := clusterId p). intros D. induction D as [|k' ks H D IH]; intros E.
  - cbn [push_to map]. unfold add_key. cbn [existsb app map].
    rewrite group_snoc. fold k. rewrite same_key_refl, (E eq_refl). reflexivity.
  - cbn [map push_to]. destruct (same_key k k') eqn:Ek.
    + unfold add_key. cbn [existsb]. rewrite Ek. cbn [orb map].
      rewrite group_snoc. fold k. rewrite Ek. f_equal.
      apply map_ext_in. intros k'' Hin. f_equal. rewrite group_snoc. fold k.
      rewrite (same_key_class k k' k'' Ek).
      rewrite (proj1 (Forall_forall _ _) H k'' Hin). rewrite app_nil_r. reflexivity.
    + rewrite (add_key_cons _ _ _ Ek). cbn [map]. rewrite group_snoc. fold k.
      rewrite Ek, app_nil_r. f_equal. apply IH.
      intros E'. apply E. cbn [existsb]. rewrite Ek, E'. reflexivity.
Qed.

Lemma filter_nil {A : Type} (f : A -> bool) (l : list A) :
  (forall x, In x l -> f x = false) -> filter f l = [].
Proof.
  induction l as [|a l IH]; intros H; [reflexivity|]. cbn [filter].
  rewrite (H a (or_introl eq_refl)). apply IH. intros x Hx. apply H. right. exact Hx.
Qed.

(** The object is the list of the keys with their groups. *)
Lemma dataByCluster_spec (data : list Point) :
  dataByCluster data = map (fun k => (k, group k data)) (first_keys data).
Proof.
  induction data as [|p seen IH] using rev_ind; [reflexivity|].
  unfold dataByCluster. rewrite fold_left_app. cbn [fold_left].
  fold (dataByCluster seen). rewrite IH, first_keys_snoc.
  destruct (first_keys_spec seen) as [D [C _]].
  apply push_to_groups; [exact D|].
  intros E. unfold group. rewrite filter_nil; [reflexivity|].
  intros q Hq. destruct (same_key (clusterId q) (clusterId p)) eqn:Eq; [|reflexivity].
  pose proof (C q Hq) as Cq. apply existsb_exists in Cq. destruct Cq as [k' [Hk' Ek']].
  apply existsb_same_key in E. pose proof (proj1 (Forall_forall _ _) E k' Hk') as Ep.
  cbv beta in Ep. rewrite same_key_sym in Eq. rewrite (same_key_class _ _ k' Eq), Ek' in Ep. discriminate Ep.
Qed.

Lemma filter_partition_perm {A : Type} (f : A -> bool) (l : list A) :
  Permutation (filter f l ++ filter (fun x => negb (f x)) l) l.
Proof.
  induction l as [|a l IH]; [constructor|]. cbn [filter].
  destruct (f a); cbn [negb app].
  - constructor. exact IH.
  - apply Permutation_sym, Permutation_cons_app, Permutation_sym. exact IH.
Qed.

Lemma Object_entries_perm {A : Type} (o : list (number * list A)) :
  Permutation (Object_entries o) o.
Proof.
  unfold Object_entries.
  eapply Permutation_trans; [|apply (filter_partition_perm (fun e => index_key (fst e)))].
  apply Permutation_app_tail. apply sort_perm.
Qed.

Lemma concat_perm {A : Type} (l l' : list (list A)) :
  Permutation l l' -> Permutation (List.concat l) (List.concat l').
Proof.
  intros P. induction P; cbn [List.concat].
  - constructor.
  - apply Permutation_app_head. assumption.
  - rewrite !app_assoc. apply Permutation_app_tail, Permutation_app_comm.
  - eapply Permutation_trans; eassumption.
Qed.

Lemma group_without k k' data :
  same_key k k' = false ->
  group k' (filter (fun p => negb (same_key (clusterId p) k)) data) = group k' data.
Proof.
  intros E. unfold group. f_equal. induction data as [|p data IH]; [reflexivity|].
  cbn [filter]. destruct (same_key (clusterId p) k) eqn:Ek; cbn [negb filter].
  - rewrite IH. rewrite (same_key_class _ _ k' Ek), E. reflexivity.
  - rewrite IH. reflexivity.
Qed.

(** The groups of keys that are distinct and that cover the points hold the
    points, each once. *)
Lemma groups_partition (ks : list number) : forall data,
  distinct ks ->
  (forall p, In p data -> existsb (same_key (clusterId p)) ks = true) ->
  Permutation (List.concat (map (fun k => group k data) ks)) (map augmentedPoint data).
Proof.
  induction ks as [|k ks IH]; intros data D C.
  - destruct data as [|p data]; [constructor|].
    specialize (C p (or_introl eq_refl)). discriminate C.
  - inversion D as [|? ? H D']; subst. cbn [map List.concat].
    set (rest := filter (fun p => negb (same_key (clusterId p) k)) data).
    assert (E : map (fun k' => group k' data) ks = map (fun k' => group k' rest) ks).
    { apply map_ext_in. intros k' Hk'. symmetry. apply group_without.
      apply (proj1 (Forall_forall _ _) H k' Hk'). }
    rewrite E.
    eapply Permutation_trans.
    + apply Permutation_app_head. apply (IH rest D').
      intros p Hp. apply filter_In in Hp. destruct Hp as [Hp Np].
      specialize (C p Hp). cbn [existsb] in C. apply negb_true_iff in Np.
      rewrite Np in C. exact C.
    + unfold group, rest. rewrite <- map_app. apply Permutation_map.
      apply filter_partition_perm.
Qed.

Lemma distinct_same (ks : list number) (a b : number) :
  distinct ks -> In a ks -> In b ks -> same_key a b = true -> a = b.
Proof.
  intros D Ha Hb E.
  destruct (ForallOrdPairs_In D a b Ha Hb) as [H|[H|H]]; [exact H | congruence |].
  rewrite same_key_sym in H. congruence.
Qed.

(** X23: the plot shows every point once, in the series of its cluster.  Every
    series holds the points of its key, in the order of the data, and is not
    empty; no two series have the same key; every point is in the series of
    its cluster ([-1] for a point without one); and the series together are a
    permutation of the data. *)
Theorem dataByCluster_partition (data : list Point) :
  let entries := Object_entries (dataByCluster data) in
  Forall (fun e => snd e = group (fst e) data /\ snd e <> []) entries
  /\ (forall e1 e2, In e1 entries -> In e2 entries ->
        same_key (fst e1) (fst e2) = true -> e1 = e2)
  /\ (forall p, In p data ->
        exists e, In e entries /\ same_key (clusterId p) (fst e) = true
                  /\ In (augmentedPoint p) (snd e))
  /\ Permutation (List.concat (map snd entries)) (map augmentedPoint data).
Proof.
  cbv zeta. pose proof (Object_entries_perm (dataByCluster data)) as P.
  rewrite dataByCluster_spec in *. set (ks := first_keys data) in *.
  destruct (first_keys_spec data) as [D [C N]]. fold ks in D, C, N.
  set (o := map (fun k => (k, group k data)) ks) in *.
  assert (Ho : forall e, In e (Object_entries o) <-> exists k, In k ks /\ e = (k, group k data)).
  { intros e. split.
    - intros H. apply (Permutation_in _ P) in H. apply in_map_iff in H.
      destruct H as [k [<- Hk]]. exists k. split; [exact Hk | reflexivity].
    - intros [k [Hk ->]]. apply (Permutation_in _ (Permutation_sym P)).
      apply in_map_iff. exists k. split; [reflexivity | exact Hk]. }
  split; [|split; [|split]].
  - apply Forall_forall. intros e He. apply Ho in He. destruct He as [k [Hk ->]].
    cbn [fst snd]. split; [reflexivity|].
    destruct (N k Hk) as [p [Hp Ep]]. intros E.
    assert (Hin : In (augmentedPoint p) (group k data)).
    { unfold group. apply in_map. apply filter_In. split; [exact Hp|].
      rewrite Ep. apply same_key_refl. }
    rewrite E in Hin. exact Hin.
  - intros e1 e2 H1 H2 E. apply Ho in H1, H2.
    destruct H1 as [k1 [Hk1 ->]]. destruct H2 as [k2 [Hk2 ->]]. cbn [fst] in E.
    rewrite (distinct_same ks k1 k2 D Hk1 Hk2 E). reflexivity.
  - intros p Hp. pose proof (C p Hp) as Cp. apply existsb_exists in Cp.
    destruct Cp as [k [Hk Ek]]. exists (k, group k data).
    split; [apply Ho; exists k; split; [exact Hk | reflexivity]|].
    cbn [fst snd]. split; [exact Ek|].
    unfold group. apply in_map. apply filter_In. split; [exact Hp | exact Ek].
  - eapply Permutation_trans; [apply concat_perm, Permutation_map, P|].
    unfold o. rewrite map_map. cbn [snd]. apply groups_partition; [exact D | exact C].
Qed.

End ClusterPlotFacts.

(** *** The order and the colours of the series *)

Section ScatterOrder.
Context (Number_toString : number -> string).
Local Open Scope Q_scope.

(** A point as the algorithms label it: without a cluster, noise, or with a
    cluster number from 0 to [k - 1]. *)
Definition plotted (k : Z) (p : Point) : Prop :=
  p_cluster p = JUndefined \/ noise_or_cluster k p.

Definition int_key (k : Z) (c : number) : Prop :=
  exists q z, c = Fin q /\ q == inject_Z z /\ (0 <= z < k)%Z.

Definition key_lt (a b : number) : Prop :=
  exists u v, a = Fin u /\ b = Fin v /\ u < v.

Definition key_le (a b : number * list Augmented) : Prop :=
  exists u v, fst a = Fin u /\ fst b = Fin v /\ u <= v.

Lemma clusterId_plotted k p :
  plotted k p -> is_noise_id (clusterId p) = true \/ int_key k (clusterId p).
Proof.
  unfold clusterId. intros [H|[H|H]].
  - rewrite H. left. vm_compute. reflexivity.
  - rewrite H. left. vm_compute. reflexivity.
  - destruct H as [q [z [-> H]]]. right. exists q, z. split; [reflexivity | exact H].
Qed.

Lemma int_key_index k c :
  (k <= 2 ^ 32 - 1)%Z -> int_key k c -> index_key c = true /\ is_noise_id c = false.
Proof.
  intros Hk [q [z [-> [E Hz]]]]. unfold index_key, array_index, is_noise_id.
  rewrite (Qfloor_comp _ _ E), Qfloor_Z.
  assert (E1 : Qeq_bool q (inject_Z z) = true) by (apply Qeq_bool_iff; exact E).
  rewrite E1. destruct (Z.leb_spec 0 z) as [_|]; [|lia]. cbn [andb].
  rewrite Z2Nat.id by lia. split.
  - apply Z.ltb_lt. lia.
  - destruct (Qeq_bool q (-1)) eqn:E2; [|reflexivity]. apply Qeq_bool_iff in E2.
    assert (L : inject_Z 0 <= inject_Z z) by (rewrite <- Zle_Qle; lia).
    change (inject_Z 0) with 0 in L. lra.
Qed.

Lemma noise_id_index c : is_noise_id c = true -> index_key c = false.
Proof.
  destruct c as [| |q]; try discriminate. cbn [is_noise_id]. intros E.
  apply Qeq_bool_iff in E. unfold index_key, array_index.
  rewrite (Qfloor_comp _ _ E).
  replace (0 <=? Qfloor (-1))%Z with false by reflexivity.
  rewrite andb_false_r. reflexivity.
Qed.

Lemma noise_id_same a b : is_noise_id a = true -> is_noise_id b = true -> same_key a b = true.
Proof.
  destruct a as [| |u], b as [| |v]; try discriminate. cbn [is_noise_id same_key].
  intros Ha Hb. apply Qeq_bool_iff in Ha, Hb. apply Qeq_bool_iff. lra.
Qed.

Lemma sub_int_positive u v zu zv :
  u == inject_Z zu -> v == inject_Z zv -> (0 <= zv)%Z -> (zv < zu)%Z -> (zu < 2 ^ 53)%Z ->
  gt (sub (Fin u) (Fin v)) (lit 0) = true.
Proof.
  intros Eu Ev H0 H1 H2. cbn [sub].
  assert (E : u - v == inject_Z (zu - zv)).
  { unfold Z.sub. rewrite inject_Z_plus, inject_Z_opp, Eu, Ev. reflexivity. }
  assert (D : double (inject_Z (zu - zv))) by (apply double_pos_Z; lia).
  rewrite (rnd_comp _ _ E). unfold double in D. rewrite D.
  replace (lit 0) with (Fin 0) by reflexivity. unfold gt. apply lt_spec.
  rewrite Qred_correct. change 0 with (inject_Z 0). rewrite <- Zlt_Qlt. lia.
Qed.

Lemma sub_antisym (a b : number) :
  gt (sub a b) (lit 0) = true -> gt (sub b a) (lit 0) = false.
Proof.
  unfold gt. replace (lit 0) with (Fin 0) by reflexivity.
  destruct a as [|[|]|u], b as [|[|]|v];
    cbn [sub lt Bool.eqb negb andb]; try discriminate; try reflexivity.
  intros H.
  pose proof (rnd_not_NaN (u - v)) as N1. pose proof (rnd_not_NaN (v - u)) as N2.
  assert (L : 0 < u - v).
  { apply Qnot_le_lt. intros C. pose proof (rnd_le _ _ C) as R.
    change (rnd 0) with (Fin 0) in R.
    destruct (rnd (u - v)) as [|[|]|w]; cbn [num_le lt negb] in *; try congruence; try tauto.
    apply lt_spec in H. lra. }
  assert (L' : v - u <= 0) by lra.
  pose proof (rnd_le _ _ L') as R. change (rnd 0) with (Fin 0) in R.
  destruct (rnd (v - u)) as [|[|]|w']; cbn [num_le lt negb] in *; try tauto.
  apply lt_false. exact R.
Qed.

Definition by_key (a b : number * list Augmented) : number := sub (fst a) (fst b).

Lemma in_order_key_le k a b :
  (k <= 2 ^ 32 - 1)%Z -> int_key k (fst a) -> int_key k (fst b) ->
  in_order by_key a b -> key_le a b.
Proof.
  intros Hk [u [zu [Eu [Qu Hu]]]] [v [zv [Ev [Qv Hv]]]] H. exists u, v.
  split; [exact Eu|]. split; [exact Ev|].
  apply Qnot_lt_le. intros L. unfold in_order, by_key in H. rewrite Eu, Ev in H.
  rewrite (sub_int_positive u v zu zv Qu Qv) in H; [discriminate H | lia | | lia].
  rewrite Zlt_Qlt. lra.
Qed.

Lemma key_le_trans a b c : key_le a b -> key_le b c -> key_le a c.
Proof.
  intros [u [v [Eu [Ev L]]]] [v' [w [Ev' [Ew L']]]]. exists u, w.
  split; [exact Eu|]. split; [exact Ew|].
  rewrite Ev in Ev'. injection Ev' as <-. lra.
Qed.

Lemma sorted_key_le k l :
  (k <= 2 ^ 32 - 1)%Z ->
  Sorted (in_order by_key) l -> Forall (fun e => int_key k (fst e)) l -> StronglySorted key_le l.
Proof.
  intros Hk S. induction S as [|a l S IH H]; intros F; [constructor|].
  inversion F as [|? ? Da Fl]; subst. specialize (IH Fl). constructor; [exact IH|].
  destruct H as [|b l H]; [constructor|].
  inversion Fl as [|? ? Db Fl']; subst.
  pose proof (in_order_key_le k a b Hk Da Db H) as Hab.
  constructor; [exact Hab|].
  inversion IH as [|? ? _ Fb]; subst.
  eapply Forall_impl; [|exact Fb]. intros c Hc. eapply key_le_trans; eassumption.
Qed.

Lemma distinct_NoDup ks : distinct ks -> NoDup ks.
Proof.
  intros D. induction D as [|k ks H D IH]; constructor; [|exact IH].
  intros Hin. pose proof (proj1 (Forall_forall _ _) H k Hin) as E. cbv beta in E.
  rewrite same_key_refl in E. discriminate E.
Qed.

(** The object of the groups: its entries are distinct, no two of them have
    the same key, and every key is the cluster of a point. *)
Lemma dataByCluster_keys (data : list Point) :
  NoDup (dataByCluster data)
  /\ (forall e1 e2, In e1 (dataByCluster data) -> In e2 (dataByCluster data) ->
        same_key (fst e1) (fst e2) = true -> e1 = e2)
  /\ (forall e, In e (dataByCluster data) -> exists p, In p data /\ clusterId p = fst e).
Proof.
  rewrite dataByCluster_spec. destruct (first_keys_spec data) as [D [_ N]].
  split; [|split].
  - apply (NoDup_map_inv fst). rewrite map_map. cbn [fst]. rewrite map_id.
    apply distinct_NoDup. exact D.
  - intros e1 e2 H1 H2 E. apply in_map_iff in H1, H2.
    destruct H1 as [k1 [<- Hk1]]. destruct H2 as [k2 [<- Hk2]]. cbn [fst] in E.
    rewrite (distinct_same _ k1 k2 D Hk1 Hk2 E). reflexivity.
  - intros e H. apply in_map_iff in H. destruct H as [k [<- Hk]]. cbn [fst]. apply N. exact Hk.
Qed.

Lemma color_at_int k c : int_key k c -> color_at c <> None.
Proof.
  intros [q [z [-> [E Hz]]]]. unfold color_at.
  rewrite (Qfloor_comp _ _ E), Qfloor_Z.
  assert (E1 : Qeq_bool q (inject_Z z) = true) by (apply Qeq_bool_iff; exact E).
  rewrite E1. cbv zeta.
  pose proof (Z.rem_bound_pos z 8 ltac:(lia) ltac:(lia)) as R.
  destruct (Z.leb_spec 0 (Z.rem z 8)) as [_|]; [|lia].
  apply nth_error_Some. change (List.length COLORS) with 8%nat. lia.
Qed.

(** X24: the series of a labelled result.  For points that are without a
    cluster, noise, or in a cluster from 0 to [k - 1] (at most 2^32 - 1
    clusters): every series has a colour; the series of the clusters come in
    ascending order of the cluster number; and the series of the noise, which
    holds the points without a cluster too, comes last. *)
Theorem scatters_order (data : list Point) (k : Z) :
  Forall (plotted k) data -> (k <= 2 ^ 32 - 1)%Z ->
  let s := scatters Number_toString data in
  Forall (fun sc => fill sc <> None) s
  /\ (forall i j a b, (i < j)%nat -> nth_error s i = Some a -> nth_error s j = Some b ->
        is_noise_id (key a) = false
        /\ (is_noise_id (key b) = true \/ key_lt (key a) (key b))).
Proof.
  intros F Hk. cbv zeta. unfold scatters.
  destruct (dataByCluster_keys data) as [ND [U N]].
  pose proof (Object_entries_perm (dataByCluster data)) as P.
  set (o := dataByCluster data) in *.
  assert (K : forall e, In e o -> is_noise_id (fst e) = true \/ int_key k (fst e)).
  { intros e He. destruct (N e He) as [p [Hp <-]]. apply clusterId_plotted.
    apply (proj1 (Forall_forall _ _) F p Hp). }
  split.
  - apply Forall_map. apply Forall_forall. intros e He. cbn [fill].
    apply (Permutation_in _ P) in He. destruct (K e He) as [Hn|Hi].
    + rewrite Hn. discriminate.
    + destruct (int_key_index k _ Hk Hi) as [_ Hn]. rewrite Hn. eapply color_at_int. exact Hi.
  - assert (ND' : NoDup (Object_entries o))
      by (apply (Permutation_NoDup (Permutation_sym P)); exact ND).
    unfold Object_entries in *. fold by_key in *.
    set (L1 := sort by_key (filter (fun e => index_key (fst e)) o)) in *.
    set (L2 := filter (fun e => negb (index_key (fst e))) o) in *.
    assert (H1 : forall e, In e L1 -> In e o /\ int_key k (fst e)).
    { intros e He. apply (Permutation_in _ (sort_perm _ _)) in He.
      apply filter_In in He. destruct He as [He Ie]. split; [exact He|].
      destruct (K e He) as [Hn|Hi]; [|exact Hi].
      rewrite (noise_id_index _ Hn) in Ie. discriminate Ie. }
    assert (H2 : forall e, In e L2 -> In e o /\ is_noise_id (fst e) = true).
    { intros e He. apply filter_In in He. destruct He as [He Ie]. split; [exact He|].
      destruct (K e He) as [Hn|Hi]; [exact Hn|].
      destruct (int_key_index k _ Hk Hi) as [Hx _]. rewrite Hx in Ie. discriminate Ie. }
    assert (Len : (List.length L2 <= 1)%nat).
    { destruct L2 as [|e1 [|e2 L2']] eqn:EL; cbn [List.length]; try lia. exfalso.
      destruct (H2 e1 (or_introl eq_refl)) as [I1 N1].
      destruct (H2 e2 (or_intror (or_introl eq_refl))) as [I2 N2].
      pose proof (U e1 e2 I1 I2 (noise_id_same _ _ N1 N2)) as Eq.
      apply NoDup_app_remove_l in ND'. inversion ND' as [|? ? Hnot _]; subst.
      apply Hnot. left. reflexivity. }
    assert (SS : StronglySorted key_le L1).
    { apply (sorted_key_le k _ Hk).
      - apply sort_sorted. intros x y. unfold in_order, by_key. apply sub_antisym.
      - apply Forall_forall. intros e He. apply H1. exact He. }
    intros i j a b Hij Hi Hj. rewrite nth_error_map in Hi, Hj.
    destruct (nth_error (L1 ++ L2) i) as [ea|] eqn:Ei; [|discriminate Hi].
    destruct (nth_error (L1 ++ L2) j) as [eb|] eqn:Ej; [|discriminate Hj].
    cbn [option_map] in Hi, Hj. injection Hi as <-. injection Hj as <-. cbn [key].
    assert (Lj : (j < List.length (L1 ++ L2))%nat) by (apply nth_error_Some; congruence).
    rewrite length_app in Lj.
    assert (Li : (i < List.length L1)%nat) by lia.
    pose proof Ei as Ei'. rewrite nth_error_app1 in Ei' by exact Li.
    destruct (H1 ea (nth_error_In _ _ Ei')) as [Ia Ka].
    destruct (int_key_index k _ Hk Ka) as [_ Na]. split; [exact Na|].
    destruct (Nat.lt_ge_cases j (List.length L1)) as [Lj1|Lj1].
    + right. pose proof Ej as Ej'. rewrite nth_error_app1 in Ej' by exact Lj1.
      destruct (strongly_sorted_nth key_le L1 SS i j ea eb Hij Ei' Ej')
        as [u [v [Eu [Ev Luv]]]].
      exists u, v. split; [exact Eu|]. split; [exact Ev|].
      destruct (Qlt_le_dec u v) as [Lt|Ge]; [exact Lt|]. exfalso.
      destruct (H1 eb (nth_error_In _ _ Ej')) as [Ib _].
      assert (Sk : same_key (fst ea) (fst eb) = true).
      { rewrite Eu, Ev. cbn [same_key]. apply Qeq_bool_iff. lra. }
      pose proof (U ea eb Ia Ib Sk) as Eq. subst eb.
      assert (i = j); [|lia].
      apply (proj1 (NoDup_nth_error _) ND'); [rewrite length_app; lia | congruence].
    + left. rewrite nth_error_app2 in Ej by exact Lj1.
      apply (H2 eb (nth_error_In _ _ Ej)).
Qed.

End ScatterOrder.

Definition labelled_points : list Point :=
  [mkPoint (JNum (lit 1)) (JNum (lit 2)) (JNum (of_nat 1));
   mkPoint (JNum (lit 3)) (JNum (lit 4)) JUndefined;
   mkPoint (JNum (lit 5)) (JNum (lit 6)) (JNum (of_nat 0));
   mkPoint (JNum (lit 7)) (JNum (lit 8)) (JNum (lit (-1)));
   mkPoint (JNum (lit 9)) (JNum (lit 0)) (JNum (of_nat 1))].

Example scatters_example :
  map (fun sc => (key sc, List.length (series sc), fill sc))
      (scatters (fun _ => "n"%string) labelled_points)
  = [(Fin 0, 1%nat, Some "#8884d8"%string); (Fin 1, 2%nat, Some "#82ca9d"%string);
     (Fin (-1), 2%nat, Some "#6b7280"%string)].
Proof. vm_compute. reflexivity. Qed.

Lemma scatters_order_witness :
  Forall (plotted 2) labelled_points /\ (2 <= 2 ^ 32 - 1)%Z
  /\ Forall (fun sc => fill sc <> None) (scatters (fun _ => "n"%string) labelled_points)
  /\ (forall i j a b, (i < j)%nat ->
        nth_error (scatters (fun _ => "n"%string) labelled_points) i = Some a ->
        nth_error (scatters (fun _ => "n"%string) labelled_points) j = Some b ->
        is_noise_id (key a) = false
        /\ (is_noise_id (key b) = true \/ key_lt (key a) (key b))).
Proof.
  assert (F : Forall (plotted 2) labelled_points).
  { unfold labelled_points.
    apply Forall_cons; [right; right; apply int_label_of_nat; lia|].
    apply Forall_cons; [left; reflexivity|].
    apply Forall_cons; [right; right; apply int_label_of_nat; lia|].
    apply Forall_cons; [right; left; reflexivity|].
    apply Forall_cons; [right; right; apply int_label_of_nat; lia|].
    apply Forall_nil. }
  assert (K : (2 <= 2 ^ 32 - 1)%Z) by lia.
  split; [exact F|]. split; [exact K|].
  exact (scatters_order (fun _ => "n"%string) labelled_points 2 F K).
Defined.
